(** * Pluto's parser (src/src/lparser.cpp): a shallow embedding

    The parser is a single-pass recursive-descent compiler: it reads tokens
    from the scanner and drives the code generator.  This development embeds
    the parser's own state (the active-variable array, the block chain, the
    label and goto lists, the function states) and the parser functions that
    manage scopes, jumps, assignments and operator precedence, and proves
    properties of them.

    Conventions.
    - The build modelled is the default one: none of the PLUTO_COMPATIBLE_*
      macros, PLUTO_NO_PARSER_WARNINGS, PLUTO_SHORT_ERRORS is defined.
    - A C [int] used as an array index or as a count is a [nat]; registers,
      program counters and jump-list heads are [Z] ([NO_JUMP] is [-1]).
    - A linked chain (BlockCnt.previous, FuncState.prev, LHS_assign.prev) is a
      list whose head is the innermost node; a null pointer is [[]].
    - The label and goto arrays of Dyndata are lists: the element count [n]
      is the length of the list.  Storage management (luaM_growvector and its
      size limits, the collector's barriers) is not modelled.
    - Reading an array past its end has no defined result in C; the model
      reads the zero value of the element type there.
    - An error raised through luaD_throw ends the parse: a parser function
      returns [Ok] with its result and the new state, or [Throw] with the
      error and the state at the raise.  [Fuel] is the model's own outcome for
      a recursion that was cut short; it is not a behaviour of the program.
    - The scanner (llex.cpp) and the code generator (lcode.cpp) are not part of
      the parser.  The token stream is a list; the raw instruction encoders
      append to the function's code and record the patches asked for; the
      expression functions of the code generator are an interface
      ([CodeGen]). *)

From Stdlib Require Import ZArith Lia String Ascii List Bool Floats.
From stdpp Require Import base option list strings.

Local Open Scope Z_scope.
Local Open Scope string_scope.
Local Open Scope list_scope.

(** ** Tokens *)

(** The token kinds the parser looks at.  A single-character token is its
    character, as in the scanner. *)
Inductive Tok : Type :=
| Tchar (c : ascii)
| TK_AND | TK_BREAK | TK_CASE | TK_CONTINUE | TK_DEFAULT | TK_DO | TK_ELSE
| TK_ELSEIF | TK_END | TK_FALSE | TK_FOR | TK_FUNCTION | TK_GOTO | TK_IF
| TK_IN | TK_LOCAL | TK_NIL | TK_NOT | TK_OR | TK_PCASE | TK_PCONTINUE
| TK_PDEFAULT | TK_PSWITCH | TK_PWHEN | TK_REPEAT | TK_RETURN | TK_SWITCH
| TK_THEN | TK_TRUE | TK_UNTIL | TK_WHEN | TK_WHILE
| TK_IDIV | TK_CONCAT | TK_DOTS | TK_EQ | TK_GE | TK_LE | TK_NE | TK_SHL
| TK_SHR | TK_DBCOLON | TK_COAL | TK_POW
| TK_CCAT | TK_CADD | TK_CSUB | TK_CMUL | TK_CMOD | TK_CDIV | TK_CPOW
| TK_CIDIV | TK_CBOR | TK_CBAND | TK_CBXOR | TK_CSHL | TK_CSHR
| TK_EOS | TK_FLT | TK_INT | TK_NAME | TK_STRING.

(** An injective numbering of the token kinds, used to compare them. *)
Definition tok_code (k : Tok) : N :=
  match k with
  | Tchar c => N_of_ascii c
  | TK_AND => 257 | TK_BREAK => 258 | TK_CASE => 259 | TK_CONTINUE => 260
  | TK_DEFAULT => 261 | TK_DO => 262 | TK_ELSE => 263 | TK_ELSEIF => 264
  | TK_END => 265 | TK_FALSE => 266 | TK_FOR => 267 | TK_FUNCTION => 268
  | TK_GOTO => 269 | TK_IF => 270 | TK_IN => 271 | TK_LOCAL => 272
  | TK_NIL => 273 | TK_NOT => 274 | TK_OR => 275 | TK_PCASE => 276
  | TK_PCONTINUE => 277 | TK_PDEFAULT => 278 | TK_PSWITCH => 279
  | TK_PWHEN => 280 | TK_REPEAT => 281 | TK_RETURN => 282 | TK_SWITCH => 283
  | TK_THEN => 284 | TK_TRUE => 285 | TK_UNTIL => 286 | TK_WHEN => 287
  | TK_WHILE => 288 | TK_IDIV => 289 | TK_CONCAT => 290 | TK_DOTS => 291
  | TK_EQ => 292 | TK_GE => 293 | TK_LE => 294 | TK_NE => 295 | TK_SHL => 296
  | TK_SHR => 297 | TK_DBCOLON => 298 | TK_COAL => 299 | TK_POW => 300
  | TK_CCAT => 301 | TK_CADD => 302 | TK_CSUB => 303 | TK_CMUL => 304
  | TK_CMOD => 305 | TK_CDIV => 306 | TK_CPOW => 307 | TK_CIDIV => 308
  | TK_CBOR => 309 | TK_CBAND => 310 | TK_CBXOR => 311 | TK_CSHL => 312
  | TK_CSHR => 313 | TK_EOS => 314 | TK_FLT => 315 | TK_INT => 316
  | TK_NAME => 317 | TK_STRING => 318
  end%N.

(** [a == b] on token kinds. *)
Definition tok_eqb (a b : Tok) : bool := N.eqb (tok_code a) (tok_code b).

(** Interned strings: the scanner unifies strings, so pointer equality
    (eqstr) is string equality. *)
Definition TString : Type := string.

Definition eqstr (a b : TString) : bool := String.eqb a b.

Definition lua_Integer : Type := Z.
Definition lua_Number : Type := float.

(** A token with its semantic information and the line it ends on. *)
Record Token : Type := mkToken {
  token : Tok;
  seminfo_i : lua_Integer;
  seminfo_r : lua_Number;
  seminfo_ts : TString;
  tk_line : Z
}.

(** ** Expression descriptors *)

Inductive expkind : Type :=
| VVOID | VNIL | VTRUE | VFALSE | VK | VKFLT | VKINT | VKSTR | VNONRELOC
| VLOCAL | VUPVAL | VCONST | VINDEXED | VINDEXUP | VINDEXI | VINDEXSTR
| VJMP | VRELOC | VCALL | VVARARG.

Definition expkind_eqb (a b : expkind) : bool :=
  match a, b with
  | VVOID, VVOID | VNIL, VNIL | VTRUE, VTRUE | VFALSE, VFALSE | VK, VK
  | VKFLT, VKFLT | VKINT, VKINT | VKSTR, VKSTR | VNONRELOC, VNONRELOC
  | VLOCAL, VLOCAL | VUPVAL, VUPVAL | VCONST, VCONST | VINDEXED, VINDEXED
  | VINDEXUP, VINDEXUP | VINDEXI, VINDEXI | VINDEXSTR, VINDEXSTR
  | VJMP, VJMP | VRELOC, VRELOC | VCALL, VCALL | VVARARG, VVARARG => true
  | _, _ => false
  end.

Definition NO_JUMP : Z := -1.

(** The members of the union [u] are separate fields; [e_t] and [e_f] (the
    fields t and f) are the heads of the patch lists "exit when true" and "exit when false". *)
Record expdesc : Type := mkexpdesc {
  k : expkind;
  u_ival : lua_Integer;
  u_nval : lua_Number;
  u_strval : TString;
  u_info : Z;
  u_ind_idx : Z;
  u_ind_t : Z;
  u_var_ridx : Z;
  u_var_vidx : nat;
  e_t : Z;
  e_f : Z
}.

(** Kinds of variables. *)
Inductive varkind : Type := VDKREG | RDKCONST | RDKTOCLOSE | RDKCTC.

Definition varkind_eqb (a b : varkind) : bool :=
  match a, b with
  | VDKREG, VDKREG | RDKCONST, RDKCONST | RDKTOCLOSE, RDKTOCLOSE
  | RDKCTC, RDKCTC => true
  | _, _ => false
  end.

(** A type hint or a propagated type: an expression kind stored in a
    lu_byte, or one of the two markers 0xFE and 0xFF. *)
Inductive lu_hint : Type := HK (kd : expkind) | H_FE | H_FF.

Definition lu_hint_eqb (a b : lu_hint) : bool :=
  match a, b with
  | HK x, HK y => expkind_eqb x y
  | H_FE, H_FE | H_FF, H_FF => true
  | _, _ => false
  end.

(** The value of a compile-time constant. *)
Inductive TValue : Type :=
| TNil | TBool (b : bool) | TInt (i : lua_Integer) | TFlt (r : lua_Number)
| TStr (s : TString).

(** ** The parser's dynamic data *)

(** Description of an active local variable. *)
Record Vardesc : Type := mkVardesc {
  vd_value : option TValue;   (* k: constant value, if it is a compile-time constant *)
  vd_kind : varkind;
  vd_typehint : lu_hint;
  vd_typeprop : lu_hint;
  vd_ridx : Z;                (* register holding the variable *)
  vd_pidx : nat;              (* index of the variable in the Proto's locvars *)
  vd_name : TString;
  vd_linenumber : Z
}.

(** Description of a pending goto or of a label. *)
Record Labeldesc : Type := mkLabeldesc {
  lb_name : TString;
  lb_pc : Z;                  (* position in code (label) or jump list (goto) *)
  lb_line : Z;
  lb_nactvar : nat;           (* number of active variables at that position *)
  lb_close : bool             (* goto that escapes upvalues *)
}.

(** Dynamic structures used by the parser.  [actvar_arr] with [actvar_n] is
    the array actvar: the entries from [actvar_n] on are no longer in use, but
    they keep their content and the parser still reads them when it leaves a
    block (movegotosout). *)
Record Dyndata : Type := mkDyndata {
  actvar_arr : list Vardesc;  (* list of all active local variables *)
  actvar_n : nat;
  gt : list Labeldesc;        (* list of pending gotos *)
  label : list Labeldesc      (* list of active labels *)
}.

(** Nodes of the list of active blocks; [previous] is the tail of the list. *)
Record BlockCnt : Type := mkBlockCnt {
  scopeend : Z;
  firstlabel : nat;
  firstgoto : nat;
  bl_nactvar : nat;
  upval : bool;
  isloop : bool;
  insidetbc : bool
}.

Record Upvaldesc : Type := mkUpvaldesc {
  up_name : TString;
  up_instack : bool;
  up_idx : Z;
  up_kind : varkind
}.

Record LocVar : Type := mkLocVar {
  varname : TString;
  startpc : Z;
  endpc : Z
}.

(** ** Emitted code *)

Inductive OpCode : Type :=
| OP_MOVE | OP_GETUPVAL | OP_NEWTABLE | OP_SETLIST | OP_CLOSE | OP_TBC
| OP_JMP | OP_TEST | OP_IN | OP_CALL | OP_TAILCALL | OP_RETURN
| OP_FORLOOP | OP_FORPREP | OP_TFORPREP | OP_TFORCALL | OP_TFORLOOP
| OP_CLOSURE | OP_VARARG | OP_VARARGPREP.

(** One instruction as the parser asks for it.  [iOther] stands for the
    instructions the code generator emits on its own. *)
Inductive Instruction : Type :=
| iABC (o : OpCode) (a b c : Z)
| iABx (o : OpCode) (a bx : Z)
| iAsBx (o : OpCode) (a sbx : Z)
| isJ (o : OpCode) (sj : Z)
| iRaw (w : Z)
| iOther (what : string) (args : list Z).

(** A change the parser asks of instructions already emitted. *)
Inductive Fixup : Type :=
| FixPatchList (list target : Z)      (* luaK_patchlist *)
| FixConcat (l1 l2 : Z)               (* luaK_concat of two non-empty lists *)
| FixForJump (at_pc dest : Z) (back : bool)
| FixLine (line : Z)
| FixSetArg (at_pc : Z) (what : string) (v : Z).

(** ** Function prototypes and function states *)

(** The part of a Proto the parser fills in.  [p_code] with [p_fixups] is the
    instruction vector: the instructions in emission order and the patches
    applied to them. *)
#[warnings="-register-all"]
Inductive Proto : Type := mkProto {
  p_code : list Instruction;
  p_fixups : list Fixup;
  p_locvars : list LocVar;
  p_upvalues : list Upvaldesc;
  p_p : list Proto;
  p_numparams : nat;
  p_is_vararg : bool;
  p_maxstacksize : Z;
  p_linedefined : Z;
  p_lastlinedefined : Z;
  p_source : TString
}.

(** State needed to generate code for a given function.  The counters
    ndebugvars, nups and np are the lengths of the Proto's lists. *)
Record FuncState : Type := mkFuncState {
  fs_f : Proto;
  bl : list BlockCnt;         (* chain of current blocks *)
  pc : Z;                     (* next position to code *)
  firstlocal : nat;           (* index of first local var (in Dyndata array) *)
  fs_firstlabel : nat;        (* index of first label (in 'dyd->label') *)
  nactvar : nat;              (* number of active local variables *)
  freereg : Z;                (* first free register *)
  needclose : bool            (* function needs to close upvalues when returning *)
}.

(** A warning sent to the host (throw_warn). *)
Inductive Warning : Type :=
| Warn (err here : string) (arg : Z)
| WarnAt (err : string) (line : Z).

(** State of the scanner plus state of the parser.  [ls_fs] is the chain
    ls->fs, fs->prev, ...; [input] holds the tokens not read yet. *)
Record LexState : Type := mkLexState {
  ls_t : Token;               (* current token *)
  input : list Token;
  linenumber : Z;
  lasttoken : option Tok;     (* saved compound operator, None is 0 *)
  ls_fs : list FuncState;
  dyd : Dyndata;
  envn : TString;
  source : TString;
  nCcalls : nat;
  warnings : list Warning
}.

(** ** Errors and the parser monad *)

Inductive error : Type :=
| E_throw (err here : string)                   (* throwerr *)
| E_expected (what got : Tok)                   (* error_expected, default case *)
| E_limit (limit : Z) (what : string)           (* errorlimit *)
| E_unexpected (got : Tok)                      (* primaryexp: unexpected symbol *)
| E_syntax (msg : string)                       (* luaX_syntaxerror *)
| E_semantic (msg : string)                     (* luaK_semerror *)
| E_match (what who : Tok) (where_ : Z)         (* check_match *)
| E_readonly (name : TString)                   (* check_readonly *)
| E_jumpscope (gotoname : TString) (line : Z) (varname : TString)
| E_undefgoto (name : TString) (line : Z)
| E_break_outside (line : Z)
| E_repeated (name : TString) (line : Z)        (* checkrepeated *)
| E_typehint (tname : TString)
| E_attribute (attr : TString)
| E_cstack.                                     (* luaE_incCstack *)

Inductive result (A : Type) : Type :=
| Ok (a : A) (ls : LexState)
| Throw (e : error) (ls : LexState)
| Fuel.

Arguments Ok {A} a ls.
Arguments Throw {A} e ls.
Arguments Fuel {A}.

(** A parser action: every parser function takes the LexState. *)
Definition P (A : Type) : Type := LexState -> result A.

Definition ret {A : Type} (a : A) : P A := fun ls => Ok a ls.

Definition bind {A B : Type} (m : P A) (g : A -> P B) : P B :=
  fun ls => match m ls with
            | Ok a ls' => g a ls'
            | Throw e ls' => Throw e ls'
            | Fuel => Fuel
            end.

Notation "'let*' x ':=' c1 'in' c2" := (bind c1 (fun x => c2))
  (at level 10, x pattern, c1 at level 100, c2 at level 200).
Notation "c1 >>> c2" := (bind c1 (fun _ => c2))
  (at level 100, c2 at level 200, right associativity).

Definition throw {A : Type} (e : error) : P A := fun ls => Throw e ls.
Definition get : P LexState := fun ls => Ok ls ls.
Definition gets {A : Type} (g : LexState -> A) : P A := fun ls => Ok (g ls) ls.
Definition modify (g : LexState -> LexState) : P unit := fun ls => Ok tt (g ls).
Definition out_of_fuel {A : Type} : P A := fun _ => Fuel.

(** ** Field updates *)

Definition Proto0 : Proto := mkProto [] [] [] [] [] 0 false 0 0 0 "".
Definition FuncState0 : FuncState := mkFuncState Proto0 [] 0 0 0 0 0 false.
Definition BlockCnt0 : BlockCnt := mkBlockCnt NO_JUMP 0 0 0 false false false.
Definition Vardesc0 : Vardesc := mkVardesc None VDKREG H_FF H_FF 0 0 "" 0.
Definition Labeldesc0 : Labeldesc := mkLabeldesc "" 0 0 0 false.
Definition Upvaldesc0 : Upvaldesc := mkUpvaldesc "" false 0 VDKREG.
Definition LocVar0 : LocVar := mkLocVar "" 0 0.

Definition set_p_code (v : list Instruction) (p : Proto) : Proto :=
  mkProto v (p_fixups p) (p_locvars p) (p_upvalues p) (p_p p) (p_numparams p)
    (p_is_vararg p) (p_maxstacksize p) (p_linedefined p) (p_lastlinedefined p)
    (p_source p).
Definition set_p_fixups (v : list Fixup) (p : Proto) : Proto :=
  mkProto (p_code p) v (p_locvars p) (p_upvalues p) (p_p p) (p_numparams p)
    (p_is_vararg p) (p_maxstacksize p) (p_linedefined p) (p_lastlinedefined p)
    (p_source p).
Definition set_p_locvars (v : list LocVar) (p : Proto) : Proto :=
  mkProto (p_code p) (p_fixups p) v (p_upvalues p) (p_p p) (p_numparams p)
    (p_is_vararg p) (p_maxstacksize p) (p_linedefined p) (p_lastlinedefined p)
    (p_source p).
Definition set_p_upvalues (v : list Upvaldesc) (p : Proto) : Proto :=
  mkProto (p_code p) (p_fixups p) (p_locvars p) v (p_p p) (p_numparams p)
    (p_is_vararg p) (p_maxstacksize p) (p_linedefined p) (p_lastlinedefined p)
    (p_source p).
Definition set_p_p (v : list Proto) (p : Proto) : Proto :=
  mkProto (p_code p) (p_fixups p) (p_locvars p) (p_upvalues p) v (p_numparams p)
    (p_is_vararg p) (p_maxstacksize p) (p_linedefined p) (p_lastlinedefined p)
    (p_source p).
Definition set_p_numparams (v : nat) (p : Proto) : Proto :=
  mkProto (p_code p) (p_fixups p) (p_locvars p) (p_upvalues p) (p_p p) v
    (p_is_vararg p) (p_maxstacksize p) (p_linedefined p) (p_lastlinedefined p)
    (p_source p).
Definition set_p_is_vararg (v : bool) (p : Proto) : Proto :=
  mkProto (p_code p) (p_fixups p) (p_locvars p) (p_upvalues p) (p_p p)
    (p_numparams p) v (p_maxstacksize p) (p_linedefined p) (p_lastlinedefined p)
    (p_source p).
Definition set_p_maxstacksize (v : Z) (p : Proto) : Proto :=
  mkProto (p_code p) (p_fixups p) (p_locvars p) (p_upvalues p) (p_p p)
    (p_numparams p) (p_is_vararg p) v (p_linedefined p) (p_lastlinedefined p)
    (p_source p).
Definition set_p_linedefined (v : Z) (p : Proto) : Proto :=
  mkProto (p_code p) (p_fixups p) (p_locvars p) (p_upvalues p) (p_p p)
    (p_numparams p) (p_is_vararg p) (p_maxstacksize p) v (p_lastlinedefined p)
    (p_source p).
Definition set_p_lastlinedefined (v : Z) (p : Proto) : Proto :=
  mkProto (p_code p) (p_fixups p) (p_locvars p) (p_upvalues p) (p_p p)
    (p_numparams p) (p_is_vararg p) (p_maxstacksize p) (p_linedefined p) v
    (p_source p).
Definition set_p_source (v : TString) (p : Proto) : Proto :=
  mkProto (p_code p) (p_fixups p) (p_locvars p) (p_upvalues p) (p_p p)
    (p_numparams p) (p_is_vararg p) (p_maxstacksize p) (p_linedefined p)
    (p_lastlinedefined p) v.

Definition set_fs_f (v : Proto) (s : FuncState) : FuncState :=
  mkFuncState v (bl s) (pc s) (firstlocal s) (fs_firstlabel s) (nactvar s)
    (freereg s) (needclose s).
Definition set_bl (v : list BlockCnt) (s : FuncState) : FuncState :=
  mkFuncState (fs_f s) v (pc s) (firstlocal s) (fs_firstlabel s) (nactvar s)
    (freereg s) (needclose s).
Definition set_pc (v : Z) (s : FuncState) : FuncState :=
  mkFuncState (fs_f s) (bl s) v (firstlocal s) (fs_firstlabel s) (nactvar s)
    (freereg s) (needclose s).
Definition set_nactvar (v : nat) (s : FuncState) : FuncState :=
  mkFuncState (fs_f s) (bl s) (pc s) (firstlocal s) (fs_firstlabel s) v
    (freereg s) (needclose s).
Definition set_freereg (v : Z) (s : FuncState) : FuncState :=
  mkFuncState (fs_f s) (bl s) (pc s) (firstlocal s) (fs_firstlabel s)
    (nactvar s) v (needclose s).
Definition set_needclose (v : bool) (s : FuncState) : FuncState :=
  mkFuncState (fs_f s) (bl s) (pc s) (firstlocal s) (fs_firstlabel s)
    (nactvar s) (freereg s) v.

Definition set_actvar_arr (v : list Vardesc) (d : Dyndata) : Dyndata :=
  mkDyndata v (actvar_n d) (gt d) (label d).
Definition set_actvar_n (v : nat) (d : Dyndata) : Dyndata :=
  mkDyndata (actvar_arr d) v (gt d) (label d).
Definition set_gt (v : list Labeldesc) (d : Dyndata) : Dyndata :=
  mkDyndata (actvar_arr d) (actvar_n d) v (label d).
Definition set_label (v : list Labeldesc) (d : Dyndata) : Dyndata :=
  mkDyndata (actvar_arr d) (actvar_n d) (gt d) v.

Definition set_ls_t (v : Token) (ls : LexState) : LexState :=
  mkLexState v (input ls) (linenumber ls) (lasttoken ls)
    (ls_fs ls) (dyd ls) (envn ls) (source ls) (nCcalls ls) (warnings ls).
Definition set_input (v : list Token) (ls : LexState) : LexState :=
  mkLexState (ls_t ls) v (linenumber ls) (lasttoken ls)
    (ls_fs ls) (dyd ls) (envn ls) (source ls) (nCcalls ls) (warnings ls).
Definition set_linenumber (v : Z) (ls : LexState) : LexState :=
  mkLexState (ls_t ls) (input ls) v (lasttoken ls)
    (ls_fs ls) (dyd ls) (envn ls) (source ls) (nCcalls ls) (warnings ls).
Definition set_lasttoken (v : option Tok) (ls : LexState) : LexState :=
  mkLexState (ls_t ls) (input ls) (linenumber ls) v
    (ls_fs ls) (dyd ls) (envn ls) (source ls) (nCcalls ls) (warnings ls).
Definition set_ls_fs (v : list FuncState) (ls : LexState) : LexState :=
  mkLexState (ls_t ls) (input ls) (linenumber ls) (lasttoken ls)
    v (dyd ls) (envn ls) (source ls) (nCcalls ls) (warnings ls).
Definition set_dyd (v : Dyndata) (ls : LexState) : LexState :=
  mkLexState (ls_t ls) (input ls) (linenumber ls) (lasttoken ls)
    (ls_fs ls) v (envn ls) (source ls) (nCcalls ls) (warnings ls).
Definition set_nCcalls (v : nat) (ls : LexState) : LexState :=
  mkLexState (ls_t ls) (input ls) (linenumber ls) (lasttoken ls)
    (ls_fs ls) (dyd ls) (envn ls) (source ls) v (warnings ls).
Definition set_warnings (v : list Warning) (ls : LexState) : LexState :=
  mkLexState (ls_t ls) (input ls) (linenumber ls) (lasttoken ls)
    (ls_fs ls) (dyd ls) (envn ls) (source ls) (nCcalls ls) v.

Definition set_scopeend (v : Z) (b : BlockCnt) : BlockCnt :=
  mkBlockCnt v (firstlabel b) (firstgoto b) (bl_nactvar b) (upval b) (isloop b)
    (insidetbc b).
Definition set_upval (v : bool) (b : BlockCnt) : BlockCnt :=
  mkBlockCnt (scopeend b) (firstlabel b) (firstgoto b) (bl_nactvar b) v (isloop b)
    (insidetbc b).
Definition set_insidetbc (v : bool) (b : BlockCnt) : BlockCnt :=
  mkBlockCnt (scopeend b) (firstlabel b) (firstgoto b) (bl_nactvar b) (upval b)
    (isloop b) v.

(** [ls->fs]: the function being compiled. *)
Definition cur_fs (ls : LexState) : FuncState := default FuncState0 (head (ls_fs ls)).

(** Update in place of the function being compiled. *)
Definition upd_fs (g : FuncState -> FuncState) (ls : LexState) : LexState :=
  match ls_fs ls with
  | [] => ls
  | s :: prev => set_ls_fs (g s :: prev) ls
  end.

Definition upd_dyd (g : Dyndata -> Dyndata) (ls : LexState) : LexState :=
  set_dyd (g (dyd ls)) ls.

(** [fs->bl]: the innermost block. *)
Definition cur_bl (s : FuncState) : BlockCnt := default BlockCnt0 (head (bl s)).

Definition upd_bl (g : BlockCnt -> BlockCnt) (s : FuncState) : FuncState :=
  match bl s with
  | [] => s
  | b :: prev => set_bl (g b :: prev) s
  end.


(** Run a function of the code generator on the function being compiled. *)
Definition onfs {A : Type} (g : FuncState -> A * FuncState) : P A :=
  fun ls => let (a, s) := g (cur_fs ls) in Ok a (upd_fs (fun _ => s) ls).

Definition onfs_ (g : FuncState -> FuncState) : P unit :=
  fun ls => Ok tt (upd_fs g ls).

(** ** The scanner's interface *)

Definition float0 : lua_Number := PrimFloat.zero.

(** Modelled from the spec: luaX_next is in llex.cpp, not under src/ ("token
    stream with one-token lookahead").  The next token of the stream becomes
    the current one; the end of the stream reads as TK_EOS. *)
Definition luaX_next : P unit :=
  modify (fun ls =>
    match input ls with
    | [] => set_ls_t (mkToken TK_EOS 0 float0 "" (linenumber ls)) ls
    | tk :: rest => set_linenumber (tk_line tk) (set_input rest (set_ls_t tk ls))
    end).

(** Modelled from the spec: luaX_lookahead is in llex.cpp ("peek_next"). *)
Definition luaX_lookahead : P Tok :=
  gets (fun ls => match input ls with [] => TK_EOS | tk :: _ => token tk end).

(** [ls->t.token] *)
Definition gett : P Tok := gets (fun ls => token (ls_t ls)).

(** Modelled from the spec: luaE_incCstack is in lstate.cpp ("the driver
    increments a C-call depth counter on enter_level ... a host-configurable
    bound triggers StackOverflow").  The bound is Lua's default. *)
Definition LUAI_MAXCCALLS : nat := 200.

Definition enterlevel : P unit :=
  let* _ := modify (fun ls => set_nCcalls (S (nCcalls ls)) ls) in
  let* n := gets nCcalls in
  if (LUAI_MAXCCALLS <=? n)%nat then throw E_cstack else ret tt.

Definition leavelevel : P unit :=
  modify (fun ls => set_nCcalls (Nat.pred (nCcalls ls)) ls).

(** ** Operators *)

(** Binary operators, in the order of the priority table (ORDER OPR). *)
Inductive BinOpr : Type :=
| OPR_ADD | OPR_SUB | OPR_MUL | OPR_MOD | OPR_POW | OPR_DIV | OPR_IDIV
| OPR_BAND | OPR_BOR | OPR_BXOR | OPR_SHL | OPR_SHR | OPR_CONCAT
| OPR_EQ | OPR_LT | OPR_LE | OPR_NE | OPR_GT | OPR_GE
| OPR_AND | OPR_OR | OPR_COAL
| OPR_NOBINOPR.

Inductive UnOpr : Type := OPR_MINUS | OPR_BNOT | OPR_NOT | OPR_LEN | OPR_NOUNOPR.

(** The value of a BinOpr as an index of the priority table. *)
Definition BinOpr_index (op : BinOpr) : nat :=
  match op with
  | OPR_ADD => 0 | OPR_SUB => 1 | OPR_MUL => 2 | OPR_MOD => 3 | OPR_POW => 4
  | OPR_DIV => 5 | OPR_IDIV => 6 | OPR_BAND => 7 | OPR_BOR => 8
  | OPR_BXOR => 9 | OPR_SHL => 10 | OPR_SHR => 11 | OPR_CONCAT => 12
  | OPR_EQ => 13 | OPR_LT => 14 | OPR_LE => 15 | OPR_NE => 16 | OPR_GT => 17
  | OPR_GE => 18 | OPR_AND => 19 | OPR_OR => 20 | OPR_COAL => 21
  | OPR_NOBINOPR => 22
  end%nat.

Definition BinOpr_eqb (a b : BinOpr) : bool :=
  Nat.eqb (BinOpr_index a) (BinOpr_index b).

Definition UnOpr_eqb (a b : UnOpr) : bool :=
  match a, b with
  | OPR_MINUS, OPR_MINUS | OPR_BNOT, OPR_BNOT | OPR_NOT, OPR_NOT
  | OPR_LEN, OPR_LEN | OPR_NOUNOPR, OPR_NOUNOPR => true
  | _, _ => false
  end.

(** ** The code generator's raw encoders *)

Definition add_code (i : Instruction) (p : Proto) : Proto :=
  set_p_code (p_code p ++ [i]) p.

Definition add_fixup (x : Fixup) (s : FuncState) : FuncState :=
  set_fs_f (set_p_fixups (p_fixups (fs_f s) ++ [x]) (fs_f s)) s.

(** Modelled from the spec: luaK_code and the encoders built on it are in
    lcode.cpp ("all emissions to the instruction buffer are sequential and
    monotonic in PC").  The instruction is stored at [pc], which is returned
    and then advanced. *)
Definition luaK_code (i : Instruction) (s : FuncState) : Z * FuncState :=
  (pc s, set_pc (pc s + 1) (set_fs_f (add_code i (fs_f s)) s)).

Definition luaK_codeABC (o : OpCode) (a b c : Z) (s : FuncState) : Z * FuncState :=
  luaK_code (iABC o a b c) s.

Definition luaK_codeABx (o : OpCode) (a bx : Z) (s : FuncState) : Z * FuncState :=
  luaK_code (iABx o a bx) s.

Definition luaK_codeAsBx (o : OpCode) (a sbx : Z) (s : FuncState) : Z * FuncState :=
  luaK_code (iAsBx o a sbx) s.

(** Modelled from the spec: luaK_jump ("jump() -> pc") emits an unconditional
    jump with no destination yet and returns its position. *)
Definition luaK_jump (s : FuncState) : Z * FuncState :=
  luaK_code (isJ OP_JMP NO_JUMP) s.

(** Modelled from the spec: luaK_getlabel ("get_label() -> pc"). *)
Definition luaK_getlabel (s : FuncState) : Z := pc s.

(** Modelled from the spec: luaK_patchlist ("patchlist(head, target)"): every
    jump of the list [list] is made to go to [target]; an empty list asks for
    nothing. *)
Definition luaK_patchlist (list target : Z) (s : FuncState) : FuncState :=
  if (list =? NO_JUMP)%Z then s else add_fixup (FixPatchList list target) s.

Definition luaK_patchtohere (list : Z) (s : FuncState) : FuncState :=
  luaK_patchlist list (luaK_getlabel s) s.

(** Modelled from the spec: luaK_concat ("concat(&mut head, head2)"): list
    [l2] is appended to list [l1]; the result is the new head of [l1]. *)
Definition luaK_concat (l1 l2 : Z) (s : FuncState) : Z * FuncState :=
  if (l2 =? NO_JUMP)%Z then (l1, s)
  else if (l1 =? NO_JUMP)%Z then (l2, s)
  else (l1, add_fixup (FixConcat l1 l2) s).

Definition luaK_jumpto (target : Z) (s : FuncState) : FuncState :=
  let (j, s1) := luaK_jump s in luaK_patchlist j target s1.

Definition luaK_fixline (line : Z) (s : FuncState) : FuncState :=
  add_fixup (FixLine line) s.

(** ** The code generator's expression functions *)

(** Outcome of a call into the code generator: it works on the function
    state only, and may raise an error of its own. *)
Inductive kres (A : Type) : Type :=
| KOk (a : A) (s : FuncState)
| KErr (e : error).

Arguments KOk {A} a s.
Arguments KErr {A} e.

(** The functions of lcode.cpp that the parser calls on expression
    descriptors.  Each reads the dynamic data and the function state, and
    gives back the function state and the descriptor it updated (for
    luaK_posfix the first operand, for luaK_storevar the stored expression,
    for luaK_indexed and luaK_self the table).  The class also holds what
    the parser takes from the scanner and from lparser.h and that is not
    under src/. *)
Class CodeGen : Type := {
  luaK_infix : BinOpr -> expdesc -> Dyndata -> FuncState -> kres expdesc;
  luaK_posfix : BinOpr -> expdesc -> expdesc -> Z -> Dyndata -> FuncState -> kres expdesc;
  luaK_prefix : UnOpr -> expdesc -> Z -> Dyndata -> FuncState -> kres expdesc;
  luaK_dischargevars : expdesc -> Dyndata -> FuncState -> kres expdesc;
  luaK_exp2nextreg : expdesc -> Dyndata -> FuncState -> kres expdesc;
  luaK_exp2anyreg : expdesc -> Dyndata -> FuncState -> kres (Z * expdesc);
  luaK_exp2anyregup : expdesc -> Dyndata -> FuncState -> kres expdesc;
  luaK_exp2reg : expdesc -> Z -> Dyndata -> FuncState -> kres expdesc;
  luaK_exp2val : expdesc -> Dyndata -> FuncState -> kres expdesc;
  luaK_exp2const : expdesc -> Dyndata -> FuncState -> option TValue;
  luaK_storevar : expdesc -> expdesc -> Dyndata -> FuncState -> kres expdesc;
  luaK_setoneret : expdesc -> Dyndata -> FuncState -> kres expdesc;
  luaK_setreturns : expdesc -> Z -> Dyndata -> FuncState -> kres unit;
  luaK_goiftrue : expdesc -> Dyndata -> FuncState -> kres expdesc;
  luaK_goiffalse : expdesc -> Dyndata -> FuncState -> kres expdesc;
  luaK_indexed : expdesc -> expdesc -> Dyndata -> FuncState -> kres expdesc;
  luaK_self : expdesc -> expdesc -> Dyndata -> FuncState -> kres expdesc;
  luaK_nil : Z -> Z -> Dyndata -> FuncState -> kres unit;
  luaK_int : Z -> lua_Integer -> Dyndata -> FuncState -> kres unit;
  luaK_ret : Z -> Z -> Dyndata -> FuncState -> kres unit;
  luaK_reserveregs : Z -> Dyndata -> FuncState -> kres unit;
  luaK_checkstack : Z -> Dyndata -> FuncState -> kres unit;
  luaK_setlist : Z -> Z -> Z -> Dyndata -> FuncState -> kres unit;
  luaK_settablesize : Z -> Z -> Z -> Z -> Dyndata -> FuncState -> kres unit;
  luaK_finish : Dyndata -> FuncState -> kres unit;
  (* Token::IsReservedNonValue and luaX_reserved2str of the scanner *)
  IsReservedNonValue : Tok -> bool;
  luaX_reserved2str : Tok -> string;
  (* the macro vkisconst of lparser.h: the expression kinds a 'case' accepts *)
  vkisconst : expkind -> bool
}.

(** A call into the code generator from the parser. *)
Definition callK {A : Type} (g : Dyndata -> FuncState -> kres A) : P A :=
  fun ls => match g (dyd ls) (cur_fs ls) with
            | KOk a s => Ok a (upd_fs (fun _ => s) ls)
            | KErr e => Throw e ls
            end.

(** * The parser *)

Section Parser.

Context {cg : CodeGen}.

(** maximum number of local variables per function (must be smaller
    than 250, due to the bytecode format) *)
Definition MAXVARS : nat := 249.

Definition LUA_MULTRET : Z := -1.

Definition hasmultret (kd : expkind) : bool :=
  expkind_eqb kd VCALL || expkind_eqb kd VVARARG.

(** Throws an exception into Lua: a vital error, like a syntax problem. *)
Definition throwerr {A : Type} (err here : string) : P A :=
  throw (E_throw err here).

(** Throws a warning into standard output, which does not end the parse. *)
Definition throw_warn (err here : string) (arg : Z) : P unit :=
  modify (fun ls => set_warnings (warnings ls ++ [Warn err here arg]) ls).

Definition throw_warn_at (err : string) (line : Z) : P unit :=
  modify (fun ls => set_warnings (warnings ls ++ [WarnAt err line]) ls).

Definition error_expected {A : Type} (tk : Tok) : P A :=
  let default_ : P A :=
    let* got := gett in throw (E_expected tk got) in
  match tk with
  | Tchar "|" =>
      throwerr "expected '|' to control parameters."
               "expected '|' to begin & terminate the lambda's paramater list."
  | Tchar "-" =>
      let* la := luaX_lookahead in
      if tok_eqb la (Tchar ">") then
        throwerr "impromper lambda definition"
                 "expected '->' arrow syntax for lambda expression."
      else default_
  | TK_IN =>
      throwerr "expected 'in' to delimit loop iterator." "expected 'in' symbol."
  | TK_DO =>
      throwerr "expected 'do' to establish block."
               "you need to append this with the 'do' symbol."
  | TK_END =>
      throwerr "expected 'end' to terminate block."
               "expected 'end' symbol after or on this line."
  | TK_THEN =>
      throwerr "expected 'then' to delimit condition." "expected 'then' symbol."
  | TK_NAME =>
      throwerr "expected an identifier." "this needs a name."
  | TK_PCONTINUE =>
      throwerr "expected 'continue' inside a loop." "this is not within a loop."
  | _ => default_
  end.

Definition errorlimit {A : Type} (limit : Z) (what : string) : P A :=
  throw (E_limit limit what).

Definition checklimit (v l : Z) (what : string) : P unit :=
  if (v >? l)%Z then errorlimit l what else ret tt.

(** Test whether next token is 'c'; if so, skip it. *)
Definition testnext (c : Tok) : P bool :=
  let* tk := gett in
  if tok_eqb tk c then luaX_next >>> ret true else ret false.

(** Check that next token is 'c'. *)
Definition check (c : Tok) : P unit :=
  let* tk := gett in
  if negb (tok_eqb tk c) then error_expected c else ret tt.

(** Check that next token is 'c' and skip it. *)
Definition checknext (c : Tok) : P unit :=
  check c >>> luaX_next.

(** Test the next token to see if it's either 'token1' or 'token2'. *)
Definition testnext2 (token1 token2 : Tok) : P bool :=
  let* b := testnext token1 in
  if b then ret true else testnext token2.

Definition check_condition (c : bool) (msg : string) : P unit :=
  if negb c then throw (E_syntax msg) else ret tt.

(** Check that next token is 'what' and skip it. In case of error, raise an
    error that the expected 'what' should match a 'who' in line 'where' (if
    that is not the current line). *)
Definition check_match (what who : Tok) (where_ : Z) : P unit :=
  let* b := testnext what in
  if negb b then
    let* ln := gets linenumber in
    if (where_ =? ln)%Z then error_expected what
    else
      match what with
      | TK_END =>
          match who with
          | TK_IF =>
              throwerr "missing 'end' to terminate 'if' statement."
                       "this was the last statement."
          | TK_DO =>
              throwerr "missing 'end' to terminate 'do' block."
                       "this was the last statement."
          | TK_FOR =>
              throwerr "missing 'end' to terminate 'for' block."
                       "this was the last statement."
          | TK_WHILE =>
              throwerr "missing 'end' to terminate 'while' block."
                       "this was the last statement."
          | TK_FUNCTION =>
              throwerr "missing 'end' to terminate 'function' block."
                       "this was the last statement."
          | _ =>
              throwerr "missing 'end' to terminate block." "missing termination."
          end
      | _ => throw (E_match what who where_)
      end
  else ret tt.

Definition str_checkname (strict : bool) : P TString :=
  let* tk := gets ls_t in
  (if negb (tok_eqb (token tk) TK_NAME)
      && (strict || negb (IsReservedNonValue (token tk)))
   then error_expected TK_NAME else ret tt) >>>
  luaX_next >>>
  ret (seminfo_ts tk).

(** The members of the union that init_exp does not write read as zero. *)
Definition init_exp (kd : expkind) (i : Z) : expdesc :=
  mkexpdesc kd 0 float0 "" i 0 0 0 0 NO_JUMP NO_JUMP.

Definition codestring (s : TString) : expdesc :=
  mkexpdesc VKSTR 0 float0 s 0 0 0 0 0 NO_JUMP NO_JUMP.

Definition codename : P expdesc :=
  let* s := str_checkname false in ret (codestring s).

(** Register a new local variable in the active 'Proto' (for debug
    information). *)
Definition registerlocalvar (name : TString) (s : FuncState) : nat * FuncState :=
  let fp := fs_f s in
  (length (p_locvars fp),
   set_fs_f (set_p_locvars (p_locvars fp ++ [mkLocVar name (pc s) 0]) fp) s).

(** Return the "variable description" (Vardesc) of a given variable.
    (Unless noted otherwise, all variables are referred to by their
    compiler indices.) *)
Definition getlocalvardesc (d : Dyndata) (s : FuncState) (vidx : nat) : Vardesc :=
  default Vardesc0 (actvar_arr d !! (firstlocal s + vidx)%nat).

(** Assignment through the pointer that getlocalvardesc returns. *)
Definition setlocalvardesc (s : FuncState) (vidx : nat) (v : Vardesc)
    (d : Dyndata) : Dyndata :=
  set_actvar_arr (<[(firstlocal s + vidx)%nat := v]> (actvar_arr d)) d.

Definition set_vd_kind (v : varkind) (x : Vardesc) : Vardesc :=
  mkVardesc (vd_value x) v (vd_typehint x) (vd_typeprop x) (vd_ridx x)
    (vd_pidx x) (vd_name x) (vd_linenumber x).
Definition set_vd_typehint (v : lu_hint) (x : Vardesc) : Vardesc :=
  mkVardesc (vd_value x) (vd_kind x) v (vd_typeprop x) (vd_ridx x)
    (vd_pidx x) (vd_name x) (vd_linenumber x).
Definition set_vd_typeprop (v : lu_hint) (x : Vardesc) : Vardesc :=
  mkVardesc (vd_value x) (vd_kind x) (vd_typehint x) v (vd_ridx x)
    (vd_pidx x) (vd_name x) (vd_linenumber x).
Definition set_vd_value (v : option TValue) (x : Vardesc) : Vardesc :=
  mkVardesc v (vd_kind x) (vd_typehint x) (vd_typeprop x) (vd_ridx x)
    (vd_pidx x) (vd_name x) (vd_linenumber x).
Definition set_vd_reg (ridx : Z) (pidx : nat) (x : Vardesc) : Vardesc :=
  mkVardesc (vd_value x) (vd_kind x) (vd_typehint x) (vd_typeprop x) ridx
    pidx (vd_name x) (vd_linenumber x).

Definition gettypehint : P lu_hint :=
  (* TYPEHINT -> [':' Typename] *)
  let* b := testnext (Tchar ":") in
  if b then
    let* tname := str_checkname false in
    if String.eqb tname "number" then ret (HK VKINT)
    else if String.eqb tname "table" then ret (HK VNONRELOC)
    else if String.eqb tname "string" then ret (HK VKSTR)
    else if String.eqb tname "userdata" then ret H_FF
    else if String.eqb tname "boolean" || String.eqb tname "bool" then ret (HK VTRUE)
    else if String.eqb tname "nil" then ret (HK VNIL)
    else if String.eqb tname "function" then ret H_FF
    else throw (E_typehint tname)
  else ret H_FF.

Definition vk_toTypeString (kind : lu_hint) : string :=
  match kind with
  | HK VKINT | HK VKFLT => "number"
  | HK VNONRELOC => "table"
  | HK VKSTR => "string"
  | HK VTRUE | HK VFALSE => "boolean"
  | HK VNIL => "nil"
  | _ => "ERROR"
  end.

Definition process_assign (vidx : nat) (kh : lu_hint) : P unit :=
  let* ls := get in
  let var := getlocalvardesc (dyd ls) (cur_fs ls) vidx in
  (if negb (lu_hint_eqb (vd_typehint var) H_FF)   (* var has type hint? *)
      && negb (lu_hint_eqb kh H_FF)               (* e has known return type? *)
      && negb (lu_hint_eqb (vd_typehint var) kh)  (* type mismatch? *)
   then
     throw_warn (vd_name var ++ " was type-hinted as "
                 ++ vk_toTypeString (vd_typehint var)
                 ++ " but is assigned a " ++ vk_toTypeString kh ++ " value")
                "type mismatch" 0
   else ret tt) >>>
  (* propagate type *)
  modify (fun ls => upd_dyd (fun d =>
    setlocalvardesc (cur_fs ls) vidx
      (set_vd_typeprop kh (getlocalvardesc d (cur_fs ls) vidx)) d) ls).

(** Convert 'nvar', a compiler index level, to its corresponding
    register. For that, search for the highest variable below that level
    that is in a register and uses its register index ('ridx') plus one. *)
Fixpoint reglevel (d : Dyndata) (s : FuncState) (nvar : nat) : Z :=
  match nvar with
  | O => 0   (* no variables in registers *)
  | S n =>
      let vd := getlocalvardesc d s n in   (* get previous variable *)
      if negb (varkind_eqb (vd_kind vd) RDKCTC)   (* is in a register? *)
      then vd_ridx vd + 1
      else reglevel d s n
  end.

(** Return the number of variables in the register stack for the given
    function. *)
Definition luaY_nvarstack (d : Dyndata) (s : FuncState) : Z :=
  reglevel d s (nactvar s).

(** Get the debug-information entry for current variable 'vidx': its index
    in the Proto's locvars, or None for the null pointer. *)
Definition localdebuginfo (d : Dyndata) (s : FuncState) (vidx : nat) : option nat :=
  let vd := getlocalvardesc d s vidx in
  if varkind_eqb (vd_kind vd) RDKCTC then None   (* no debug info. for constants *)
  else Some (vd_pidx vd).


(** Store in the slot [arr[i]] of the active-variable array, which grows as
    needed. *)
Definition store_actvar (i : nat) (v : Vardesc) (arr : list Vardesc) : list Vardesc :=
  if (i <? length arr)%nat then <[i := v]> arr
  else arr ++ replicate (i - length arr) Vardesc0 ++ [v].

(** The loop of new_localvar that warns about a declaration shadowing an
    earlier one: 'idxs' are the values of the loop index still to visit. *)
Fixpoint new_localvar_warn (d : Dyndata) (s : FuncState) (name : TString)
    (idxs : list nat) : P unit :=
  match idxs with
  | [] => ret tt
  | i :: rest =>
      let desc := getlocalvardesc d s i in
      let local := localdebuginfo d s i in
      let* _ :=
        (if (negb (String.eqb name "(for state)") && negb (String.eqb name "(switch)"))
            && match local with
               | Some pidx =>
                   eqstr (varname (default LocVar0 (p_locvars (fs_f s) !! pidx))) name
               | None => false
               end
         then   (* Got a match. *)
           throw_warn "duplicate local declaration"
             "this shadows the value of the initial declaration on line %d."
             (vd_linenumber desc)
         else ret tt) in
      new_localvar_warn d s name rest
  end.

(** The error raised when a function declares too many local variables. *)
Definition TooManyLocals : error := E_limit (Z.of_nat MAXVARS) "local variables".

(** Create a new local variable with the given 'name'. Return its index
    in the function. *)
Definition new_localvar (name : TString) : P nat :=
  let* ls := get in
  let s := cur_fs ls in
  let d := dyd ls in
  let locals := luaY_nvarstack d s in
  let* _ := new_localvar_warn d s name
              (seq (firstlocal s) (Z.to_nat locals - firstlocal s)) in
  let* _ := checklimit (Z.of_nat (actvar_n d) + 1 - Z.of_nat (firstlocal s))
                       (Z.of_nat MAXVARS) "local variables" in
  let* ln := gets linenumber in
  let old := default Vardesc0 (actvar_arr d !! actvar_n d) in
  let var := mkVardesc (vd_value old) VDKREG H_FF H_FF (vd_ridx old)
                       (vd_pidx old) name ln in
  let* _ := modify (upd_dyd (fun d =>
              set_actvar_n (S (actvar_n d))
                (set_actvar_arr (store_actvar (actvar_n d) var (actvar_arr d)) d))) in
  ret (actvar_n d + 1 - 1 - firstlocal s)%nat.

(** Create an expression representing variable 'vidx' *)
Definition init_var (d : Dyndata) (s : FuncState) (vidx : nat) : expdesc :=
  mkexpdesc VLOCAL 0 float0 "" 0 0 0 (vd_ridx (getlocalvardesc d s vidx)) vidx
    NO_JUMP NO_JUMP.

(** The error check_readonly raises for the variable [name]. *)
Definition AssignToConst (name : TString) : error :=
  E_throw ("attempt to reassign constant '" ++ name ++ "'")
          "this variable is constant, and cannot be reassigned.".

(** The name check_readonly finds for a read-only variable, None for the
    null pointer. *)
Definition readonly_name (d : Dyndata) (s : FuncState) (e : expdesc) : option TString :=
  match k e with
  | VCONST =>
      Some (vd_name (default Vardesc0 (actvar_arr d !! Z.to_nat (u_info e))))
  | VLOCAL =>
      let vardesc := getlocalvardesc d s (u_var_vidx e) in
      if negb (varkind_eqb (vd_kind vardesc) VDKREG)   (* not a regular variable? *)
      then Some (vd_name vardesc) else None
  | VUPVAL =>
      let up := default Upvaldesc0 (p_upvalues (fs_f s) !! Z.to_nat (u_info e)) in
      if negb (varkind_eqb (up_kind up) VDKREG)
      then Some (up_name up) else None
  | _ => None   (* other cases cannot be read-only *)
  end.

(** Raises an error if variable described by 'e' is read only *)
Definition check_readonly (e : expdesc) : P unit :=
  let* ls := get in
  match readonly_name (dyd ls) (cur_fs ls) e with
  | Some name => throw (AssignToConst name)
  | None => ret tt
  end.

(** Start the scope for the last 'nvars' created variables. *)
Fixpoint adjustlocalvars_loop (nvars : nat) (reglevel : Z) (d : Dyndata)
    (s : FuncState) : Dyndata * FuncState :=
  match nvars with
  | O => (d, s)
  | S n =>
      let vidx := nactvar s in
      let s1 := set_nactvar (S vidx) s in
      let var := getlocalvardesc d s1 vidx in
      let (pidx, s2) := registerlocalvar (vd_name var) s1 in
      let d1 := setlocalvardesc s2 vidx (set_vd_reg reglevel pidx var) d in
      adjustlocalvars_loop n (reglevel + 1) d1 s2
  end.

Definition adjustlocalvars (nvars : nat) : P unit :=
  modify (fun ls =>
    let s := cur_fs ls in
    let reglevel := luaY_nvarstack (dyd ls) s in
    let (d1, s1) := adjustlocalvars_loop nvars reglevel (dyd ls) s in
    upd_fs (fun _ => s1) (set_dyd d1 ls)).

Definition set_endpc (v : Z) (x : LocVar) : LocVar :=
  mkLocVar (varname x) (startpc x) v.
Definition set_startpc (v : Z) (x : LocVar) : LocVar :=
  mkLocVar (varname x) v (endpc x).

(** The loop of removevars: close the debug information of the variables
    from level [nactvar s] down to 'tolevel'. *)
Fixpoint removevars_loop (fuel : nat) (d : Dyndata) (tolevel : nat)
    (s : FuncState) : FuncState :=
  match fuel with
  | O => s
  | S fuel' =>
      if (tolevel <? nactvar s)%nat then
        let s1 := set_nactvar (Nat.pred (nactvar s)) s in
        let s2 :=
          match localdebuginfo d s1 (nactvar s1) with
          | Some pidx =>   (* does it have debug information? *)
              set_fs_f (set_p_locvars
                          (alter (set_endpc (pc s1)) pidx (p_locvars (fs_f s1)))
                          (fs_f s1)) s1
          | None => s1
          end in
        removevars_loop fuel' d tolevel s2
      else s
  end.

(** Close the scope for all variables up to level 'tolevel'.
    (debug info.)  The count of the array goes down by the number of
    variables removed; the entries themselves stay in the array. *)
Definition removevars (tolevel : nat) : P unit :=
  modify (fun ls =>
    let s := cur_fs ls in
    let d := set_actvar_n (actvar_n (dyd ls) - (nactvar s - tolevel))%nat (dyd ls) in
    upd_fs (removevars_loop (nactvar s) d tolevel) (set_dyd d ls)).


(** ** Gotos, labels and blocks *)

(** Generates an error that a goto jumps into the scope of some
    local variable. *)
Definition jumpscopeerror {A : Type} (gt_ : Labeldesc) : P A :=
  let* ls := get in
  let varname_ := vd_name (getlocalvardesc (dyd ls) (cur_fs ls) (lb_nactvar gt_)) in
  throw (E_jumpscope (lb_name gt_) (lb_line gt_) varname_).

(** The pending list without its entry 'g': the entries after it move down
    by one and the count goes down by one. *)
Definition remove_goto (g : nat) (gl : list Labeldesc) : list Labeldesc :=
  if (g <? length gl)%nat then delete g gl else take (length gl - 1) gl.

(** Solves the goto at index 'g' to given 'label' and removes it
    from the list of pending goto's.
    If it jumps into the scope of some variable, raises an error. *)
Definition solvegoto (g : nat) (label_ : Labeldesc) : P unit :=
  let* ls := get in
  let gt_ := default Labeldesc0 (gt (dyd ls) !! g) in   (* goto to be resolved *)
  let* _ := (if (lb_nactvar gt_ <? lb_nactvar label_)%nat   (* enter some scope? *)
             then jumpscopeerror gt_ else ret tt) in
  let* _ := onfs_ (luaK_patchlist (lb_pc gt_) (lb_pc label_)) in
  modify (upd_dyd (fun d => set_gt (remove_goto g (gt d)) d)).

(** Search for an active label with the given name. *)
Definition findlabel (name : TString) : P (option Labeldesc) :=
  let* ls := get in
  (* check labels in current function for a match *)
  ret (List.find (fun lb => eqstr (lb_name lb) name)
         (drop (fs_firstlabel (cur_fs ls)) (label (dyd ls)))).

(** Adds a new label/goto in the corresponding list. *)
Definition newlabelentry (l : list Labeldesc) (name : TString) (line pc_ : Z)
    (s : FuncState) : nat * list Labeldesc :=
  (length l, l ++ [mkLabeldesc name pc_ line (nactvar s) false]).

Definition newgotoentry (name : TString) (line pc_ : Z) : P nat :=
  let* ls := get in
  let (n, l) := newlabelentry (gt (dyd ls)) name line pc_ (cur_fs ls) in
  let* _ := modify (upd_dyd (set_gt l)) in
  ret n.

(** Solves forward jumps. Check whether new label 'lb' matches any
    pending gotos in current block and solves them. Return true
    if any of the goto's need to close upvalues. *)
Fixpoint solvegotos_loop (fuel : nat) (lb : Labeldesc) (i : nat)
    (needsclose : bool) : P bool :=
  match fuel with
  | O => out_of_fuel
  | S fuel' =>
      let* gl := gets (fun ls => gt (dyd ls)) in
      if (i <? length gl)%nat then
        let g := default Labeldesc0 (gl !! i) in
        if eqstr (lb_name g) (lb_name lb) then
          let* _ := solvegoto i lb in   (* will remove 'i' from the list *)
          solvegotos_loop fuel' lb i (needsclose || lb_close g)
        else solvegotos_loop fuel' lb (S i) needsclose
      else ret needsclose
  end.

Definition solvegotos (lb : Labeldesc) : P bool :=
  let* ls := get in
  solvegotos_loop (S (length (gt (dyd ls)))) lb
    (firstgoto (cur_bl (cur_fs ls))) false.

Definition set_lb_nactvar (v : nat) (x : Labeldesc) : Labeldesc :=
  mkLabeldesc (lb_name x) (lb_pc x) (lb_line x) v (lb_close x).

(** Create a new label with the given 'name' at the given 'line'.
    'last' tells whether label is the last non-op statement in its
    block. Solves all pending goto's to this new label and adds
    a close instruction if necessary.
    Returns true iff it added a close instruction. *)
Definition createlabel (name : TString) (line : Z) (last : bool) : P bool :=
  let* ls := get in
  let s := cur_fs ls in
  let (l, ll) := newlabelentry (label (dyd ls)) name line (luaK_getlabel s) s in
  let ll' :=
    if last then   (* label is last no-op statement in the block? *)
      (* assume that locals are already out of scope *)
      alter (set_lb_nactvar (bl_nactvar (cur_bl s))) l ll
    else ll in
  let* _ := modify (upd_dyd (set_label ll')) in
  let* needsclose := solvegotos (default Labeldesc0 (ll' !! l)) in
  if needsclose then   (* need close? *)
    let* ls := get in
    let* _ := onfs (luaK_codeABC OP_CLOSE (luaY_nvarstack (dyd ls) (cur_fs ls)) 0 0) in
    ret true
  else ret false.

(** Adjust pending gotos to outer level of a block. *)
Definition movegotosout (b : BlockCnt) : P unit :=
  modify (fun ls =>
    let s := cur_fs ls in
    let d := dyd ls in
    let move (g : Labeldesc) : Labeldesc :=
      mkLabeldesc (lb_name g) (lb_pc g) (lb_line g)
        (bl_nactvar b)   (* update goto level *)
        (if (reglevel d s (lb_nactvar g) >? reglevel d s (bl_nactvar b))%Z
         then lb_close g || upval b   (* jump may need a close *)
         else lb_close g) in
    upd_dyd (set_gt (take (firstgoto b) (gt d) ++ map move (drop (firstgoto b) (gt d)))) ls).

(** The assertion [fs->freereg == luaY_nvarstack(fs)] at the end of
    enterblock is not executed in a release build and is not part of the
    model. *)
Definition enterblock (isloop_ : bool) : P unit :=
  modify (fun ls =>
    let s := cur_fs ls in
    let b := mkBlockCnt NO_JUMP (length (label (dyd ls))) (length (gt (dyd ls)))
               (nactvar s) false isloop_
               (match bl s with [] => false | b0 :: _ => insidetbc b0 end) in
    upd_fs (set_bl (b :: bl s)) ls).

(** generates an error for an undefined 'goto'. *)
Definition undefgoto {A : Type} (gt_ : Labeldesc) : P A :=
  if eqstr (lb_name gt_) "break" then throw (E_break_outside (lb_line gt_))
  else throw (E_undefgoto (lb_name gt_) (lb_line gt_)).

Definition leaveblock : P unit :=
  let* ls := get in
  let s := cur_fs ls in
  let b := cur_bl s in
  let previous := tail (bl s) in
  let has_previous := negb (Nat.eqb (length previous) 0) in
  let stklevel := reglevel (dyd ls) s (bl_nactvar b) in   (* level outside the block *)
  let* hasclose :=
    (if isloop b   (* fix pending breaks? *)
     then createlabel "break" 0 false else ret false) in
  let* _ := (if negb hasclose && has_previous && upval b
             then let* _ := onfs (luaK_codeABC OP_CLOSE stklevel 0 0) in ret tt
             else ret tt) in
  let* _ := onfs_ (set_bl previous) in
  let* _ := removevars (bl_nactvar b) in
  let* _ := onfs_ (set_freereg stklevel) in   (* free registers *)
  let* _ := modify (upd_dyd (fun d =>
              set_label (take (firstlabel b) (label d)) d)) in   (* remove local labels *)
  if has_previous then   (* inner block? *)
    movegotosout b   (* update pending gotos to outer block *)
  else
    let* gl := gets (fun ls => gt (dyd ls)) in
    if (firstgoto b <? length gl)%nat   (* pending gotos in outer block? *)
    then undefgoto (default Labeldesc0 (gl !! firstgoto b))   (* error *)
    else ret tt.

(** adds a new prototype into list of prototypes *)
Definition addprototype : P Proto :=
  let* _ := onfs_ (fun s => set_fs_f (set_p_p (p_p (fs_f s) ++ [Proto0]) (fs_f s)) s) in
  ret Proto0.

(** The function state on the stack of the caller is filled in and linked;
    [fp] is the prototype the caller put in [fs->f]. *)
Definition open_func (fp : Proto) : P unit :=
  let* _ := modify (fun ls =>
    let s := mkFuncState (set_p_maxstacksize 2 (set_p_source (source ls) fp))
               [] 0 (actvar_n (dyd ls)) (length (label (dyd ls))) 0 0 false in
    set_ls_fs (s :: ls_fs ls) ls) in
  enterblock false.

(** The finished prototype is returned: it is the object the caller created
    with addprototype (or the main function's). *)
Definition close_func : P Proto :=
  let* ls := get in
  let* _ := callK (luaK_ret (luaY_nvarstack (dyd ls) (cur_fs ls)) 0) in   (* final return *)
  let* _ := leaveblock in
  let* _ := callK luaK_finish in
  let* ls := get in
  let fp := fs_f (cur_fs ls) in
  let* _ := modify (fun ls => set_ls_fs (tail (ls_fs ls)) ls) in
  ret fp.

(** ** Grammar rules *)

(** The two recursive non-terminals, 'statement' and 'expr', are declared
    ahead of their definitions in the source: [rec_statement] and [rec_expr]
    are the calls made to them.  A pointer 'prop' is the content of the byte
    it points to, None for the null pointer; the function returns the content
    after the call. *)
Variable rec_statement : option lu_hint -> P (option lu_hint).
Variable rec_expr : option lu_hint -> P (expdesc * option lu_hint).

(** [if (prop) *prop = v] *)
Definition wr (prop : option lu_hint) (v : lu_hint) : option lu_hint :=
  match prop with Some _ => Some v | None => None end.

(** check whether current token is in the follow set of a block.
    'until' closes syntactical blocks, but do not close scope,
    so it is handled in separate. *)
Definition block_follow (withuntil : bool) : P bool :=
  let* tk := gett in
  ret (match tk with
       | TK_ELSE | TK_ELSEIF | TK_END | TK_EOS => true
       | TK_PWHEN | TK_WHEN | TK_UNTIL => withuntil
       | _ => false
       end).

(** statlist -> { stat [';'] }.  [live] tells whether the local copy of the
    pointer 'prop' is still the caller's. *)
Fixpoint statlist_loop (fuel : nat) (prop : option lu_hint) (live : bool)
    : P (option lu_hint) :=
  match fuel with
  | O => out_of_fuel
  | S fuel' =>
      let* bf := block_follow true in
      if bf then ret prop
      else
        let* tk := gett in
        if tok_eqb tk TK_RETURN then
          let* p := rec_statement (if live then prop else None) in
          ret (if live then p else prop)   (* 'return' must be last statement *)
        else
          let* p := rec_statement (Some H_FE) in
          (* multiple return paths, don't propagate return type *)
          let live' := if negb (lu_hint_eqb (default H_FE p) H_FE) then false else live in
          statlist_loop fuel' prop live'
  end.

Definition statlist (fuel : nat) (prop : option lu_hint) : P (option lu_hint) :=
  statlist_loop fuel prop true.

(** The error raised for a 'continue' directly inside a case. *)
Definition ContinueInCase : error :=
  E_throw "'continue' outside of loop." "'case' statements are not loops.".

(** Switch logic partially inspired by Paige Marie DePol from the Lua mailing list. *)
Fixpoint caselist (fuel : nat) (isdefault : bool) : P unit :=
  match fuel with
  | O => out_of_fuel
  | S fuel' =>
      let* tk := gett in
      if negb (tok_eqb tk TK_PDEFAULT) && negb (tok_eqb tk TK_PCASE)
         && negb (tok_eqb tk TK_END) && negb (tok_eqb tk TK_DEFAULT)
         && negb (tok_eqb tk TK_CASE)
      then
        let* skip :=
          (if isdefault && tok_eqb tk TK_BREAK then
             let* la := luaX_lookahead in ret (tok_eqb la TK_END)
           else ret false) in
        let* _ :=
          if skip then luaX_next
          else if tok_eqb tk TK_PCONTINUE || tok_eqb tk TK_CONTINUE then
            throw ContinueInCase
          else
            let* _ := rec_statement None in ret tt in
        caselist fuel' isdefault
      else ret tt
  end.


(** ** Descriptor updates and expression lists *)

Definition set_k (v : expkind) (e : expdesc) : expdesc :=
  mkexpdesc v (u_ival e) (u_nval e) (u_strval e) (u_info e) (u_ind_idx e)
    (u_ind_t e) (u_var_ridx e) (u_var_vidx e) (e_t e) (e_f e).
Definition set_u_ival (v : lua_Integer) (e : expdesc) : expdesc :=
  mkexpdesc (k e) v (u_nval e) (u_strval e) (u_info e) (u_ind_idx e)
    (u_ind_t e) (u_var_ridx e) (u_var_vidx e) (e_t e) (e_f e).
Definition set_u_nval (v : lua_Number) (e : expdesc) : expdesc :=
  mkexpdesc (k e) (u_ival e) v (u_strval e) (u_info e) (u_ind_idx e)
    (u_ind_t e) (u_var_ridx e) (u_var_vidx e) (e_t e) (e_f e).
Definition set_u_info (v : Z) (e : expdesc) : expdesc :=
  mkexpdesc (k e) (u_ival e) (u_nval e) (u_strval e) v (u_ind_idx e)
    (u_ind_t e) (u_var_ridx e) (u_var_vidx e) (e_t e) (e_f e).
Definition set_u_ind (tv idx : Z) (e : expdesc) : expdesc :=
  mkexpdesc (k e) (u_ival e) (u_nval e) (u_strval e) (u_info e) idx
    tv (u_var_ridx e) (u_var_vidx e) (e_t e) (e_f e).

(** explist -> expr { ',' expr } *)
Fixpoint explist_loop (fuel : nat) (v : expdesc) (n : nat) : P (nat * expdesc) :=
  match fuel with
  | O => out_of_fuel
  | S fuel' =>
      let* b := testnext (Tchar ",") in
      if b then
        let* _ := callK (luaK_exp2nextreg v) in
        let* (v, _) := rec_expr None in
        explist_loop fuel' v (S n)
      else ret (n, v)
  end.

Definition explist (fuel : nat) (prop : option lu_hint)
    : P (nat * expdesc * option lu_hint) :=
  let* (v, prop) := rec_expr prop in
  let* (n, v) := explist_loop fuel v 1 in   (* at least one expression *)
  ret (n, v, prop).

(** [lu_byte] arithmetic and [lua_Integer] arithmetic wrap around. *)
Definition wrap8 (z : Z) : Z := z mod 256.
Definition wrap64 (z : Z) : Z := (z + 2 ^ 63) mod 2 ^ 64 - 2 ^ 63.

(** ** Variables by name *)

(** Modelled from the spec: MAXUPVAL is a constant of lfunc.h, not under
    src/ (the error kind TooManyUpvalues); the value is Lua's. *)
Definition MAXUPVAL : nat := 255.

(** Search the upvalues of the function 'fs' for one
    with the given 'name': its index, None when not found. *)
Definition searchupvalue (s : FuncState) (name : TString) : option nat :=
  (fix go (i : nat) (ups : list Upvaldesc) : option nat :=
     match ups with
     | [] => None   (* not found *)
     | up :: rest => if eqstr (up_name up) name then Some i else go (S i) rest
     end) 0%nat (p_upvalues (fs_f s)).

(** allocupvalue followed by the assignments of newupvalue: 'prev' is
    fs->prev. *)
Definition newupvalue (d : Dyndata) (prev s : FuncState) (name : TString)
    (v : expdesc) : error + (nat * FuncState) :=
  let nups := length (p_upvalues (fs_f s)) in
  if (MAXUPVAL <? nups + 1)%nat then inl (E_limit (Z.of_nat MAXUPVAL) "upvalues")
  else
    let up :=
      if expkind_eqb (k v) VLOCAL then
        mkUpvaldesc name true (u_var_ridx v)
          (vd_kind (getlocalvardesc d prev (u_var_vidx v)))
      else
        mkUpvaldesc name false (wrap8 (u_info v))
          (up_kind (default Upvaldesc0 (p_upvalues (fs_f prev) !! Z.to_nat (u_info v)))) in
    inr (nups, set_fs_f (set_p_upvalues (p_upvalues (fs_f s) ++ [up]) (fs_f s)) s).

(** Look for an active local variable with the name 'n' in the
    function 'fs'. If found, initialize 'var' with it and return
    its expression; otherwise return None (-1). *)
Fixpoint searchvar_from (d : Dyndata) (s : FuncState) (n : TString) (i : nat)
    : option expdesc :=
  match i with
  | O => None   (* not found *)
  | S i' =>
      let vd := getlocalvardesc d s i' in
      if eqstr n (vd_name vd) then   (* found? *)
        if varkind_eqb (vd_kind vd) RDKCTC   (* compile-time constant? *)
        then Some (init_exp VCONST (Z.of_nat (firstlocal s + i')))
        else Some (init_var d s i')   (* real variable *)
      else searchvar_from d s n i'
  end.

Definition searchvar (d : Dyndata) (s : FuncState) (n : TString) : option expdesc :=
  searchvar_from d s n (nactvar s).

(** Mark block where variable at given level was defined
    (to emit close instructions later). *)
Fixpoint markupval_blocks (bls : list BlockCnt) (level : nat) : list BlockCnt :=
  match bls with
  | [] => []
  | b :: previous =>
      if (level <? bl_nactvar b)%nat then b :: markupval_blocks previous level
      else set_upval true b :: previous
  end.

Definition markupval (level : nat) (s : FuncState) : FuncState :=
  set_needclose true (set_bl (markupval_blocks (bl s) level) s).

(** Mark that current block has a to-be-closed variable. *)
Definition marktobeclosed (s : FuncState) : FuncState :=
  set_needclose true (upd_bl (fun b => set_insidetbc true (set_upval true b)) s).

(** Find a variable with the given name 'n'. If it is an upvalue, add
    this upvalue into all intermediate functions. If it is a global, set
    'var' as 'void' as a flag.  The chain 'fss' is fs, fs->prev, ... *)
Fixpoint singlevaraux (d : Dyndata) (fss : list FuncState) (n : TString)
    (base : bool) : error + (expdesc * list FuncState) :=
  match fss with
  | [] => inr (init_exp VVOID 0, [])   (* no more levels: default is global *)
  | s :: prev =>
      match searchvar d s n with   (* look up locals at current level *)
      | Some var =>   (* found? *)
          if expkind_eqb (k var) VLOCAL && negb base
          then inr (var, markupval (u_var_vidx var) s :: prev)   (* local will be used as an upval *)
          else inr (var, s :: prev)
      | None =>   (* not found as local at current level; try upvalues *)
          match searchupvalue s n with   (* try existing upvalues *)
          | Some idx => inr (init_exp VUPVAL (Z.of_nat idx), s :: prev)
          | None =>   (* not found? *)
              match singlevaraux d prev n false with   (* try upper levels *)
              | inl e => inl e
              | inr (var, prev') =>
                  if expkind_eqb (k var) VLOCAL || expkind_eqb (k var) VUPVAL then
                    (* local or upvalue: will be a new upvalue *)
                    match newupvalue d (default FuncState0 (head prev')) s n var with
                    | inl e => inl e
                    | inr (idx, s') => inr (init_exp VUPVAL (Z.of_nat idx), s' :: prev')
                    end
                  else   (* it is a global or a constant *)
                    inr (var, s :: prev')   (* don't need to do anything at this level *)
              end
          end
      end
  end.

Definition singlevaraux_P (n : TString) (base : bool) : P expdesc :=
  fun ls =>
    match singlevaraux (dyd ls) (ls_fs ls) n base with
    | inl e => Throw e ls
    | inr (var, fss) => Ok var (set_ls_fs fss ls)
    end.

(** Find a variable with the given name 'n', handling global variables
    too. *)
Definition singlevar : P expdesc :=
  let* varname_ := str_checkname false in
  let* var := singlevaraux_P varname_ true in
  if expkind_eqb (k var) VVOID then   (* global name? *)
    let* envname := gets envn in
    let* var := singlevaraux_P envname true in   (* get environment variable *)
    let key := codestring varname_ in   (* key is variable name *)
    callK (luaK_indexed var key)   (* env[varname] *)
  else ret var.

Definition fieldsel (v : expdesc) : P expdesc :=
  (* fieldsel -> ['.' | ':'] NAME *)
  let* v := callK (luaK_exp2anyregup v) in
  let* _ := luaX_next in   (* skip the dot or colon *)
  let* key := codename in
  callK (luaK_indexed v key).

(** ** Function bodies *)

Definition setvararg (nparams : nat) : P unit :=
  let* _ := onfs_ (fun s => set_fs_f (set_p_is_vararg true (fs_f s)) s) in
  let* _ := onfs (luaK_codeABC OP_VARARGPREP (Z.of_nat nparams) 0 0) in
  ret tt.

Fixpoint parlist_loop (fuel : nat) (nparams : nat) : P (nat * bool) :=
  match fuel with
  | O => out_of_fuel
  | S fuel' =>
      let* tk := gett in
      let* (nparams, isvararg) :=
        match tk with
        | TK_NAME =>
            let* name := str_checkname true in
            let* _ := new_localvar name in
            ret (S nparams, false)
        | TK_DOTS =>
            let* _ := luaX_next in ret (nparams, true)
        | _ => throw (E_syntax "<name> or '...' expected")
        end in
      if isvararg then ret (nparams, isvararg)
      else
        let* b := testnext (Tchar ",") in
        if b then parlist_loop fuel' nparams else ret (nparams, isvararg)
  end.

Definition parlist (fuel : nat) : P unit :=
  (* parlist -> [ {NAME ','} (NAME | '...') ] *)
  let* tk := gett in
  let* (nparams, isvararg) :=
    (if negb (tok_eqb tk (Tchar ")")) && negb (tok_eqb tk (Tchar "|"))   (* is 'parlist' not empty? *)
     then parlist_loop fuel 0
     else ret (0%nat, false)) in
  let* _ := adjustlocalvars nparams in
  let* _ := onfs_ (fun s => set_fs_f (set_p_numparams (nactvar s) (fs_f s)) s) in
  let* s := gets cur_fs in
  let* _ := (if isvararg then setvararg (p_numparams (fs_f s))   (* declared vararg *)
             else ret tt) in
  callK (luaK_reserveregs (Z.of_nat (nactvar s))).   (* reserve registers for parameters *)

(** The function being compiled by the caller: ls->fs->prev. *)
Definition prev_fs (ls : LexState) : FuncState :=
  default FuncState0 (head (tail (ls_fs ls))).

Definition upd_prev_fs (g : FuncState -> FuncState) (ls : LexState) : LexState :=
  match ls_fs ls with
  | s :: p :: rest => set_ls_fs (s :: g p :: rest) ls
  | _ => ls
  end.

(** codes instruction to create new closure in parent function.
    The OP_CLOSURE instruction uses the last available register,
    so that, if it invokes the GC, the GC knows which registers
    are in use at that time. *)
Definition codeclosure : P expdesc :=
  fun ls =>
    let s := prev_fs ls in
    let (at_pc, s1) := luaK_codeABx OP_CLOSURE 0 (Z.of_nat (length (p_p (fs_f s))) - 1) s in
    let v := init_exp VRELOC at_pc in
    match luaK_exp2nextreg v (dyd ls) s1 with   (* fix it at the last register *)
    | KOk v s2 => Ok v (upd_prev_fs (fun _ => s2) ls)
    | KErr e => Throw e (upd_prev_fs (fun _ => s1) ls)
    end.

Definition body (fuel : nat) (ismethod : bool) (line : Z) (prop : option lu_hint)
    : P (expdesc * option lu_hint) :=
  (* body ->  '(' parlist ')' block END *)
  let* fp := addprototype in
  let* _ := open_func (set_p_linedefined line fp) in
  let* _ := checknext (Tchar "(") in
  let* _ :=
    (if ismethod then
       let* _ := new_localvar "self" in   (* create 'self' parameter *)
       adjustlocalvars 1
     else ret tt) in
  let* _ := parlist fuel in
  let* _ := checknext (Tchar ")") in
  let* rethint := gettypehint in
  let* p := statlist fuel (Some H_FF) in
  let p := default H_FF p in
  let* _ :=
    (if negb (lu_hint_eqb rethint H_FF)   (* has type hint for return type? *)
        && negb (lu_hint_eqb p H_FF)      (* return type is known? *)
     then
       throw_warn_at ("function was hinted to return " ++ vk_toTypeString rethint
                      ++ " but actually returns " ++ vk_toTypeString p) line
     else ret tt) in
  let prop := wr prop p in   (* propagate return type *)
  let* ln := gets linenumber in
  let* _ := onfs_ (fun s => set_fs_f (set_p_lastlinedefined ln (fs_f s)) s) in
  let* _ := check_match TK_END TK_FUNCTION line in
  let* e := codeclosure in
  let* fp := close_func in
  (* the prototype closed is the one addprototype put in the parent *)
  let* _ := onfs_ (fun s =>
              set_fs_f (set_p_p (<[(length (p_p (fs_f s)) - 1)%nat := fp]> (p_p (fs_f s)))
                                (fs_f s)) s) in
  ret (e, prop).


(** ** Primary expressions *)

(** Modelled from the spec: LFIELDS_PER_FLUSH, NO_REG (lopcodes.h) and
    MAX_INT (llimits.h) are constants of headers that are not under src/
    ("LFIELDS_PER_FLUSH entries trigger a SetList emission"); the values are
    Lua's. *)
Definition LFIELDS_PER_FLUSH : nat := 50.
Definition NO_REG : Z := 255.
Definition MAX_INT : Z := 2 ^ 31 - 1.

Definition yindex : P expdesc :=
  (* index -> '[' expr ']' *)
  let* _ := luaX_next in   (* skip the '[' *)
  let* (v, _) := rec_expr None in
  let* v := callK (luaK_exp2val v) in
  let* _ := checknext (Tchar "]") in
  ret v.

(** Rules for constructors.  [cc_t] is the table descriptor 't' points to. *)
Record ConsControl : Type := mkConsControl {
  cc_v : expdesc;     (* last list item read *)
  cc_t : expdesc;     (* table descriptor *)
  nh : nat;           (* total number of 'record' elements *)
  na : Z;             (* number of array elements already stored *)
  tostore : nat       (* number of array elements pending to be stored *)
}.

Definition recfield (cc : ConsControl) : P ConsControl :=
  (* recfield -> (NAME | '['exp']') = exp *)
  let* reg := gets (fun ls => freereg (cur_fs ls)) in
  let* tk := gett in
  let* key :=
    (if tok_eqb tk TK_NAME then
       let* _ := checklimit (Z.of_nat (nh cc)) MAX_INT "items in a constructor" in
       codename
     else yindex) in   (* ls->t.token == '[' *)
  let cc := mkConsControl (cc_v cc) (cc_t cc) (S (nh cc)) (na cc) (tostore cc) in
  let* _ := checknext (Tchar "=") in
  let tab := cc_t cc in
  let* tab := callK (luaK_indexed tab key) in
  let* (val, _) := rec_expr None in
  let* _ := callK (luaK_storevar tab val) in
  let* _ := onfs_ (set_freereg reg) in   (* free registers *)
  ret cc.

Definition prenamedfield (cc : ConsControl) (name : string) : P ConsControl :=
  let* reg := gets (fun ls => freereg (cur_fs ls)) in
  let key := codestring name in
  let cc := mkConsControl (cc_v cc) (cc_t cc) (S (nh cc)) (na cc) (tostore cc) in
  let* _ := luaX_next in   (* skip name token *)
  let* _ := checknext (Tchar "=") in
  let tab := cc_t cc in
  let* tab := callK (luaK_indexed tab key) in
  let* (val, _) := rec_expr None in
  let* _ := callK (luaK_storevar tab val) in
  let* _ := onfs_ (set_freereg reg) in   (* free registers *)
  ret cc.

Definition closelistfield (cc : ConsControl) : P ConsControl :=
  if expkind_eqb (k (cc_v cc)) VVOID then ret cc   (* there is no list item *)
  else
    let* v := callK (luaK_exp2nextreg (cc_v cc)) in
    let v := set_k VVOID v in
    if Nat.eqb (tostore cc) LFIELDS_PER_FLUSH then
      let* _ := callK (luaK_setlist (u_info (cc_t cc)) (na cc) (Z.of_nat (tostore cc))) in   (* flush *)
      ret (mkConsControl v (cc_t cc) (nh cc) (na cc + Z.of_nat (tostore cc)) 0)   (* no more items pending *)
    else ret (mkConsControl v (cc_t cc) (nh cc) (na cc) (tostore cc)).

Definition lastlistfield (cc : ConsControl) : P ConsControl :=
  if Nat.eqb (tostore cc) 0 then ret cc
  else
    let* (v, na_) :=
      (if hasmultret (k (cc_v cc)) then
         let* _ := callK (luaK_setreturns (cc_v cc) LUA_MULTRET) in
         let* _ := callK (luaK_setlist (u_info (cc_t cc)) (na cc) LUA_MULTRET) in
         ret (cc_v cc, na cc - 1)   (* do not count last expression (unknown number of elements) *)
       else
         let* v := (if negb (expkind_eqb (k (cc_v cc)) VVOID)
                    then callK (luaK_exp2nextreg (cc_v cc)) else ret (cc_v cc)) in
         let* _ := callK (luaK_setlist (u_info (cc_t cc)) (na cc) (Z.of_nat (tostore cc))) in
         ret (v, na cc)) in
    ret (mkConsControl v (cc_t cc) (nh cc) (na_ + Z.of_nat (tostore cc)) (tostore cc)).

Definition listfield (cc : ConsControl) : P ConsControl :=
  (* listfield -> exp *)
  let* (v, _) := rec_expr None in
  ret (mkConsControl v (cc_t cc) (nh cc) (na cc) (S (tostore cc))).

Definition funcfield (fuel : nat) (cc : ConsControl) : P ConsControl :=
  (* funcfield -> function NAME funcargs *)
  let* reg := gets (fun ls => freereg (cur_fs ls)) in
  let cc := mkConsControl (cc_v cc) (cc_t cc) (S (nh cc)) (na cc) (tostore cc) in
  let* _ := luaX_next in   (* skip TK_FUNCTION *)
  let* key := codename in
  let tab := cc_t cc in
  let* tab := callK (luaK_indexed tab key) in
  let* ln := gets linenumber in
  let* (val, _) := body fuel true ln None in
  let* _ := callK (luaK_storevar tab val) in
  let* _ := onfs_ (set_freereg reg) in   (* free registers *)
  ret cc.

Definition field (fuel : nat) (cc : ConsControl) : P ConsControl :=
  (* field -> listfield | recfield | funcfield *)
  let* tk := gett in
  let* la := luaX_lookahead in
  match tk with
  | TK_NAME =>   (* may be 'listfield' or 'recfield' *)
      if negb (tok_eqb la (Tchar "=")) then listfield cc   (* expression? *)
      else recfield cc
  | Tchar "[" => recfield cc
  | TK_FUNCTION =>
      if tok_eqb la (Tchar "(") then listfield cc
      else funcfield fuel cc
  | _ =>
      if IsReservedNonValue tk then prenamedfield cc (luaX_reserved2str tk)
      else listfield cc
  end.

Fixpoint constructor_fields (fuel : nat) (cc : ConsControl) : P ConsControl :=
  match fuel with
  | O => out_of_fuel
  | S fuel' =>
      let* tk := gett in
      if tok_eqb tk (Tchar "}") then ret cc
      else
        let* cc := closelistfield cc in
        let* cc := field fuel' cc in
        let* sep := testnext2 (Tchar ",") (Tchar ";") in
        if sep then constructor_fields fuel' cc else ret cc
  end.

Definition constructor (fuel : nat) : P expdesc :=
  (* constructor -> '{' [ field { sep field } [sep] ] '}'
     sep -> ',' | ';' *)
  let* line := gets linenumber in
  let* at_pc := onfs (luaK_codeABC OP_NEWTABLE 0 0 0) in
  let* _ := onfs (luaK_code (iRaw 0)) in   (* space for extra arg. *)
  let* s := gets cur_fs in
  let t_ := init_exp VNONRELOC (freereg s) in   (* table will be at stack top *)
  let* _ := callK (luaK_reserveregs 1) in
  let cc := mkConsControl (init_exp VVOID 0) t_ 0 0 0 in   (* no value (yet) *)
  let* _ := checknext (Tchar "{") in
  let* cc := constructor_fields fuel cc in
  let* _ := check_match (Tchar "}") (Tchar "{") line in
  let* cc := lastlistfield cc in
  let* _ := callK (luaK_settablesize at_pc (u_info t_) (na cc) (Z.of_nat (nh cc))) in
  ret t_.

Definition funcargs (fuel : nat) (f_ : expdesc) (line : Z) : P expdesc :=
  let* tk := gets ls_t in
  let* args :=
    match token tk with
    | Tchar "(" =>   (* funcargs -> '(' [ explist ] ')' *)
        let* _ := luaX_next in
        let* tk := gett in
        let* args :=
          (if tok_eqb tk (Tchar ")") then ret (init_exp VVOID 0)   (* arg list is empty? (only 'k' is assigned) *)
           else
             let* (_, args, _) := explist fuel None in
             let* _ := (if hasmultret (k args)
                        then callK (luaK_setreturns args LUA_MULTRET) else ret tt) in
             ret args) in
        let* _ := check_match (Tchar ")") (Tchar "(") line in
        ret args
    | Tchar "{" =>   (* funcargs -> constructor *)
        constructor fuel
    | TK_STRING =>   (* funcargs -> STRING *)
        let args := codestring (seminfo_ts tk) in
        let* _ := luaX_next in   (* must use 'seminfo' before 'next' *)
        ret args
    | _ => throw (E_syntax "function arguments expected")
    end in
  let base := u_info f_ in   (* base register for call *)
  let* nparams :=
    (if hasmultret (k args) then ret LUA_MULTRET   (* open call *)
     else
       let* _ := (if negb (expkind_eqb (k args) VVOID)
                  then let* _ := callK (luaK_exp2nextreg args) in ret tt   (* close last argument *)
                  else ret tt) in
       let* s := gets cur_fs in
       ret (freereg s - (base + 1))) in
  let* at_pc := onfs (luaK_codeABC OP_CALL base (nparams + 1) 2) in
  let* _ := onfs_ (luaK_fixline line) in
  let* _ := onfs_ (set_freereg (wrap8 (base + 1))) in   (* call remove function and arguments
                                                          and leaves (unless changed) one result *)
  ret (init_exp VCALL at_pc).

(** Safe navigation is entirely accredited to SvenOlsen. *)
Definition safe_navigation (v : expdesc) : P expdesc :=
  let* _ := luaX_next in
  let* v := callK (luaK_exp2nextreg v) in
  let* _ := onfs (luaK_codeABC OP_TEST (u_info v) NO_REG 0) in
  let* old_free := gets (fun ls => freereg (cur_fs ls)) in
  let vreg := u_info v in
  let* j := onfs (luaK_codeAsBx OP_JMP 0 NO_JUMP) in
  let* tk := gett in
  let* v :=
    match tk with
    | Tchar "[" =>
        let* _ := luaX_next in   (* skip the '[' *)
        let* tk := gett in
        let* key :=
          (if tok_eqb tk (Tchar "-") then
             let* (key, _) := rec_expr None in
             match k key with
             | VKINT => ret (set_u_ival (wrap64 (u_ival key * -1)) key)
             | VKFLT => ret (set_u_nval (PrimFloat.mul (u_nval key)
                                           (PrimFloat.opp PrimFloat.one)) key)
             | _ => throwerr "unexpected symbol during navigation."
                             "unary '-' on non-numeral type."
             end
           else let* (key, _) := rec_expr None in ret key) in
        let* _ := checknext (Tchar "]") in
        callK (luaK_indexed v key)
    | Tchar "." =>
        let* _ := luaX_next in
        let* key := codename in
        callK (luaK_indexed v key)
    | _ => throw (E_syntax "unexpected symbol")
    end in
  let* v := callK (luaK_exp2nextreg v) in
  let* _ := onfs_ (set_freereg old_free) in
  let* v :=
    (if negb (u_info v =? vreg)%Z then
       let* _ := onfs (luaK_codeABC OP_MOVE vreg (u_info v) 0) in
       ret (set_u_info vreg v)
     else ret v) in
  let* _ := onfs_ (fun s => add_fixup (FixSetArg j "sBx" (pc s - j - 1)) s) in
  ret v.

Fixpoint skip_lambda_tokens (fuel : nat) : P unit :=
  match fuel with
  | O => out_of_fuel
  | S fuel' =>
      let* a := testnext (Tchar "|") in
      let* b := (if a then ret true else testnext TK_NAME) in
      let* c := (if b then ret true else testnext (Tchar ",")) in
      if c then skip_lambda_tokens fuel' else ret tt
  end.

Definition primaryexp (fuel : nat) : P expdesc :=
  (* primaryexp -> NAME | '(' expr ')' *)
  let* tk := gett in
  match tk with
  | Tchar "(" =>
      let* line := gets linenumber in
      let* _ := luaX_next in
      let* (v, _) := rec_expr None in
      let* _ := check_match (Tchar ")") (Tchar "(") line in
      callK (luaK_dischargevars v)
  | TK_NAME => singlevar
  | Tchar "{" =>   (* Unfinished table constructors. *)
      throwerr "unfinished table constructor" "did you mean to close with '}'?"
  | Tchar "}" =>
      throwerr "unfinished table constructor" "did you mean to enter with '{'?"
  | Tchar "|" =>   (* Potentially mistyped lambda expression. *)
      let* _ := skip_lambda_tokens fuel in
      throwerr "unexpected symbol" "impromper or stranded lambda expression."
  | _ => throw (E_unexpected tk)
  end.

Fixpoint suffixedexp_loop (fuel : nat) (line : Z) (v : expdesc)
    (prop : option lu_hint) : P (expdesc * option lu_hint) :=
  match fuel with
  | O => out_of_fuel
  | S fuel' =>
      let* tk := gett in
      match tk with
      | Tchar "?" =>   (* safe navigation *)
          let* v := safe_navigation v in
          suffixedexp_loop fuel' line v prop
      | Tchar "." =>   (* fieldsel *)
          let* v := fieldsel v in
          suffixedexp_loop fuel' line v prop
      | Tchar "[" =>   (* '[' exp ']' *)
          let* v := callK (luaK_exp2anyregup v) in
          let* key := yindex in
          let* v := callK (luaK_indexed v key) in
          suffixedexp_loop fuel' line v prop
      | Tchar ":" =>   (* ':' NAME funcargs *)
          let* _ := luaX_next in
          let* key := codename in
          let* v := callK (luaK_self v key) in
          let* v := funcargs fuel' v line in
          suffixedexp_loop fuel' line v prop
      | Tchar "(" | TK_STRING | Tchar "{" =>   (* funcargs *)
          let* ls := get in
          let prop :=
            if expkind_eqb (k v) VLOCAL
            then wr prop (vd_typeprop (getlocalvardesc (dyd ls) (cur_fs ls) (u_var_vidx v)))
            else prop in
          let* v := callK (luaK_exp2nextreg v) in
          let* v := funcargs fuel' v line in
          suffixedexp_loop fuel' line v prop
      | _ => ret (v, prop)
      end
  end.

Definition suffixedexp (fuel : nat) (prop : option lu_hint)
    : P (expdesc * option lu_hint) :=
  (* suffixedexp ->
       primaryexp { '.' NAME | '[' exp ']' | ':' NAME funcargs | funcargs } *)
  let* line := gets linenumber in
  let* v := primaryexp fuel in
  suffixedexp_loop fuel line v prop.

(** Lambda implementation.
    Shorthands lambda expressions into `function (...) return ... end`. *)
Definition lambdabody (fuel : nat) (line : Z) : P expdesc :=
  let* fp := addprototype in
  let* _ := open_func (set_p_linedefined line fp) in
  let* _ := checknext (Tchar "|") in
  let* _ := parlist fuel in
  let* _ := checknext (Tchar "|") in
  let* _ := checknext (Tchar "-") in
  let* _ := checknext (Tchar ">") in
  let* (e, _) := rec_expr None in
  let* (r, e) := callK (luaK_exp2anyreg e) in
  let* _ := callK (luaK_ret r 1) in
  let* ln := gets linenumber in
  let* _ := onfs_ (fun s => set_fs_f (set_p_lastlinedefined ln (fs_f s)) s) in
  let* e := codeclosure in
  let* fp := close_func in
  let* _ := onfs_ (fun s =>
              set_fs_f (set_p_p (<[(length (p_p (fs_f s)) - 1)%nat := fp]> (p_p (fs_f s)))
                                (fs_f s)) s) in
  ret e.

Definition simpleexp (fuel : nat) (caseexpr : bool) (prop : option lu_hint)
    : P (expdesc * option lu_hint) :=
  (* simpleexp -> FLT | INT | STRING | NIL | TRUE | FALSE | ... |
                  constructor | FUNCTION body | suffixedexp *)
  let* tk := gets ls_t in
  let literal (v : expdesc) (prop : option lu_hint) : P (expdesc * option lu_hint) :=
    let* _ := luaX_next in
    let* m := (if negb caseexpr then testnext (Tchar ":") else ret false) in
    if m then
      let* key := codename in
      let* v := callK (luaK_self v key) in
      let* ln := gets linenumber in
      let* v := funcargs fuel v ln in
      ret (v, prop)
    else ret (v, prop) in
  match token tk with
  | TK_FLT => literal (set_u_nval (seminfo_r tk) (init_exp VKFLT 0)) (wr prop (HK VKINT))
  | TK_INT => literal (set_u_ival (seminfo_i tk) (init_exp VKINT 0)) (wr prop (HK VKINT))
  | TK_STRING => literal (codestring (seminfo_ts tk)) (wr prop (HK VKSTR))
  | TK_NIL => literal (init_exp VNIL 0) (wr prop (HK VNIL))
  | TK_TRUE => literal (init_exp VTRUE 0) (wr prop (HK VTRUE))
  | TK_FALSE => literal (init_exp VFALSE 0) (wr prop (HK VTRUE))
  | TK_DOTS =>   (* vararg *)
      let* s := gets cur_fs in
      let* _ := check_condition (p_is_vararg (fs_f s))
                  "cannot use '...' outside a vararg function" in
      let* at_pc := onfs (luaK_codeABC OP_VARARG 0 0 1) in
      literal (init_exp VVARARG at_pc) prop
  | Tchar "{" =>   (* constructor *)
      let* v := constructor fuel in ret (v, prop)
  | TK_FUNCTION =>
      let* _ := luaX_next in
      let* ln := gets linenumber in
      body fuel false ln prop
  | Tchar "|" =>
      let* ln := gets linenumber in
      let* v := lambdabody fuel ln in ret (v, prop)
  | _ => suffixedexp fuel prop
  end.

(** ** Expression parsing *)

Definition cond : P Z :=
  (* cond -> exp *)
  let* (v, _) := rec_expr None in   (* read condition *)
  let v := if expkind_eqb (k v) VNIL then set_k VFALSE v else v in   (* 'falses' are all equal here *)
  let* v := callK (luaK_goiftrue v) in
  ret (e_f v).

(** The 'if' expression: [if cond then e1 else e2] (patch published by
    Ryota Hirose). *)
Definition ifexpr : P expdesc :=
  let escape := NO_JUMP in
  let* _ := luaX_next in
  let* condition := cond in
  let* _ := checknext TK_THEN in
  let* (v, _) := rec_expr None in
  let* (reg, v) := callK (luaK_exp2anyreg v) in
  let* j := onfs luaK_jump in
  let* escape := onfs (luaK_concat escape j) in
  let* _ := onfs_ (luaK_patchtohere condition) in
  let* _ := checknext TK_ELSE in
  let* (v, _) := rec_expr None in
  let* v := callK (luaK_exp2reg v reg) in
  let* _ := onfs_ (luaK_patchtohere escape) in
  ret v.

Definition inexpr (v : expdesc) : P expdesc :=
  let* _ := checknext TK_IN in
  let* (v2, _) := rec_expr None in
  let* v := callK (luaK_exp2nextreg v) in
  let* v2 := callK (luaK_exp2nextreg v2) in
  let* _ := onfs (luaK_codeABC OP_IN (u_info v) (u_info v2) 0) in
  callK (luaK_storevar v v).

Definition getunopr (op : Tok) : UnOpr :=
  match op with
  | TK_NOT => OPR_NOT
  | Tchar "-" => OPR_MINUS
  | Tchar "~" => OPR_BNOT
  | Tchar "#" => OPR_LEN
  | _ => OPR_NOUNOPR
  end.

Definition getbinopr (op : Tok) : BinOpr :=
  match op with
  | Tchar "+" => OPR_ADD
  | Tchar "-" => OPR_SUB
  | Tchar "*" => OPR_MUL
  | Tchar "%" => OPR_MOD
  | Tchar "^" => OPR_POW
  | Tchar "/" => OPR_DIV
  | TK_IDIV => OPR_IDIV
  | Tchar "&" => OPR_BAND
  | Tchar "|" => OPR_BOR
  | Tchar "~" => OPR_BXOR
  | TK_SHL => OPR_SHL
  | TK_SHR => OPR_SHR
  | TK_CONCAT => OPR_CONCAT
  | TK_NE => OPR_NE
  | TK_EQ => OPR_EQ
  | Tchar "<" => OPR_LT
  | TK_LE => OPR_LE
  | Tchar ">" => OPR_GT
  | TK_GE => OPR_GE
  | TK_AND => OPR_AND
  | TK_OR => OPR_OR
  | TK_COAL => OPR_COAL
  | TK_POW => OPR_POW   (* '**' operator support *)
  | _ => OPR_NOBINOPR
  end.

(** Priority table for binary operators: (left, right) priority for each
    binary operator, ORDER OPR. *)
Definition priority : list (nat * nat) :=
  [ (10, 10); (10, 10);           (* '+' '-' *)
    (11, 11); (11, 11);           (* '*' '%' *)
    (14, 13);                     (* '^' (right associative) *)
    (11, 11); (11, 11);           (* '/' '//' *)
    (6, 6); (4, 4); (5, 5);       (* '&' '|' '~' *)
    (7, 7); (7, 7);               (* '<<' '>>' *)
    (9, 8);                       (* '..' (right associative) *)
    (3, 3); (3, 3); (3, 3);       (* ==, <, <= *)
    (3, 3); (3, 3); (3, 3);       (* ~=, >, >= *)
    (2, 2); (1, 1); (1, 1)        (* and, or, ?? *)
  ]%nat.

(** [priority[op].left] and [priority[op].right] *)
Definition left (op : BinOpr) : nat :=
  fst (default (0, 0)%nat (priority !! BinOpr_index op)).
Definition right (op : BinOpr) : nat :=
  snd (default (0, 0)%nat (priority !! BinOpr_index op)).

(** priority for unary operators *)
Definition UNARY_PRIORITY : nat := 12.

(** The loop of subexpr: expand while operators have priorities higher than
    'limit'.  [sub] is the recursive call of subexpr, given the limit. *)
Fixpoint subexpr_loop (sub : nat -> P (BinOpr * expdesc * option lu_hint))
    (limit : nat) (fuel : nat) (op : BinOpr) (v : expdesc)
    : P (BinOpr * expdesc) :=
  match fuel with
  | O => out_of_fuel
  | S fuel' =>
      if negb (BinOpr_eqb op OPR_NOBINOPR) && (limit <? left op)%nat then
        let* line := gets linenumber in
        let* _ := luaX_next in   (* skip operator *)
        let* v := callK (luaK_infix op v) in
        (* read sub-expression with higher priority *)
        let* (nextop, v2, _) := sub (right op) in
        let* v := callK (luaK_posfix op v v2 line) in
        subexpr_loop sub limit fuel' nextop v
      else ret (op, v)
  end.

(** subexpr -> (simpleexp | unop subexpr) { binop subexpr }
    where 'binop' is any binary operator with a priority higher than 'limit'.
    The result is the first untreated operator, the expression 'v' and the
    content of 'prop'. *)
Fixpoint subexpr (fuel : nat) (limit : nat) (prop : option lu_hint)
    : P (BinOpr * expdesc * option lu_hint) :=
  match fuel with
  | O => out_of_fuel
  | S fuel' =>
      let* _ := enterlevel in
      let* tk := gett in
      let uop := getunopr tk in
      let* (v, prop) :=
        (if negb (UnOpr_eqb uop OPR_NOUNOPR) then   (* prefix (unary) operator? *)
           let* line := gets linenumber in
           let* _ := luaX_next in   (* skip operator *)
           let* (_, v, _) := subexpr fuel' UNARY_PRIORITY None in
           let* v := callK (luaK_prefix uop v line) in
           ret (v, prop)
         else if tok_eqb tk TK_IF then
           let* v := ifexpr in ret (v, prop)
         else if tok_eqb tk (Tchar "+") then
           (* support pseudo-unary '+' by implying '0 + subexpr' *)
           let v := set_u_ival 0 (init_exp VKINT 0) in
           let* v := callK (luaK_infix OPR_ADD v) in
           let* line := gets linenumber in
           let* _ := luaX_next in   (* skip '+' *)
           let* (_, v2, _) := subexpr fuel' (right OPR_ADD) None in
           let* v := callK (luaK_posfix OPR_ADD v v2 line) in
           ret (v, prop)
         else
           let* (v, prop) := simpleexp fuel' false prop in
           let* tk := gett in
           if tok_eqb tk TK_IN then
             let* v := inexpr v in
             ret (v, wr prop (HK VTRUE))
           else ret (v, prop)) in
      let* tk := gett in
      let* (op, v) :=
        subexpr_loop (fun lim => subexpr fuel' lim None) limit fuel (getbinopr tk) v in
      let* _ := leavelevel in
      ret (op, v, prop)   (* return first untreated operator *)
  end.


(** ** Rules for statements *)

Definition block (fuel : nat) : P unit :=
  (* block -> statlist *)
  let* _ := enterblock false in
  let* _ := statlist fuel None in
  leaveblock.

(** Modelled from the spec: vkisvar and vkisindexed are macros of lparser.h,
    not under src/.  The expression kinds that denote variables are Local,
    Upvalue, Const and the four indexed forms; the indexed forms are
    Indexed, IndexUp, IndexInt and IndexStr. *)
Definition vkisindexed (kd : expkind) : bool :=
  match kd with
  | VINDEXED | VINDEXUP | VINDEXI | VINDEXSTR => true
  | _ => false
  end.

Definition vkisvar (kd : expkind) : bool :=
  match kd with
  | VLOCAL | VUPVAL | VCONST => true
  | _ => vkisindexed kd
  end.

(** One step of the loop of check_conflict on the left-hand side 'lh'. *)
Definition conflict1 (extra : Z) (v lh : expdesc) : bool * expdesc :=
  if vkisindexed (k lh) then   (* assignment to table field? *)
    if expkind_eqb (k lh) VINDEXUP then   (* is table an upvalue? *)
      if expkind_eqb (k v) VUPVAL && (u_ind_t lh =? u_info v)%Z then
        (* table is the upvalue being assigned now;
           assignment will use safe copy *)
        (true, set_u_ind extra (u_ind_idx lh) (set_k VINDEXSTR lh))
      else (false, lh)
    else   (* table is a register *)
      let (c1, lh1) :=
        if expkind_eqb (k v) VLOCAL && (u_ind_t lh =? u_var_ridx v)%Z then
          (* table is the local being assigned now *)
          (true, set_u_ind extra (u_ind_idx lh) lh)
        else (false, lh) in
      (* is index the local being assigned? *)
      if expkind_eqb (k lh1) VINDEXED && expkind_eqb (k v) VLOCAL
         && (u_ind_idx lh1 =? u_var_ridx v)%Z then
        (true, set_u_ind (u_ind_t lh1) extra lh1)   (* previous assignment will use safe copy *)
      else (c1, lh1)
  else (false, lh).

(** check whether, in an assignment to an upvalue/local variable, the
    upvalue/local variable is begin used in a previous assignment to a
    table. If so, save original upvalue/local value in a safe place and
    use this safe copy in the previous assignment.  The chain 'lh' is
    returned as the loop leaves it. *)
Definition check_conflict (lh : list expdesc) (v : expdesc) : P (list expdesc) :=
  let* s := gets cur_fs in
  let extra := freereg s in   (* eventual position to save local variable *)
  let r := map (conflict1 extra v) lh in   (* check all previous assignments *)
  let conflict := existsb fst r in
  let* _ :=
    (if conflict then
       (* copy upvalue/local value to a temporary (in position 'extra') *)
       let* _ := (if expkind_eqb (k v) VLOCAL
                  then onfs (luaK_codeABC OP_MOVE extra (u_var_ridx v) 0)
                  else onfs (luaK_codeABC OP_GETUPVAL extra (u_info v) 0)) in
       callK (luaK_reserveregs 1)
     else ret tt) in
  ret (map snd r).

(** gets the supported binary compound operation (if any)
    gives OPR_NOBINOPR if the operation does not have compound support.
    returns a status (0 false, 1 true) and the operation. *)
Definition getcompoundop : P (bool * BinOpr) :=
  let* lt := gets lasttoken in
  ret (match lt with
       | Some TK_CCAT => (true, OPR_CONCAT)   (* concatenation *)
       | Some TK_CADD => (true, OPR_ADD)      (* addition *)
       | Some TK_CSUB => (true, OPR_SUB)      (* subtraction *)
       | Some TK_CMUL => (true, OPR_MUL)      (* multiplication *)
       | Some TK_CMOD => (true, OPR_MOD)      (* modulo *)
       | Some TK_CDIV => (true, OPR_DIV)      (* float division *)
       | Some TK_CPOW => (true, OPR_POW)      (* power *)
       | Some TK_CIDIV => (true, OPR_IDIV)    (* integer division *)
       | Some TK_CBOR => (true, OPR_BOR)      (* bitwise OR *)
       | Some TK_CBAND => (true, OPR_BAND)    (* bitwise AND *)
       | Some TK_CBXOR => (true, OPR_BXOR)    (* bitwise XOR *)
       | Some TK_CSHL => (true, OPR_SHL)      (* shift left *)
       | Some TK_CSHR => (true, OPR_SHR)      (* shift right *)
       | Some TK_COAL => (true, OPR_COAL)
       | _ => (false, OPR_NOBINOPR)
       end).

(** compound assignment function
    determines the binary operation to perform depending on lexer state tokens (ls->lasttoken)
    resets the lexer state token
    reserves N registers (where N = local variables on stack)
    preforms binary operation and assignment *)
Definition compoundassign (v : expdesc) (op : BinOpr) : P unit :=
  let* _ := luaX_next in
  let* line := gets linenumber in
  let e := v in
  if negb (expkind_eqb (k v) VLOCAL) then
    (* complex lvalue, use a temporary register *)
    let* s := gets cur_fs in
    let* _ := callK (luaK_reserveregs (freereg s - Z.of_nat (nactvar s))) in
    let* _ := enterlevel in
    let* e := callK (luaK_infix op e) in
    let* (v2, _) := rec_expr None in
    let* e := callK (luaK_posfix op e v2 line) in
    let* _ := leavelevel in
    let* e := callK (luaK_exp2nextreg e) in
    let* e := callK (luaK_setoneret e) in
    let* _ := callK (luaK_storevar v e) in
    ret tt
  else
    (* simple lvalue; a local. directly change value *)
    let* _ := enterlevel in
    let* e := callK (luaK_infix op e) in
    let* (v2, _) := rec_expr None in
    let* e := callK (luaK_posfix op e v2 line) in
    let* _ := leavelevel in
    let* e := callK (luaK_setoneret e) in
    let* _ := callK (luaK_storevar v e) in
    ret tt.


(** Adjust the number of results from an expression list 'e' with 'nexps'
    expressions to 'nvars' values. *)
Definition adjust_assign (nvars nexps : nat) (e : expdesc) : P unit :=
  let needed := Z.of_nat nvars - Z.of_nat nexps in   (* extra values needed *)
  let* _ :=
    (if hasmultret (k e) then   (* last expression has multiple returns? *)
       let extra := needed + 1 in   (* discount last expression itself *)
       let extra := if (extra <? 0)%Z then 0 else extra in
       callK (luaK_setreturns e extra)   (* last exp. provides the difference *)
     else
       let* _ := (if negb (expkind_eqb (k e) VVOID)   (* at least one expression? *)
                  then let* _ := callK (luaK_exp2nextreg e) in ret tt   (* close last expression *)
                  else ret tt) in
       if (needed >? 0)%Z then   (* missing values? *)
         let* s := gets cur_fs in
         callK (luaK_nil (freereg s) needed)   (* complete with nils *)
       else ret tt) in
  if (needed >? 0)%Z then
    callK (luaK_reserveregs needed)   (* registers for extra values *)
  else   (* adding 'needed' is actually a subtraction *)
    onfs_ (fun s => set_freereg (wrap8 (freereg s + needed)) s).   (* remove extra values *)

(** restassign declares [lu_byte prop;] without a value: what the byte holds
    when no expression writes it is not defined by the source; the model
    takes 0xFF. *)
Definition uninitialized_hint : lu_hint := H_FF.

(** The error raised for a compound assignment with several targets. *)
Definition UnsupportedTupleAssignment : error :=
  E_syntax "unsupported tuple assignment".

(** assignment function
    handles every Lua assignment
    special cases for compound operators via lexer state tokens (ls->lasttoken).
    'lh' is the variable of the node, 'prevs' the variables of the nodes
    lh->prev, ...; the result is 'prevs' as the call leaves it. *)
Fixpoint restassign (fuel : nat) (lh : expdesc) (prevs : list expdesc)
    (nvars : nat) : P (list expdesc) :=
  match fuel with
  | O => out_of_fuel
  | S fuel' =>
      let default_assignment (lh : expdesc) : P unit :=
        let* s := gets cur_fs in
        let e := init_exp VNONRELOC (freereg s - 1) in   (* default assignment *)
        let* _ := callK (luaK_storevar lh e) in
        ret tt in
      let* _ := check_condition (vkisvar (k lh)) "syntax error" in
      let* _ := check_readonly lh in
      let* comma := testnext (Tchar ",") in
      if comma then   (* restassign -> ',' suffixedexp restassign *)
        let* (nv, _) := suffixedexp fuel' None in
        let* chain :=
          (if negb (vkisindexed (k nv)) then check_conflict (lh :: prevs) nv
           else ret (lh :: prevs)) in
        let* _ := enterlevel in   (* control recursion depth *)
        let* chain := restassign fuel' nv chain (S nvars) in
        let* _ := leavelevel in
        let* _ := default_assignment (default lh (head chain)) in
        ret (tail chain)
      else   (* restassign -> '=' explist *)
        let* token_ := gets lasttoken in   (* lexer state token *)
        let* (has, op) := getcompoundop in
        if (match token_ with Some _ => true | None => false end) && has then
          (* is there a saved binop? *)
          let* _ := check_condition (Nat.eqb nvars 1) "unsupported tuple assignment" in
          let* _ := compoundassign lh op in   (* perform binop & assignment *)
          let* _ := modify (set_lasttoken None) in   (* clear last token from lexer state *)
          ret prevs   (* avoid default *)
        else
          let* eq := testnext (Tchar "=") in
          if eq then   (* no requested binop, continue *)
            let* (nexps, e, prop) := explist fuel' (Some uninitialized_hint) in
            if negb (Nat.eqb nexps nvars) then
              let* _ := adjust_assign nvars nexps e in
              let* _ := default_assignment lh in
              ret prevs
            else
              let* e := callK (luaK_setoneret e) in   (* close last expression *)
              let* _ :=
                (if expkind_eqb (k lh) VLOCAL then   (* assigning to a local variable? *)
                   process_assign (u_var_vidx lh) (default H_FF prop)
                 else ret tt) in
              let* _ := callK (luaK_storevar lh e) in
              ret prevs   (* avoid default *)
          else
            let* _ := default_assignment lh in
            ret prevs
  end.

Definition gotostat : P unit :=
  let* line := gets linenumber in
  let* name := str_checkname false in   (* label's name *)
  let* lb := findlabel name in
  match lb with
  | None =>   (* no label? *)
      (* forward jump; will be resolved when the label is declared *)
      let* j := onfs luaK_jump in
      let* _ := newgotoentry name line j in
      ret tt
  | Some lb =>   (* found a label *)
      (* backward jump; will be resolved here *)
      let* ls := get in
      let s := cur_fs ls in
      let lblevel := reglevel (dyd ls) s (lb_nactvar lb) in   (* label level *)
      let* _ := (if (luaY_nvarstack (dyd ls) s >? lblevel)%Z   (* leaving the scope of a variable? *)
                 then let* _ := onfs (luaK_codeABC OP_CLOSE lblevel 0 0) in ret tt
                 else ret tt) in
      (* create jump and link it to the label *)
      let* j := onfs luaK_jump in
      onfs_ (luaK_patchlist j (lb_pc lb))
  end.

(** Break statement. Semantically equivalent to "goto break". *)
Definition breakstat : P unit :=
  let* line := gets linenumber in
  let* _ := luaX_next in   (* skip break *)
  let* j := onfs luaK_jump in
  let* _ := newgotoentry "break" line j in
  ret tt.

(** The search loop of continuestat along the chain of blocks: the position
    in the chain of the block it stops at (None for the null pointer) and the
    value of 'upval'. *)
Fixpoint continue_search (bls : list BlockCnt) (pos : nat) (backwards : lua_Integer)
    (upv : bool) : option nat * bool :=
  match bls with
  | [] => (None, upv)
  | b :: previous =>
      if negb (isloop b) then   (* not a loop, continue search *)
        (* amend upvalues for closing; jump back current blocks to find the loop *)
        continue_search previous (S pos) backwards (upv || upval b)
      else   (* found a loop *)
        let backwards := wrap64 (backwards - 1) in
        if (backwards =? 0)%Z then (Some pos, upv)   (* this is our loop *)
        else   (* continue search *)
          continue_search previous (S pos) backwards (upv || upval b)
  end.

(** Continue statement. Semantically similar to "goto continue".
    Unlike break, this doesn't use labels. It tracks where to jump via
    BlockCnt.scopeend. *)
Definition continuestat : P unit :=
  let* s := gets cur_fs in
  let bls := bl s in
  let* _ := luaX_next in   (* skip TK_CONTINUE *)
  let* tk := gets ls_t in
  let* backwards :=
    (if tok_eqb (token tk) TK_INT then
       let* _ := luaX_next in ret (seminfo_i tk)
     else ret 1) in
  match continue_search bls 0 backwards false with
  | (Some pos, upv) =>
      let b := default BlockCnt0 (bls !! pos) in
      let* _ := (if upv   (* close upvalues *)
                 then let* _ := onfs (luaK_codeABC OP_CLOSE (Z.of_nat (bl_nactvar b)) 0 0) in ret tt
                 else ret tt) in
      let* j := onfs luaK_jump in
      let* l := onfs (luaK_concat (scopeend b) j) in
      onfs_ (fun s => set_bl (alter (set_scopeend l) pos (bl s)) s)
  | (None, _) => error_expected TK_CONTINUE
  end.

(** Check whether there is already a label with the given 'name'. *)
Definition checkrepeated (name : TString) : P unit :=
  let* lb := findlabel name in
  match lb with
  | Some lb => throw (E_repeated name (lb_line lb))   (* already defined *)
  | None => ret tt
  end.

Fixpoint labelstat_skip (fuel : nat) : P unit :=
  match fuel with
  | O => out_of_fuel
  | S fuel' =>
      let* tk := gett in
      if tok_eqb tk (Tchar ";") || tok_eqb tk TK_DBCOLON then
        let* _ := rec_statement None in   (* skip other no-op statements *)
        labelstat_skip fuel'
      else ret tt
  end.

Definition labelstat (fuel : nat) (name : TString) (line : Z) : P unit :=
  (* label -> '::' NAME '::' *)
  let* _ := checknext TK_DBCOLON in   (* skip double colon *)
  let* _ := labelstat_skip fuel in
  let* _ := checkrepeated name in   (* check for repeated labels *)
  let* last := block_follow false in
  let* _ := createlabel name line last in
  ret tt.


(** ** Loops and conditionals *)

(** A function that looks at its local BlockCnt after parsing the body of
    the block reads the innermost block: the blocks entered inside the body
    have been left by then. *)
Definition whilestat (fuel : nat) (line : Z) : P unit :=
  (* whilestat -> WHILE cond DO block END *)
  let* _ := luaX_next in   (* skip WHILE *)
  let* whileinit := gets (fun ls => luaK_getlabel (cur_fs ls)) in
  let* condexit := cond in
  let* _ := enterblock true in
  let* _ := checknext TK_DO in
  let* _ := block fuel in
  let* _ := onfs_ (luaK_jumpto whileinit) in
  let* b := gets (fun ls => cur_bl (cur_fs ls)) in
  let* _ := onfs_ (luaK_patchlist (scopeend b) whileinit) in
  let* _ := check_match TK_END TK_WHILE line in
  let* _ := leaveblock in
  onfs_ (luaK_patchtohere condexit).   (* false conditions finish the loop *)

Definition repeatstat (fuel : nat) : P unit :=
  (* repeatstat -> REPEAT block ( UNTIL | WHEN ) cond *)
  let* repeat_init := gets (fun ls => luaK_getlabel (cur_fs ls)) in
  let* _ := enterblock true in    (* loop block *)
  let* _ := enterblock false in   (* scope block *)
  let* _ := luaX_next in   (* skip REPEAT *)
  let* _ := statlist fuel None in
  let* bl1 := gets (fun ls => default BlockCnt0 (bl (cur_fs ls) !! 1%nat)) in
  let* _ := onfs_ (luaK_patchtohere (scopeend bl1)) in
  let* u := testnext TK_UNTIL in
  let* condexit :=
    (if u then cond   (* read condition (inside scope block) *)
     else
       let* w := testnext2 TK_PWHEN TK_WHEN in
       if w then
         let* (v, _) := rec_expr None in   (* read condition *)
         let v := if expkind_eqb (k v) VNIL then set_k VFALSE v else v in
         let* v := callK (luaK_goiffalse v) in
         ret (e_t v)
       else error_expected TK_UNTIL) in
  let* bl2 := gets (fun ls => cur_bl (cur_fs ls)) in
  let* _ := leaveblock in   (* finish scope *)
  let* condexit :=
    (if upval bl2 then   (* upvalues? *)
       let* exit_ := onfs luaK_jump in   (* normal exit must jump over fix *)
       let* _ := onfs_ (luaK_patchtohere condexit) in   (* repetition must close upvalues *)
       let* ls := get in
       let* _ := onfs (luaK_codeABC OP_CLOSE
                         (reglevel (dyd ls) (cur_fs ls) (bl_nactvar bl2)) 0 0) in
       let* condexit := onfs luaK_jump in   (* repeat after closing upvalues *)
       let* _ := onfs_ (luaK_patchtohere exit_) in   (* normal exit comes to here *)
       ret condexit
     else ret condexit) in
  let* _ := onfs_ (luaK_patchlist condexit repeat_init) in   (* close the loop *)
  leaveblock.   (* finish loop *)

(** Read an expression and generate code to put its results in next
    stack slot. *)
Definition exp1 : P unit :=
  let* (e, _) := rec_expr None in
  let* _ := callK (luaK_exp2nextreg e) in
  ret tt.

(** Modelled from the spec: MAXARG_Bx is a constant of lopcodes.h, not under
    src/ (the error kind ControlStructureTooLong); the value is Lua's. *)
Definition MAXARG_Bx : Z := 2 ^ 17 - 1.

(** Fix for instruction at position 'pc' to jump to 'dest'.
    (Jump addresses are relative in Lua). 'back' true means
    a back jump. *)
Definition fixforjump (at_pc dest : Z) (back : bool) : P unit :=
  let offset := dest - (at_pc + 1) in
  let offset := if back then - offset else offset in
  if (offset >? MAXARG_Bx)%Z then throw (E_syntax "control structure too long")
  else onfs_ (add_fixup (FixForJump at_pc dest back)).

(** Generate code for a 'for' loop. *)
Definition forbody (fuel : nat) (base line : Z) (nvars : nat) (isgen : bool) : P unit :=
  (* forbody -> DO block *)
  let forprep := if isgen then OP_TFORPREP else OP_FORPREP in
  let forloop := if isgen then OP_TFORLOOP else OP_FORLOOP in
  let* _ := checknext TK_DO in
  let* prep := onfs (luaK_codeABx forprep base 0) in
  let* _ := enterblock false in   (* scope for declared variables *)
  let* _ := adjustlocalvars nvars in
  let* _ := callK (luaK_reserveregs (Z.of_nat nvars)) in
  let* _ := block fuel in
  let* _ := leaveblock in   (* end of scope for declared variables *)
  let* here := gets (fun ls => luaK_getlabel (cur_fs ls)) in
  let* _ := fixforjump prep here false in
  let* b := gets (fun ls => cur_bl (cur_fs ls)) in
  let* _ := onfs_ (luaK_patchtohere (scopeend b)) in
  let* _ :=
    (if isgen then   (* generic for? *)
       let* _ := onfs (luaK_codeABC OP_TFORCALL base 0 (Z.of_nat nvars)) in
       onfs_ (luaK_fixline line)
     else ret tt) in
  let* endfor := onfs (luaK_codeABx forloop base 0) in
  let* _ := fixforjump endfor (prep + 1) true in
  onfs_ (luaK_fixline line).

Definition fornum (fuel : nat) (varname_ : TString) (line : Z) : P unit :=
  (* fornum -> NAME = exp,exp[,exp] forbody *)
  let* base := gets (fun ls => freereg (cur_fs ls)) in
  let* _ := new_localvar "(for state)" in
  let* _ := new_localvar "(for state)" in
  let* _ := new_localvar "(for state)" in
  let* _ := new_localvar varname_ in
  let* _ := checknext (Tchar "=") in
  let* _ := exp1 in   (* initial value *)
  let* _ := checknext (Tchar ",") in
  let* _ := exp1 in   (* limit *)
  let* c := testnext (Tchar ",") in
  let* _ :=
    (if c then exp1   (* optional step *)
     else   (* default step = 1 *)
       let* s := gets cur_fs in
       let* _ := callK (luaK_int (freereg s) 1) in
       callK (luaK_reserveregs 1)) in
  let* _ := adjustlocalvars 3 in   (* control variables *)
  forbody fuel base line 1 false.

Fixpoint forlist_names (fuel : nat) (nvars : nat) : P nat :=
  match fuel with
  | O => out_of_fuel
  | S fuel' =>
      let* c := testnext (Tchar ",") in
      if c then
        let* name := str_checkname false in
        let* _ := new_localvar name in
        forlist_names fuel' (S nvars)
      else ret nvars
  end.

Definition forlist (fuel : nat) (indexname : TString) : P unit :=
  (* forlist -> NAME {,NAME} IN explist forbody *)
  let* base := gets (fun ls => freereg (cur_fs ls)) in
  (* create control variables *)
  let* _ := new_localvar "(for state)" in
  let* _ := new_localvar "(for state)" in
  let* _ := new_localvar "(for state)" in
  let* _ := new_localvar "(for state)" in
  (* create declared variables *)
  let* _ := new_localvar indexname in
  let* nvars := forlist_names fuel 5 in   (* gen, state, control, toclose, 'indexname' *)
  let* _ := checknext TK_IN in
  let* line := gets linenumber in
  let* (nexps, e, _) := explist fuel None in
  let* _ := adjust_assign 4 nexps e in
  let* _ := adjustlocalvars 4 in   (* control variables *)
  let* _ := onfs_ marktobeclosed in   (* last control var. must be closed *)
  let* _ := callK (luaK_checkstack 3) in   (* extra space to call generator *)
  forbody fuel base line (nvars - 4) true.

Definition forstat (fuel : nat) (line : Z) : P unit :=
  (* forstat -> FOR (fornum | forlist) END *)
  let* _ := enterblock true in   (* scope for loop and control variables *)
  let* _ := luaX_next in   (* skip 'for' *)
  let* varname_ := str_checkname false in   (* first variable name *)
  let* tk := gett in
  let* _ :=
    match tk with
    | Tchar "=" => fornum fuel varname_ line
    | Tchar "," | TK_IN => forlist fuel varname_
    | _ => throw (E_syntax "'=' or 'in' expected")
    end in
  let* _ := check_match TK_END TK_FOR line in
  leaveblock.   (* loop scope ('break' jumps to this point) *)

Fixpoint skip_semicolons (fuel : nat) : P unit :=
  match fuel with
  | O => out_of_fuel
  | S fuel' =>
      let* b := testnext (Tchar ";") in
      if b then skip_semicolons fuel' else ret tt
  end.

(** The results are the escape list and the content of 'prop'. *)
Definition test_then_block (fuel : nat) (escapelist : Z) (prop : option lu_hint)
    : P (Z * option lu_hint) :=
  (* test_then_block -> [IF | ELSEIF] cond THEN block *)
  let* _ := luaX_next in   (* skip IF or ELSEIF *)
  let* (v, _) := rec_expr None in   (* read condition *)
  let* _ := checknext TK_THEN in
  let* tk := gett in
  let then_part (jf : Z) : P (Z * option lu_hint) :=
    let* prop := statlist fuel prop in   (* 'then' part *)
    let* _ := leaveblock in
    let* tk := gett in
    let* escapelist :=
      (if tok_eqb tk TK_ELSE || tok_eqb tk TK_ELSEIF   (* followed by 'else'/'elseif'? *)
       then let* j := onfs luaK_jump in
            onfs (luaK_concat escapelist j)   (* must jump over it *)
       else ret escapelist) in
    let* _ := onfs_ (luaK_patchtohere jf) in
    ret (escapelist, prop) in
  if tok_eqb tk TK_BREAK then   (* 'if x then break' ? *)
    let* line := gets linenumber in
    let* v := callK (luaK_goiffalse v) in   (* will jump if condition is true *)
    let* _ := luaX_next in   (* skip 'break' *)
    let* _ := enterblock false in   (* must enter block before 'goto' *)
    let* _ := newgotoentry "break" line (e_t v) in
    let* _ := skip_semicolons fuel in   (* skip semicolons *)
    let* bf := block_follow false in
    if bf then   (* jump is the entire block? *)
      let* _ := leaveblock in
      ret (escapelist, prop)   (* and that is it *)
    else   (* must skip over 'then' part if condition is false *)
      let* jf := onfs luaK_jump in
      then_part jf
  else   (* regular case (not a break) *)
    let* v := callK (luaK_goiftrue v) in   (* skip over block if condition is false *)
    let* _ := enterblock false in
    then_part (e_f v).

Fixpoint ifstat_elseifs (fuel : nat) (escapelist : Z) (prop : option lu_hint)
    : P (Z * option lu_hint) :=
  match fuel with
  | O => out_of_fuel
  | S fuel' =>
      let* tk := gett in
      if tok_eqb tk TK_ELSEIF then
        let* (escapelist, prop) := test_then_block fuel' escapelist prop in   (* ELSEIF cond THEN block *)
        ifstat_elseifs fuel' escapelist prop
      else ret (escapelist, prop)
  end.

Definition ifstat (fuel : nat) (line : Z) (prop : option lu_hint) : P (option lu_hint) :=
  (* ifstat -> IF cond THEN block {ELSEIF cond THEN block} [ELSE block] END *)
  let escapelist := NO_JUMP in   (* exit list for finished parts *)
  let* (escapelist, prop) := test_then_block fuel escapelist prop in   (* IF cond THEN block *)
  let* (escapelist, prop) := ifstat_elseifs fuel escapelist prop in
  let* e := testnext TK_ELSE in
  let* _ := (if e then block fuel else ret tt) in   (* 'else' part *)
  let* _ := check_match TK_END TK_IF line in
  let* _ := onfs_ (luaK_patchtohere escapelist) in   (* patch escape list to 'if' end *)
  ret prop.


(** ** Declarations, calls and returns *)

Definition localfunc (fuel : nat) : P unit :=
  let* fvar := gets (fun ls => nactvar (cur_fs ls)) in   (* function's variable index *)
  let* name := str_checkname true in
  let* _ := new_localvar name in   (* new local variable *)
  let* _ := adjustlocalvars 1 in   (* enter its scope *)
  let* ls := get in
  let* ln := gets linenumber in
  (* function created in next register; 'prop' points to the variable's typeprop *)
  let* (b, prop) := body fuel false ln
                      (Some (vd_typeprop (getlocalvardesc (dyd ls) (cur_fs ls) fvar))) in
  let* _ := modify (fun ls => upd_dyd (fun d =>
              setlocalvardesc (cur_fs ls) fvar
                (set_vd_typeprop (default H_FF prop) (getlocalvardesc d (cur_fs ls) fvar)) d) ls) in
  (* debug information will only see the variable after this point! *)
  let* ls := get in
  match localdebuginfo (dyd ls) (cur_fs ls) fvar with
  | Some pidx =>
      onfs_ (fun s => set_fs_f (set_p_locvars
                                  (alter (set_startpc (pc s)) pidx (p_locvars (fs_f s)))
                                  (fs_f s)) s)
  | None => ret tt
  end.

Definition getlocalattribute : P varkind :=
  (* ATTRIB -> ['<' Name '>'] *)
  let* b := testnext (Tchar "<") in
  if b then
    let* attr := str_checkname false in
    let* _ := checknext (Tchar ">") in
    if String.eqb attr "const" then ret RDKCONST   (* read-only variable *)
    else if String.eqb attr "close" then ret RDKTOCLOSE   (* to-be-closed variable *)
    else throw (E_attribute attr)
  else ret VDKREG.   (* regular variable *)

(** 'level' is None for -1. *)
Definition checktoclose (level : option nat) : P unit :=
  match level with
  | Some level =>   (* is there a to-be-closed variable? *)
      let* _ := onfs_ marktobeclosed in
      let* ls := get in
      let* _ := onfs (luaK_codeABC OP_TBC (reglevel (dyd ls) (cur_fs ls) level) 0 0) in
      ret tt
  | None => ret tt
  end.

(** The loop of localstat: the index of the last variable, the number of
    variables and the index of the to-be-closed variable. *)
Fixpoint localstat_names (fuel : nat) (nvars : nat) (toclose : option nat)
    : P (nat * nat * option nat) :=
  match fuel with
  | O => out_of_fuel
  | S fuel' =>
      let* name := str_checkname true in
      let* vidx := new_localvar name in
      let* typehint := gettypehint in
      let* kind := getlocalattribute in
      let* _ := modify (fun ls => upd_dyd (fun d =>
                  setlocalvardesc (cur_fs ls) vidx
                    (set_vd_typehint typehint
                       (set_vd_kind kind (getlocalvardesc d (cur_fs ls) vidx))) d) ls) in
      let* toclose :=
        (if varkind_eqb kind RDKTOCLOSE then   (* to-be-closed? *)
           match toclose with
           | Some _ =>   (* one already present? *)
               throw (E_semantic "multiple to-be-closed variables in local list")
           | None =>
               let* n := gets (fun ls => nactvar (cur_fs ls)) in
               ret (Some (n + nvars)%nat)
           end
         else ret toclose) in
      let nvars := S nvars in
      let* c := testnext (Tchar ",") in
      if c then localstat_names fuel' nvars toclose
      else ret (vidx, nvars, toclose)
  end.

Definition localstat (fuel : nat) : P unit :=
  (* stat -> LOCAL NAME ATTRIB { ',' NAME ATTRIB } ['=' explist] *)
  let* (vidx, nvars, toclose) := localstat_names fuel 0 None in
  let prop := H_FF in
  let* eq := testnext (Tchar "=") in
  let* (nexps, e, prop) :=
    (if eq then
       let* (nexps, e, prop) := explist fuel (Some prop) in
       ret (nexps, e, default H_FF prop)
     else ret (0%nat, init_exp VVOID 0, prop)) in
  let* ls := get in
  let var := getlocalvardesc (dyd ls) (cur_fs ls) vidx in
  let const_value :=
    if Nat.eqb nvars nexps   (* no adjustments? *)
       && varkind_eqb (vd_kind var) RDKCONST   (* last variable is const? *)
    then luaK_exp2const e (dyd ls) (cur_fs ls)   (* compile-time constant? *)
    else None in
  let* _ :=
    match const_value with
    | Some value =>
        (* variable is a compile-time constant *)
        let* _ := modify (upd_dyd (setlocalvardesc (cur_fs ls) vidx
                            (set_vd_kind RDKCTC (set_vd_value (Some value) var)))) in
        let* _ := adjustlocalvars (nvars - 1) in   (* exclude last variable *)
        onfs_ (fun s => set_nactvar (S (nactvar s)) s)   (* but count it *)
    | None =>
        let* _ := (if Nat.eqb nexps 1 then process_assign vidx prop else ret tt) in
        let* _ := adjust_assign nvars nexps e in
        adjustlocalvars nvars
    end in
  checktoclose toclose.

Fixpoint funcname_fields (fuel : nat) (v : expdesc) : P expdesc :=
  match fuel with
  | O => out_of_fuel
  | S fuel' =>
      let* tk := gett in
      if tok_eqb tk (Tchar ".") then
        let* v := fieldsel v in funcname_fields fuel' v
      else ret v
  end.

Definition funcname (fuel : nat) : P (bool * expdesc) :=
  (* funcname -> NAME {fieldsel} [':' NAME] *)
  let* v := singlevar in
  let* v := funcname_fields fuel v in
  let* tk := gett in
  if tok_eqb tk (Tchar ":") then
    let* v := fieldsel v in ret (true, v)
  else ret (false, v).

Definition funcstat (fuel : nat) (line : Z) : P unit :=
  (* funcstat -> FUNCTION funcname body *)
  let* _ := luaX_next in   (* skip FUNCTION *)
  let* (ismethod, v) := funcname fuel in
  let* (b, _) := body fuel ismethod line None in
  let* _ := check_readonly v in
  let* _ := callK (luaK_storevar v b) in
  onfs_ (luaK_fixline line).   (* definition "happens" in the first line *)

Definition exprstat (fuel : nat) : P unit :=
  (* stat -> func | assignment *)
  let* (v, _) := suffixedexp fuel None in
  let* tk := gett in
  if tok_eqb tk (Tchar "=") || tok_eqb tk (Tchar ",") then   (* stat -> assignment ? *)
    let* _ := restassign fuel v [] 1 in
    ret tt
  else   (* stat -> func *)
    let* _ := check_condition (expkind_eqb (k v) VCALL) "syntax error" in
    onfs_ (add_fixup (FixSetArg (u_info v) "C" 1)).   (* call statement uses no results *)

Definition retstat (fuel : nat) (prop : option lu_hint) : P (option lu_hint) :=
  (* stat -> RETURN [explist] [';'] *)
  let* ls := get in
  let first := luaY_nvarstack (dyd ls) (cur_fs ls) in   (* first slot to be returned *)
  let* bf := block_follow true in
  let* tk := gett in
  let* (first, nret, prop) :=
    (if bf || tok_eqb tk (Tchar ";") then ret (first, 0, prop)   (* return no values *)
     else
       let* (nret, e, prop) := explist fuel prop in   (* optional return values *)
       if hasmultret (k e) then
         let* _ := callK (luaK_setreturns e LUA_MULTRET) in
         let* s := gets cur_fs in
         let* _ :=
           (if expkind_eqb (k e) VCALL && Nat.eqb nret 1
               && negb (insidetbc (cur_bl s))   (* tail call? *)
            then onfs_ (add_fixup (FixSetArg (u_info e) "OP_TAILCALL" 0))
            else ret tt) in
         ret (first, LUA_MULTRET, prop)   (* return all values *)
       else if Nat.eqb nret 1 then   (* only one single value? *)
         let* (r, _) := callK (luaK_exp2anyreg e) in   (* can use original slot *)
         ret (r, 1, prop)
       else   (* values must go to the top of the stack *)
         let* _ := callK (luaK_exp2nextreg e) in
         ret (first, Z.of_nat nret, prop)) in
  let* _ := callK (luaK_ret first nret) in
  let* _ := testnext (Tchar ";") in   (* skip optional semicolon *)
  ret prop.


(** ** The switch statement *)

(** The error raised for a 'case' whose expression is not constant. *)
Definition NonConstantCase : error :=
  E_throw "malformed 'case' expression." "expression must be compile-time constant.".

(** init_exp with kind VLOCAL writes u.info, which shares its storage with
    u.var: with the usual layout u.var.ridx is the low byte of the value and
    u.var.vidx its bits 16 to 31. *)
Definition init_exp_var (i : Z) : expdesc :=
  mkexpdesc VLOCAL 0 float0 "" i 0 0 (i mod 256) (Z.to_nat ((i / 65536) mod 65536))
    NO_JUMP NO_JUMP.

(** One round of the loop of switchstat: a 'case' and its body. *)
Definition switch_case (fuel : nat) (line : Z) (save : expdesc) : P unit :=
  let* caseline := gets linenumber in   (* Needed for errors. *)
  let* c := testnext2 TK_PCASE TK_CASE in
  let* _ := (if negb c then error_expected TK_CASE else ret tt) in
  let* m := testnext (Tchar "-") in
  let* lcase :=
    (if m then   (* Probably a negative constant. *)
       let* (lcase, _) := simpleexp fuel true None in
       match k lcase with
       | VKINT => ret (set_u_ival (wrap64 (u_ival lcase * -1)) lcase)
       | VKFLT => ret (set_u_nval (PrimFloat.mul (u_nval lcase)
                                     (PrimFloat.opp PrimFloat.one)) lcase)
       | _ =>   (* Why is there a unary '-' on a non-numeral type? *)
           throwerr "unexpected symbol in 'case' expression."
                    "unary '-' on non-numeral type."
       end
     else
       let* _ := testnext (Tchar "+") in   (* support pseudo-unary '+' *)
       let* (lcase, _) := simpleexp fuel true None in
       if negb (vkisconst (k lcase)) then
         let* _ := modify (set_linenumber caseline) in
         throw NonConstantCase
       else ret lcase) in
  let* _ := checknext (Tchar ":") in
  let* _ := enterblock false in
  let test := save in
  let* test := callK (luaK_infix OPR_NE test) in
  let* test := callK (luaK_posfix OPR_NE test lcase line) in
  let* _ := caselist fuel false in
  let* _ := leaveblock in
  let* tk := gett in
  let* _ :=
    (if tok_eqb tk TK_PCASE || tok_eqb tk TK_CASE then
       let* _ := onfs (luaK_code (isJ OP_JMP 2)) in ret tt   (* Fall-through. *)
     else ret tt) in
  onfs_ (luaK_patchtohere (u_info test)).   (* Jump statements if OP_NE, otherwise continue. *)

Fixpoint switch_cases (fuel : nat) (line : Z) (save : expdesc) : P unit :=
  match fuel with
  | O => out_of_fuel
  | S fuel' =>
      let* _ := switch_case fuel' line save in
      let* tk := gett in
      if negb (tok_eqb tk TK_END)
         && (negb (tok_eqb tk TK_PDEFAULT) && negb (tok_eqb tk TK_DEFAULT))
      then switch_cases fuel' line save
      else ret tt
  end.

(** The statements of switchstat up to the block of the switch: the control
    value is put in a register and becomes the local '(switch)', and the
    switch block is entered as a loop block. *)
Definition switch_head : P expdesc :=
  let* _ := luaX_next in   (* Skip switch statement. *)
  let* _ := testnext (Tchar "(") in
  let* (crtl, _) := rec_expr None in
  let* crtl := callK (luaK_exp2nextreg crtl) in
  let save := init_exp_var (u_info crtl) in
  let* _ := testnext (Tchar ")") in
  let* _ := checknext TK_DO in
  let* _ := new_localvar "(switch)" in   (* Save control value into a local. *)
  let* _ := adjustlocalvars 1 in
  let* _ := enterblock true in
  ret save.

Definition switchstat (fuel : nat) (line : Z) : P unit :=
  let* switchToken := gett in
  let* save := switch_head in
  let* _ := switch_cases fuel line save in
  let* d := testnext2 TK_PDEFAULT TK_DEFAULT in
  let* _ :=
    (if d then   (* Default case. *)
       let* _ := checknext (Tchar ":") in
       let* _ := enterblock false in
       let* _ := caselist fuel true in
       leaveblock
     else ret tt) in
  let* _ := check_match TK_END switchToken line in
  leaveblock.

(** ** Statements *)

(** The assertion before the last assignment
    ([maxstacksize >= freereg && freereg >= luaY_nvarstack]) is not executed
    in a release build and is not part of the model. *)
Definition statement (fuel : nat) (prop : option lu_hint) : P (option lu_hint) :=
  let* line := gets linenumber in   (* may be needed for error messages *)
  let* _ := enterlevel in
  let* tk := gett in
  let* prop :=
    match tk with
    | Tchar ";" =>   (* stat -> ';' (empty statement) *)
        let* _ := luaX_next in ret prop   (* skip ';' *)
    | TK_IF =>   (* stat -> ifstat *)
        ifstat fuel line prop
    | TK_WHILE =>   (* stat -> whilestat *)
        let* _ := whilestat fuel line in ret prop
    | TK_DO =>   (* stat -> DO block END *)
        let* _ := luaX_next in   (* skip DO *)
        let* _ := block fuel in
        let* _ := check_match TK_END TK_DO line in
        ret prop
    | TK_FOR =>   (* stat -> forstat *)
        let* _ := forstat fuel line in ret prop
    | TK_REPEAT =>   (* stat -> repeatstat *)
        let* _ := repeatstat fuel in ret prop
    | TK_FUNCTION =>   (* stat -> funcstat *)
        let* _ := funcstat fuel line in ret prop
    | TK_LOCAL =>   (* stat -> localstat *)
        let* _ := luaX_next in   (* skip LOCAL *)
        let* fn := testnext TK_FUNCTION in
        let* _ := (if fn then localfunc fuel   (* local function? *)
                   else localstat fuel) in
        ret prop
    | TK_DBCOLON =>   (* stat -> label *)
        let* _ := luaX_next in   (* skip double colon *)
        let* name := str_checkname false in
        let* _ := labelstat fuel name line in
        ret prop
    | TK_RETURN =>   (* stat -> retstat *)
        let* _ := luaX_next in   (* skip RETURN *)
        retstat fuel prop
    | TK_BREAK =>   (* stat -> breakstat *)
        let* _ := breakstat in ret prop
    | TK_CONTINUE | TK_PCONTINUE =>
        let* _ := continuestat in ret prop
    | TK_GOTO =>   (* stat -> 'goto' NAME *)
        let* _ := luaX_next in   (* skip 'goto' *)
        let* _ := gotostat in ret prop
    | TK_CASE | TK_PCASE =>
        throwerr "inappropriate 'case' statement." "outside of 'switch' block."
    | TK_DEFAULT | TK_PDEFAULT =>
        throwerr "inappropriate 'default' statement." "outside of 'switch' block."
    | TK_SWITCH | TK_PSWITCH =>
        let* _ := switchstat fuel line in ret prop
    | _ =>   (* stat -> func | assignment *)
        let* _ := exprstat fuel in ret prop
    end in
  let* _ := modify (fun ls =>
              upd_fs (fun s => set_freereg (luaY_nvarstack (dyd ls) s) s) ls) in   (* free registers *)
  let* _ := leavelevel in
  ret prop.

Definition expr (fuel : nat) (prop : option lu_hint) : P (expdesc * option lu_hint) :=
  let* (_, v, prop) := subexpr fuel 0 prop in
  ret (v, prop).

(** compiles the main function, which is a regular vararg function with an
    upvalue named LUA_ENV.  [fp] is the prototype luaY_parser made for it. *)
Definition mainfunc (fuel : nat) (fp : Proto) : P Proto :=
  let* _ := open_func fp in
  let* _ := setvararg 0 in   (* main function is always declared vararg *)
  let* envname := gets envn in
  (* ...set environment upvalue *)
  let* _ := onfs_ (fun s =>
              set_fs_f (set_p_upvalues (p_upvalues (fs_f s)
                                          ++ [mkUpvaldesc envname true 0 VDKREG])
                                       (fs_f s)) s) in
  let* _ := luaX_next in   (* read first token *)
  let* _ := statlist fuel None in   (* parse main body *)
  let* _ := check TK_EOS in
  close_func.

End Parser.

(** * The recursion of 'statement' and 'expr'

    [parser n] is the pair of the two recursive non-terminals with [n]
    nested calls left: the calls [rec_statement] and [rec_expr] of a rule
    are the functions of the level below. *)
Fixpoint parser {cg : CodeGen} (n : nat)
    : (option lu_hint -> P (option lu_hint))
      * (option lu_hint -> P (expdesc * option lu_hint)) :=
  match n with
  | O => (fun _ => out_of_fuel, fun _ => out_of_fuel)
  | S n' =>
      let r := parser n' in
      (statement (fst r) (snd r) n', expr (fst r) (snd r) n')
  end.

Definition parse_statement {cg : CodeGen} (n : nat)
    : option lu_hint -> P (option lu_hint) :=
  fst (parser n).

Definition parse_expr {cg : CodeGen} (n : nat)
    : option lu_hint -> P (expdesc * option lu_hint) :=
  snd (parser n).

(** The state luaY_parser makes for the scanner: [toks] is the stream of
    tokens the scanner will deliver, the three lists of the dynamic data are
    empty and no function is open. *)
Definition Token0 : Token := mkToken TK_EOS 0 float0 "" 1.

Definition luaX_setinput (toks : list Token) (name : string) : LexState :=
  mkLexState Token0 toks 1 None [] (mkDyndata [] 0 [] []) "_ENV" name 0 [].

Definition luaY_parser {cg : CodeGen} (fuel : nat) (toks : list Token)
    (name : string) : result Proto :=
  mainfunc (parse_statement fuel) fuel (set_p_source name Proto0)
    (luaX_setinput toks name).

(** * A code generator for examples

    Modelled from the spec: lcode.cpp is not under src/.  This instance
    follows the contracts of the emitter ("exp_to_next_reg(e): materialize at
    free_register, then increment it", "exp_to_any_reg(e) -> reg: materialize
    into some register, allocating one if necessary", "discharge_vars(e):
    collapse Local/Upvalue/indexed forms", "store_var(dst, src): emit store
    according to dst.kind") and records each operation as an [iOther]
    instruction.  It folds no constant and keeps no constant table: an
    operand is recorded by [operand].  The theorems below hold for every
    code generator; this one gives them concrete runs. *)
Module Emitter.

Definition operand (e : expdesc) : Z :=
  match k e with
  | VKINT => u_ival e
  | VLOCAL => - 1 - u_var_ridx e
  | _ => - 1 - u_info e
  end.

Definition emit (what : string) (args : list Z) (s : FuncState) : Z * FuncState :=
  luaK_code (iOther what args) s.

Definition reserveregs (n : Z) (d : Dyndata) (s : FuncState) : kres unit :=
  let top := freereg s + n in
  if (top >? 255)%Z then
    KErr (E_syntax "function or expression needs too many registers")
  else
    let f := if (p_maxstacksize (fs_f s) <? top)%Z
             then set_p_maxstacksize top (fs_f s) else fs_f s in
    KOk tt (set_freereg top (set_fs_f f s)).

Definition dischargevars (e : expdesc) (d : Dyndata) (s : FuncState) : kres expdesc :=
  match k e with
  | VLOCAL => KOk (set_u_info (u_var_ridx e) (set_k VNONRELOC e)) s
  | VUPVAL =>
      let (p, s1) := luaK_codeABC OP_GETUPVAL 0 (u_info e) 0 s in
      KOk (set_u_info p (set_k VRELOC e)) s1
  | VINDEXED | VINDEXUP | VINDEXI | VINDEXSTR =>
      let (p, s1) := emit "gettable" [u_ind_t e; u_ind_idx e] s in
      KOk (set_u_info p (set_k VRELOC e)) s1
  | VCALL => KOk (set_k VNONRELOC e) s
  | VVARARG => KOk (set_k VRELOC e) s
  | _ => KOk e s
  end.

(** free the register of [e] when it is a temporary *)
Definition freeexp (e : expdesc) (d : Dyndata) (s : FuncState) : FuncState :=
  if expkind_eqb (k e) VNONRELOC
     && (luaY_nvarstack d s <=? u_info e)%Z && (u_info e + 1 =? freereg s)%Z
  then set_freereg (u_info e) s else s.

Definition exp2reg (e : expdesc) (reg : Z) (d : Dyndata) (s : FuncState)
    : kres expdesc :=
  match dischargevars e d s with
  | KErr x => KErr x
  | KOk e1 s1 =>
      let s2 := if expkind_eqb (k e1) VNONRELOC && (u_info e1 =? reg)%Z then s1
                else snd (emit "load" [reg; operand e1] s1) in
      KOk (init_exp VNONRELOC reg) s2
  end.

Definition exp2nextreg (e : expdesc) (d : Dyndata) (s : FuncState) : kres expdesc :=
  match dischargevars e d s with
  | KErr x => KErr x
  | KOk e1 s1 =>
      let s2 := freeexp e1 d s1 in
      match reserveregs 1 d s2 with
      | KErr x => KErr x
      | KOk _ s3 => exp2reg e1 (freereg s3 - 1) d s3
      end
  end.

Definition exp2anyreg (e : expdesc) (d : Dyndata) (s : FuncState)
    : kres (Z * expdesc) :=
  match dischargevars e d s with
  | KErr x => KErr x
  | KOk e1 s1 =>
      if expkind_eqb (k e1) VNONRELOC then KOk (u_info e1, e1) s1
      else match exp2nextreg e1 d s1 with
           | KErr x => KErr x
           | KOk e2 s2 => KOk (u_info e2, e2) s2
           end
  end.

Definition exp2anyregup (e : expdesc) (d : Dyndata) (s : FuncState) : kres expdesc :=
  if expkind_eqb (k e) VUPVAL then KOk e s
  else match exp2anyreg e d s with
       | KErr x => KErr x
       | KOk (_, e1) s1 => KOk e1 s1
       end.

Definition posfix (op : BinOpr) (e1 e2 : expdesc) (line : Z) (d : Dyndata)
    (s : FuncState) : kres expdesc :=
  let s1 := freeexp e1 d (freeexp e2 d s) in
  let (p, s2) := emit "binop" [Z.of_nat (BinOpr_index op); operand e1; operand e2] s1 in
  KOk (init_exp VRELOC p) s2.

Definition prefix (op : UnOpr) (e : expdesc) (line : Z) (d : Dyndata)
    (s : FuncState) : kres expdesc :=
  let s1 := freeexp e d s in
  let (p, s2) := emit "unop" [operand e] s1 in
  KOk (init_exp VRELOC p) s2.

Definition storevar (var ex : expdesc) (d : Dyndata) (s : FuncState) : kres expdesc :=
  let s1 := freeexp ex d s in
  KOk ex (snd (emit "store" [operand var; operand ex] s1)).

Definition indexed (t key : expdesc) (d : Dyndata) (s : FuncState) : kres expdesc :=
  KOk (set_u_ind (operand t) (operand key)
         (set_k (if expkind_eqb (k t) VUPVAL then VINDEXUP else VINDEXED) t)) s.

Definition goif (what : string) (e : expdesc) (d : Dyndata) (s : FuncState)
    : kres expdesc :=
  match dischargevars e d s with
  | KErr x => KErr x
  | KOk e1 s1 =>
      let s2 := freeexp e1 d s1 in
      let (_, s3) := emit what [operand e1] s2 in
      let (j, s4) := luaK_jump s3 in
      KOk (mkexpdesc (k e1) (u_ival e1) (u_nval e1) (u_strval e1) (u_info e1)
             (u_ind_idx e1) (u_ind_t e1) (u_var_ridx e1) (u_var_vidx e1)
             (if String.eqb what "goiffalse" then j else NO_JUMP)
             (if String.eqb what "goiffalse" then NO_JUMP else j)) s4
  end.

Definition self (e key : expdesc) (d : Dyndata) (s : FuncState) : kres expdesc :=
  match exp2anyreg e d s with
  | KErr x => KErr x
  | KOk (r, e1) s1 =>
      let s2 := freeexp e1 d s1 in
      let base := freereg s2 in
      match reserveregs 2 d s2 with
      | KErr x => KErr x
      | KOk _ s3 =>
          KOk (init_exp VNONRELOC base) (snd (emit "self" [base; r; operand key] s3))
      end
  end.

Definition unit_op (what : string) (args : list Z) (d : Dyndata) (s : FuncState)
    : kres unit :=
  KOk tt (snd (emit what args s)).

Definition exp2const (e : expdesc) (d : Dyndata) (s : FuncState) : option TValue :=
  match k e with
  | VNIL => Some TNil
  | VTRUE => Some (TBool true)
  | VFALSE => Some (TBool false)
  | VKINT => Some (TInt (u_ival e))
  | VKFLT => Some (TFlt (u_nval e))
  | VKSTR => Some (TStr (u_strval e))
  | _ => None
  end.

Definition isconst (kd : expkind) : bool :=
  match kd with
  | VNIL | VTRUE | VFALSE | VKINT | VKFLT | VKSTR | VK | VCONST => true
  | _ => false
  end.

#[export] Instance gen : CodeGen := {|
  luaK_infix := fun op e d s =>
    match op with
    | OPR_AND => goif "goiftrue" e d s
    | OPR_OR => goif "goiffalse" e d s
    | _ => if expkind_eqb (k e) VKINT then KOk e s else exp2anyregup e d s
    end;
  luaK_posfix := posfix;
  luaK_prefix := prefix;
  luaK_dischargevars := dischargevars;
  luaK_exp2nextreg := exp2nextreg;
  luaK_exp2anyreg := exp2anyreg;
  luaK_exp2anyregup := exp2anyregup;
  luaK_exp2reg := exp2reg;
  luaK_exp2val := dischargevars;
  luaK_exp2const := exp2const;
  luaK_storevar := storevar;
  luaK_setoneret := fun e d s =>
    KOk (if expkind_eqb (k e) VCALL then set_k VNONRELOC e
         else if expkind_eqb (k e) VVARARG then set_k VRELOC e else e) s;
  luaK_setreturns := fun e n => unit_op "setreturns" [u_info e; n];
  luaK_goiftrue := goif "goiftrue";
  luaK_goiffalse := goif "goiffalse";
  luaK_indexed := indexed;
  luaK_self := self;
  luaK_nil := fun from n => unit_op "loadnil" [from; n];
  luaK_int := fun reg i => unit_op "loadi" [reg; i];
  luaK_ret := fun first nret => unit_op "return" [first; nret];
  luaK_reserveregs := reserveregs;
  luaK_checkstack := fun n d s => KOk tt s;
  luaK_setlist := fun base nelems tostore => unit_op "setlist" [base; nelems; tostore];
  luaK_settablesize := fun at_pc ra asize hsize d s =>
    KOk tt (add_fixup (FixSetArg at_pc "size" (asize + hsize)) s);
  luaK_finish := fun d s => KOk tt s;
  IsReservedNonValue := fun _ => false;
  luaX_reserved2str := fun _ => "";
  vkisconst := isconst
|}.

End Emitter.

(** * Token streams for examples *)

Definition T (t : Tok) : Token := mkToken t 0 float0 "" 1.
Definition Tc (c : ascii) : Token := T (Tchar c).
Definition Tn (name : string) : Token := mkToken TK_NAME 0 float0 name 1.
Definition Ti (i : Z) : Token := mkToken TK_INT i float0 "" 1.
Definition Ts (s : string) : Token := mkToken TK_STRING 0 float0 s 1.

(** The outcome of a run without its final state. *)
Definition outcome {A : Type} (r : result A) : option (A + error) :=
  match r with
  | Ok a _ => Some (inl a)
  | Throw e _ => Some (inr e)
  | Fuel => None
  end.

Definition error_of {A : Type} (r : result A) : option error :=
  match r with Throw e _ => Some e | _ => None end.

Definition state_of {A : Type} (r : result A) : option LexState :=
  match r with Ok _ ls | Throw _ ls => Some ls | Fuel => None end.

(** * Vocabulary of the properties *)

(** The number of variables the function being compiled has declared: the
    argument of the limit check of new_localvar, less one. *)
Definition declared (ls : LexState) : Z :=
  Z.of_nat (actvar_n (dyd ls)) - Z.of_nat (firstlocal (cur_fs ls)).

(** The state after luaX_next. *)
Definition next_state (ls : LexState) : LexState :=
  match input ls with
  | [] => set_ls_t (mkToken TK_EOS 0 float0 "" (linenumber ls)) ls
  | tk :: rest => set_linenumber (tk_line tk) (set_input rest (set_ls_t tk ls))
  end.

(** A function is being compiled. *)
Definition in_function (ls : LexState) : bool :=
  match ls_fs ls with [] => false | _ :: _ => true end.

(** while a do switch a do case 1: continue end end *)
Definition continue_in_case_in_loop : list Token :=
  [T TK_WHILE; Tn "a"; T TK_DO;
     T TK_SWITCH; Tn "a"; T TK_DO;
       T TK_CASE; Ti 1; Tc ":"; T TK_CONTINUE;
     T TK_END;
   T TK_END].

(** The state in which the main function parses its body: the steps of
    mainfunc before the list of statements (the function is opened and
    declared vararg, the upvalue of the environment is made and the first
    token is read). *)
Definition start (toks : list Token) : LexState :=
  let ls0 := luaX_setinput toks "x" in
  let opening : P unit :=
    let* _ := open_func (set_p_source "x" Proto0) in
    let* _ := setvararg 0 in
    let* envname := gets envn in
    let* _ := onfs_ (fun s =>
                set_fs_f (set_p_upvalues (p_upvalues (fs_f s)
                                            ++ [mkUpvaldesc envname true 0 VDKREG])
                                         (fs_f s)) s) in
    luaX_next in
  match opening ls0 with
  | Ok _ ls => ls
  | _ => ls0
  end.

(** A statement that does nothing, for runs of rules that call none. *)
Definition no_statement : option lu_hint -> P (option lu_hint) :=
  fun prop => ret prop.

(** A destination that must not be assigned, in the words of the
    specification: a compile-time constant, a local variable that is not
    regular (const, to-be-closed or compile-time constant), or an upvalue
    that is not regular. *)
Definition is_read_only (d : Dyndata) (s : FuncState) (e : expdesc) : bool :=
  match k e with
  | VCONST => true
  | VLOCAL =>
      negb (varkind_eqb (vd_kind (getlocalvardesc d s (u_var_vidx e))) VDKREG)
  | VUPVAL =>
      negb (varkind_eqb
              (up_kind (default Upvaldesc0 (p_upvalues (fs_f s) !! Z.to_nat (u_info e))))
              VDKREG)
  | _ => false
  end.

(** [local c <const> = 1] has been parsed and the assignment [c = 2] is at
    its '=': the state and the descriptor of the target. *)
Definition const_local_state : LexState :=
  let ls := start [Tc "="; Ti 2] in
  upd_fs (fun s => set_freereg 1 (set_nactvar 1 s))
    (upd_dyd (fun d => set_actvar_n 1
                (set_actvar_arr [mkVardesc None RDKCONST H_FF H_FF 0 0 "c" 1] d)) ls).

Definition const_local_target : expdesc :=
  mkexpdesc VLOCAL 0 float0 "" 0 0 0 0 0 NO_JUMP NO_JUMP.

(** The compound assignment operators and the binary operator of each:
    +=, -=, *=, /=, //=, %=, ^=, ..=, &=, |=, ~=, <<=, >>= and ??=. *)
Definition compound_operator (t : Tok) : option BinOpr :=
  match t with
  | TK_CADD => Some OPR_ADD
  | TK_CSUB => Some OPR_SUB
  | TK_CMUL => Some OPR_MUL
  | TK_CDIV => Some OPR_DIV
  | TK_CIDIV => Some OPR_IDIV
  | TK_CMOD => Some OPR_MOD
  | TK_CPOW => Some OPR_POW
  | TK_CCAT => Some OPR_CONCAT
  | TK_CBAND => Some OPR_BAND
  | TK_CBOR => Some OPR_BOR
  | TK_CBXOR => Some OPR_BXOR
  | TK_CSHL => Some OPR_SHL
  | TK_CSHR => Some OPR_SHR
  | TK_COAL => Some OPR_COAL
  | _ => None
  end.

(** The local [a] is active and the scanner has read [+=] of [a += 2]: the
    current token is '=' and the operator is in 'lasttoken'. *)
Definition compound_state : LexState :=
  let ls := start [Tc "="; Ti 2] in
  set_lasttoken (Some TK_CADD)
    (upd_fs (fun s => set_freereg 1 (set_nactvar 1 s))
       (upd_dyd (fun d => set_actvar_n 1
                   (set_actvar_arr [mkVardesc None VDKREG H_FF H_FF 0 0 "a" 1] d)) ls)).

Definition local_target : expdesc :=
  mkexpdesc VLOCAL 0 float0 "" 0 0 0 0 0 NO_JUMP NO_JUMP.

(** The position, in a chain of blocks from the innermost, of the [n]-th
    loop block (counted from 1); None when there are fewer. *)
Fixpoint find_loop (bls : list BlockCnt) (n : nat) : option nat :=
  match bls with
  | [] => None
  | b :: previous =>
      if isloop b then
        match n with
        | 0%nat => None
        | 1%nat => Some 0%nat
        | S n' => option_map S (find_loop previous n')
        end
      else option_map S (find_loop previous n)
  end.

(** The has-upvalue bits of the blocks before position [pos]: of all of
    them, and of those that are not loops (the aggregate in the words of the
    specification). *)
Definition passed_upval (bls : list BlockCnt) (pos : nat) : bool :=
  existsb upval (take pos bls).

Definition skipped_nonloop_upval (bls : list BlockCnt) (pos : nat) : bool :=
  existsb upval (List.filter (fun b => negb (isloop b)) (take pos bls)).

(** The count N of [continue N], read after the 'continue' token, and the
    state once the statement's tokens are read. *)
Definition continue_count (ls : LexState) : lua_Integer :=
  let tk := ls_t (next_state ls) in
  if tok_eqb (token tk) TK_INT then seminfo_i tk else 1.

Definition continue_read (ls : LexState) : LexState :=
  let ls1 := next_state ls in
  if tok_eqb (token (ls_t ls1)) TK_INT then next_state ls1 else ls1.

(** while a do for k in p do continue 2 ) *)
Definition continue_2_in_for_in_while : list Token :=
  [T TK_WHILE; Tn "a"; T TK_DO;
     T TK_FOR; Tn "k"; T TK_IN; Tn "p"; T TK_DO;
       T TK_CONTINUE; Ti 2; Tc ")"].

(** The state at [continue 2] in the body of a generic 'for' inside a
    'while': the chain of blocks is, from the innermost, the body of the
    'for', the scope of its variables, its loop block (marked by
    marktobeclosed), the body of the 'while', its loop block and the block of
    the function. *)
Definition continue_state : LexState :=
  upd_fs (set_bl [mkBlockCnt NO_JUMP 0 0 4 false false true;
                  mkBlockCnt NO_JUMP 0 0 3 false false true;
                  mkBlockCnt NO_JUMP 0 0 0 true true true;
                  mkBlockCnt NO_JUMP 0 0 0 false false false;
                  mkBlockCnt NO_JUMP 0 0 0 false true false;
                  mkBlockCnt NO_JUMP 0 0 0 false false false])
    (start [T TK_CONTINUE; Ti 2; T TK_END; T TK_END]).

(** The part of repeatstat after the patch of the list of the loop block:
    the condition that follows 'until' or 'when', the end of the scope block,
    the jump back and the end of the loop block. *)
Definition repeatstat_condition {cg : CodeGen}
    (rec_expr : option lu_hint -> P (expdesc * option lu_hint))
    (repeat_init : Z) : P unit :=
  let* u := testnext TK_UNTIL in
  let* condexit :=
    (if u then cond rec_expr   (* read condition (inside scope block) *)
     else
       let* w := testnext2 TK_PWHEN TK_WHEN in
       if w then
         let* (v, _) := rec_expr None in   (* read condition *)
         let v := if expkind_eqb (k v) VNIL then set_k VFALSE v else v in
         let* v := callK (luaK_goiffalse v) in
         ret (e_t v)
       else error_expected TK_UNTIL) in
  let* bl2 := gets (fun ls => cur_bl (cur_fs ls)) in
  let* _ := leaveblock in   (* finish scope *)
  let* condexit :=
    (if upval bl2 then   (* upvalues? *)
       let* exit_ := onfs luaK_jump in   (* normal exit must jump over fix *)
       let* _ := onfs_ (luaK_patchtohere condexit) in   (* repetition must close upvalues *)
       let* ls := get in
       let* _ := onfs (luaK_codeABC OP_CLOSE
                         (reglevel (dyd ls) (cur_fs ls) (bl_nactvar bl2)) 0 0) in
       let* condexit := onfs luaK_jump in   (* repeat after closing upvalues *)
       let* _ := onfs_ (luaK_patchtohere exit_) in   (* normal exit comes to here *)
       ret condexit
     else ret condexit) in
  let* _ := onfs_ (luaK_patchlist condexit repeat_init) in   (* close the loop *)
  leaveblock.   (* finish loop *)

(** The last instructions of forbody, after the patch of the list of the
    loop block: the call of the iterator of a generic loop, and the
    instruction that jumps back to the body. *)
Definition forbody_loop_instruction (base line : Z) (nvars : nat) (isgen : bool)
    (prep : Z) : P unit :=
  let forloop := if isgen then OP_TFORLOOP else OP_FORLOOP in
  let* _ :=
    (if isgen then   (* generic for? *)
       let* _ := onfs (luaK_codeABC OP_TFORCALL base 0 (Z.of_nat nvars)) in
       onfs_ (luaK_fixline line)
     else ret tt) in
  let* endfor := onfs (luaK_codeABx forloop base 0) in
  let* _ := fixforjump endfor (prep + 1) true in
  onfs_ (luaK_fixline line).

(** The patches that luaK_patchlist asks for: none for an empty list. *)
Definition patches_of_list (l target : Z) : list Fixup :=
  if (l =? NO_JUMP)%Z then [] else [FixPatchList l target].

(** while a do continue continue end *)
Definition two_continues_in_while : list Token :=
  [T TK_WHILE; Tn "a"; T TK_DO; T TK_CONTINUE; T TK_CONTINUE; T TK_END].

(** repeat continue until a *)
Definition continue_in_repeat : list Token :=
  [T TK_REPEAT; T TK_CONTINUE; T TK_UNTIL; Tn "a"].

(** for i = 1, 2 do continue end *)
Definition continue_in_for : list Token :=
  [T TK_FOR; Tn "i"; Tc "="; Ti 1; Tc ","; Ti 2; T TK_DO; T TK_CONTINUE; T TK_END].

(** switch a do case 1: if a then continue end end *)
Definition continue_in_if_in_switch : list Token :=
  [T TK_SWITCH; Tn "a"; T TK_DO; T TK_CASE; Ti 1; Tc ":";
     T TK_IF; Tn "a"; T TK_THEN; T TK_CONTINUE; T TK_END;
   T TK_END].

(** The state at the second 'continue' of [while a do continue continue end]:
    the first one, the jump at position 4, is the list of the loop block. *)
Definition second_continue_state : LexState :=
  upd_fs (fun s =>
            set_pc 5 (set_bl [mkBlockCnt NO_JUMP 0 0 0 false false false;
                              mkBlockCnt 4 0 0 0 false true false;
                              mkBlockCnt NO_JUMP 0 0 0 false false false] s))
    (start [T TK_CONTINUE; T TK_END]).

(** A pending goto [g] is a jump to the label [lb]; it enters the scope of a
    variable when fewer variables were active at the goto than the label
    records. *)
Definition goto_matches (lb g : Labeldesc) : bool := eqstr (lb_name g) (lb_name lb).

Definition enters_scope (lb g : Labeldesc) : bool :=
  goto_matches lb g && (lb_nactvar g <? lb_nactvar lb)%nat.

(** The jumps of the gotos [gs] made to go to the label [lb]. *)
Definition patch_gotos (lb : Labeldesc) (gs : list Labeldesc) (s : FuncState)
    : FuncState :=
  fold_left (fun s g => luaK_patchlist (lb_pc g) (lb_pc lb) s) gs s.

(** The state once the gotos of [remaining] that match [lb] are solved:
    their jumps are patched and they leave the pending list, of which [kept]
    is the part before [remaining]. *)
Definition solved_state (lb : Labeldesc) (kept remaining : list Labeldesc)
    (ls : LexState) : LexState :=
  upd_dyd (set_gt (kept ++ List.filter (fun g => negb (goto_matches lb g)) remaining))
    (upd_fs (patch_gotos lb (List.filter (goto_matches lb) remaining)) ls).

(** The entry createlabel makes for a label: it records the position of the
    next instruction and the number of active variables, or the number at the
    entry of the block when the label is the last statement of the block. *)
Definition label_entry (name : TString) (line : Z) (last : bool) (ls : LexState)
    : Labeldesc :=
  let s := cur_fs ls in
  mkLabeldesc name (pc s) line
    (if last then bl_nactvar (cur_bl s) else nactvar s) false.

(** The pending gotos of the current block. *)
Definition pending_here (ls : LexState) : list Labeldesc :=
  drop (firstgoto (cur_bl (cur_fs ls))) (gt (dyd ls)).

(** The patches asked for the jumps of [gs] to the position [target]. *)
Definition patches_to (target : Z) (gs : list Labeldesc) : list Fixup :=
  map (fun g => FixPatchList (lb_pc g) target)
    (List.filter (fun g => negb (lb_pc g =? NO_JUMP)%Z) gs).

(** goto fwd; local v; ::fwd:: a = 1   and   goto fwd; local v; ::fwd:: *)
Definition goto_into_scope : list Token :=
  [T TK_GOTO; Tn "fwd"; T TK_LOCAL; Tn "v"; T TK_DBCOLON; Tn "fwd"; T TK_DBCOLON;
   Tn "a"; Tc "="; Ti 1].

Definition goto_to_block_end : list Token :=
  [T TK_GOTO; Tn "fwd"; T TK_LOCAL; Tn "v"; T TK_DBCOLON; Tn "fwd"; T TK_DBCOLON].

(** repeat goto fwd; local v; ::fwd:: until true *)
Definition goto_before_until : list Token :=
  [T TK_REPEAT; T TK_GOTO; Tn "fwd"; T TK_LOCAL; Tn "v";
   T TK_DBCOLON; Tn "fwd"; T TK_DBCOLON; T TK_UNTIL; T TK_TRUE].

(** The state after [goto fwd; local v]: one pending goto, made when no
    variable was active, and one active variable, [v]. *)
Definition pending_goto_state : LexState :=
  upd_fs (fun s => set_pc 2 (set_freereg 1 (set_nactvar 1 s)))
    (upd_dyd (fun d =>
       set_gt [mkLabeldesc "fwd" 1 1 0 false]
         (set_actvar_n 1
            (set_actvar_arr [mkVardesc None VDKREG H_FF H_FF 0 0 "v" 1] d)))
       (start [Tn "a"; Tc "="; Ti 1])).

(** The same state, at the '::' that closes the label [::fwd::], which a
    statement follows. *)
Definition label_after_goto_state : LexState :=
  upd_fs (fun s => set_pc 2 (set_freereg 1 (set_nactvar 1 s)))
    (upd_dyd (fun d =>
       set_gt [mkLabeldesc "fwd" 1 1 0 false]
         (set_actvar_n 1
            (set_actvar_arr [mkVardesc None VDKREG H_FF H_FF 0 0 "v" 1] d)))
       (start [T TK_DBCOLON; Tn "a"; Tc "="; Ti 1])).

(** A pending jump of a 'break'. *)
Definition is_break (g : Labeldesc) : bool := eqstr (lb_name g) "break".

(** while a do switch a do case 1: break default: break end end *)
Definition break_in_switch_in_loop : list Token :=
  [T TK_WHILE; Tn "a"; T TK_DO;
     T TK_SWITCH; Tn "a"; T TK_DO;
       T TK_CASE; Ti 1; Tc ":"; T TK_BREAK;
       T TK_DEFAULT; Tc ":"; T TK_BREAK;
     T TK_END;
   T TK_END].

(** The state at the 'end' of a switch in a loop, on leaving the block of
    the switch: the pending jumps are a 'break' of the loop, made before the
    switch, and a 'break' made in a case of the switch. *)
Definition switch_exit_state : LexState :=
  upd_fs (fun s =>
            set_pc 9 (set_freereg 1 (set_nactvar 1
              (set_bl [mkBlockCnt NO_JUMP 0 1 1 false true false;
                       mkBlockCnt NO_JUMP 0 0 0 false false false;
                       mkBlockCnt NO_JUMP 0 0 0 false true false;
                       mkBlockCnt NO_JUMP 0 0 0 false false false] s))))
    (upd_dyd (fun d =>
       set_gt [mkLabeldesc "break" 4 1 0 false; mkLabeldesc "break" 8 1 1 false]
         (set_actvar_n 1
            (set_actvar_arr [mkVardesc None VDKREG H_FF H_FF 0 0 "(switch)" 1] d)))
       (start [T TK_END])).

(** The priorities (left, right) of the binary operators, in the words of
    the specification. *)
Definition stated_priority (op : BinOpr) : nat * nat :=
  match op with
  | OPR_ADD | OPR_SUB => (10, 10)
  | OPR_MUL | OPR_MOD | OPR_DIV | OPR_IDIV => (11, 11)
  | OPR_POW => (14, 13)
  | OPR_BAND => (6, 6)
  | OPR_BXOR => (5, 5)
  | OPR_BOR => (4, 4)
  | OPR_SHL | OPR_SHR => (7, 7)
  | OPR_CONCAT => (9, 8)
  | OPR_EQ | OPR_LT | OPR_LE | OPR_NE | OPR_GT | OPR_GE => (3, 3)
  | OPR_AND => (2, 2)
  | OPR_OR | OPR_COAL => (1, 1)
  | OPR_NOBINOPR => (0, 0)
  end%nat.

(** The shape of a run of a precedence climber, in the words of the
    specification: a prefix is read, then binary operators are folded while
    their left priority exceeds the limit.  The nested expressions are those
    subexpr parses with [fuel] calls left. *)
Section Climber.

Context {cg : CodeGen}.
Variable rec_statement : option lu_hint -> P (option lu_hint).
Variable rec_expr : option lu_hint -> P (expdesc * option lu_hint).
Variable fuel : nat.

(** [prefix_parsed prop ls v prop' ls']: from state [ls] the prefix read is
    [v], leaving [prop'] and the state [ls']. *)
Inductive prefix_parsed (prop : option lu_hint) (ls : LexState)
    : expdesc -> option lu_hint -> LexState -> Prop :=
| prefix_unary uop op1 v1 p1 ls1 v ls2 :
    getunopr (token (ls_t ls)) = uop -> uop <> OPR_NOUNOPR ->
    subexpr rec_statement rec_expr fuel 12 None (next_state ls)
    = Ok (op1, v1, p1) ls1 ->
    callK (luaK_prefix uop v1 (linenumber ls)) ls1 = Ok v ls2 ->
    prefix_parsed prop ls v prop ls2
| prefix_if v ls1 :
    token (ls_t ls) = TK_IF ->
    ifexpr rec_expr ls = Ok v ls1 ->
    prefix_parsed prop ls v prop ls1
| prefix_plus v0 ls0 op2 v2 p2 ls1 v ls2 :
    token (ls_t ls) = Tchar "+" ->
    callK (luaK_infix OPR_ADD (set_u_ival 0 (init_exp VKINT 0))) ls = Ok v0 ls0 ->
    subexpr rec_statement rec_expr fuel 10 None (next_state ls0)
    = Ok (op2, v2, p2) ls1 ->
    callK (luaK_posfix OPR_ADD v0 v2 (linenumber ls0)) ls1 = Ok v ls2 ->
    prefix_parsed prop ls v prop ls2
| prefix_simple v p ls1 :
    getunopr (token (ls_t ls)) = OPR_NOUNOPR ->
    token (ls_t ls) <> TK_IF -> token (ls_t ls) <> Tchar "+" ->
    simpleexp rec_statement rec_expr fuel false prop ls = Ok (v, p) ls1 ->
    token (ls_t ls1) <> TK_IN ->
    prefix_parsed prop ls v p ls1
| prefix_simple_in v p ls1 v' ls2 :
    getunopr (token (ls_t ls)) = OPR_NOUNOPR ->
    token (ls_t ls) <> TK_IF -> token (ls_t ls) <> Tchar "+" ->
    simpleexp rec_statement rec_expr fuel false prop ls = Ok (v, p) ls1 ->
    token (ls_t ls1) = TK_IN ->
    inexpr rec_expr v ls1 = Ok v' ls2 ->
    prefix_parsed prop ls v' (wr p (HK VTRUE)) ls2.

(** [folds limit op v ls op' v' ls']: from the expression [v], with [op] the
    operator of the current token of [ls], the operators folded leave the
    expression [v'], the first operator not folded [op'] and the state
    [ls']. *)
Inductive folds (limit : nat)
    : BinOpr -> expdesc -> LexState -> BinOpr -> expdesc -> LexState -> Prop :=
| folds_stop op v ls :
    op = OPR_NOBINOPR \/ (left op <= limit)%nat ->
    folds limit op v ls op v ls
| folds_step op v ls v1 ls1 nextop v2 p2 ls2 v3 ls3 op' v' ls' :
    op <> OPR_NOBINOPR -> (limit < left op)%nat ->
    callK (luaK_infix op v) (next_state ls) = Ok v1 ls1 ->
    subexpr rec_statement rec_expr fuel (right op) None ls1
    = Ok (nextop, v2, p2) ls2 ->
    callK (luaK_posfix op v1 v2 (linenumber ls)) ls2 = Ok v3 ls3 ->
    folds limit nextop v3 ls3 op' v' ls' ->
    folds limit op v ls op' v' ls'.

End Climber.

(** 1 + 2 * 3,  2 ^ 3 ^ 2,  1 - 2 - 3,  - 2 ^ 2  and  + 5, each after
    [local x =]. *)
Definition local_x_is (e : list Token) : list Token :=
  [T TK_LOCAL; Tn "x"; Tc "="] ++ e.

(** The instructions of the main function of a program, when it parses. *)
Definition emitted (toks : list Token) : option (list Instruction) :=
  match luaY_parser (cg := Emitter.gen) 20 toks "x" with
  | Ok p _ => Some (p_code p)
  | _ => None
  end.

(** The equality that enterblock and 'statement' assert (lua_assert): the
    first free register is the register level of the active variables. *)
Definition watermark_ok (ls : LexState) : bool :=
  (freereg (cur_fs ls) =? luaY_nvarstack (dyd ls) (cur_fs ls))%Z.

(** A computation that first checks the equality, as a build that executes
    the assertions would. *)
Definition assertion_failed : error := E_semantic "assertion failed".

Definition asserting {A : Type} (m : P A) : P A :=
  fun ls => if watermark_ok ls then m ls else Throw assertion_failed ls.

(** do local a = 1 ; a = a + 1 end *)
Definition do_block : list Token :=
  [T TK_DO; T TK_LOCAL; Tn "a"; Tc "="; Ti 1; Tc ";";
   Tn "a"; Tc "="; Tn "a"; Tc "+"; Ti 1; T TK_END].

(** The state at the end of a main function whose body is the single
    statement [break]: the jump of the 'break' is still pending. *)
Definition stray_break_state : LexState :=
  upd_fs (set_pc 2)
    (upd_dyd (set_gt [mkLabeldesc "break" 1 1 0 false]) (start [])).

(** The state at the 'end' of [do local a = 1 end] in a main function: the
    block of the 'do' is the current one and [a] is active. *)
Definition inner_block_state : LexState :=
  upd_fs (fun s =>
            set_pc 2 (set_freereg 1 (set_nactvar 1
              (set_bl (mkBlockCnt NO_JUMP 0 0 0 false false false :: bl s) s))))
    (upd_dyd (fun d =>
       set_actvar_n 1
         (set_actvar_arr [mkVardesc None VDKREG H_FF H_FF 0 0 "a" 1] d))
       (start [T TK_END])).

(** A pending goto as it is once the block [b] it was made in is left: it is
    at the level of the entry of the block, and it must close upvalues if the
    block has some and the goto leaves the scope of a variable. *)
Definition moved_out (d : Dyndata) (s : FuncState) (b : BlockCnt) (g : Labeldesc)
    : Labeldesc :=
  mkLabeldesc (lb_name g) (lb_pc g) (lb_line g) (bl_nactvar b)
    (if (reglevel d s (lb_nactvar g) >? reglevel d s (bl_nactvar b))%Z
     then lb_close g || upval b else lb_close g).

(** The same state with the goto of [do local a = 1 goto out end] pending. *)
Definition inner_goto_state : LexState :=
  upd_dyd (set_gt [mkLabeldesc "out" 1 1 1 false]) inner_block_state.

(** * Vocabulary of the properties of the whole parser *)

(** [balanced ls ls']: from [ls] to [ls'] the parser has left every level
    of recursion it entered and closed every function it opened, has only
    moved forward in the token stream, has only added warnings, and has kept
    the name of the environment and of the source. *)
Definition balanced (ls ls' : LexState) : Prop :=
  nCcalls ls' = nCcalls ls
  /\ length (ls_fs ls') = length (ls_fs ls)
  /\ (exists n, input ls' = drop n (input ls))
  /\ (exists ws, warnings ls' = warnings ls ++ ws)
  /\ envn ls' = envn ls
  /\ source ls' = source ls.

(** [runs i j p q m]: a run of [m] that succeeds, started with at least [i]
    levels entered and [p] functions open, ends with [j] levels in place of
    the [i] and [q] functions in place of the [p], and otherwise as
    [balanced] says. *)
Definition runs {A : Type} (i j p q : nat) (m : P A) : Prop :=
  forall ls a ls',
    m ls = Ok a ls' ->
    (i <= nCcalls ls)%nat -> (p <= length (ls_fs ls))%nat ->
    (nCcalls ls' + i = nCcalls ls + j)%nat
    /\ (length (ls_fs ls') + p = length (ls_fs ls) + q)%nat
    /\ (exists n, input ls' = drop n (input ls))
    /\ (exists ws, warnings ls' = warnings ls ++ ws)
    /\ envn ls' = envn ls
    /\ source ls' = source ls.

Definition stable {A : Type} (m : P A) : Prop := runs 0 0 0 0 m.

(** local function f(a) return a + 1 end *)
Definition local_function_stat : list Token :=
  [T TK_LOCAL; T TK_FUNCTION; Tn "f"; Tc "("; Tn "a"; Tc ")";
   T TK_RETURN; Tn "a"; Tc "+"; Ti 1; T TK_END].

(** The tokens of [local x = 1 end]: a block that declares a variable, up
    to the [end] that closes it. *)
Definition local_block : list Token :=
  [T TK_LOCAL; Tn "x"; Tc "="; Ti 1; T TK_END].

(** The tokens of [function(a) local b = a return b end]: an expression
    with a function that has a parameter and a local variable. *)
Definition lambda_expr : list Token :=
  [T TK_FUNCTION; Tc "("; Tn "a"; Tc ")"; T TK_LOCAL; Tn "b"; Tc "="; Tn "a";
   T TK_RETURN; Tn "b"; T TK_END].

(** The tokens of [switch x do case 1: local y = 2 end]. *)
Definition switch_stat : list Token :=
  [T TK_SWITCH; Tn "x"; T TK_DO; T TK_CASE; Ti 1; Tc ":";
   T TK_LOCAL; Tn "y"; Tc "="; Ti 2; T TK_END].

(** The tokens of [for i = 1, 2 do local y = i end]. *)
Definition for_stat : list Token :=
  [T TK_FOR; Tn "i"; Tc "="; Ti 1; Tc ","; Ti 2; T TK_DO;
   T TK_LOCAL; Tn "y"; Tc "="; Tn "i"; T TK_END].

(** [keeps_token m]: a run of [m] that succeeds reads no token. *)
Definition keeps_token {A : Type} (m : P A) : Prop :=
  forall ls a ls', m ls = Ok a ls' -> ls_t ls' = ls_t ls.

(** [forward m]: a run of [m] that succeeds has only moved forward in the
    token stream.  [advances m]: it has read at least one token. *)
Definition forward {A : Type} (m : P A) : Prop :=
  forall ls a ls', m ls = Ok a ls' -> exists k, input ls' = drop k (input ls).

Definition advances {A : Type} (m : P A) : Prop :=
  forall ls a ls', m ls = Ok a ls' -> exists k, input ls' = drop (S k) (input ls).

(** A function opened inside the main function, after 'local x' there. *)
Definition inner_function_state : LexState :=
  match (new_localvar "x" >>> adjustlocalvars 1 >>> open_func Proto0) (start []) with
  | Ok _ ls => ls
  | _ => start []
  end.

(** [preserves f m]: a run of [m] that succeeds leaves the component [f] of
    the state as it was. *)
Definition preserves {X A : Type} (f : LexState -> X) (m : P A) : Prop :=
  forall ls a ls', m ls = Ok a ls' -> f ls' = f ls.

(** The labels of the parse and where those of the current function start. *)
Definition labels_of (ls : LexState) : list Labeldesc * nat :=
  (label (dyd ls), fs_firstlabel (cur_fs ls)).

(** * Vocabulary of the scopes of a parse *)

(** What a block is for the scopes: where its labels and its pending gotos
    start, the count of active variables outside it, and whether it is a
    loop.  (The flags of a block and the end of its scope change while the
    block is open.) *)
Definition bkey (b : BlockCnt) : nat * nat * nat * bool :=
  (firstlabel b, firstgoto b, bl_nactvar b, isloop b).

Definition keys (s : FuncState) : list (nat * nat * nat * bool) := map bkey (bl s).

(** What the scopes of a function are made of: its chain of blocks, its
    count of active variables, where its variables and its labels start,
    and its upvalues. *)
Definition scope_of (s : FuncState)
    : list (nat * nat * nat * bool) * nat * nat * nat * list Upvaldesc :=
  (keys s, nactvar s, firstlocal s, fs_firstlabel s, p_upvalues (fs_f s)).

(** The same without the upvalues: what stays of an enclosing function while
    an inner function is compiled (which may add upvalues to it). *)
Definition fsig (s : FuncState) : list (nat * nat * nat * bool) * nat * nat * nat :=
  (keys s, nactvar s, firstlocal s, fs_firstlabel s).

(** The outermost function being compiled (the main function). *)
Definition last_fs (ls : LexState) : FuncState := default FuncState0 (last (ls_fs ls)).

(** A call into the code generator that leaves the scopes of the function
    alone. *)
Definition neutral {A : Type} (g : Dyndata -> FuncState -> kres A) : Prop :=
  forall d s a s', g d s = KOk a s' -> scope_of s' = scope_of s.

(** A code generator that leaves the scopes to the parser: none of its
    functions changes the chain of blocks, the count of active variables,
    the starts of the variables and of the labels, or the upvalues of the
    function it works on. *)
Record ScopeNeutral (cg : CodeGen) : Prop := {
  sn_infix : forall op e, neutral (luaK_infix op e);
  sn_posfix : forall op e1 e2 line, neutral (luaK_posfix op e1 e2 line);
  sn_prefix : forall op e line, neutral (luaK_prefix op e line);
  sn_dischargevars : forall e, neutral (luaK_dischargevars e);
  sn_exp2nextreg : forall e, neutral (luaK_exp2nextreg e);
  sn_exp2anyreg : forall e, neutral (luaK_exp2anyreg e);
  sn_exp2anyregup : forall e, neutral (luaK_exp2anyregup e);
  sn_exp2reg : forall e r, neutral (luaK_exp2reg e r);
  sn_exp2val : forall e, neutral (luaK_exp2val e);
  sn_storevar : forall v e, neutral (luaK_storevar v e);
  sn_setoneret : forall e, neutral (luaK_setoneret e);
  sn_setreturns : forall e n, neutral (luaK_setreturns e n);
  sn_goiftrue : forall e, neutral (luaK_goiftrue e);
  sn_goiffalse : forall e, neutral (luaK_goiffalse e);
  sn_indexed : forall t key, neutral (luaK_indexed t key);
  sn_self : forall e key, neutral (luaK_self e key);
  sn_nil : forall from n, neutral (luaK_nil from n);
  sn_int : forall r i, neutral (luaK_int r i);
  sn_ret : forall first nret, neutral (luaK_ret first nret);
  sn_reserveregs : forall n, neutral (luaK_reserveregs n);
  sn_checkstack : forall n, neutral (luaK_checkstack n);
  sn_setlist : forall b n t, neutral (luaK_setlist b n t);
  sn_settablesize : forall pc_ ra asize hsize, neutral (luaK_settablesize pc_ ra asize hsize);
  sn_finish : neutral luaK_finish
}.

(** [spre i p ls]: a function is being compiled, it has at least [i] blocks
    open, and at least [p] variables are declared and not yet active ([p] is
    an integer: a piece that makes [n] variables active can be looked at
    before the pieces that declare them). *)
Definition spre (i : nat) (p : Z) (ls : LexState) : Prop :=
  ls_fs ls <> []
  /\ (i <= length (bl (cur_fs ls)))%nat
  /\ Z.of_nat (firstlocal (cur_fs ls)) + Z.of_nat (nactvar (cur_fs ls)) + p
     <= Z.of_nat (actvar_n (dyd ls)).

(** The least count of active variables among the count of the function and
    the levels of its [i] innermost blocks (the counts at their entries). *)
Definition floor (i : nat) (s : FuncState) : nat :=
  foldr Nat.min (nactvar s) (take i (map bl_nactvar (bl s))).

(** [spost i j p q ls ls']: from [ls] to [ls'] the function being compiled
    is the same, with [j] blocks in place of its [i] innermost ones (the
    blocks below are the same) and [q] variables declared and not yet active
    in place of [p]; the enclosing functions have the scopes they had, the
    main function has the upvalues it had, and the count of active variables
    has not gone below the levels of the blocks that were replaced. *)
Definition spost (i j : nat) (p q : Z) (ls ls' : LexState) : Prop :=
  length (ls_fs ls') = length (ls_fs ls)
  /\ map fsig (tail (ls_fs ls')) = map fsig (tail (ls_fs ls))
  /\ firstlocal (cur_fs ls') = firstlocal (cur_fs ls)
  /\ fs_firstlabel (cur_fs ls') = fs_firstlabel (cur_fs ls)
  /\ (length (bl (cur_fs ls')) + i = length (bl (cur_fs ls)) + j)%nat
  /\ drop j (keys (cur_fs ls')) = drop i (keys (cur_fs ls))
  /\ Z.of_nat (actvar_n (dyd ls')) + Z.of_nat (nactvar (cur_fs ls)) + p
     = Z.of_nat (actvar_n (dyd ls)) + Z.of_nat (nactvar (cur_fs ls')) + q
  /\ p_upvalues (fs_f (last_fs ls')) = p_upvalues (fs_f (last_fs ls))
  /\ (floor i (cur_fs ls) <= floor j (cur_fs ls'))%nat.

(** [sruns i j p q m]: a run of [m] that succeeds takes a state of [spre i p]
    to one of [spost i j p (q a)], [a] being its result. *)
Definition sruns {A : Type} (i j : nat) (p : Z) (q : A -> Z) (m : P A) : Prop :=
  forall ls a ls', m ls = Ok a ls' -> spre i p ls -> spost i j p (q a) ls ls'.

(** A piece of the parser that leaves the scopes as it found them. *)
Definition sstable {A : Type} (m : P A) : Prop := sruns 0 0 0 (fun _ => 0) m.

(** A piece of the parser that leaves the count of active variables of the
    function being compiled as it found it. *)
Definition keeps_active {A : Type} (m : P A) : Prop :=
  forall ls a ls', m ls = Ok a ls' -> spre 0 0 ls ->
    nactvar (cur_fs ls') = nactvar (cur_fs ls).

(** The count of active variables that the [i] innermost blocks of the
    function leave when they are closed: the level of the outermost of
    them, and the count of the function itself when [i] is 0. *)
Definition top (i : nat) (s : FuncState) : nat :=
  match i with
  | O => nactvar s
  | S k => bl_nactvar (default BlockCnt0 (bl s !! k))
  end.

(** [kruns i j m]: a run of [m] that succeeds takes a state with [i] blocks
    to close, none of them entered below the count its enclosing block was
    entered at, to such a state with [j] blocks to close that leave the
    same count of active variables. *)
Definition kruns {A : Type} (i j : nat) (m : P A) : Prop :=
  forall ls a ls', m ls = Ok a ls' ->
    spre i 0 ls -> floor i (cur_fs ls) = top i (cur_fs ls) ->
    spost i j 0 0 ls ls'
    /\ floor j (cur_fs ls') = top j (cur_fs ls')
    /\ top j (cur_fs ls') = top i (cur_fs ls).

(** The tokens that start a statement which declares a variable in the
    scope it is in: a local declaration, and a switch (its control
    variable). *)
Definition declaring (t : Tok) : bool :=
  match t with
  | TK_LOCAL | TK_SWITCH | TK_PSWITCH => true
  | _ => false
  end.

(** [keeps_unless_declaring m]: a run of [m] that succeeds and does not
    start at a declaring token leaves the count of active variables as it
    found it. *)
Definition keeps_unless_declaring {A : Type} (m : P A) : Prop :=
  forall ls a ls', m ls = Ok a ls' -> spre 0 0 ls ->
    declaring (token (ls_t ls)) = false ->
    nactvar (cur_fs ls') = nactvar (cur_fs ls).

(** The scopes of two states are the same. *)
Definition same_scopes (ls ls' : LexState) : Prop :=
  map scope_of (ls_fs ls') = map scope_of (ls_fs ls)
  /\ actvar_n (dyd ls') = actvar_n (dyd ls).

(** The count of active variables of the current function, and the number
    of functions open. *)
Definition active_of (ls : LexState) : nat * nat :=
  (nactvar (cur_fs ls), length (ls_fs ls)).

(** * Vocabulary of the pending gotos of a parse *)

(** The pending gotos of the parse, and the chains of blocks of the
    functions being compiled. *)
Definition gsig (ls : LexState)
    : list Labeldesc * list (list (nat * nat * nat * bool)) :=
  (gt (dyd ls), map keys (ls_fs ls)).

(** The chains of blocks of the functions being compiled. *)
Definition ksig (ls : LexState) : list (list (nat * nat * nat * bool)) :=
  map keys (ls_fs ls).

(** Where the pending gotos that the [S i] innermost blocks of the function
    may resolve or move start: the least of the starts of their windows,
    and the count of pending gotos when that is less. *)
Definition gfloor (i : nat) (ls : LexState) : nat :=
  foldr Nat.min (length (gt (dyd ls))) (take (S i) (map firstgoto (bl (cur_fs ls)))).

(** [gpre i ls]: a function is being compiled and it has more than [i]
    blocks open. *)
Definition gpre (i : nat) (ls : LexState) : Prop :=
  ls_fs ls <> [] /\ (i < length (bl (cur_fs ls)))%nat.

(** [gpost i j ls ls']: from [ls] to [ls'] the function being compiled has
    [S j] blocks in place of its [S i] innermost ones (the blocks below are
    the same, and so are the blocks of the enclosing functions), the gotos
    pending below the windows of those [S i] blocks are the same, and the
    windows of the [S j] blocks do not start below them. *)
Definition gpost (i j : nat) (ls ls' : LexState) : Prop :=
  ls_fs ls' <> []
  /\ map keys (tail (ls_fs ls')) = map keys (tail (ls_fs ls))
  /\ (length (bl (cur_fs ls')) + i = length (bl (cur_fs ls)) + j)%nat
  /\ drop j (keys (cur_fs ls')) = drop i (keys (cur_fs ls))
  /\ take (gfloor i ls) (gt (dyd ls')) = take (gfloor i ls) (gt (dyd ls))
  /\ (gfloor i ls <= gfloor j ls')%nat.

(** [gruns i j m]: a run of [m] that succeeds takes a state of [gpre i] to
    one of [gpost i j]. *)
Definition gruns {A : Type} (i j : nat) (m : P A) : Prop :=
  forall ls a ls', m ls = Ok a ls' -> gpre i ls -> gpost i j ls ls'.

(** The cases of a switch, from the block that switch_head opens to the
    'end' of the statement: what switchstat does between switch_head and
    the leaveblock that ends it. *)
Definition switch_body {cg : CodeGen}
    (rec_statement : option lu_hint -> P (option lu_hint))
    (rec_expr : option lu_hint -> P (expdesc * option lu_hint))
    (fuel : nat) (line : Z) (switchToken : Tok) (save : expdesc) : P unit :=
  let* _ := switch_cases rec_statement rec_expr fuel line save in
  let* d := testnext2 TK_PDEFAULT TK_DEFAULT in
  let* _ :=
    (if d then   (* Default case. *)
       let* _ := checknext (Tchar ":") in
       let* _ := enterblock false in
       let* _ := caselist rec_statement fuel true in
       leaveblock
     else ret tt) in
  check_match TK_END switchToken line.

(** switch a do case 1: while a do break end a = 1 end *)
Definition break_in_loop_in_case : list Token :=
  [T TK_SWITCH; Tn "a"; T TK_DO;
     T TK_CASE; Ti 1; Tc ":";
       T TK_WHILE; Tn "a"; T TK_DO; T TK_BREAK; T TK_END;
       Tn "a"; Tc "="; Ti 1;
   T TK_END].

(** The state at a switch in the body of a loop in which a 'break' of the
    loop is pending: the blocks are the body of the loop, the block of the
    loop and the block of the function; the jump of the pending 'break' is
    at position 4. *)
Definition switch_in_loop_state : LexState :=
  upd_fs (fun s =>
            set_pc 5 (set_bl [mkBlockCnt NO_JUMP 0 0 0 false false false;
                              mkBlockCnt NO_JUMP 0 0 0 false true false;
                              mkBlockCnt NO_JUMP 0 0 0 false false false] s))
    (upd_dyd (set_gt [mkLabeldesc "break" 4 1 0 false])
       (start [T TK_SWITCH; Tn "a"; T TK_DO;
                 T TK_CASE; Ti 1; Tc ":"; T TK_BREAK;
                 T TK_CASE; Ti 2; Tc ":"; Tn "a"; Tc "="; Ti 1;
               T TK_END])).

(** * Properties *)

(** ** Running the monad *)

Lemma bind_ok {A B} (m : P A) (g : A -> P B) ls a ls' :
  m ls = Ok a ls' -> bind m g ls = g a ls'.
Proof. unfold bind. by intros ->. Qed.

Lemma bind_throw {A B} (m : P A) (g : A -> P B) ls e ls' :
  m ls = Throw e ls' -> bind m g ls = Throw e ls'.
Proof. unfold bind. by intros ->. Qed.

Lemma bind_inv {A B} (m : P A) (g : A -> P B) ls b ls' :
  bind m g ls = Ok b ls' ->
  exists a ls1, m ls = Ok a ls1 /\ g a ls1 = Ok b ls'.
Proof.
  unfold bind. destruct (m ls) as [a ls1|e ls1|]; [|discriminate..].
  intros H. by exists a, ls1.
Qed.

Lemma callK_inv {A} (g : Dyndata -> FuncState -> kres A) ls a ls' :
  callK g ls = Ok a ls' ->
  exists s, g (dyd ls) (cur_fs ls) = KOk a s /\ ls' = upd_fs (fun _ => s) ls.
Proof.
  unfold callK. destruct (g (dyd ls) (cur_fs ls)) as [a' s|e]; [|discriminate].
  intros [= -> <-]. by exists s.
Qed.

Lemma tok_code_inj a b : tok_code a = tok_code b -> a = b.
Proof.
  assert (Hb : forall c, (N_of_ascii c < 256)%N) by apply N_ascii_bounded.
  destruct a eqn:Ea, b eqn:Eb; cbn [tok_code]; intros H;
    try reflexivity; try discriminate H;
    try (match goal with c : ascii |- _ => specialize (Hb c); lia end).
  f_equal.
  match goal with |- ?c = ?c' =>
    rewrite <- (ascii_N_embedding c), <- (ascii_N_embedding c') end.
  by rewrite H.
Qed.

Lemma tok_eqb_eq a b : tok_eqb a b = true <-> a = b.
Proof.
  unfold tok_eqb. rewrite N.eqb_eq. split; [apply tok_code_inj|by intros ->].
Qed.

Lemma tok_eqb_neq a b : tok_eqb a b = false <-> a <> b.
Proof.
  rewrite <- tok_eqb_eq. by destruct (tok_eqb a b).
Qed.

Lemma tok_eqb_refl a : tok_eqb a a = true.
Proof. by apply tok_eqb_eq. Qed.

(** Decide the comparisons of two known tokens. *)
Ltac eval_tok :=
  repeat match goal with
         | |- context [tok_eqb ?a ?b] =>
             let v := eval vm_compute in (tok_eqb a b) in
             change (tok_eqb a b) with v
         end;
  cbn [negb andb orb].

(** ** Updates of the state *)

Lemma set_warnings_id ls : set_warnings (warnings ls) ls = ls.
Proof. by destruct ls. Qed.

Lemma upd_fs_id ls : upd_fs (fun s => s) ls = ls.
Proof. destruct ls as [? ? ? ? fss ? ? ? ? ?]. unfold upd_fs; simpl. by destruct fss. Qed.

Lemma upd_fs_upd_fs g h ls : upd_fs g (upd_fs h ls) = upd_fs (fun s => g (h s)) ls.
Proof. destruct ls as [? ? ? ? fss ? ? ? ? ?]. unfold upd_fs; simpl. by destruct fss. Qed.

Lemma upd_fs_ext g h ls : (forall s, g s = h s) -> upd_fs g ls = upd_fs h ls.
Proof.
  intros E. destruct ls as [? ? ? ? fss ? ? ? ? ?]. unfold upd_fs; simpl.
  destruct fss; simpl; [done|]. by rewrite E.
Qed.

Lemma upd_fs_ext_cur g h ls : g (cur_fs ls) = h (cur_fs ls) -> upd_fs g ls = upd_fs h ls.
Proof.
  destruct ls as [? ? ? ? fss ? ? ? ? ?]. unfold upd_fs, cur_fs; simpl.
  destruct fss; simpl; [done|]. by intros ->.
Qed.

Lemma upd_dyd_upd_fs g h ls : upd_dyd g (upd_fs h ls) = upd_fs h (upd_dyd g ls).
Proof. destruct ls as [? ? ? ? fss ? ? ? ? ?]. unfold upd_fs, upd_dyd; simpl. by destruct fss. Qed.

Lemma upd_fs_upd_dyd g h ls : upd_fs h (upd_dyd g ls) = upd_dyd g (upd_fs h ls).
Proof. by rewrite upd_dyd_upd_fs. Qed.

Lemma dyd_upd_fs h ls : dyd (upd_fs h ls) = dyd ls.
Proof. destruct ls as [? ? ? ? fss ? ? ? ? ?]. unfold upd_fs; simpl. by destruct fss. Qed.

Lemma cur_fs_upd_dyd g ls : cur_fs (upd_dyd g ls) = cur_fs ls.
Proof. by destruct ls. Qed.

Lemma cur_fs_upd_fs g ls :
  in_function ls = true -> cur_fs (upd_fs g ls) = g (cur_fs ls).
Proof. destruct ls as [? ? ? ? fss ? ? ? ? ?]. unfold upd_fs, cur_fs, in_function; simpl. by destruct fss. Qed.

Lemma in_function_upd_fs g ls : in_function (upd_fs g ls) = in_function ls.
Proof. destruct ls as [? ? ? ? fss ? ? ? ? ?]. unfold upd_fs, in_function; simpl. by destruct fss. Qed.

Lemma upd_dyd_upd_dyd g h ls : upd_dyd g (upd_dyd h ls) = upd_dyd (fun d => g (h d)) ls.
Proof. by destruct ls. Qed.

Lemma dyd_upd_dyd g ls : dyd (upd_dyd g ls) = g (dyd ls).
Proof. by destruct ls. Qed.

Lemma gt_upd_dyd_set_gt l ls : gt (dyd (upd_dyd (set_gt l) ls)) = l.
Proof. by destruct ls. Qed.

Lemma upd_dyd_set_gt_twice a b ls :
  upd_dyd (set_gt a) (upd_dyd (set_gt b) ls) = upd_dyd (set_gt a) ls.
Proof. by destruct ls. Qed.

Lemma luaX_next_eq ls : luaX_next ls = Ok tt (next_state ls).
Proof. reflexivity. Qed.

Lemma ls_fs_next_state ls : ls_fs (next_state ls) = ls_fs ls.
Proof. unfold next_state. by destruct (input ls). Qed.

Lemma dyd_next_state ls : dyd (next_state ls) = dyd ls.
Proof. unfold next_state. by destruct (input ls). Qed.

(** ** Local variables *)

Lemma new_localvar_warn_ok d s name idxs ls :
  exists ws, new_localvar_warn d s name idxs ls
             = Ok tt (set_warnings (warnings ls ++ ws) ls).
Proof.
  revert ls. induction idxs as [|i rest IH]; intros ls; simpl.
  - exists []. unfold ret. by rewrite app_nil_r, set_warnings_id.
  - unfold bind at 1.
    match goal with |- context [if ?c then _ else _] => destruct c end.
    + unfold throw_warn, modify.
      match goal with |- context [new_localvar_warn _ _ _ _ ?l] =>
        destruct (IH l) as [ws Hws] end.
      rewrite Hws. eexists. simpl. rewrite <- app_assoc. reflexivity.
    + unfold ret. apply IH.
Qed.

Lemma open_func_ok fp ls :
  exists ls', open_func fp ls = Ok tt ls' /\ declared ls' = 0.
Proof.
  unfold open_func, bind, modify, enterblock, declared. simpl.
  eexists. split; [reflexivity|].
  rewrite dyd_upd_fs. simpl. unfold cur_fs, upd_fs. simpl. lia.
Qed.

(** C6: a declaration of a local variable succeeds, and makes the count of
    the variables declared by the function one more, as long as that count
    is below MAXVARS = 249 (so that the 249th declaration is the last to
    succeed); from 249 on it raises the error of the limit on local
    variables, whatever the name, internal control variables included.  The
    count is that of the function being compiled alone: opening a function
    starts a count at zero, whatever the enclosing functions declared. *)
Theorem new_localvar_limit (name : TString) (ls : LexState) :
  MAXVARS = 249%nat
  /\ (if (declared ls <? 249)%Z then
        exists vidx ls', new_localvar name ls = Ok vidx ls'
          /\ declared ls' = declared ls + 1
          /\ ls_fs ls' = ls_fs ls
      else
        exists ls', new_localvar name ls = Throw TooManyLocals ls'
          /\ dyd ls' = dyd ls /\ ls_fs ls' = ls_fs ls)
  /\ (forall fp, exists ls', open_func fp ls = Ok tt ls' /\ declared ls' = 0).
Proof.
  split; [reflexivity|]. split; [|intros fp; apply open_func_ok].
  unfold new_localvar, declared.
  rewrite (bind_ok get _ ls ls ls) by reflexivity.
  match goal with |- context [new_localvar_warn ?d ?s ?n ?i] =>
    destruct (new_localvar_warn_ok d s n i ls) as [ws Hws] end.
  cbv zeta. rewrite (bind_ok _ _ _ _ _ Hws).
  unfold checklimit, errorlimit, MAXVARS.
  destruct (Z.ltb_spec (Z.of_nat (actvar_n (dyd ls)) - Z.of_nat (firstlocal (cur_fs ls))) 249)
    as [Hlt|Hge].
  - destruct (Z.gtb_spec (Z.of_nat (actvar_n (dyd ls)) + 1
                          - Z.of_nat (firstlocal (cur_fs ls))) (Z.of_nat 249))
      as [Hgt|Hle]; [lia|].
    unfold ret, bind, gets, modify. simpl.
    eexists _, _. split; [reflexivity|]. split; [|reflexivity].
    unfold cur_fs. simpl. lia.
  - destruct (Z.gtb_spec (Z.of_nat (actvar_n (dyd ls)) + 1
                          - Z.of_nat (firstlocal (cur_fs ls))) (Z.of_nat 249))
      as [Hgt|Hle]; [|lia].
    unfold throw, bind. eexists. split; [reflexivity|]. by destruct ls.
Qed.

(** ** The case list of a switch *)

(** C3 (as the code has it): a 'continue' token directly in the body of a
    'case' or of 'default' makes caselist raise the continue-in-case error
    at that token, whatever the blocks around the switch are, enclosing loops
    included. *)
Theorem caselist_continue_always_fails
    (rec_statement : option lu_hint -> P (option lu_hint))
    (fuel : nat) (isdefault : bool) (ls : LexState)
    (Htok : token (ls_t ls) = TK_CONTINUE \/ token (ls_t ls) = TK_PCONTINUE) :
  caselist rec_statement (S fuel) isdefault ls = Throw ContinueInCase ls.
Proof.
  cbn [caselist]. unfold bind, gett, gets, luaX_lookahead, ret.
  destruct Htok as [-> | ->]; cbn; by rewrite ?andb_false_r.
Qed.

Lemma caselist_continue_always_fails_witness :
  caselist no_statement 1 false (start [T TK_CONTINUE])
  = Throw ContinueInCase (start [T TK_CONTINUE]).
Proof.
  apply (caselist_continue_always_fails no_statement 0 false (start [T TK_CONTINUE])).
  left. reflexivity.
Defined.

(** C3 does not hold as stated: in
    [while a do switch a do case 1: continue end end] a loop encloses the
    switch, and the parse still ends with the continue-in-case error; the
    blocks open at the error are, from the innermost, the case block, the
    switch block, the body of the loop, the loop block and the block of the
    function. *)
Lemma continue_in_case_inside_loop_rejected :
  exists ls,
    luaY_parser (cg := Emitter.gen) 20 continue_in_case_in_loop "x"
    = Throw ContinueInCase ls
    /\ map isloop (bl (cur_fs ls)) = [false; true; false; true; false].
Proof. vm_compute. eexists. split; reflexivity. Qed.



(** ** Assignments *)

Section Assignments.

Context {cg : CodeGen}.
Variable rec_statement : option lu_hint -> P (option lu_hint).
Variable rec_expr : option lu_hint -> P (expdesc * option lu_hint).

Lemma readonly_name_is_read_only d s e :
  is_read_only d s e = match readonly_name d s e with Some _ => true | None => false end.
Proof.
  unfold is_read_only, readonly_name.
  destruct (k e); try reflexivity;
    match goal with |- context [negb ?c] => by destruct c end.
Qed.

Lemma is_read_only_vkisvar d s e : is_read_only d s e = true -> vkisvar (k e) = true.
Proof. unfold is_read_only. by destruct (k e). Qed.

Lemma check_readonly_eq e ls :
  check_readonly e ls
  = match readonly_name (dyd ls) (cur_fs ls) e with
    | Some name => Throw (AssignToConst name) ls
    | None => Ok tt ls
    end.
Proof. unfold check_readonly, bind, get. by destruct (readonly_name _ _ _). Qed.

Lemma restassign_read_only fuel lh prevs nvars ls name :
  readonly_name (dyd ls) (cur_fs ls) lh = Some name ->
  restassign rec_statement rec_expr (S fuel) lh prevs nvars ls
  = Throw (AssignToConst name) ls.
Proof.
  intros Hro. cbn [restassign].
  assert (Hvar : vkisvar (k lh) = true).
  { apply (is_read_only_vkisvar (dyd ls) (cur_fs ls)).
    by rewrite readonly_name_is_read_only, Hro. }
  unfold check_condition. rewrite Hvar. cbn [negb].
  rewrite (bind_ok _ _ ls tt ls) by reflexivity.
  apply bind_throw. by rewrite check_readonly_eq, Hro.
Qed.

(** C5: check_readonly raises the constant-assignment error exactly for the
    read-only destinations (a compile-time constant, a local that is not
    regular, an upvalue that is not regular) and lets every other target
    pass.  An assignment to such a destination raises that error at the
    state in which restassign is entered: no token is read and nothing is
    emitted, no store in particular.  So a run of restassign that succeeds
    had a target that was not read-only, and a function statement that
    succeeds stored into a destination that was not read-only at the
    store. *)
Theorem assignment_to_read_only_rejected
    (fuel : nat) (lh : expdesc) (prevs : list expdesc) (nvars : nat) (ls : LexState) :
  (if is_read_only (dyd ls) (cur_fs ls) lh then
     exists name,
       check_readonly lh ls = Throw (AssignToConst name) ls
       /\ restassign rec_statement rec_expr (S fuel) lh prevs nvars ls
          = Throw (AssignToConst name) ls
   else check_readonly lh ls = Ok tt ls)
  /\ (forall r ls',
        restassign rec_statement rec_expr fuel lh prevs nvars ls = Ok r ls' ->
        is_read_only (dyd ls) (cur_fs ls) lh = false)
  /\ (forall line ls',
        funcstat rec_statement fuel line ls = Ok tt ls' ->
        exists v b ls1 x s2,
          is_read_only (dyd ls1) (cur_fs ls1) v = false
          /\ luaK_storevar v b (dyd ls1) (cur_fs ls1) = KOk x s2
          /\ ls' = upd_fs (luaK_fixline line) (upd_fs (fun _ => s2) ls1)).
Proof.
  split; [|split].
  - rewrite readonly_name_is_read_only, check_readonly_eq.
    destruct (readonly_name (dyd ls) (cur_fs ls) lh) as [name|] eqn:Hro; [|reflexivity].
    exists name. split; [reflexivity|]. by apply restassign_read_only.
  - intros r ls' Hok. rewrite readonly_name_is_read_only.
    destruct (readonly_name (dyd ls) (cur_fs ls) lh) as [name|] eqn:Hro; [|reflexivity].
    destruct fuel as [|fuel']; [discriminate|].
    by rewrite (restassign_read_only _ _ _ _ _ _ Hro) in Hok.
  - intros line ls' Hok. unfold funcstat in Hok.
    apply bind_inv in Hok as (u1 & l1 & _ & Hok).
    apply bind_inv in Hok as ([ismethod v] & l2 & _ & Hok).
    apply bind_inv in Hok as ([b p] & l3 & _ & Hok).
    apply bind_inv in Hok as (u4 & l4 & Hchk & Hok).
    apply bind_inv in Hok as (x & l5 & Hst & Hok).
    rewrite check_readonly_eq in Hchk. revert Hchk.
    destruct (readonly_name (dyd l3) (cur_fs l3) v) eqn:Hro; [discriminate|].
    intros Hchk. assert (l4 = l3) as -> by congruence.
    apply callK_inv in Hst as (s2 & Hs & ->).
    unfold onfs_ in Hok. injection Hok as <-.
    exists v, b, l3, x, s2. split; [|split; [exact Hs|reflexivity]].
    by rewrite readonly_name_is_read_only, Hro.
Qed.

End Assignments.

Lemma assignment_to_read_only_rejected_witness :
  exists name,
    restassign (cg := Emitter.gen) no_statement (fun _ => out_of_fuel) 1
      const_local_target [] 1 const_local_state
    = Throw (AssignToConst name) const_local_state.
Proof.
  destruct (proj1 (assignment_to_read_only_rejected (cg := Emitter.gen)
                     no_statement (fun _ => out_of_fuel) 0 const_local_target [] 1
                     const_local_state)) as [name [_ H]].
  exists name. exact H.
Defined.

(** ** Compound assignments *)

Section Compound.

Context {cg : CodeGen}.
Variable rec_statement : option lu_hint -> P (option lu_hint).
Variable rec_expr : option lu_hint -> P (expdesc * option lu_hint).

Lemma getcompoundop_eq ls t op :
  lasttoken ls = Some t -> compound_operator t = Some op ->
  getcompoundop ls = Ok (true, op) ls.
Proof.
  intros Hlt Hop. unfold getcompoundop, bind, gets, ret. rewrite Hlt.
  by destruct t; try discriminate Hop; injection Hop as <-.
Qed.

(** The steps of a compound assignment that succeeds, each one run in the
    state the step before it left: the target is the first operand given to
    luaK_infix, one expression is read, luaK_posfix folds the two, and the
    folded value (put in the next register first when the target is not a
    local, and made a single value) is what luaK_storevar stores into the
    target. *)
Lemma compoundassign_steps lh op ls ls' :
  compoundassign rec_expr lh op ls = Ok tt ls' ->
  exists l1 e1 l2 v2 p l3 e2 l4 l4' e3 l5 x,
    (if expkind_eqb (k lh) VLOCAL then enterlevel
     else (callK (luaK_reserveregs
                    (freereg (cur_fs (next_state ls))
                     - Z.of_nat (nactvar (cur_fs (next_state ls)))))
           >>> enterlevel)) (next_state ls) = Ok tt l1
    /\ callK (luaK_infix op lh) l1 = Ok e1 l2
    /\ rec_expr None l2 = Ok (v2, p) l3
    /\ callK (luaK_posfix op e1 v2 (linenumber (next_state ls))) l3 = Ok e2 l4
    /\ leavelevel l4 = Ok tt l4'
    /\ (if expkind_eqb (k lh) VLOCAL then callK (luaK_setoneret e2)
        else (let* e := callK (luaK_exp2nextreg e2) in callK (luaK_setoneret e))) l4'
       = Ok e3 l5
    /\ callK (luaK_storevar lh e3) l5 = Ok x ls'.
Proof.
  unfold compoundassign. intros H.
  apply bind_inv in H as (u0 & l0 & H0 & H). rewrite luaX_next_eq in H0.
  injection H0 as _ <-.
  apply bind_inv in H as (line & l1 & H1 & H). injection H1 as <- <-.
  destruct (expkind_eqb (k lh) VLOCAL); cbn [negb] in H.
  - apply bind_inv in H as ([] & l4 & Hlevel & H).
    apply bind_inv in H as (e1 & l5 & Hinfix & H).
    apply bind_inv in H as ([v2 p] & l6 & Hexpr & H).
    apply bind_inv in H as (e2 & l7 & Hposfix & H).
    apply bind_inv in H as ([] & l8 & Hleave & H).
    apply bind_inv in H as (e4 & l10 & Hone & H).
    apply bind_inv in H as (x & l11 & Hstore & H). injection H as <-.
    by exists l4, e1, l5, v2, p, l6, e2, l7, l8, e4, l10, x.
  - apply bind_inv in H as (s & l2 & Hs & H). injection Hs as <- <-.
    apply bind_inv in H as ([] & l3 & Hres & H).
    apply bind_inv in H as ([] & l4 & Hlevel & H).
    apply bind_inv in H as (e1 & l5 & Hinfix & H).
    apply bind_inv in H as ([v2 p] & l6 & Hexpr & H).
    apply bind_inv in H as (e2 & l7 & Hposfix & H).
    apply bind_inv in H as ([] & l8 & Hleave & H).
    apply bind_inv in H as (e3 & l9 & Hreg & H).
    apply bind_inv in H as (e4 & l10 & Hone & H).
    apply bind_inv in H as (x & l11 & Hstore & H). injection H as <-.
    exists l4, e1, l5, v2, p, l6, e2, l7, l8, e4, l10, x.
    split; [by rewrite (bind_ok _ _ _ _ _ Hres)|].
    split; [done|]. split; [done|]. split; [done|]. split; [done|].
    split; [by rewrite (bind_ok _ _ _ _ _ Hreg)|done].
Qed.


End Compound.


(** [a += 2] on the local [a] in register 0: the operator is folded on the
    target and 2, and the result is stored into the target. *)
Example compound_assignment_run :
  option_map (fun ls => (p_code (fs_f (cur_fs ls)), lasttoken ls))
    (state_of (restassign (cg := Emitter.gen) no_statement
                 (parse_expr (cg := Emitter.gen) 5) 1 local_target [] 1 compound_state))
  = Some ([iABC OP_VARARGPREP 0 0 0; iOther "binop" [0; -1; 2];
           iOther "store" [-1; -2]], None).
Proof. vm_compute. reflexivity. Qed.

(** ** The continue statement *)

Lemma wrap64_id z : - 2 ^ 63 <= z < 2 ^ 63 -> wrap64 z = z.
Proof. intros H. unfold wrap64. rewrite Z.mod_small; lia. Qed.

Lemma find_loop_short bls n :
  (length bls < n)%nat -> find_loop bls n = None.
Proof.
  revert n. induction bls as [|b rest IH]; intros n Hn; [reflexivity|].
  simpl in *. destruct (isloop b).
  - destruct n as [|[|n']]; [lia|lia|]. rewrite IH by lia. reflexivity.
  - rewrite IH by lia. reflexivity.
Qed.

Lemma continue_search_spec bls : forall pos0 n upv,
  1 <= n < 2 ^ 63 ->
  continue_search bls pos0 n upv
  = match find_loop bls (Z.to_nat n) with
    | Some p => (Some (pos0 + p)%nat, upv || passed_upval bls p)
    | None => (None, upv || existsb upval bls)
    end.
Proof.
  unfold passed_upval.
  induction bls as [|b rest IH]; intros pos0 n upv Hn.
  - simpl. by rewrite orb_false_r.
  - cbn [continue_search find_loop]. destruct (isloop b); cbn [negb].
    + rewrite wrap64_id by lia.
      destruct (Z.eqb_spec (n - 1) 0) as [E|E].
      * replace (Z.to_nat n) with 1%nat by lia. simpl.
        by rewrite Nat.add_0_r, orb_false_r.
      * replace (Z.to_nat n) with (S (Z.to_nat (n - 1))) by lia.
        rewrite IH by lia.
        destruct (Z.to_nat (n - 1)) as [|m] eqn:Em; [lia|].
        destruct (find_loop rest (S m)) as [p|]; simpl.
        -- by rewrite Nat.add_succ_r, orb_assoc.
        -- by rewrite orb_assoc.
    + rewrite IH by lia.
      destruct (find_loop rest (Z.to_nat n)) as [p|]; simpl.
      * by rewrite Nat.add_succ_r, orb_assoc.
      * by rewrite orb_assoc.
Qed.

Lemma continue_search_nonpos bls : forall pos0 n upv,
  - 2 ^ 63 <= n <= 0 -> Z.of_nat (length bls) < 2 ^ 63 ->
  fst (continue_search bls pos0 n upv) = None.
Proof.
  induction bls as [|b rest IH]; intros pos0 n upv Hn Hlen; [reflexivity|].
  cbn [continue_search]. simpl in Hlen. destruct (isloop b); cbn [negb].
  - destruct (Z.eq_dec n (- 2 ^ 63)) as [->|Hne].
    + change (wrap64 (- 2 ^ 63 - 1)) with (2 ^ 63 - 1).
      change (2 ^ 63 - 1 =? 0)%Z with false. cbv iota.
      rewrite continue_search_spec by lia.
      rewrite find_loop_short by lia. reflexivity.
    + rewrite wrap64_id by lia.
      destruct (Z.eqb_spec (n - 1) 0) as [E|E]; [lia|].
      apply IH; lia.
  - apply IH; lia.
Qed.

Lemma find_loop_Some bls : forall n pos,
  find_loop bls n = Some pos ->
  exists b, bls !! pos = Some b /\ isloop b = true.
Proof.
  induction bls as [|b rest IH]; intros n pos H; [discriminate|].
  cbn [find_loop] in H. destruct (isloop b) eqn:Hb.
  - destruct n as [|[|n']]; [discriminate| |].
    + injection H as <-. by exists b.
    + destruct (find_loop rest (S n')) as [p|] eqn:E; [|discriminate].
      injection H as <-. apply IH in E. exact E.
  - destruct (find_loop rest n) as [p|] eqn:E; [|discriminate].
    injection H as <-. apply IH in E. exact E.
Qed.

Lemma continuestat_effect (ls : LexState)
    (Hfn : in_function ls = true)
    (Hpc : 0 <= pc (cur_fs ls))
    (Hrange : - 2 ^ 63 <= continue_count ls < 2 ^ 63)
    (Hlen : Z.of_nat (length (bl (cur_fs ls))) < 2 ^ 63) :
  match (if (1 <=? continue_count ls)%Z
         then find_loop (bl (cur_fs ls)) (Z.to_nat (continue_count ls)) else None) with
  | Some pos =>
      exists b ls',
        bl (cur_fs ls) !! pos = Some b /\ isloop b = true
        /\ continuestat ls = Ok tt ls'
        /\ p_code (fs_f (cur_fs ls'))
           = p_code (fs_f (cur_fs ls))
             ++ (if passed_upval (bl (cur_fs ls)) pos
                 then [iABC OP_CLOSE (Z.of_nat (bl_nactvar b)) 0 0] else [])
             ++ [isJ OP_JMP NO_JUMP]
        /\ bl (cur_fs ls')
           = alter (set_scopeend
                      (if (scopeend b =? NO_JUMP)%Z
                       then pc (cur_fs ls)
                            + (if passed_upval (bl (cur_fs ls)) pos then 1 else 0)
                       else scopeend b)) pos (bl (cur_fs ls))
        /\ p_fixups (fs_f (cur_fs ls'))
           = p_fixups (fs_f (cur_fs ls))
             ++ (if (scopeend b =? NO_JUMP)%Z then []
                 else [FixConcat (scopeend b)
                         (pc (cur_fs ls)
                          + (if passed_upval (bl (cur_fs ls)) pos then 1 else 0))])
  | None =>
      continuestat ls
      = Throw (E_expected TK_CONTINUE (token (ls_t (continue_read ls))))
          (continue_read ls)
  end.
Proof.
  unfold continuestat.
  rewrite (bind_ok _ _ ls (cur_fs ls) ls) by reflexivity.
  rewrite (bind_ok _ _ ls tt (next_state ls)) by reflexivity.
  rewrite (bind_ok _ _ _ (ls_t (next_state ls)) (next_state ls)) by reflexivity.
  rewrite (bind_ok _ _ (next_state ls) (continue_count ls) (continue_read ls)).
  2:{ unfold continue_count, continue_read.
      destruct (tok_eqb (token (ls_t (next_state ls))) TK_INT); reflexivity. }
  assert (Hfs : ls_fs (continue_read ls) = ls_fs ls).
  { unfold continue_read.
    destruct (tok_eqb _ _); by rewrite ?ls_fs_next_state. }
  destruct (Z.leb_spec 1 (continue_count ls)) as [Hpos|Hneg].
  - rewrite continue_search_spec by lia.
    destruct (find_loop (bl (cur_fs ls)) (Z.to_nat (continue_count ls)))
      as [pos|] eqn:Hfind; [|reflexivity].
    destruct (find_loop_Some _ _ _ Hfind) as (b & Hb & Hloop).
    cbv beta iota zeta. cbn [Nat.add orb]. rewrite !Hb. cbn [default from_option id].
    exists b. revert Hfs. generalize (continue_read ls). intros ls2 Hfs.
    unfold in_function in Hfn. unfold cur_fs in *.
    destruct (ls_fs ls) as [|s0 prev] eqn:Els; [discriminate|].
    cbn [head default from_option id] in *.
    destruct ls2 as [? ? ? ? fss2 ? ? ? ? ?]. cbn [ls_fs] in Hfs. subst fss2.
    unfold bind, onfs, onfs_, ret, luaK_codeABC, luaK_jump, luaK_code,
      luaK_concat, cur_fs, upd_fs, NO_JUMP.
    destruct (passed_upval (bl s0) pos); cbn;
      (destruct (Z.eqb_spec (pc s0 + 1) (-1)) as [?|_]; [lia|]);
      try (destruct (Z.eqb_spec (pc s0) (-1)) as [?|_]; [lia|]);
      destruct (Z.eqb_spec (scopeend b) (-1)) as [E|E]; cbn;
      (eexists; split; [reflexivity|]; split; [exact Hloop|]; split;
       [reflexivity|]; cbn; split; [by rewrite <- ?app_assoc|]);
      rewrite ?Z.add_0_r, ?app_nil_r; by split.
  - destruct (continue_search (bl (cur_fs ls)) 0 (continue_count ls) false)
      as [[pos|] upv] eqn:Hs.
    + pose proof (continue_search_nonpos (bl (cur_fs ls)) 0 (continue_count ls) false
                    ltac:(lia) Hlen) as Hn.
      rewrite Hs in Hn. discriminate Hn.
    + reflexivity.
Qed.

Lemma patchlist_fixups l target s :
  p_fixups (fs_f (luaK_patchlist l target s))
  = p_fixups (fs_f s) ++ patches_of_list l target.
Proof.
  unfold luaK_patchlist, patches_of_list.
  destruct (l =? NO_JUMP)%Z; [by rewrite app_nil_r|reflexivity].
Qed.

(** The tail of a 'while' loop. *)
Lemma whilestat_tail {cg : CodeGen} :
  forall rs re fuel line l0 l',
    whilestat rs re fuel line l0 = Ok tt l' ->
    let whileinit := pc (cur_fs (next_state l0)) in
    exists condexit l1 l2,
      cond re (next_state l0) = Ok condexit l1
      /\ (enterblock true >>> checknext TK_DO >>> block rs fuel) l1 = Ok tt l2
      /\ let b := cur_bl (cur_fs l2) in
         let l3 := upd_fs (fun s => luaK_patchlist (scopeend b) whileinit
                                      (luaK_jumpto whileinit s)) l2 in
         (check_match TK_END TK_WHILE line >>> leaveblock
            >>> onfs_ (luaK_patchtohere condexit)) l3 = Ok tt l'
         /\ (in_function l2 = true ->
             p_fixups (fs_f (cur_fs l3))
             = p_fixups (fs_f (cur_fs l2))
               ++ patches_of_list (pc (cur_fs l2)) whileinit
               ++ patches_of_list (scopeend b) whileinit).
Proof.
  intros rs re fuel line l0 l' H whileinit. unfold whilestat in H.
  rewrite (bind_ok _ _ l0 tt (next_state l0)) in H by reflexivity.
  rewrite (bind_ok _ _ _ whileinit (next_state l0)) in H by reflexivity.
  apply bind_inv in H as (condexit & l1 & Ec & H).
  apply bind_inv in H as ([] & la & Ea & H).
  apply bind_inv in H as ([] & lb & Eb & H).
  apply bind_inv in H as ([] & l2 & Ebl & H).
  exists condexit, l1, l2. split; [exact Ec|]. split.
  { rewrite (bind_ok _ _ l1 tt la Ea). rewrite (bind_ok _ _ la tt lb Eb). exact Ebl. }
  cbv zeta. split.
  - rewrite (bind_ok _ _ l2 tt (upd_fs (luaK_jumpto whileinit) l2)) in H by reflexivity.
    rewrite (bind_ok _ _ _ (cur_bl (cur_fs (upd_fs (luaK_jumpto whileinit) l2)))
               (upd_fs (luaK_jumpto whileinit) l2)) in H by reflexivity.
    rewrite (bind_ok _ _ _ tt
               (upd_fs (luaK_patchlist
                          (scopeend (cur_bl (cur_fs (upd_fs (luaK_jumpto whileinit) l2))))
                          whileinit) (upd_fs (luaK_jumpto whileinit) l2))) in H
      by reflexivity.
    rewrite upd_fs_upd_fs in H.
    replace (cur_bl (cur_fs (upd_fs (luaK_jumpto whileinit) l2)))
      with (cur_bl (cur_fs l2)) in H; [exact H|].
    unfold cur_fs, upd_fs. destruct l2 as [? ? ? ? fss ? ? ? ? ?]; cbn.
    destruct fss as [|s prev]; [reflexivity|]. cbn.
    unfold luaK_jumpto, luaK_jump, luaK_code, luaK_patchlist.
    by destruct (_ =? _)%Z.
  - intros Hfn. rewrite cur_fs_upd_fs by exact Hfn.
    rewrite patchlist_fixups. unfold luaK_jumpto, luaK_jump, luaK_code.
    rewrite patchlist_fixups. cbn. by rewrite <- app_assoc.
Qed.

(** The tail of a 'repeat' loop. *)
Lemma repeatstat_tail {cg : CodeGen} :
  forall rs re fuel l0 l',
    repeatstat rs re fuel l0 = Ok tt l' ->
    exists r l2,
      (enterblock true >>> enterblock false >>> luaX_next >>> statlist rs fuel None) l0
      = Ok r l2
      /\ let bl1 := default BlockCnt0 (bl (cur_fs l2) !! 1%nat) in
         let l3 := upd_fs (luaK_patchtohere (scopeend bl1)) l2 in
         repeatstat_condition re (pc (cur_fs l0)) l3 = Ok tt l'
         /\ (in_function l2 = true ->
             p_fixups (fs_f (cur_fs l3))
             = p_fixups (fs_f (cur_fs l2))
               ++ patches_of_list (scopeend bl1) (pc (cur_fs l2))).
Proof.
  intros rs re fuel l0 l' H. unfold repeatstat in H.
  rewrite (bind_ok _ _ l0 (pc (cur_fs l0)) l0) in H by reflexivity.
  apply bind_inv in H as ([] & la & Ea & H).
  apply bind_inv in H as ([] & lb & Eb & H).
  apply bind_inv in H as ([] & lc & Ec & H).
  apply bind_inv in H as (r & l2 & Es & H).
  exists r, l2. split.
  { rewrite (bind_ok _ _ l0 tt la Ea). rewrite (bind_ok _ _ la tt lb Eb).
    rewrite (bind_ok _ _ lb tt lc Ec). exact Es. }
  cbv zeta. split.
  - rewrite (bind_ok _ _ l2 (default BlockCnt0 (bl (cur_fs l2) !! 1%nat)) l2) in H
      by reflexivity.
    rewrite (bind_ok _ _ l2 tt
               (upd_fs (luaK_patchtohere
                          (scopeend (default BlockCnt0 (bl (cur_fs l2) !! 1%nat)))) l2))
      in H by reflexivity.
    exact H.
  - intros Hfn. rewrite cur_fs_upd_fs by exact Hfn.
    unfold luaK_patchtohere. by rewrite patchlist_fixups.
Qed.

(** The tail of the body of a 'for' loop, numerical or generic. *)
Lemma forbody_tail {cg : CodeGen} :
  forall rs fuel base line nvars isgen l0 l',
    forbody rs fuel base line nvars isgen l0 = Ok tt l' ->
    exists prep l1 l2 l2',
      (checknext TK_DO
         >>> onfs (luaK_codeABx (if isgen then OP_TFORPREP else OP_FORPREP) base 0)) l0
      = Ok prep l1
      /\ (enterblock false >>> adjustlocalvars nvars
            >>> callK (luaK_reserveregs (Z.of_nat nvars)) >>> block rs fuel
            >>> leaveblock) l1 = Ok tt l2
      /\ fixforjump prep (pc (cur_fs l2)) false l2 = Ok tt l2'
      /\ let b := cur_bl (cur_fs l2') in
         let l3 := upd_fs (luaK_patchtohere (scopeend b)) l2' in
         forbody_loop_instruction base line nvars isgen prep l3 = Ok tt l'
         /\ (in_function l2 = true ->
             p_fixups (fs_f (cur_fs l3))
             = p_fixups (fs_f (cur_fs l2))
               ++ [FixForJump prep (pc (cur_fs l2)) false]
               ++ patches_of_list (scopeend (cur_bl (cur_fs l2))) (pc (cur_fs l2))).
Proof.
  intros rs fuel base line nvars isgen l0 l' H. unfold forbody in H.
  apply bind_inv in H as ([] & la & Ea & H).
  apply bind_inv in H as (prep & l1 & Ep & H).
  apply bind_inv in H as ([] & lb & Eb & H).
  apply bind_inv in H as ([] & lc & Ec & H).
  apply bind_inv in H as (u & ld & Ed & H).
  apply bind_inv in H as ([] & le & Ee & H).
  apply bind_inv in H as ([] & l2 & El & H).
  rewrite (bind_ok _ _ l2 (pc (cur_fs l2)) l2) in H by reflexivity.
  apply bind_inv in H as ([] & l2' & Ef & H).
  exists prep, l1, l2, l2'. split.
  { rewrite (bind_ok _ _ l0 tt la Ea). exact Ep. }
  split.
  { rewrite (bind_ok _ _ l1 tt lb Eb). rewrite (bind_ok _ _ lb tt lc Ec).
    rewrite (bind_ok _ _ lc u ld Ed). rewrite (bind_ok _ _ ld tt le Ee). exact El. }
  split; [exact Ef|]. cbv zeta.
  assert (El2 : l2' = upd_fs (add_fixup (FixForJump prep (pc (cur_fs l2)) false)) l2).
  { unfold fixforjump in Ef. destruct (_ >? _)%Z; [discriminate|].
    unfold onfs_ in Ef. by injection Ef as <-. }
  split.
  - rewrite (bind_ok _ _ l2' (cur_bl (cur_fs l2')) l2') in H by reflexivity.
    rewrite (bind_ok _ _ l2' tt
               (upd_fs (luaK_patchtohere (scopeend (cur_bl (cur_fs l2')))) l2')) in H
      by reflexivity.
    exact H.
  - intros Hfn. subst l2'. rewrite upd_fs_upd_fs.
    rewrite !cur_fs_upd_fs by exact Hfn.
    unfold luaK_patchtohere. rewrite patchlist_fixups.
    unfold luaK_getlabel. cbn. by rewrite <- app_assoc.
Qed.

(** C2 (as the code has it): [continue N], N being 1 when no integer
    follows, looks for the N-th block of the chain of blocks that is marked
    as a loop.  When there is one, a Close at that block's count of active
    variables is emitted exactly when a block passed on the way, loop blocks
    included, has its has-upvalue bit set; then one jump with no destination
    is emitted and joined to the scope-end list of that block: it becomes the
    list when the list is empty, and is concatenated to it otherwise.  When
    there is none (fewer than N such blocks, or N below 1) the statement
    fails.  The list of its loop block is patched by a 'while' loop after the
    jump back that follows its body, to the position of the loop's
    condition; by a 'repeat' loop after its body, to the position reached
    there, where the code of its condition starts; and by a 'for' loop after
    its body, to the position reached there, where the instruction that
    steps the loop is emitted. *)
Theorem continuestat_nth_loop {cg : CodeGen} (ls : LexState)
    (Hfn : in_function ls = true)
    (Hpc : 0 <= pc (cur_fs ls))
    (Hrange : - 2 ^ 63 <= continue_count ls < 2 ^ 63)
    (Hlen : Z.of_nat (length (bl (cur_fs ls))) < 2 ^ 63) :
  (match (if (1 <=? continue_count ls)%Z
         then find_loop (bl (cur_fs ls)) (Z.to_nat (continue_count ls)) else None) with
  | Some pos =>
      exists b ls',
        bl (cur_fs ls) !! pos = Some b /\ isloop b = true
        /\ continuestat ls = Ok tt ls'
        /\ p_code (fs_f (cur_fs ls'))
           = p_code (fs_f (cur_fs ls))
             ++ (if passed_upval (bl (cur_fs ls)) pos
                 then [iABC OP_CLOSE (Z.of_nat (bl_nactvar b)) 0 0] else [])
             ++ [isJ OP_JMP NO_JUMP]
        /\ bl (cur_fs ls')
           = alter (set_scopeend
                      (if (scopeend b =? NO_JUMP)%Z
                       then pc (cur_fs ls)
                            + (if passed_upval (bl (cur_fs ls)) pos then 1 else 0)
                       else scopeend b)) pos (bl (cur_fs ls))
        /\ p_fixups (fs_f (cur_fs ls'))
           = p_fixups (fs_f (cur_fs ls))
             ++ (if (scopeend b =? NO_JUMP)%Z then []
                 else [FixConcat (scopeend b)
                         (pc (cur_fs ls)
                          + (if passed_upval (bl (cur_fs ls)) pos then 1 else 0))])
  | None =>
      continuestat ls
      = Throw (E_expected TK_CONTINUE (token (ls_t (continue_read ls))))
          (continue_read ls)
  end)
  /\
  (forall rs re fuel line l0 l',
    whilestat rs re fuel line l0 = Ok tt l' ->
    let whileinit := pc (cur_fs (next_state l0)) in
    exists condexit l1 l2,
      cond re (next_state l0) = Ok condexit l1
      /\ (enterblock true >>> checknext TK_DO >>> block rs fuel) l1 = Ok tt l2
      /\ let b := cur_bl (cur_fs l2) in
         let l3 := upd_fs (fun s => luaK_patchlist (scopeend b) whileinit
                                      (luaK_jumpto whileinit s)) l2 in
         (check_match TK_END TK_WHILE line >>> leaveblock
            >>> onfs_ (luaK_patchtohere condexit)) l3 = Ok tt l'
         /\ (in_function l2 = true ->
             p_fixups (fs_f (cur_fs l3))
             = p_fixups (fs_f (cur_fs l2))
               ++ patches_of_list (pc (cur_fs l2)) whileinit
               ++ patches_of_list (scopeend b) whileinit))
  /\
  (forall rs re fuel l0 l',
    repeatstat rs re fuel l0 = Ok tt l' ->
    exists r l2,
      (enterblock true >>> enterblock false >>> luaX_next >>> statlist rs fuel None) l0
      = Ok r l2
      /\ let bl1 := default BlockCnt0 (bl (cur_fs l2) !! 1%nat) in
         let l3 := upd_fs (luaK_patchtohere (scopeend bl1)) l2 in
         repeatstat_condition re (pc (cur_fs l0)) l3 = Ok tt l'
         /\ (in_function l2 = true ->
             p_fixups (fs_f (cur_fs l3))
             = p_fixups (fs_f (cur_fs l2))
               ++ patches_of_list (scopeend bl1) (pc (cur_fs l2))))
  /\
  (forall rs fuel base line nvars isgen l0 l',
    forbody rs fuel base line nvars isgen l0 = Ok tt l' ->
    exists prep l1 l2 l2',
      (checknext TK_DO
         >>> onfs (luaK_codeABx (if isgen then OP_TFORPREP else OP_FORPREP) base 0)) l0
      = Ok prep l1
      /\ (enterblock false >>> adjustlocalvars nvars
            >>> callK (luaK_reserveregs (Z.of_nat nvars)) >>> block rs fuel
            >>> leaveblock) l1 = Ok tt l2
      /\ fixforjump prep (pc (cur_fs l2)) false l2 = Ok tt l2'
      /\ let b := cur_bl (cur_fs l2') in
         let l3 := upd_fs (luaK_patchtohere (scopeend b)) l2' in
         forbody_loop_instruction base line nvars isgen prep l3 = Ok tt l'
         /\ (in_function l2 = true ->
             p_fixups (fs_f (cur_fs l3))
             = p_fixups (fs_f (cur_fs l2))
               ++ [FixForJump prep (pc (cur_fs l2)) false]
               ++ patches_of_list (scopeend (cur_bl (cur_fs l2))) (pc (cur_fs l2)))).
Proof.
  split; [exact (continuestat_effect ls Hfn Hpc Hrange Hlen)|].
  split; [exact whilestat_tail|]. split; [exact repeatstat_tail|exact forbody_tail].
Qed.

Lemma continuestat_nth_loop_witness :
  (exists b ls',
     bl (cur_fs continue_state) !! 4%nat = Some b /\ isloop b = true
     /\ continuestat continue_state = Ok tt ls'
     /\ p_code (fs_f (cur_fs ls'))
        = p_code (fs_f (cur_fs continue_state))
          ++ [iABC OP_CLOSE (Z.of_nat (bl_nactvar b)) 0 0] ++ [isJ OP_JMP NO_JUMP]
     /\ bl (cur_fs ls')
        = alter (set_scopeend
                   (if (scopeend b =? NO_JUMP)%Z
                    then pc (cur_fs continue_state) + 1 else scopeend b))
            4%nat (bl (cur_fs continue_state))
     /\ p_fixups (fs_f (cur_fs ls'))
        = p_fixups (fs_f (cur_fs continue_state))
          ++ (if (scopeend b =? NO_JUMP)%Z then []
              else [FixConcat (scopeend b) (pc (cur_fs continue_state) + 1)]))
  /\ (exists b ls',
        bl (cur_fs second_continue_state) !! 1%nat = Some b /\ isloop b = true
        /\ continuestat second_continue_state = Ok tt ls'
        /\ p_code (fs_f (cur_fs ls'))
           = p_code (fs_f (cur_fs second_continue_state)) ++ [] ++ [isJ OP_JMP NO_JUMP]
        /\ bl (cur_fs ls')
           = alter (set_scopeend
                      (if (scopeend b =? NO_JUMP)%Z
                       then pc (cur_fs second_continue_state) + 0 else scopeend b))
               1%nat (bl (cur_fs second_continue_state))
        /\ p_fixups (fs_f (cur_fs ls'))
           = p_fixups (fs_f (cur_fs second_continue_state))
             ++ (if (scopeend b =? NO_JUMP)%Z then []
                 else [FixConcat (scopeend b) (pc (cur_fs second_continue_state) + 0)])).
Proof.
  split.
  - exact (proj1 (continuestat_nth_loop (cg := Emitter.gen) continue_state eq_refl
             ltac:(by vm_compute) ltac:(split; by vm_compute) ltac:(by vm_compute))).
  - exact (proj1 (continuestat_nth_loop (cg := Emitter.gen) second_continue_state eq_refl
             ltac:(by vm_compute) ltac:(split; by vm_compute) ltac:(by vm_compute))).
Defined.

(** C2 does not hold as stated: at [continue 2] in
    [while a do for k in p do continue 2 ...] the blocks passed that are not
    loops (the block of the body of the 'for', the scope of its variables and
    the body of the 'while') have no upvalue, so that no aggregated bit of a
    block that is not a loop is set; the loop block of the 'for',
    which is passed over, has its bit set, and a Close is emitted before the
    jump.  The parse is stopped by the stray ')' right after the statement,
    where the chain of blocks is still the one of the statement. *)
Lemma continue_closes_for_a_passed_loop :
  exists ls,
    luaY_parser (cg := Emitter.gen) 20 continue_2_in_for_in_while "x"
    = Throw (E_unexpected (Tchar ")")) ls
    /\ map (fun b => (isloop b, upval b)) (bl (cur_fs ls))
       = [(false, false); (false, false); (true, true); (false, false);
          (true, false); (false, false)]
    /\ find_loop (bl (cur_fs ls)) 2 = Some 4%nat
    /\ skipped_nonloop_upval (bl (cur_fs ls)) 4 = false
    /\ passed_upval (bl (cur_fs ls)) 4 = true
    /\ drop 8 (p_code (fs_f (cur_fs ls)))
       = [iABC OP_CLOSE 0 0 0; isJ OP_JMP NO_JUMP].
Proof. vm_compute. eexists. repeat split; reflexivity. Qed.

(** Two 'continue' in the body of a 'while': the jumps are at positions 4 and
    5; the second is concatenated to the list that the first one started,
    and the tail of the loop, after the jump back at position 6, patches the
    list to position 1, where the code of the condition starts. *)
Example two_continues_in_while_run :
  option_map (fun r => match r with
                       | inl p => Some (p_code p, p_fixups p)
                       | inr _ => None
                       end)
    (outcome (luaY_parser (cg := Emitter.gen) 20 two_continues_in_while "x"))
  = Some (Some
      ([iABC OP_VARARGPREP 0 0 0; iOther "gettable" [-1; -1];
        iOther "goiftrue" [-2]; isJ OP_JMP NO_JUMP;
        isJ OP_JMP NO_JUMP; isJ OP_JMP NO_JUMP; isJ OP_JMP NO_JUMP;
        iOther "return" [0; 0]],
       [FixConcat 4 5; FixPatchList 6 1; FixPatchList 4 1; FixPatchList 3 7])).
Proof. vm_compute. reflexivity. Qed.

(** A 'continue' in the body of a 'repeat': the jump, at position 1, is
    patched to position 2, where the code of the condition starts. *)
Example continue_in_repeat_run :
  option_map (fun r => match r with
                       | inl p => Some (p_code p, p_fixups p)
                       | inr _ => None
                       end)
    (outcome (luaY_parser (cg := Emitter.gen) 20 continue_in_repeat "x"))
  = Some (Some
      ([iABC OP_VARARGPREP 0 0 0; isJ OP_JMP NO_JUMP;
        iOther "gettable" [-1; -1]; iOther "goiftrue" [-3];
        isJ OP_JMP NO_JUMP; iOther "return" [0; 0]],
       [FixPatchList 1 2; FixPatchList 4 1])).
Proof. vm_compute. reflexivity. Qed.

(** A 'continue' in the body of a numerical 'for': the jump, at position 5,
    is patched to position 6, where the instruction that steps the loop is. *)
Example continue_in_for_run :
  option_map (fun r => match r with
                       | inl p => Some (p_code p, p_fixups p)
                       | inr _ => None
                       end)
    (outcome (luaY_parser (cg := Emitter.gen) 20 continue_in_for "x"))
  = Some (Some
      ([iABC OP_VARARGPREP 0 0 0; iOther "load" [0; 1];
        iOther "load" [1; 2]; iOther "loadi" [2; 1];
        iABx OP_FORPREP 0 0; isJ OP_JMP NO_JUMP; iABx OP_FORLOOP 0 0;
        iOther "return" [0; 0]],
       [FixForJump 4 6 false; FixPatchList 5 6; FixForJump 6 5 true;
        FixLine 1])).
Proof. vm_compute. reflexivity. Qed.

(** The block of a 'switch' is marked as a loop, for its 'break'.  A
    'continue' inside an 'if' of a case body, with no loop around, is
    accepted and takes that block: its jump, at position 7, is joined to the
    list of the block of the 'switch', which no statement patches. *)
Example continue_in_switch_run :
  option_map (fun r => match r with
                       | inl p => Some (p_code p, p_fixups p)
                       | inr _ => None
                       end)
    (outcome (luaY_parser (cg := Emitter.gen) 20 continue_in_if_in_switch "x"))
  = Some (Some
      ([iABC OP_VARARGPREP 0 0 0; iOther "gettable" [-1; -1];
        iOther "load" [0; -2]; iOther "binop" [16; -1; 1];
        iOther "gettable" [-1; -1]; iOther "goiftrue" [-5];
        isJ OP_JMP NO_JUMP; isJ OP_JMP NO_JUMP; iOther "return" [1; 0]],
       [FixPatchList 6 8; FixPatchList 3 8])).
Proof. vm_compute. reflexivity. Qed.

(** ** Gotos and labels *)

Lemma solvegoto_ok i g lb ls :
  gt (dyd ls) !! i = Some g ->
  (lb_nactvar g <? lb_nactvar lb)%nat = false ->
  solvegoto i lb ls
  = Ok tt (upd_dyd (set_gt (delete i (gt (dyd ls))))
             (upd_fs (luaK_patchlist (lb_pc g) (lb_pc lb)) ls)).
Proof.
  intros Hi Hlvl. unfold solvegoto.
  rewrite (bind_ok _ _ ls ls ls) by reflexivity. cbv beta zeta.
  rewrite Hi. cbn [default from_option id]. rewrite Hlvl.
  rewrite (bind_ok _ _ ls tt ls) by reflexivity.
  unfold onfs_, bind, modify. f_equal.
  apply lookup_lt_Some in Hi. apply Nat.ltb_lt in Hi.
  destruct ls as [? ? ? ? fss d ? ? ? ?]. unfold upd_dyd, upd_fs, remove_goto; simpl in *.
  destruct fss; simpl; rewrite Hi; reflexivity.
Qed.

Lemma solvegoto_throw i g lb ls :
  gt (dyd ls) !! i = Some g ->
  (lb_nactvar g <? lb_nactvar lb)%nat = true ->
  solvegoto i lb ls
  = Throw (E_jumpscope (lb_name g) (lb_line g)
             (vd_name (getlocalvardesc (dyd ls) (cur_fs ls) (lb_nactvar g)))) ls.
Proof.
  intros Hi Hlvl. unfold solvegoto.
  rewrite (bind_ok _ _ ls ls ls) by reflexivity. cbv beta zeta.
  rewrite Hi. cbn [default from_option id]. rewrite Hlvl.
  apply bind_throw. reflexivity.
Qed.

Lemma getlocalvardesc_patch d l t s v :
  getlocalvardesc d (luaK_patchlist l t s) v = getlocalvardesc d s v.
Proof. unfold luaK_patchlist. by destruct (_ =? _)%Z. Qed.

Lemma solvegotos_loop_spec lb remaining :
  forall kept fuel needsclose ls,
    gt (dyd ls) = kept ++ remaining ->
    (length remaining < fuel)%nat ->
    match List.find (enters_scope lb) remaining with
    | Some g =>
        exists ls',
          solvegotos_loop fuel lb (length kept) needsclose ls
          = Throw (E_jumpscope (lb_name g) (lb_line g)
                     (vd_name (getlocalvardesc (dyd ls) (cur_fs ls) (lb_nactvar g)))) ls'
          /\ In g (gt (dyd ls'))
    | None =>
        solvegotos_loop fuel lb (length kept) needsclose ls
        = Ok (needsclose || existsb lb_close (List.filter (goto_matches lb) remaining))
             (solved_state lb kept remaining ls)
    end.
Proof.
  induction remaining as [|g rest IH]; intros kept fuel needsclose ls Hgt Hfuel.
  - simpl. destruct fuel as [|fuel]; [simpl in Hfuel; lia|]. simpl.
    rewrite (bind_ok _ _ ls (gt (dyd ls)) ls) by reflexivity.
    rewrite Hgt, app_nil_r, Nat.ltb_irrefl. unfold ret.
    rewrite orb_false_r. f_equal.
    unfold solved_state. simpl. rewrite app_nil_r.
    unfold patch_gotos; simpl. rewrite upd_fs_id.
    destruct ls as [? ? ? ? ? d ? ? ? ?]; unfold upd_dyd; simpl in *. destruct d; simpl in *.
    rewrite app_nil_r in Hgt. by subst.
  - destruct fuel as [|fuel]; [simpl in Hfuel; lia|]. simpl in Hfuel.
    cbn [solvegotos_loop].
    rewrite (bind_ok _ _ ls (gt (dyd ls)) ls) by reflexivity.
    rewrite Hgt.
    replace (length kept <? length (kept ++ g :: rest))%nat with true
      by (symmetry; apply Nat.ltb_lt; rewrite length_app; simpl; lia).
    rewrite list_lookup_middle by reflexivity. cbn [default from_option id].
    cbn [find List.filter]. unfold enters_scope at 1.
    change (eqstr (lb_name g) (lb_name lb)) with (goto_matches lb g).
    destruct (goto_matches lb g) eqn:Hname; cbn [andb negb].
    + (* matching goto *)
      assert (Hi : gt (dyd ls) !! length kept = Some g)
        by (rewrite Hgt; by apply list_lookup_middle).
      destruct (lb_nactvar g <? lb_nactvar lb)%nat eqn:Hlvl.
      * (* enters a scope *)
        exists ls. split.
        -- apply bind_throw. by apply solvegoto_throw.
        -- rewrite Hgt. apply in_or_app. right. by left.
      * rewrite (bind_ok _ _ _ _ _ (solvegoto_ok _ _ _ _ Hi Hlvl)).
        set (ls1 := upd_dyd _ (upd_fs _ ls)).
        assert (Hgt1 : gt (dyd ls1) = kept ++ rest).
        { subst ls1. rewrite gt_upd_dyd_set_gt. rewrite Hgt.
          by rewrite delete_middle. }
        specialize (IH kept fuel (needsclose || lb_close g) ls1 Hgt1 ltac:(lia)).
        destruct (find (enters_scope lb) rest) as [g'|].
        -- destruct IH as (ls' & E & Hin). exists ls'. split; [|done].
           rewrite E. do 3 f_equal. subst ls1.
           rewrite cur_fs_upd_dyd.
           destruct ls as [? ? ? ? fss d ? ? ? ?]. unfold upd_dyd, upd_fs, cur_fs; simpl.
           destruct fss; simpl; [done|]. by rewrite getlocalvardesc_patch.
        -- rewrite IH. f_equal.
           ++ simpl. by rewrite orb_assoc.
           ++ unfold solved_state. subst ls1. cbn [List.filter].
              rewrite Hname. cbn [negb].
              rewrite upd_fs_upd_dyd, upd_dyd_set_gt_twice, upd_fs_upd_fs.
              reflexivity.
    + (* other goto *)
      specialize (IH (kept ++ [g]) fuel needsclose ls).
      rewrite <- app_assoc in IH. specialize (IH Hgt ltac:(lia)).
      rewrite length_app in IH. simpl in IH. rewrite Nat.add_1_r in IH.
      destruct (find (enters_scope lb) rest) as [g'|].
      * exact IH.
      * rewrite IH. f_equal.
        unfold solved_state. cbn [List.filter].
        rewrite Hname. simpl. by rewrite <- app_assoc.
Qed.

Lemma set_fixups_id s :
  set_fs_f (set_p_fixups (p_fixups (fs_f s)) (fs_f s)) s = s.
Proof. destruct s as [f ? ? ? ? ? ? ?]. by destruct f. Qed.

Lemma patch_gotos_eq lb gs : forall s,
  patch_gotos lb gs s
  = set_fs_f (set_p_fixups (p_fixups (fs_f s) ++ patches_to (lb_pc lb) gs) (fs_f s)) s.
Proof.
  unfold patch_gotos, patches_to.
  induction gs as [|g rest IH]; intros s; cbn [fold_left List.filter map].
  - by rewrite app_nil_r, set_fixups_id.
  - rewrite IH. unfold luaK_patchlist, add_fixup.
    destruct (lb_pc g =? NO_JUMP)%Z; cbn [negb]; [reflexivity|].
    destruct s as [f ? ? ? ? ? ? ?]. destruct f. cbn. by rewrite <- app_assoc.
Qed.

Lemma solvegotos_spec lb ls :
  (firstgoto (cur_bl (cur_fs ls)) <= length (gt (dyd ls)))%nat ->
  match List.find (enters_scope lb) (pending_here ls) with
  | Some g =>
      exists ls',
        solvegotos lb ls
        = Throw (E_jumpscope (lb_name g) (lb_line g)
                   (vd_name (getlocalvardesc (dyd ls) (cur_fs ls) (lb_nactvar g)))) ls'
        /\ In g (gt (dyd ls'))
  | None =>
      solvegotos lb ls
      = Ok (existsb lb_close (List.filter (goto_matches lb) (pending_here ls)))
           (solved_state lb (take (firstgoto (cur_bl (cur_fs ls))) (gt (dyd ls)))
              (pending_here ls) ls)
  end.
Proof.
  intros Hfg. unfold solvegotos.
  rewrite (bind_ok _ _ ls ls ls) by reflexivity.
  pose proof (solvegotos_loop_spec lb (pending_here ls)
                (take (firstgoto (cur_bl (cur_fs ls))) (gt (dyd ls)))
                (S (length (gt (dyd ls)))) false ls) as H.
  rewrite length_take, Nat.min_l in H by exact Hfg.
  apply H.
  - unfold pending_here. by rewrite take_drop.
  - unfold pending_here. rewrite length_drop. lia.
Qed.

Lemma createlabel_spec name line last ls :
  (firstgoto (cur_bl (cur_fs ls)) <= length (gt (dyd ls)))%nat ->
  let lb := label_entry name line last ls in
  let ls1 := upd_dyd (set_label (label (dyd ls) ++ [lb])) ls in
  match List.find (enters_scope lb) (pending_here ls) with
  | Some g =>
      exists ls',
        createlabel name line last ls
        = Throw (E_jumpscope (lb_name g) (lb_line g)
                   (vd_name (getlocalvardesc (dyd ls) (cur_fs ls) (lb_nactvar g)))) ls'
        /\ In g (gt (dyd ls'))
  | None =>
      let solved := solved_state lb (take (firstgoto (cur_bl (cur_fs ls))) (gt (dyd ls)))
                      (pending_here ls) ls1 in
      createlabel name line last ls
      = if existsb lb_close (List.filter (goto_matches lb) (pending_here ls))
        then Ok true
               (upd_fs (fun s => snd (luaK_codeABC OP_CLOSE
                                        (luaY_nvarstack (dyd solved) s) 0 0 s)) solved)
        else Ok false solved
  end.
Proof.
  intros Hfg lb ls1. unfold createlabel.
  rewrite (bind_ok _ _ ls ls ls) by reflexivity.
  unfold newlabelentry. cbv beta iota zeta.
  assert (Hll : (if last
                 then alter (set_lb_nactvar (bl_nactvar (cur_bl (cur_fs ls))))
                        (length (label (dyd ls)))
                        (label (dyd ls)
                         ++ [mkLabeldesc name (luaK_getlabel (cur_fs ls)) line
                               (nactvar (cur_fs ls)) false])
                 else label (dyd ls)
                      ++ [mkLabeldesc name (luaK_getlabel (cur_fs ls)) line
                            (nactvar (cur_fs ls)) false])
                = label (dyd ls) ++ [lb]).
  { subst lb. unfold label_entry, luaK_getlabel. destruct last; [|reflexivity].
    replace (length (label (dyd ls))) with (length (label (dyd ls)) + 0)%nat at 1 by lia.
    rewrite alter_app_r. reflexivity. }
  rewrite Hll. clear Hll.
  rewrite (bind_ok _ _ ls tt ls1) by reflexivity.
  rewrite list_lookup_middle by reflexivity. cbn [default from_option id].
  assert (Hfs1 : cur_fs ls1 = cur_fs ls) by apply cur_fs_upd_dyd.
  assert (Hgt1 : gt (dyd ls1) = gt (dyd ls)) by (by destruct ls as [? ? ? ? ? []]).
  assert (Hp1 : pending_here ls1 = pending_here ls)
    by (unfold pending_here; by rewrite Hfs1, Hgt1).
  pose proof (solvegotos_spec lb ls1) as H.
  rewrite Hfs1, Hgt1, Hp1 in H. specialize (H Hfg).
  destruct (find (enters_scope lb) (pending_here ls)) as [g|].
  - destruct H as (ls' & E & Hin). exists ls'. split; [|exact Hin].
    rewrite (bind_throw _ _ _ _ _ E). reflexivity.
  - rewrite (bind_ok _ _ _ _ _ H).
    destruct (existsb lb_close _); [|reflexivity].
    unfold bind, get, onfs, ret.
    destruct (luaK_codeABC _ _ _ _ _) as [a s'] eqn:E. f_equal.
    apply upd_fs_ext_cur. by rewrite E.
Qed.

Lemma in_function_upd_dyd g ls : in_function (upd_dyd g ls) = in_function ls.
Proof. by destruct ls. Qed.

Lemma gt_solved_state lb kept remaining ls :
  gt (dyd (solved_state lb kept remaining ls))
  = kept ++ List.filter (fun g => negb (goto_matches lb g)) remaining.
Proof. unfold solved_state. apply gt_upd_dyd_set_gt. Qed.

Lemma cur_fs_solved_state lb kept remaining ls :
  in_function ls = true ->
  cur_fs (solved_state lb kept remaining ls)
  = patch_gotos lb (List.filter (goto_matches lb) remaining) (cur_fs ls).
Proof.
  intros Hfn. unfold solved_state. rewrite cur_fs_upd_dyd.
  by apply cur_fs_upd_fs.
Qed.

Lemma createlabel_resolves name line last ls :
  in_function ls = true ->
  (firstgoto (cur_bl (cur_fs ls)) <= length (gt (dyd ls)))%nat ->
  let lb := label_entry name line last ls in
  List.find (enters_scope lb) (pending_here ls) = None ->
  exists c ls',
    createlabel name line last ls = Ok c ls'
    /\ in_function ls' = true
    /\ bl (cur_fs ls') = bl (cur_fs ls)
    /\ gt (dyd ls')
       = take (firstgoto (cur_bl (cur_fs ls))) (gt (dyd ls))
         ++ List.filter (fun g => negb (goto_matches lb g)) (pending_here ls)
    /\ p_fixups (fs_f (cur_fs ls'))
       = p_fixups (fs_f (cur_fs ls))
         ++ patches_to (pc (cur_fs ls))
              (List.filter (goto_matches lb) (pending_here ls))
    /\ label (dyd ls') = label (dyd ls) ++ [lb].
Proof.
  intros Hfn Hfg lb Hfind.
  pose proof (createlabel_spec name line last ls Hfg) as H. cbv zeta in H.
  fold lb in H. rewrite Hfind in H.
  set (ls1 := upd_dyd (set_label (label (dyd ls) ++ [lb])) ls) in *.
  assert (Hfn1 : in_function ls1 = true)
    by (unfold ls1; by rewrite in_function_upd_dyd).
  assert (Hfs1 : cur_fs ls1 = cur_fs ls) by apply cur_fs_upd_dyd.
  assert (Hfns : in_function
                   (solved_state lb (take (firstgoto (cur_bl (cur_fs ls))) (gt (dyd ls)))
                      (pending_here ls) ls1) = true).
  { unfold solved_state. by rewrite in_function_upd_dyd, in_function_upd_fs. }
  assert (Hlab : label (dyd (solved_state lb
                               (take (firstgoto (cur_bl (cur_fs ls))) (gt (dyd ls)))
                               (pending_here ls) ls1))
                 = label (dyd ls) ++ [lb]).
  { unfold solved_state. rewrite dyd_upd_dyd, dyd_upd_fs. unfold ls1.
    rewrite dyd_upd_dyd. by destruct (dyd ls). }
  destruct (existsb lb_close _); eexists _, _; (split; [exact H|]).
  - rewrite in_function_upd_fs. split; [exact Hfns|].
    rewrite dyd_upd_fs, gt_solved_state.
    rewrite cur_fs_upd_fs by exact Hfns.
    rewrite cur_fs_solved_state by exact Hfn1.
    rewrite patch_gotos_eq, Hfs1. unfold luaK_codeABC, luaK_code. cbn.
    done.
  - split; [exact Hfns|]. rewrite gt_solved_state.
    rewrite cur_fs_solved_state by exact Hfn1.
    by rewrite patch_gotos_eq, Hfs1.
Qed.

(** C1 (as the code has it): the label statement [::name::], once the void
    statements after it are skipped, makes a label that records the position
    of the next instruction and the number of active variables, or the
    number at the entry of the block when the token that follows is 'else',
    'elseif', 'end' or the end of the chunk (and no other: before 'until' or
    'when' the label records the current number).  If the function already
    has a label of the name, the statement raises the repeated-label error.
    Otherwise, if a pending goto of the block to that name was made with
    fewer active variables than the label records, the statement raises the
    jump-into-scope error for the first such goto, naming the variable
    declared first after the goto, and the goto is still pending at the
    raise.  Otherwise the label is added to the list of labels and every
    pending goto of the block to that name is resolved: it leaves the
    pending list and its jump is patched to the position of the label. *)
Theorem labelstat_jump_into_scope
    (rs : option lu_hint -> P (option lu_hint)) (fuel : nat)
    (name : TString) (line : Z) (ls ls1 : LexState)
    (Hskip : (checknext TK_DBCOLON >>> labelstat_skip rs fuel) ls = Ok tt ls1)
    (Hfn : in_function ls1 = true)
    (Hfg : (firstgoto (cur_bl (cur_fs ls1)) <= length (gt (dyd ls1)))%nat) :
  let last := match token (ls_t ls1) with
              | TK_ELSE | TK_ELSEIF | TK_END | TK_EOS => true
              | _ => false
              end in
  let level := if last then bl_nactvar (cur_bl (cur_fs ls1))
               else nactvar (cur_fs ls1) in
  let lb := mkLabeldesc name (pc (cur_fs ls1)) line level false in
  match List.find (fun l => eqstr (lb_name l) name)
          (drop (fs_firstlabel (cur_fs ls1)) (label (dyd ls1))) with
  | Some old =>
      labelstat rs fuel name line ls = Throw (E_repeated name (lb_line old)) ls1
  | None =>
      match List.find (fun g => eqstr (lb_name g) name && (lb_nactvar g <? level)%nat)
              (pending_here ls1) with
      | Some g =>
          exists ls',
            labelstat rs fuel name line ls
            = Throw (E_jumpscope name (lb_line g)
                       (vd_name (getlocalvardesc (dyd ls1) (cur_fs ls1) (lb_nactvar g))))
                ls'
            /\ In g (gt (dyd ls'))
      | None =>
          exists ls',
            labelstat rs fuel name line ls = Ok tt ls'
            /\ label (dyd ls') = label (dyd ls1) ++ [lb]
            /\ gt (dyd ls')
               = take (firstgoto (cur_bl (cur_fs ls1))) (gt (dyd ls1))
                 ++ List.filter (fun g => negb (eqstr (lb_name g) name))
                      (pending_here ls1)
            /\ p_fixups (fs_f (cur_fs ls'))
               = p_fixups (fs_f (cur_fs ls1))
                 ++ patches_to (pc (cur_fs ls1))
                      (List.filter (fun g => eqstr (lb_name g) name) (pending_here ls1))
      end
  end.
Proof.
  intros last level lb.
  apply bind_inv in Hskip as (u1 & l1 & H1 & H2).
  unfold labelstat.
  rewrite (bind_ok _ _ _ _ _ H1), (bind_ok _ _ _ _ _ H2).
  destruct (find _ _) as [old|] eqn:Hold.
  { apply bind_throw. unfold checkrepeated, findlabel, bind, get, ret.
    by rewrite Hold. }
  rewrite (bind_ok _ _ ls1 tt ls1)
    by (unfold checkrepeated, findlabel, bind, get, ret; by rewrite Hold).
  rewrite (bind_ok _ _ ls1 last ls1) by reflexivity.
  assert (Hlb : label_entry name line last ls1 = lb) by reflexivity.
  change (find (fun g => eqstr (lb_name g) name && (lb_nactvar g <? level)%nat)
            (pending_here ls1))
    with (find (enters_scope lb) (pending_here ls1)).
  destruct (find (enters_scope lb) (pending_here ls1)) as [g|] eqn:Hfind.
  - pose proof (createlabel_spec name line last ls1 Hfg) as H. cbv zeta in H.
    rewrite Hlb, Hfind in H. destruct H as (ls' & E & Hin).
    exists ls'. split; [|exact Hin].
    rewrite (bind_throw _ _ _ _ _ E).
    apply find_some in Hfind as [_ Hm].
    unfold enters_scope, goto_matches, eqstr in Hm.
    apply andb_prop in Hm as [Hm _]. apply String.eqb_eq in Hm.
    cbn in Hm. by rewrite Hm.
  - pose proof (createlabel_resolves name line last ls1 Hfn Hfg) as H. cbv zeta in H.
    rewrite Hlb in H.
    destruct (H Hfind) as (c & ls' & E & _ & _ & Hgt & Hfix & Hlab).
    exists ls'. rewrite (bind_ok _ _ _ _ _ E). by repeat split.
Qed.

Lemma labelstat_jump_into_scope_witness :
  exists ls',
    labelstat no_statement 1 "fwd" 1 label_after_goto_state
    = Throw (E_jumpscope "fwd" 1 "v") ls'
    /\ In (mkLabeldesc "fwd" 1 1 0 false) (gt (dyd ls')).
Proof.
  exact (labelstat_jump_into_scope no_statement 1 "fwd" 1 label_after_goto_state
           (next_state label_after_goto_state)
           eq_refl eq_refl ltac:(vm_compute; lia)).
Defined.

(** C1 does not hold as stated: [goto fwd; local v; ::fwd::] has the
    forward goto, the declaration and the label in the same block, and it is
    parsed without error, the label being the last statement of the block;
    the jump of the goto is patched to the position of the label. *)
Lemma goto_to_label_at_block_end_accepted :
  exists p ls,
    luaY_parser (cg := Emitter.gen) 20 goto_to_block_end "x" = Ok p ls
    /\ p_code p = [iABC OP_VARARGPREP 0 0 0; isJ OP_JMP NO_JUMP;
                   iOther "loadnil" [0; 1]; iOther "return" [1; 0]]
    /\ p_fixups p = [FixPatchList 1 3].
Proof. vm_compute. eexists _, _. repeat split; reflexivity. Qed.

(** With a statement after the label the same goto is rejected, and the
    error names [v]. *)
Example goto_into_scope_rejected :
  error_of (luaY_parser (cg := Emitter.gen) 20 goto_into_scope "x")
  = Some (E_jumpscope "fwd" 1 "v").
Proof. vm_compute. reflexivity. Qed.

(** Before 'until' the label is not the last statement of a block for
    createlabel (block_follow is asked without 'until'), and the same goto
    is rejected. *)
Example goto_before_until_rejected :
  error_of (luaY_parser (cg := Emitter.gen) 20 goto_before_until "x")
  = Some (E_jumpscope "fwd" 1 "v").
Proof. vm_compute. reflexivity. Qed.

(** ** Blocks *)

Lemma removevars_loop_frame fuel d tolevel : forall s,
  let s' := removevars_loop fuel d tolevel s in
  bl s' = bl s /\ pc s' = pc s /\ freereg s' = freereg s
  /\ firstlocal s' = firstlocal s
  /\ p_fixups (fs_f s') = p_fixups (fs_f s) /\ p_code (fs_f s') = p_code (fs_f s).
Proof.
  induction fuel as [|fuel IH]; intros s; cbn [removevars_loop]; [done|].
  destruct (tolevel <? nactvar s)%nat; [|done].
  match goal with |- context [removevars_loop fuel d tolevel ?x] =>
    specialize (IH x); cbv zeta in IH; destruct IH as (-> & -> & -> & -> & -> & ->) end.
  destruct (localdebuginfo _ _ _); destruct s as [[] ? ? ? ? ? ? ?]; done.
Qed.

Lemma take_take_app_drop {A} (f : A -> A) n (l : list A) :
  take n (take n l ++ map f (drop n l)) = take n l.
Proof.
  revert l. induction n as [|n IH]; intros [|x l]; cbn; try reflexivity.
  by rewrite IH.
Qed.

Lemma leaveblock_inner ls b b' rest c ls1 :
  bl (cur_fs ls) = b :: b' :: rest ->
  (if isloop b then createlabel "break" 0 false else ret false) ls = Ok c ls1 ->
  in_function ls1 = true ->
  bl (cur_fs ls1) = bl (cur_fs ls) ->
  exists ls',
    leaveblock ls = Ok tt ls'
    /\ bl (cur_fs ls') = b' :: rest
    /\ take (firstgoto b) (gt (dyd ls')) = take (firstgoto b) (gt (dyd ls1))
    /\ map lb_name (gt (dyd ls')) = map lb_name (gt (dyd ls1))
    /\ p_fixups (fs_f (cur_fs ls')) = p_fixups (fs_f (cur_fs ls1)).
Proof.
  intros Hbl Hc Hfn1 Hbl1. unfold leaveblock.
  rewrite (bind_ok _ _ ls ls ls) by reflexivity. cbv zeta.
  unfold cur_bl. rewrite Hbl. cbn [head default from_option id tail length Nat.eqb negb].
  rewrite (bind_ok _ _ _ _ _ Hc).
  rewrite Hbl in Hbl1.
  destruct ls1 as [? ? ? ? fss1 d1 ? ? ? ?]. unfold in_function in Hfn1. cbn in Hfn1, Hbl1.
  destruct fss1 as [|s1 prev1]; [discriminate|]. cbn in Hbl1.
  unfold bind, onfs, onfs_, modify, removevars, movegotosout, ret, get, gets.
  set (cl := negb c && true && upval b).
  destruct cl; cbn; (eexists; split; [reflexivity|]); cbn;
    match goal with |- context [removevars_loop ?f ?d ?t ?s] =>
      destruct (removevars_loop_frame f d t s) as (-> & _ & _ & _ & -> & _) end;
    (split; [reflexivity|]);
    (split; [apply take_take_app_drop|]);
    (split; [rewrite map_app, map_map; cbn; rewrite <- map_app; by rewrite take_drop
            |by destruct s1 as [[] ? ? ? ? ? ? ?]]).
Qed.

(** ** The switch statement *)

Lemma enterblock_eq isloop_ ls :
  in_function ls = true ->
  exists ls',
    enterblock isloop_ ls = Ok tt ls'
    /\ in_function ls' = true
    /\ dyd ls' = dyd ls
    /\ bl (cur_fs ls')
       = mkBlockCnt NO_JUMP (length (label (dyd ls))) (length (gt (dyd ls)))
           (nactvar (cur_fs ls)) false isloop_
           (match bl (cur_fs ls) with [] => false | b0 :: _ => insidetbc b0 end)
         :: bl (cur_fs ls)
    /\ freereg (cur_fs ls') = freereg (cur_fs ls)
    /\ nactvar (cur_fs ls') = nactvar (cur_fs ls)
    /\ firstlocal (cur_fs ls') = firstlocal (cur_fs ls).
Proof.
  intros Hfn. unfold enterblock, modify. eexists. split; [reflexivity|].
  rewrite in_function_upd_fs, dyd_upd_fs, cur_fs_upd_fs by exact Hfn.
  by destruct (cur_fs ls).
Qed.

Lemma enterblock_in_function isloop_ ls u ls' :
  enterblock isloop_ ls = Ok u ls' -> in_function ls' = in_function ls.
Proof.
  unfold enterblock, modify. intros [= _ <-]. apply in_function_upd_fs.
Qed.

(** The block switch_head opens around the cases is a loop block whose
    window of pending gotos starts empty. *)
Lemma switch_head_block {cg : CodeGen}
    (rec_expr : option lu_hint -> P (expdesc * option lu_hint))
    (ls : LexState) (save : expdesc) (ls' : LexState) :
  switch_head rec_expr ls = Ok save ls' ->
  in_function ls' = true ->
  isloop (cur_bl (cur_fs ls')) = true
  /\ firstgoto (cur_bl (cur_fs ls')) = length (gt (dyd ls'))
  /\ pending_here ls' = [].
Proof.
  intros H Hfn'. unfold switch_head in H.
  apply bind_inv in H as (u1 & l1 & _ & H).
  apply bind_inv in H as (u2 & l2 & _ & H).
  apply bind_inv in H as ([crtl p] & l3 & _ & H).
  apply bind_inv in H as (crtl' & l4 & _ & H).
  apply bind_inv in H as (u5 & l5 & _ & H).
  apply bind_inv in H as (u6 & l6 & _ & H).
  apply bind_inv in H as (u7 & l7 & _ & H).
  apply bind_inv in H as (u8 & l8 & _ & H).
  apply bind_inv in H as (u9 & l9 & Hent & H).
  injection H as _ <-.
  assert (Hfn8 : in_function l8 = true).
  { erewrite <- enterblock_in_function; [exact Hfn'|exact Hent]. }
  destruct (enterblock_eq true l8 Hfn8) as (l9' & E & _ & Hd & Hb & _).
  assert (l9 = l9') as -> by congruence.
  unfold pending_here, cur_bl. rewrite Hb, Hd. cbn.
  split; [reflexivity|]. split; [reflexivity|]. apply drop_all.
Qed.

(** Leaving a loop block that is not the outermost of its function makes the
    label "break" at the position of the next instruction: every 'break'
    pending in the window of the block is patched to that position and
    leaves the pending list, and the gotos pending before the block are left
    as they are. *)
Lemma leaveblock_resolves_breaks (ls : LexState) (b b' : BlockCnt)
    (rest : list BlockCnt) :
  in_function ls = true ->
  bl (cur_fs ls) = b :: b' :: rest ->
  isloop b = true ->
  (firstgoto b <= length (gt (dyd ls)))%nat ->
  match List.find (enters_scope (label_entry "break" 0 false ls))
          (pending_here ls) with
  | Some g =>
      exists ls',
        leaveblock ls
        = Throw (E_jumpscope "break" (lb_line g)
                   (vd_name (getlocalvardesc (dyd ls) (cur_fs ls)
                               (lb_nactvar g)))) ls'
  | None =>
      exists ls',
        leaveblock ls = Ok tt ls'
        /\ bl (cur_fs ls') = b' :: rest
        /\ take (firstgoto b) (gt (dyd ls')) = take (firstgoto b) (gt (dyd ls))
        /\ (forall g, In g (drop (firstgoto b) (gt (dyd ls'))) ->
                      is_break g = false)
        /\ p_fixups (fs_f (cur_fs ls'))
           = p_fixups (fs_f (cur_fs ls))
             ++ patches_to (pc (cur_fs ls))
                  (List.filter is_break (pending_here ls))
  end.
Proof.
  intros Hfn Hbl Hloop Hfg.
  assert (Hcb : cur_bl (cur_fs ls) = b) by (unfold cur_bl; by rewrite Hbl).
  assert (Hfg' : (firstgoto (cur_bl (cur_fs ls)) <= length (gt (dyd ls)))%nat)
    by (by rewrite Hcb).
  destruct (find _ _) as [g|] eqn:Hfind.
  + pose proof (createlabel_spec "break" 0 false ls Hfg') as H. cbv zeta in H.
    rewrite Hfind in H. destruct H as (ls' & E & _). exists ls'.
    unfold leaveblock. rewrite (bind_ok _ _ ls ls ls) by reflexivity. cbv zeta.
    rewrite Hcb, Hloop. apply bind_throw. rewrite E.
    apply find_some in Hfind as [_ Hm].
    unfold enters_scope, goto_matches, eqstr in Hm.
    apply andb_prop in Hm as [Hm _]. apply String.eqb_eq in Hm.
    cbn in Hm. by rewrite Hm.
  + destruct (createlabel_resolves "break" 0 false ls Hfn Hfg' Hfind)
      as (c & ls1 & E & Hfn1 & Hbl1 & Hgt1 & Hfix1 & _).
    destruct (leaveblock_inner ls b b' rest c ls1 Hbl) as (ls' & El & Hb' & Htk & Hnm & Hfx);
      [by rewrite Hloop|exact Hfn1|exact Hbl1|].
    exists ls'. split; [exact El|]. split; [exact Hb'|].
    rewrite Hcb in Hgt1.
    assert (Hlen : length (take (firstgoto b) (gt (dyd ls))) = firstgoto b)
      by (rewrite length_take; lia).
    split; [|split].
    * rewrite Htk, Hgt1. rewrite take_app_le by lia.
      rewrite take_ge by lia. reflexivity.
    * intros g Hin.
      assert (Hn : In (lb_name g) (map lb_name (drop (firstgoto b) (gt (dyd ls'))))).
      { by apply in_map. }
      rewrite <- skipn_map, Hnm, skipn_map, Hgt1 in Hn.
      rewrite drop_app_ge, Hlen, Nat.sub_diag in Hn by lia. cbn [drop] in Hn.
      apply in_map_iff in Hn as (g0 & Hname & Hin0).
      apply filter_In in Hin0 as [_ Hneg].
      unfold is_break. rewrite <- Hname.
      unfold goto_matches in Hneg. cbn in Hneg. by destruct (eqstr _ _).
    * rewrite Hfx, Hfix1. reflexivity.
Qed.

(** [while a do switch a do case 1: break default: break end end]: the jump
    of the 'break' of the case, at position 7, goes to position 8, the first
    instruction after the switch (the jump back of the loop), and not to
    position 9, the exit of the loop; the 'break' before 'end' in the default
    body emits nothing. *)
Example break_in_switch_in_loop_run :
  option_map (fun r => match r with
                       | inl p => Some (p_code p, p_fixups p)
                       | inr _ => None
                       end)
    (outcome (luaY_parser (cg := Emitter.gen) 20 break_in_switch_in_loop "x"))
  = Some (Some
      ([iABC OP_VARARGPREP 0 0 0; iOther "gettable" [-1; -1];
        iOther "goiftrue" [-2]; isJ OP_JMP NO_JUMP;
        iOther "gettable" [-1; -1]; iOther "load" [0; -5];
        iOther "binop" [16; -1; 1]; isJ OP_JMP NO_JUMP; isJ OP_JMP NO_JUMP;
        iOther "return" [0; 0]],
       [FixPatchList 6 8; FixPatchList 7 8; FixPatchList 8 1; FixPatchList 3 9])).
Proof. vm_compute. reflexivity. Qed.

(** ** Expressions *)

Lemma BinOpr_eqb_eq a b : BinOpr_eqb a b = true <-> a = b.
Proof. by destruct a, b. Qed.

Lemma UnOpr_eqb_eq a b : UnOpr_eqb a b = true <-> a = b.
Proof. by destruct a, b. Qed.

Lemma priority_table op : (left op, right op) = stated_priority op.
Proof. by destruct op. Qed.

Lemma ls_t_upd_fs g ls : ls_t (upd_fs g ls) = ls_t ls.
Proof. destruct ls as [? ? ? ? fss ? ? ? ? ?]. unfold upd_fs; simpl. by destruct fss. Qed.

Lemma callK_ls_t {A} (g : Dyndata -> FuncState -> kres A) ls a ls' :
  callK g ls = Ok a ls' -> ls_t ls' = ls_t ls.
Proof. intros H. apply callK_inv in H as (s & _ & ->). apply ls_t_upd_fs. Qed.

Section Expressions.

Context {cg : CodeGen}.
Variable rec_statement : option lu_hint -> P (option lu_hint).
Variable rec_expr : option lu_hint -> P (expdesc * option lu_hint).

Lemma subexpr_loop_folds fuel limit n : forall op v ls op' v' ls',
  subexpr_loop (fun lim => subexpr rec_statement rec_expr fuel lim None)
    limit n op v ls = Ok (op', v') ls' ->
  folds rec_statement rec_expr fuel limit op v ls op' v' ls'.
Proof.
  induction n as [|n IH]; intros op v ls op' v' ls' H; [discriminate|].
  cbn [subexpr_loop] in H.
  destruct (negb (BinOpr_eqb op OPR_NOBINOPR) && (limit <? left op)%nat) eqn:Hc.
  - apply andb_prop in Hc as [Hop Hlim].
    apply negb_true_iff in Hop. apply Nat.ltb_lt in Hlim.
    assert (Hne : op <> OPR_NOBINOPR).
    { intros ->. by rewrite (proj2 (BinOpr_eqb_eq _ _) eq_refl) in Hop. }
    apply bind_inv in H as (line & l0 & H0 & H). injection H0 as <- <-.
    apply bind_inv in H as (u & l1 & H1 & H). rewrite luaX_next_eq in H1.
    injection H1 as _ <-.
    apply bind_inv in H as (v1 & l2 & Hinfix & H).
    apply bind_inv in H as ([[nextop v2] p2] & l3 & Hsub & H).
    apply bind_inv in H as (v3 & l4 & Hposfix & H).
    eapply folds_step; eauto.
  - injection H as <- <- <-. apply folds_stop.
    apply andb_false_iff in Hc as [Hc|Hc].
    + left. apply negb_false_iff in Hc. by apply BinOpr_eqb_eq.
    + right. apply Nat.ltb_ge in Hc. exact Hc.
Qed.

Lemma subexpr_run fuel limit prop ls op v p ls' :
  subexpr rec_statement rec_expr (S fuel) limit prop ls = Ok (op, v, p) ls' ->
  exists lsE v0 ls0 ls1,
    enterlevel ls = Ok tt lsE
    /\ prefix_parsed rec_statement rec_expr fuel prop lsE v0 p ls0
    /\ folds rec_statement rec_expr fuel limit
         (getbinopr (token (ls_t ls0))) v0 ls0 op v ls1
    /\ leavelevel ls1 = Ok tt ls'.
Proof.
  intros H. cbn [subexpr] in H.
  apply bind_inv in H as ([] & lsE & HE & H).
  apply bind_inv in H as (tk & l0 & H0 & H). injection H0 as <- <-.
  apply bind_inv in H as ([v0 p0] & ls0 & Hpre & H).
  apply bind_inv in H as (tk' & l1 & H1 & H). injection H1 as <- <-.
  apply bind_inv in H as ([op1 v1] & ls1 & Hloop & H).
  apply bind_inv in H as ([] & l2 & Hleave & H). injection H as <- <- <- <-.
  exists lsE, v0, ls0, ls1. split; [exact HE|]. split; [|split; [|exact Hleave]].
  2:{ by apply subexpr_loop_folds in Hloop. }
  clear Hloop Hleave HE.
  destruct (negb (UnOpr_eqb (getunopr (token (ls_t lsE))) OPR_NOUNOPR)) eqn:Hu.
  - apply negb_true_iff in Hu.
    apply bind_inv in Hpre as (line & m0 & G0 & G). injection G0 as <- <-.
    apply bind_inv in G as (u & m1 & G1 & G). rewrite luaX_next_eq in G1.
    injection G1 as _ <-.
    apply bind_inv in G as ([[o2 w2] q2] & m2 & Hsub & G).
    apply bind_inv in G as (w3 & m3 & Hprefix & G). injection G as <- <- <-.
    eapply prefix_unary; eauto.
    intros E. by rewrite (proj2 (UnOpr_eqb_eq _ _) E) in Hu.
  - apply negb_false_iff, UnOpr_eqb_eq in Hu.
    destruct (tok_eqb (token (ls_t lsE)) TK_IF) eqn:Hif.
    { apply tok_eqb_eq in Hif.
      apply bind_inv in Hpre as (w1 & m1 & Hifexpr & G). injection G as <- <- <-.
      by eapply prefix_if. }
    apply tok_eqb_neq in Hif.
    destruct (tok_eqb (token (ls_t lsE)) (Tchar "+")) eqn:Hplus.
    { apply tok_eqb_eq in Hplus.
      apply bind_inv in Hpre as (w1 & m1 & Hinfix & G).
      apply bind_inv in G as (line & m2 & G2 & G). injection G2 as <- <-.
      apply bind_inv in G as (u & m3 & G3 & G). rewrite luaX_next_eq in G3.
      injection G3 as _ <-.
      apply bind_inv in G as ([[o2 w2] q2] & m4 & Hsub & G).
      apply bind_inv in G as (w3 & m5 & Hposfix & G). injection G as <- <- <-.
      eapply prefix_plus; eauto. }
    apply tok_eqb_neq in Hplus.
    apply bind_inv in Hpre as ([w1 q1] & m1 & Hsimple & G).
    apply bind_inv in G as (tk & m2 & G2 & G). injection G2 as <- <-.
    destruct (tok_eqb (token (ls_t m1)) TK_IN) eqn:Hin.
    + apply tok_eqb_eq in Hin.
      apply bind_inv in G as (w2 & m3 & Hinexpr & G). injection G as <- <- <-.
      eapply prefix_simple_in; eauto.
    + apply tok_eqb_neq in Hin. injection G as <- <- <-.
      eapply prefix_simple; eauto.
Qed.

Lemma folds_result fuel limit :
  (forall limit prop ls op v p ls',
      subexpr rec_statement rec_expr fuel limit prop ls = Ok (op, v, p) ls' ->
      op = getbinopr (token (ls_t ls'))) ->
  forall op0 v0 ls0 op v ls1,
    folds rec_statement rec_expr fuel limit op0 v0 ls0 op v ls1 ->
    op0 = getbinopr (token (ls_t ls0)) ->
    op = getbinopr (token (ls_t ls1))
    /\ (op = OPR_NOBINOPR \/ (left op <= limit)%nat).
Proof.
  intros IH op0 v0 ls0 op v ls1 Hf.
  induction Hf as [op v ls Hstop
                  |op v ls v1 ls1 nextop v2 p2 ls2 v3 ls3 op' v' ls'
                     Hne Hlim Hinfix Hsub Hposfix Hrest IHf]; intros Hop.
  - by split.
  - apply IHf. apply IH in Hsub. apply callK_ls_t in Hposfix.
    by rewrite Hposfix.
Qed.

Lemma subexpr_returns_next fuel : forall limit prop ls op v p ls',
  subexpr rec_statement rec_expr fuel limit prop ls = Ok (op, v, p) ls' ->
  op = getbinopr (token (ls_t ls'))
  /\ (op = OPR_NOBINOPR \/ (left op <= limit)%nat).
Proof.
  induction fuel as [|fuel IH]; intros limit prop ls op v p ls' H; [discriminate|].
  apply subexpr_run in H as (lsE & v0 & ls0 & ls1 & _ & _ & Hf & Hleave).
  eapply folds_result in Hf; [|intros; eapply IH; eassumption|reflexivity].
  unfold leavelevel, modify in Hleave. injection Hleave as <-.
  by destruct ls1.
Qed.

(** C4: the priorities of the binary operators are those of the table
    (left/right: + - 10/10; * % / // 11/11; ^ 14/13; & 6/6; ~ 5/5; | 4/4;
    << >> 7/7; .. 9/8; the comparisons 3/3; and 2/2; or and ?? 1/1) and the
    priority of the unary operators is 12.  A run of subexpr that succeeds
    has the shape of a precedence climber: after enterlevel a prefix is read
    (a unary operator with its operand parsed at limit 12, an 'if'
    expression, a pseudo-unary '+' made 0 + expression with the expression
    parsed at limit 10, or a simple expression, with 'in' if it follows);
    then binary operators are folded with luaK_infix and luaK_posfix while
    the left priority of the operator exceeds the limit, each right operand
    parsed at the right priority of its operator.  The operator returned is
    the binary operator of the token the run stops at, the first one not
    consumed: it is no binary operator or its left priority does not exceed
    the limit. *)
Theorem subexpr_precedence_climbing
    (fuel limit : nat) (prop : option lu_hint) (ls : LexState)
    (op : BinOpr) (v : expdesc) (p : option lu_hint) (ls' : LexState)
    (Hrun : subexpr rec_statement rec_expr (S fuel) limit prop ls = Ok (op, v, p) ls') :
  (forall o, (left o, right o) = stated_priority o)
  /\ UNARY_PRIORITY = 12%nat
  /\ (exists lsE v0 ls0 ls1,
        enterlevel ls = Ok tt lsE
        /\ prefix_parsed rec_statement rec_expr fuel prop lsE v0 p ls0
        /\ folds rec_statement rec_expr fuel limit
             (getbinopr (token (ls_t ls0))) v0 ls0 op v ls1
        /\ leavelevel ls1 = Ok tt ls')
  /\ op = getbinopr (token (ls_t ls'))
  /\ (op = OPR_NOBINOPR \/ (left op <= limit)%nat).
Proof.
  split; [apply priority_table|]. split; [reflexivity|].
  split; [by apply subexpr_run|by eapply subexpr_returns_next].
Qed.

End Expressions.

Lemma subexpr_precedence_climbing_witness :
  exists op v p ls',
    subexpr (cg := Emitter.gen) no_statement (fun _ => out_of_fuel) 3 0 None
      (start [Ti 1; Tc "+"; Ti 2; Tc "*"; Ti 3; T TK_THEN])
    = Ok (op, v, p) ls'
    /\ op = getbinopr (token (ls_t ls')).
Proof.
  assert (H : exists r ls',
             subexpr (cg := Emitter.gen) no_statement (fun _ => out_of_fuel) 3 0 None
               (start [Ti 1; Tc "+"; Ti 2; Tc "*"; Ti 3; T TK_THEN]) = Ok r ls')
    by (vm_compute; eauto).
  destruct H as ([[op v] p] & ls' & H).
  exists op, v, p, ls'. split; [exact H|].
  exact (proj1 (proj2 (proj2 (proj2
           (subexpr_precedence_climbing (cg := Emitter.gen) no_statement
              (fun _ => out_of_fuel) 2 0 None _ op v p ls' H))))).
Defined.

(** Runs of the climber: in [1 + 2 * 3] the product is folded first, in
    [2 ^ 3 ^ 2] the power on the right, in [1 - 2 - 3] the difference on the
    left; in [- 2 ^ 2] the power is the operand of the minus; [+ 5] is
    [0 + 5].  An operand that is not a constant is shown as -1 minus the
    position of the instruction that computes it, or minus the register it
    was loaded in. *)
Example precedence_runs :
  emitted (local_x_is [Ti 1; Tc "+"; Ti 2; Tc "*"; Ti 3])
  = Some [iABC OP_VARARGPREP 0 0 0; iOther "binop" [2; 2; 3];
          iOther "binop" [0; 1; -2]; iOther "load" [0; -3];
          iOther "return" [1; 0]]
  /\ emitted (local_x_is [Ti 2; Tc "^"; Ti 3; Tc "^"; Ti 2])
     = Some [iABC OP_VARARGPREP 0 0 0; iOther "binop" [4; 3; 2];
             iOther "binop" [4; 2; -2]; iOther "load" [0; -3];
             iOther "return" [1; 0]]
  /\ emitted (local_x_is [Ti 1; Tc "-"; Ti 2; Tc "-"; Ti 3])
     = Some [iABC OP_VARARGPREP 0 0 0; iOther "binop" [1; 1; 2];
             iOther "load" [0; -2]; iOther "binop" [1; -1; 3];
             iOther "load" [0; -4]; iOther "return" [1; 0]]
  /\ emitted (local_x_is [Tc "-"; Ti 2; Tc "^"; Ti 2])
     = Some [iABC OP_VARARGPREP 0 0 0; iOther "binop" [4; 2; 2];
             iOther "unop" [-2]; iOther "load" [0; -3];
             iOther "return" [1; 0]]
  /\ emitted (local_x_is [Tc "+"; Ti 5])
     = Some [iABC OP_VARARGPREP 0 0 0; iOther "binop" [0; 0; 5];
             iOther "load" [0; -2]; iOther "return" [1; 0]].
Proof. vm_compute. repeat split; reflexivity. Qed.

(** ** The register watermark *)

Lemma reglevel_ext d s s' n :
  firstlocal s' = firstlocal s -> reglevel d s' n = reglevel d s n.
Proof.
  intros Hf. induction n as [|n IH]; [reflexivity|].
  cbn [reglevel]. unfold getlocalvardesc. rewrite Hf, IH. reflexivity.
Qed.

Lemma watermark_after_reset ls :
  watermark_ok
    (upd_fs (fun s => set_freereg (luaY_nvarstack (dyd ls) s) s) ls) = true.
Proof.
  unfold watermark_ok. rewrite dyd_upd_fs. apply Z.eqb_eq.
  destruct (in_function ls) eqn:Hfn.
  - rewrite cur_fs_upd_fs by exact Hfn. unfold luaY_nvarstack.
    destruct (cur_fs ls); cbn. by apply reglevel_ext.
  - destruct ls as [? ? ? ? [|? ?] ? ? ? ? ?]; [reflexivity|discriminate].
Qed.

Lemma watermark_set_nCcalls n ls :
  watermark_ok (set_nCcalls n ls) = watermark_ok ls.
Proof. by destruct ls. Qed.

Section Watermark.

Context {cg : CodeGen}.
Variable rec_statement : option lu_hint -> P (option lu_hint).
Variable rec_expr : option lu_hint -> P (expdesc * option lu_hint).

Lemma statement_watermark fuel prop ls p ls' :
  statement rec_statement rec_expr fuel prop ls = Ok p ls' ->
  watermark_ok ls' = true.
Proof.
  intros H. unfold statement in H.
  apply bind_inv in H as (line & l0 & _ & H).
  apply bind_inv in H as (u1 & l1 & _ & H).
  apply bind_inv in H as (tk & l2 & _ & H).
  apply bind_inv in H as (prop' & l3 & _ & H).
  apply bind_inv in H as (u4 & l4 & Hreset & H).
  apply bind_inv in H as (u5 & l5 & Hleave & H).
  unfold modify in Hreset. unfold leavelevel, modify in Hleave. unfold ret in H.
  assert (ls' = l5) as -> by congruence.
  assert (l5 = set_nCcalls (Nat.pred (nCcalls l4)) l4) as -> by congruence.
  assert (l4 = upd_fs (fun s => set_freereg (luaY_nvarstack (dyd l3) s) s) l3)
    as -> by congruence.
  rewrite watermark_set_nCcalls. apply watermark_after_reset.
Qed.

Lemma statlist_loop_asserting
    (rs : option lu_hint -> P (option lu_hint))
    (Hpost : forall prop ls p ls', rs prop ls = Ok p ls' -> watermark_ok ls' = true)
    (fuel : nat) : forall prop live ls,
  watermark_ok ls = true ->
  statlist_loop (fun q => asserting (rs q)) fuel prop live ls
  = statlist_loop rs fuel prop live ls
  /\ forall p ls', statlist_loop rs fuel prop live ls = Ok p ls' ->
                   watermark_ok ls' = true.
Proof.
  induction fuel as [|fuel IH]; intros prop live ls Hw; [by split|].
  cbn [statlist_loop].
  assert (Hbf : exists b, block_follow true ls = Ok b ls) by (by eexists).
  destruct Hbf as [b Hbf]. rewrite !(bind_ok _ _ _ _ _ Hbf).
  destruct b.
  { split; [reflexivity|]. by intros p ls' [= _ <-]. }
  rewrite !(bind_ok gett _ ls (token (ls_t ls)) ls) by reflexivity.
  destruct (tok_eqb (token (ls_t ls)) TK_RETURN).
  - unfold bind, asserting, ret. rewrite Hw.
    split; [reflexivity|].
    intros p ls'. destruct (rs _ ls) as [a l|e l|] eqn:E; [|discriminate..].
    intros [= _ <-]. by eapply Hpost.
  - unfold bind, asserting. rewrite Hw.
    destruct (rs (Some H_FE) ls) as [a l|e l|] eqn:E; [|by split..].
    apply Hpost in E. by apply IH.
Qed.

(** X19: 'statement' ends by making the first free register the register
    level of the active variables, for every form of statement: when it
    returns, the equality holds.  enterblock changes neither side, so that a
    block entered where the equality holds starts with it.  In a list of
    statements that starts where the equality holds every statement starts
    and ends where it holds: checking it before each statement, as the
    assertions of a debugging build do, changes nothing, and it holds when
    the list is finished.  (Whether it holds where a block is entered after
    the code of an expression is left to the code generator.) *)
Theorem statement_restores_watermark
    (fuel n : nat) (prop : option lu_hint) (ls : LexState) :
  (forall p ls',
      statement rec_statement rec_expr fuel prop ls = Ok p ls' ->
      watermark_ok ls' = true)
  /\ (forall isloop_,
        exists ls',
          enterblock isloop_ ls = Ok tt ls'
          /\ watermark_ok ls' = watermark_ok ls
          /\ (in_function ls = true ->
              bl_nactvar (cur_bl (cur_fs ls')) = nactvar (cur_fs ls)))
  /\ (watermark_ok ls = true ->
      statlist (fun q => asserting (statement rec_statement rec_expr n q)) fuel prop ls
      = statlist (statement rec_statement rec_expr n) fuel prop ls
      /\ forall p ls',
           statlist (statement rec_statement rec_expr n) fuel prop ls = Ok p ls' ->
           watermark_ok ls' = true).
Proof.
  split; [intros p ls'; apply statement_watermark|]. split.
  - intros isloop_. unfold enterblock, modify. eexists. split; [reflexivity|].
    split.
    + unfold watermark_ok. rewrite dyd_upd_fs.
      destruct (in_function ls) eqn:Hfn.
      * rewrite cur_fs_upd_fs by exact Hfn. unfold luaY_nvarstack.
        destruct (cur_fs ls); cbn. f_equal. by apply reglevel_ext.
      * by destruct ls as [? ? ? ? [|? ?] ? ? ? ? ?].
    + intros Hfn. rewrite cur_fs_upd_fs by exact Hfn. by destruct (cur_fs ls).
  - intros Hw. unfold statlist.
    apply statlist_loop_asserting; [|exact Hw].
    intros q l p l'. apply statement_watermark.
Qed.

End Watermark.

Lemma statement_restores_watermark_witness :
  exists p ls',
    statlist
      (fun q => asserting (statement (cg := Emitter.gen)
                             (parse_statement (cg := Emitter.gen) 9)
         (parse_expr (cg := Emitter.gen) 9) 9 q))
      10 None (start do_block) = Ok p ls'
    /\ watermark_ok ls' = true.
Proof.
  destruct (proj2 (proj2 (statement_restores_watermark (cg := Emitter.gen)
                            (parse_statement (cg := Emitter.gen) 9)
         (parse_expr (cg := Emitter.gen) 9) 10 9 None
                            (start do_block))) eq_refl) as [Heq Hpost].
  assert (H : exists p ls',
             statlist
               (statement (cg := Emitter.gen) (parse_statement (cg := Emitter.gen) 9)
         (parse_expr (cg := Emitter.gen) 9) 9)
               10 None (start do_block) = Ok p ls')
    by (vm_compute; eauto).
  destruct H as (p & ls' & H). exists p, ls'.
  split; [by rewrite Heq|by eapply Hpost].
Defined.

(** ** Further properties of blocks *)

Lemma removevars_loop_nactvar d tolevel fuel : forall s,
  (tolevel <= nactvar s)%nat -> (nactvar s <= tolevel + fuel)%nat ->
  nactvar (removevars_loop fuel d tolevel s) = tolevel.
Proof.
  induction fuel as [|fuel IH]; intros s Hle Hfuel; cbn [removevars_loop].
  - lia.
  - destruct (Nat.ltb_spec tolevel (nactvar s)) as [Hlt|Hge]; [|lia].
    rewrite IH; [reflexivity| |];
      destruct (localdebuginfo _ _ _); destruct s; cbn in *; lia.
Qed.

(** X1: leaving the outermost block of a function with a goto still pending
    raises the error of that goto: a 'break' outside a loop for the jump of a
    'break', an undefined label for another goto. *)
Theorem leaveblock_pending_goto_is_error
    (ls : LexState) (b : BlockCnt) (g : Labeldesc)
    (Hfn : in_function ls = true)
    (Hbl : bl (cur_fs ls) = [b])
    (Hloop : isloop b = false)
    (Hg : gt (dyd ls) !! firstgoto b = Some g) :
  exists ls',
    leaveblock ls
    = Throw (if is_break g then E_break_outside (lb_line g)
             else E_undefgoto (lb_name g) (lb_line g)) ls'.
Proof.
  unfold leaveblock.
  rewrite (bind_ok _ _ ls ls ls) by reflexivity. cbv zeta.
  unfold cur_bl. rewrite Hbl. cbn [head default from_option id tail length Nat.eqb negb].
  rewrite Hloop. cbn [andb].
  pose proof (lookup_lt_Some _ _ _ Hg) as Hlen. apply Nat.ltb_lt in Hlen.
  destruct ls as [? ? ? ? fss d ? ? ? ?]. unfold in_function in Hfn. cbn in Hfn, Hbl, Hg, Hlen.
  destruct fss as [|s prev]; [discriminate|]. cbn in Hbl.
  unfold bind, onfs, onfs_, modify, removevars, ret, get, gets, undefgoto. cbn.
  rewrite Hlen, Hg. cbn. unfold is_break.
  destruct (eqstr (lb_name g) "break"); eexists; reflexivity.
Qed.

Lemma leaveblock_pending_goto_is_error_witness :
  exists ls', leaveblock stray_break_state = Throw (E_break_outside 1) ls'.
Proof.
  exact (leaveblock_pending_goto_is_error stray_break_state
           (mkBlockCnt NO_JUMP 0 0 0 false false false)
           (mkLabeldesc "break" 1 1 0 false) eq_refl eq_refl eq_refl eq_refl).
Defined.

Lemma reglevel_ext2 d d' s s' n :
  actvar_arr d' = actvar_arr d -> firstlocal s' = firstlocal s ->
  reglevel d' s' n = reglevel d s n.
Proof.
  intros Ha Hf. induction n as [|n IH]; [reflexivity|].
  cbn [reglevel]. unfold getlocalvardesc. rewrite Ha, Hf, IH. reflexivity.
Qed.

(** X2: leaving an inner block that is not a loop removes the variables
    declared in it: the count of active variables is the count at the entry
    of the block, the array of active variables is shorter by the number of
    variables removed, the first free register is the register level of the
    variables that stay, the labels of the block are dropped and the block
    before it is the current one. *)
Theorem leaveblock_closes_scope
    (ls : LexState) (b b' : BlockCnt) (rest : list BlockCnt)
    (Hfn : in_function ls = true)
    (Hbl : bl (cur_fs ls) = b :: b' :: rest)
    (Hloop : isloop b = false)
    (Hn : (bl_nactvar b <= nactvar (cur_fs ls))%nat) :
  exists ls',
    leaveblock ls = Ok tt ls'
    /\ bl (cur_fs ls') = b' :: rest
    /\ nactvar (cur_fs ls') = bl_nactvar b
    /\ actvar_n (dyd ls')
       = (actvar_n (dyd ls) - (nactvar (cur_fs ls) - bl_nactvar b))%nat
    /\ label (dyd ls') = take (firstlabel b) (label (dyd ls))
    /\ watermark_ok ls' = true.
Proof.
  unfold leaveblock.
  rewrite (bind_ok _ _ ls ls ls) by reflexivity. cbv zeta.
  unfold cur_bl. rewrite Hbl. cbn [head default from_option id tail length Nat.eqb negb].
  rewrite Hloop.
  destruct ls as [? ? ? ? fss d ? ? ? ?]. unfold in_function in Hfn. cbn in Hfn, Hbl, Hn.
  destruct fss as [|s prev]; [discriminate|]. cbn in Hbl, Hn.
  unfold bind, onfs, onfs_, modify, removevars, movegotosout, ret, get, gets,
    watermark_ok, luaY_nvarstack.
  destruct (negb false && true && upval b); cbn;
    (eexists; split; [reflexivity|]); cbn;
    match goal with |- context [removevars_loop ?f ?d0 ?t ?s0] =>
      assert (Hna : nactvar (removevars_loop f d0 t s0) = t)
        by (apply removevars_loop_nactvar; destruct s; cbn in *; lia);
      destruct (removevars_loop_frame f d0 t s0) as (Hb & _ & _ & Hfl & _ & _);
      destruct (removevars_loop f d0 t s0) as [f1 bl1 pc1 fl1 flb1 na1 fr1 nc1]
    end;
    cbn in *; subst;
    (split; [reflexivity|]); (split; [reflexivity|]);
    (split; [reflexivity|]); (split; [reflexivity|]);
    apply Z.eqb_eq; symmetry; apply reglevel_ext2; by destruct s.
Qed.

Lemma leaveblock_closes_scope_witness :
  exists ls',
    leaveblock inner_block_state = Ok tt ls'
    /\ nactvar (cur_fs ls') = 0%nat
    /\ actvar_n (dyd ls') = 0%nat
    /\ watermark_ok ls' = true.
Proof.
  destruct (leaveblock_closes_scope inner_block_state
              (mkBlockCnt NO_JUMP 0 0 0 false false false)
              (mkBlockCnt NO_JUMP 0 0 0 false false false) []
              eq_refl eq_refl eq_refl ltac:(vm_compute; lia))
    as (ls' & H & _ & Hn & Ha & _ & Hw).
  exists ls'. split; [exact H|]. split; [exact Hn|]. split; [exact Ha|exact Hw].
Defined.

(** X3: leaving an inner block that is not a loop moves its pending gotos to
    the enclosing block: the gotos pending before the block are untouched,
    and each goto made in the block takes the level of the entry of the
    block, and is marked to close upvalues when the block has some and the
    goto leaves the scope of a variable. *)
Theorem leaveblock_moves_gotos_out
    (ls : LexState) (b b' : BlockCnt) (rest : list BlockCnt)
    (Hfn : in_function ls = true)
    (Hbl : bl (cur_fs ls) = b :: b' :: rest)
    (Hloop : isloop b = false) :
  exists ls',
    leaveblock ls = Ok tt ls'
    /\ gt (dyd ls')
       = take (firstgoto b) (gt (dyd ls))
         ++ map (moved_out (dyd ls) (cur_fs ls) b) (drop (firstgoto b) (gt (dyd ls))).
Proof.
  unfold leaveblock.
  rewrite (bind_ok _ _ ls ls ls) by reflexivity. cbv zeta.
  unfold cur_bl. rewrite Hbl. cbn [head default from_option id tail length Nat.eqb negb].
  rewrite Hloop.
  destruct ls as [? ? ? ? fss d ? ? ? ?]. unfold in_function in Hfn. cbn in Hfn, Hbl.
  destruct fss as [|s prev]; [discriminate|]. cbn in Hbl.
  unfold bind, onfs, onfs_, modify, removevars, movegotosout, ret, get, gets.
  destruct (negb false && true && upval b); cbn;
    (eexists; split; [reflexivity|]); cbn;
    match goal with |- context [removevars_loop ?f ?d0 ?t ?s0] =>
      destruct (removevars_loop_frame f d0 t s0) as (_ & _ & _ & Hfl & _ & _);
      destruct (removevars_loop f d0 t s0) as [f1 bl1 pc1 fl1 flb1 na1 fr1 nc1]
    end;
    cbn in *; subst;
    f_equal; apply map_ext; intros g; unfold moved_out; f_equal;
    by rewrite 2!(reglevel_ext2 d (set_label _ _) s (set_freereg _ _)).
Qed.

Lemma leaveblock_moves_gotos_out_witness :
  exists ls',
    leaveblock inner_goto_state = Ok tt ls'
    /\ gt (dyd ls') = [mkLabeldesc "out" 1 1 0 false].
Proof.
  exact (leaveblock_moves_gotos_out inner_goto_state
           (mkBlockCnt NO_JUMP 0 0 0 false false false)
           (mkBlockCnt NO_JUMP 0 0 0 false false false) []
           eq_refl eq_refl eq_refl).
Defined.

(** ** What a run of the parser leaves unchanged *)

Lemma stable_balanced {A} (m : P A) :
  stable m <-> forall ls a ls', m ls = Ok a ls' -> balanced ls ls'.
Proof.
  unfold stable, runs, balanced. split; intros H ls a ls' E.
  - destruct (H ls a ls' E) as (H1 & H2 & H3); [lia..|].
    rewrite !Nat.add_0_r in *. tauto.
  - intros _ _. destruct (H ls a ls' E) as (H1 & H2 & H3).
    rewrite !Nat.add_0_r. tauto.
Qed.

Lemma runs_stable {A} (m : P A) i p : stable m -> runs i i p p m.
Proof.
  intros H ls a ls' E _ _. destruct (H ls a ls' E) as (H1 & H2 & H3); [lia..|].
  split; [lia|]. split; [lia|]. exact H3.
Qed.

Lemma runs_bind {A B} (m : P A) (g : A -> P B) i j k p q r :
  runs i j p q m -> (forall a, runs j k q r (g a)) -> runs i k p r (bind m g).
Proof.
  intros Hm Hg ls b ls' E Hi Hp.
  apply bind_inv in E as (a & l1 & E1 & E2).
  destruct (Hm _ _ _ E1 Hi Hp) as (H1 & H2 & [n1 H3] & [w1 H4] & H5 & H6).
  destruct (Hg a _ _ _ E2) as (G1 & G2 & [n2 G3] & [w2 G4] & G5 & G6); [lia..|].
  split; [lia|]. split; [lia|].
  split; [exists (n1 + n2)%nat; by rewrite G3, H3, drop_drop|].
  split; [exists (w1 ++ w2); by rewrite G4, H4, app_assoc|].
  split; congruence.
Qed.

Lemma balanced_refl ls : balanced ls ls.
Proof.
  unfold balanced. repeat split; try reflexivity.
  - by exists 0%nat.
  - exists []. by rewrite app_nil_r.
Qed.

Lemma balanced_same ls ls' :
  nCcalls ls' = nCcalls ls -> length (ls_fs ls') = length (ls_fs ls) ->
  input ls' = input ls -> warnings ls' = warnings ls ->
  envn ls' = envn ls -> source ls' = source ls -> balanced ls ls'.
Proof.
  intros H1 H2 H3 H4 H5 H6. unfold balanced. rewrite H1, H2, H3, H4, H5, H6.
  apply balanced_refl.
Qed.

Lemma stable_state {A} (m : P A) :
  (forall ls a ls', m ls = Ok a ls' -> balanced ls ls') -> stable m.
Proof. apply stable_balanced. Qed.

Lemma stable_ret {A} (a : A) : stable (ret a).
Proof. apply stable_state. intros ls x ls' [= _ <-]. apply balanced_refl. Qed.

Lemma stable_throw {A} (e : error) : stable (throw (A := A) e).
Proof. intros ls a ls' E. discriminate E. Qed.

Lemma stable_fuel {A} : stable (out_of_fuel (A := A)).
Proof. intros ls a ls' E. discriminate E. Qed.

Lemma stable_get : stable get.
Proof. apply stable_state. intros ls x ls' [= _ <-]. apply balanced_refl. Qed.

Lemma stable_gets {A} (g : LexState -> A) : stable (gets g).
Proof. apply stable_state. intros ls x ls' [= _ <-]. apply balanced_refl. Qed.

Lemma stable_modify (g : LexState -> LexState) :
  (forall ls, balanced ls (g ls)) -> stable (modify g).
Proof.
  intros H. apply stable_state. intros ls x ls' E.
  assert (ls' = g ls) as -> by (unfold modify in E; congruence). apply H.
Qed.

Lemma balanced_upd_fs g ls : balanced ls (upd_fs g ls).
Proof.
  destruct ls as [? ? ? ? [|s prev] ? ? ? ? ?]; by apply balanced_same.
Qed.

Lemma balanced_upd_dyd g ls : balanced ls (upd_dyd g ls).
Proof. destruct ls. by apply balanced_same. Qed.

Lemma balanced_set_dyd d ls : balanced ls (set_dyd d ls).
Proof. destruct ls. by apply balanced_same. Qed.

Lemma balanced_trans l1 l2 l3 : balanced l1 l2 -> balanced l2 l3 -> balanced l1 l3.
Proof.
  intros (H1 & H2 & [n1 H3] & [w1 H4] & H5 & H6) (G1 & G2 & [n2 G3] & [w2 G4] & G5 & G6).
  unfold balanced. split; [lia|]. split; [lia|].
  split; [exists (n1 + n2)%nat; by rewrite G3, H3, drop_drop|].
  split; [exists (w1 ++ w2); by rewrite G4, H4, app_assoc|].
  split; congruence.
Qed.

Lemma stable_onfs {A} (g : FuncState -> A * FuncState) : stable (onfs g).
Proof.
  apply stable_state. intros ls a ls'. unfold onfs.
  destruct (g (cur_fs ls)). intros [= _ <-]. apply balanced_upd_fs.
Qed.

Lemma stable_onfs_ (g : FuncState -> FuncState) : stable (onfs_ g).
Proof.
  apply stable_state. intros ls a ls' E.
  assert (ls' = upd_fs g ls) as -> by (unfold onfs_, modify in E; congruence).
  apply balanced_upd_fs.
Qed.

Lemma stable_callK {cg : CodeGen} {A} (g : Dyndata -> FuncState -> kres A) :
  stable (callK g).
Proof.
  apply stable_state. intros ls a ls' E.
  apply callK_inv in E as (s & _ & ->). apply balanced_upd_fs.
Qed.

Lemma stable_luaX_next : stable luaX_next.
Proof.
  apply stable_modify. intros ls. unfold balanced.
  destruct ls as [? inp ? ? ? ? ? ? ? ?]. destruct inp as [|tk rest]; cbn.
  - repeat split; try reflexivity; [by exists 0%nat|exists []; by rewrite app_nil_r].
  - repeat split; try reflexivity; [by exists 1%nat|exists []; by rewrite app_nil_r].
Qed.

Lemma stable_luaX_lookahead : stable luaX_lookahead.
Proof. apply stable_gets. Qed.

Lemma stable_gett : stable gett.
Proof. apply stable_gets. Qed.

Lemma runs_enterlevel i p : runs i (S i) p p enterlevel.
Proof.
  intros ls a ls' E Hi Hp. unfold enterlevel, bind, modify, gets in E.
  destruct (_ <=? _)%nat; [discriminate|]. injection E as _ <-.
  destruct ls; cbn in *. split; [lia|]. split; [lia|].
  repeat split; [by exists 0%nat|exists []; by rewrite app_nil_r].
Qed.

Lemma runs_leavelevel i p : runs (S i) i p p leavelevel.
Proof.
  intros ls a ls' E Hi Hp.
  unfold leavelevel, modify in E. injection E as _ <-.
  destruct ls; cbn in *. split; [lia|]. split; [lia|].
  repeat split; [by exists 0%nat|exists []; by rewrite app_nil_r].
Qed.

Lemma stable_throw_warn err here arg : stable (throw_warn err here arg).
Proof.
  apply stable_modify. intros ls. destruct ls; unfold balanced; cbn.
  repeat split; [by exists 0%nat|by eexists].
Qed.

Lemma stable_throw_warn_at err line : stable (throw_warn_at err line).
Proof.
  apply stable_modify. intros ls. destruct ls; unfold balanced; cbn.
  repeat split; [by exists 0%nat|by eexists].
Qed.

Create HintDb frame.

#[export] Hint Resolve runs_enterlevel runs_leavelevel : frame.

#[export] Hint Resolve stable_ret stable_throw stable_fuel stable_get stable_gets
  stable_onfs stable_onfs_ stable_callK stable_luaX_next stable_luaX_lookahead
  stable_gett stable_throw_warn stable_throw_warn_at : frame.

#[export] Hint Extern 1 (stable (throwerr _ _)) => apply stable_throw : frame.
#[export] Hint Extern 1 (stable (errorlimit _ _)) => apply stable_throw : frame.

(** The run of a piece of the parser, step by step. *)
Ltac frame_modify :=
  apply stable_modify; intros;
  repeat first
    [ apply balanced_refl | apply balanced_upd_fs | apply balanced_upd_dyd
    | apply balanced_set_dyd
    | match goal with
      | |- balanced _ (let (_, _) := ?x in _) => destruct x
      | |- balanced ?l (upd_fs _ ?l') => apply (balanced_trans l l'); [|apply balanced_upd_fs]
      | |- balanced ?l (upd_dyd _ ?l') => apply (balanced_trans l l'); [|apply balanced_upd_dyd]
      | |- balanced ?l (set_lasttoken _ ?l) => destruct l; by apply balanced_same
      | |- balanced ?l (set_linenumber _ ?l) => destruct l; by apply balanced_same
      end
    | progress cbv beta zeta ].

Ltac frame :=
  repeat first
    [ progress intros
    | match goal with |- runs _ _ _ _ (bind _ _) => eapply runs_bind end
    | apply runs_enterlevel
    | apply runs_leavelevel
    | match goal with
      | |- runs _ _ _ _ (if ?c then _ else _) => destruct c
      | |- runs _ _ _ _ (match ?x with _ => _ end) => destruct x
      | |- runs _ _ _ _ ((if ?c then _ else _) _) => destruct c
      | |- runs _ _ _ _ ((match ?x with _ => _ end) _) => destruct x
      | |- stable ?m => change (runs 0 0 0 0 m)
      end
    | solve [eauto 2 with frame]
    | solve [apply runs_stable; eauto 3 with frame]
    | solve [apply runs_stable; frame_modify]
    | progress cbv zeta ].

Section Frame.

Context {cg : CodeGen}.

Lemma frame_error_expected {A} tk : stable (error_expected (A := A) tk).
Proof. unfold error_expected. frame. Qed.
#[local] Hint Resolve frame_error_expected : frame.

Lemma frame_testnext c : stable (testnext c).
Proof. unfold testnext. frame. Qed.
#[local] Hint Resolve frame_testnext : frame.

Variable rs : option lu_hint -> P (option lu_hint).
Variable re : option lu_hint -> P (expdesc * option lu_hint).
Hypothesis Hrs : forall prop, stable (rs prop).
Hypothesis Hre : forall prop, stable (re prop).

Lemma frame_checklimit (a1 : Z) (a2 : Z) (a3 : string) : stable (checklimit a1 a2 a3).
Proof. unfold checklimit. frame. Qed.
#[local] Hint Resolve frame_checklimit : frame.

Lemma frame_check (a1 : Tok) : stable (check a1).
Proof. unfold check. frame. Qed.
#[local] Hint Resolve frame_check : frame.

Lemma frame_checknext (a1 : Tok) : stable (checknext a1).
Proof. unfold checknext. frame. Qed.
#[local] Hint Resolve frame_checknext : frame.

Lemma frame_testnext2 (a1 : Tok) (a2 : Tok) : stable (testnext2 a1 a2).
Proof. unfold testnext2. frame. Qed.
#[local] Hint Resolve frame_testnext2 : frame.

Lemma frame_check_condition (a1 : bool) (a2 : string) : stable (check_condition a1 a2).
Proof. unfold check_condition. frame. Qed.
#[local] Hint Resolve frame_check_condition : frame.

Lemma frame_check_match (a1 : Tok) (a2 : Tok) (a3 : Z) : stable (check_match a1 a2 a3).
Proof. unfold check_match. frame. Qed.
#[local] Hint Resolve frame_check_match : frame.

Lemma frame_str_checkname (a1 : bool) : stable (str_checkname a1).
Proof. unfold str_checkname. frame. Qed.
#[local] Hint Resolve frame_str_checkname : frame.

Lemma frame_codename  : stable (codename).
Proof. unfold codename. frame. Qed.
#[local] Hint Resolve frame_codename : frame.

Lemma frame_gettypehint  : stable (gettypehint).
Proof. unfold gettypehint. frame. Qed.
#[local] Hint Resolve frame_gettypehint : frame.

Lemma frame_process_assign (a1 : nat) (a2 : lu_hint) : stable (process_assign a1 a2).
Proof. unfold process_assign. frame. Qed.
#[local] Hint Resolve frame_process_assign : frame.

Lemma frame_new_localvar_warn d s name idxs : stable (new_localvar_warn d s name idxs).
Proof. induction idxs as [|i rest IH]; cbn [new_localvar_warn]; frame. Qed.
#[local] Hint Resolve frame_new_localvar_warn : frame.

Lemma frame_new_localvar (a1 : TString) : stable (new_localvar a1).
Proof. unfold new_localvar. frame. Qed.
#[local] Hint Resolve frame_new_localvar : frame.

Lemma frame_check_readonly (a1 : expdesc) : stable (check_readonly a1).
Proof. unfold check_readonly. frame. Qed.
#[local] Hint Resolve frame_check_readonly : frame.

Lemma frame_adjustlocalvars (a1 : nat) : stable (adjustlocalvars a1).
Proof. unfold adjustlocalvars. frame. Qed.
#[local] Hint Resolve frame_adjustlocalvars : frame.

Lemma frame_removevars (a1 : nat) : stable (removevars a1).
Proof. unfold removevars. frame. Qed.
#[local] Hint Resolve frame_removevars : frame.

Lemma frame_jumpscopeerror {A} g : stable (jumpscopeerror (A := A) g).
Proof. unfold jumpscopeerror. frame. Qed.
#[local] Hint Resolve frame_jumpscopeerror : frame.

Lemma frame_solvegoto (a1 : nat) (a2 : Labeldesc) : stable (solvegoto a1 a2).
Proof. unfold solvegoto. frame. Qed.
#[local] Hint Resolve frame_solvegoto : frame.

Lemma frame_findlabel (a1 : TString) : stable (findlabel a1).
Proof. unfold findlabel. frame. Qed.
#[local] Hint Resolve frame_findlabel : frame.

Lemma frame_newgotoentry (a1 : TString) (a2 : Z) (a3 : Z) : stable (newgotoentry a1 a2 a3).
Proof. unfold newgotoentry. frame. Qed.
#[local] Hint Resolve frame_newgotoentry : frame.

Lemma frame_solvegotos_loop fuel : forall (a2 : Labeldesc) (a3 : nat) (a4 : bool), stable (solvegotos_loop fuel a2 a3 a4).
Proof. induction fuel as [|fuel IH]; intros; cbn [solvegotos_loop]; frame. Qed.
#[local] Hint Resolve frame_solvegotos_loop : frame.

Lemma frame_solvegotos (a1 : Labeldesc) : stable (solvegotos a1).
Proof. unfold solvegotos. frame. Qed.
#[local] Hint Resolve frame_solvegotos : frame.

Lemma frame_createlabel (a1 : TString) (a2 : Z) (a3 : bool) : stable (createlabel a1 a2 a3).
Proof. unfold createlabel. frame. Qed.
#[local] Hint Resolve frame_createlabel : frame.

Lemma frame_movegotosout (a1 : BlockCnt) : stable (movegotosout a1).
Proof. unfold movegotosout. frame. Qed.
#[local] Hint Resolve frame_movegotosout : frame.

Lemma frame_enterblock (a1 : bool) : stable (enterblock a1).
Proof. unfold enterblock. frame. Qed.
#[local] Hint Resolve frame_enterblock : frame.

Lemma frame_undefgoto {A} g : stable (undefgoto (A := A) g).
Proof. unfold undefgoto. frame. Qed.
#[local] Hint Resolve frame_undefgoto : frame.

Lemma frame_leaveblock  : stable (leaveblock).
Proof. unfold leaveblock. frame. Qed.
#[local] Hint Resolve frame_leaveblock : frame.

Lemma frame_addprototype  : stable (addprototype).
Proof. unfold addprototype. frame. Qed.
#[local] Hint Resolve frame_addprototype : frame.

Lemma runs_open_func fp i p : runs i i p (S p) (open_func fp).
Proof.
  unfold open_func. eapply runs_bind; [|intros; apply runs_stable; eauto with frame].
  intros ls a ls' E Hi Hp. unfold modify in E. injection E as _ <-.
  destruct ls; cbn in *. split; [lia|]. split; [lia|].
  repeat split; [by exists 0%nat|exists []; by rewrite app_nil_r].
Qed.
#[local] Hint Resolve runs_open_func : frame.

Lemma runs_pop i p :
  runs i i (S p) p (modify (fun ls => set_ls_fs (tail (ls_fs ls)) ls)).
Proof.
  intros ls a ls' E Hi Hp. unfold modify in E. injection E as _ <-.
  destruct ls as [? ? ? ? fss ? ? ? ? ?]; cbn in *.
  destruct fss as [|s prev]; cbn in *; [lia|]. split; [lia|]. split; [lia|].
  repeat split; [by exists 0%nat|exists []; by rewrite app_nil_r].
Qed.

Lemma runs_close_func i p : runs i i (S p) p close_func.
Proof.
  unfold close_func.
  do 5 (eapply runs_bind; [apply runs_stable; eauto with frame|intros; cbv zeta]).
  eapply runs_bind; [apply runs_pop|intros; apply runs_stable; eauto with frame].
Qed.
#[local] Hint Resolve runs_close_func : frame.

Lemma frame_block_follow (a1 : bool) : stable (block_follow a1).
Proof. unfold block_follow. frame. Qed.
#[local] Hint Resolve frame_block_follow : frame.

Lemma frame_statlist_loop fuel : forall (a2 : option lu_hint) (a3 : bool), stable (statlist_loop rs fuel a2 a3).
Proof. induction fuel as [|fuel IH]; intros; cbn [statlist_loop]; frame. Qed.
#[local] Hint Resolve frame_statlist_loop : frame.

Lemma frame_statlist (a1 : nat) (a2 : option lu_hint) : stable (statlist rs a1 a2).
Proof. unfold statlist. frame. Qed.
#[local] Hint Resolve frame_statlist : frame.

Lemma frame_caselist fuel : forall (a2 : bool), stable (caselist rs fuel a2).
Proof. induction fuel as [|fuel IH]; intros; cbn [caselist]; frame. Qed.
#[local] Hint Resolve frame_caselist : frame.

Lemma frame_explist_loop fuel : forall (a2 : expdesc) (a3 : nat), stable (explist_loop re fuel a2 a3).
Proof. induction fuel as [|fuel IH]; intros; cbn [explist_loop]; frame. Qed.
#[local] Hint Resolve frame_explist_loop : frame.

Lemma frame_explist (a1 : nat) (a2 : option lu_hint) : stable (explist re a1 a2).
Proof. unfold explist. frame. Qed.
#[local] Hint Resolve frame_explist : frame.

Lemma singlevaraux_length d fss n base var fss' :
  singlevaraux d fss n base = inr (var, fss') -> length fss' = length fss.
Proof.
  revert base var fss'. induction fss as [|s prev IH]; intros base var fss'; cbn [singlevaraux].
  - by intros [= _ <-].
  - destruct (searchvar d s n) as [v|].
    { destruct (_ && _); by intros [= _ <-]. }
    destruct (searchupvalue s n) as [idx|]; [by intros [= _ <-]|].
    destruct (singlevaraux d prev n false) as [e|[v prev']] eqn:E; [discriminate|].
    specialize (IH _ _ _ E).
    destruct (_ || _).
    + destruct (newupvalue _ _ _ _ _) as [e|[idx s']]; [discriminate|].
      intros [= _ <-]. cbn. by rewrite IH.
    + intros [= _ <-]. cbn. by rewrite IH.
Qed.

Lemma frame_singlevaraux_P n base : stable (singlevaraux_P n base).
Proof.
  apply stable_state. intros ls a ls'. unfold singlevaraux_P.
  destruct (singlevaraux _ _ _ _) as [e|[var fss]] eqn:E; [discriminate|].
  intros [= _ <-]. apply singlevaraux_length in E.
  destruct ls; by apply balanced_same.
Qed.
#[local] Hint Resolve frame_singlevaraux_P : frame.

Lemma frame_singlevar  : stable (singlevar).
Proof. unfold singlevar. frame. Qed.
#[local] Hint Resolve frame_singlevar : frame.

Lemma frame_fieldsel (a1 : expdesc) : stable (fieldsel a1).
Proof. unfold fieldsel. frame. Qed.
#[local] Hint Resolve frame_fieldsel : frame.

Lemma frame_setvararg (a1 : nat) : stable (setvararg a1).
Proof. unfold setvararg. frame. Qed.
#[local] Hint Resolve frame_setvararg : frame.

Lemma frame_parlist_loop fuel : forall (a2 : nat), stable (parlist_loop fuel a2).
Proof. induction fuel as [|fuel IH]; intros; cbn [parlist_loop]; frame. Qed.
#[local] Hint Resolve frame_parlist_loop : frame.

Lemma frame_parlist (a1 : nat) : stable (parlist a1).
Proof. unfold parlist. frame. Qed.
#[local] Hint Resolve frame_parlist : frame.

Lemma balanced_upd_prev_fs g ls : balanced ls (upd_prev_fs g ls).
Proof.
  unfold upd_prev_fs. destruct ls as [? ? ? ? [|s [|p rest]] ? ? ? ? ?];
    by apply balanced_same.
Qed.

Lemma frame_codeclosure : stable codeclosure.
Proof.
  apply stable_state. intros ls a ls'. unfold codeclosure.
  destruct (luaK_codeABx _ _ _ _) as [at_pc s1].
  destruct (luaK_exp2nextreg _ _ _) as [v s2|e]; [|discriminate].
  intros [= _ <-]. apply balanced_upd_prev_fs.
Qed.
#[local] Hint Resolve frame_codeclosure : frame.

Lemma frame_body fuel ismethod line prop : stable (body rs fuel ismethod line prop).
Proof. unfold body. frame. Qed.
#[local] Hint Resolve frame_body : frame.

Lemma frame_yindex  : stable (yindex re).
Proof. unfold yindex. frame. Qed.
#[local] Hint Resolve frame_yindex : frame.

Lemma frame_recfield (a1 : ConsControl) : stable (recfield re a1).
Proof. unfold recfield. frame. Qed.
#[local] Hint Resolve frame_recfield : frame.

Lemma frame_prenamedfield (a1 : ConsControl) (a2 : string) : stable (prenamedfield re a1 a2).
Proof. unfold prenamedfield. frame. Qed.
#[local] Hint Resolve frame_prenamedfield : frame.

Lemma frame_closelistfield (a1 : ConsControl) : stable (closelistfield a1).
Proof. unfold closelistfield. frame. Qed.
#[local] Hint Resolve frame_closelistfield : frame.

Lemma frame_lastlistfield (a1 : ConsControl) : stable (lastlistfield a1).
Proof. unfold lastlistfield. frame. Qed.
#[local] Hint Resolve frame_lastlistfield : frame.

Lemma frame_listfield (a1 : ConsControl) : stable (listfield re a1).
Proof. unfold listfield. frame. Qed.
#[local] Hint Resolve frame_listfield : frame.

Lemma frame_funcfield (a1 : nat) (a2 : ConsControl) : stable (funcfield rs a1 a2).
Proof. unfold funcfield. frame. Qed.
#[local] Hint Resolve frame_funcfield : frame.

Lemma frame_field (a1 : nat) (a2 : ConsControl) : stable (field rs re a1 a2).
Proof. unfold field. frame. Qed.
#[local] Hint Resolve frame_field : frame.

Lemma frame_constructor_fields fuel : forall (a2 : ConsControl), stable (constructor_fields rs re fuel a2).
Proof. induction fuel as [|fuel IH]; intros; cbn [constructor_fields]; frame. Qed.
#[local] Hint Resolve frame_constructor_fields : frame.

Lemma frame_constructor (a1 : nat) : stable (constructor rs re a1).
Proof. unfold constructor. frame. Qed.
#[local] Hint Resolve frame_constructor : frame.

Lemma frame_funcargs (a1 : nat) (a2 : expdesc) (a3 : Z) : stable (funcargs rs re a1 a2 a3).
Proof. unfold funcargs. frame. Qed.
#[local] Hint Resolve frame_funcargs : frame.

Lemma frame_safe_navigation (a1 : expdesc) : stable (safe_navigation re a1).
Proof. unfold safe_navigation. frame. Qed.
#[local] Hint Resolve frame_safe_navigation : frame.

Lemma frame_skip_lambda_tokens fuel : stable (skip_lambda_tokens fuel).
Proof. induction fuel as [|fuel IH]; intros; cbn [skip_lambda_tokens]; frame. Qed.
#[local] Hint Resolve frame_skip_lambda_tokens : frame.

Lemma frame_primaryexp (a1 : nat) : stable (primaryexp re a1).
Proof. unfold primaryexp. frame. Qed.
#[local] Hint Resolve frame_primaryexp : frame.

Lemma frame_suffixedexp_loop fuel : forall (a2 : Z) (a3 : expdesc) (a4 : option lu_hint), stable (suffixedexp_loop rs re fuel a2 a3 a4).
Proof. induction fuel as [|fuel IH]; intros; cbn [suffixedexp_loop]; frame. Qed.
#[local] Hint Resolve frame_suffixedexp_loop : frame.

Lemma frame_suffixedexp (a1 : nat) (a2 : option lu_hint) : stable (suffixedexp rs re a1 a2).
Proof. unfold suffixedexp. frame. Qed.
#[local] Hint Resolve frame_suffixedexp : frame.

Lemma frame_lambdabody fuel line : stable (lambdabody re fuel line).
Proof. unfold lambdabody. frame. Qed.
#[local] Hint Resolve frame_lambdabody : frame.

Lemma frame_simpleexp (a1 : nat) (a2 : bool) (a3 : option lu_hint) : stable (simpleexp rs re a1 a2 a3).
Proof. unfold simpleexp. frame. Qed.
#[local] Hint Resolve frame_simpleexp : frame.

Lemma frame_cond  : stable (cond re).
Proof. unfold cond. frame. Qed.
#[local] Hint Resolve frame_cond : frame.

Lemma frame_ifexpr  : stable (ifexpr re).
Proof. unfold ifexpr. frame. Qed.
#[local] Hint Resolve frame_ifexpr : frame.

Lemma frame_inexpr (a1 : expdesc) : stable (inexpr re a1).
Proof. unfold inexpr. frame. Qed.
#[local] Hint Resolve frame_inexpr : frame.

Lemma frame_subexpr_loop sub limit fuel :
  (forall lim, stable (sub lim)) ->
  forall op v, stable (subexpr_loop sub limit fuel op v).
Proof.
  intros Hsub. induction fuel as [|fuel IH]; intros; cbn [subexpr_loop]; frame.
Qed.

Lemma frame_subexpr fuel : forall limit prop, stable (subexpr rs re fuel limit prop).
Proof.
  induction fuel as [|fuel IH]; intros; cbn [subexpr]; [apply stable_fuel|].
  assert (Hloop : forall lim f op v,
            stable (subexpr_loop (fun lim => subexpr rs re fuel lim None) lim f op v))
    by (intros; apply frame_subexpr_loop; intros; apply IH).
  frame.
Qed.
#[local] Hint Resolve frame_subexpr : frame.

Lemma frame_block (a1 : nat) : stable (block rs a1).
Proof. unfold block. frame. Qed.
#[local] Hint Resolve frame_block : frame.

Lemma frame_check_conflict (a1 : list expdesc) (a2 : expdesc) : stable (check_conflict a1 a2).
Proof. unfold check_conflict. frame. Qed.
#[local] Hint Resolve frame_check_conflict : frame.

Lemma frame_getcompoundop  : stable (getcompoundop).
Proof. unfold getcompoundop. frame. Qed.
#[local] Hint Resolve frame_getcompoundop : frame.

Lemma frame_compoundassign (a1 : expdesc) (a2 : BinOpr) : stable (compoundassign re a1 a2).
Proof. unfold compoundassign. frame. Qed.
#[local] Hint Resolve frame_compoundassign : frame.

Lemma frame_adjust_assign (a1 : nat) (a2 : nat) (a3 : expdesc) : stable (adjust_assign a1 a2 a3).
Proof. unfold adjust_assign. frame. Qed.
#[local] Hint Resolve frame_adjust_assign : frame.

Lemma frame_restassign fuel : forall (a2 : expdesc) (a3 : list expdesc) (a4 : nat), stable (restassign rs re fuel a2 a3 a4).
Proof. induction fuel as [|fuel IH]; intros; cbn [restassign]; frame. Qed.
#[local] Hint Resolve frame_restassign : frame.

Lemma frame_gotostat  : stable (gotostat).
Proof. unfold gotostat. frame. Qed.
#[local] Hint Resolve frame_gotostat : frame.

Lemma frame_breakstat  : stable (breakstat).
Proof. unfold breakstat. frame. Qed.
#[local] Hint Resolve frame_breakstat : frame.

Lemma frame_continuestat  : stable (continuestat).
Proof. unfold continuestat. frame. Qed.
#[local] Hint Resolve frame_continuestat : frame.

Lemma frame_checkrepeated (a1 : TString) : stable (checkrepeated a1).
Proof. unfold checkrepeated. frame. Qed.
#[local] Hint Resolve frame_checkrepeated : frame.

Lemma frame_labelstat_skip fuel : stable (labelstat_skip rs fuel).
Proof. induction fuel as [|fuel IH]; intros; cbn [labelstat_skip]; frame. Qed.
#[local] Hint Resolve frame_labelstat_skip : frame.

Lemma frame_labelstat (a1 : nat) (a2 : TString) (a3 : Z) : stable (labelstat rs a1 a2 a3).
Proof. unfold labelstat. frame. Qed.
#[local] Hint Resolve frame_labelstat : frame.

Lemma frame_whilestat (a1 : nat) (a2 : Z) : stable (whilestat rs re a1 a2).
Proof. unfold whilestat. frame. Qed.
#[local] Hint Resolve frame_whilestat : frame.

Lemma frame_repeatstat (a1 : nat) : stable (repeatstat rs re a1).
Proof. unfold repeatstat. frame. Qed.
#[local] Hint Resolve frame_repeatstat : frame.

Lemma frame_exp1  : stable (exp1 re).
Proof. unfold exp1. frame. Qed.
#[local] Hint Resolve frame_exp1 : frame.

Lemma frame_fixforjump (a1 : Z) (a2 : Z) (a3 : bool) : stable (fixforjump a1 a2 a3).
Proof. unfold fixforjump. frame. Qed.
#[local] Hint Resolve frame_fixforjump : frame.

Lemma frame_forbody (a1 : nat) (a2 : Z) (a3 : Z) (a4 : nat) (a5 : bool) : stable (forbody rs a1 a2 a3 a4 a5).
Proof. unfold forbody. frame. Qed.
#[local] Hint Resolve frame_forbody : frame.

Lemma frame_fornum (a1 : nat) (a2 : TString) (a3 : Z) : stable (fornum rs re a1 a2 a3).
Proof. unfold fornum. frame. Qed.
#[local] Hint Resolve frame_fornum : frame.

Lemma frame_forlist_names fuel : forall (a2 : nat), stable (forlist_names fuel a2).
Proof. induction fuel as [|fuel IH]; intros; cbn [forlist_names]; frame. Qed.
#[local] Hint Resolve frame_forlist_names : frame.

Lemma frame_forlist (a1 : nat) (a2 : TString) : stable (forlist rs re a1 a2).
Proof. unfold forlist. frame. Qed.
#[local] Hint Resolve frame_forlist : frame.

Lemma frame_forstat (a1 : nat) (a2 : Z) : stable (forstat rs re a1 a2).
Proof. unfold forstat. frame. Qed.
#[local] Hint Resolve frame_forstat : frame.

Lemma frame_skip_semicolons fuel : stable (skip_semicolons fuel).
Proof. induction fuel as [|fuel IH]; intros; cbn [skip_semicolons]; frame. Qed.
#[local] Hint Resolve frame_skip_semicolons : frame.

Lemma frame_test_then_block (a1 : nat) (a2 : Z) (a3 : option lu_hint) : stable (test_then_block rs re a1 a2 a3).
Proof. unfold test_then_block. frame. Qed.
#[local] Hint Resolve frame_test_then_block : frame.

Lemma frame_ifstat_elseifs fuel : forall (a2 : Z) (a3 : option lu_hint), stable (ifstat_elseifs rs re fuel a2 a3).
Proof. induction fuel as [|fuel IH]; intros; cbn [ifstat_elseifs]; frame. Qed.
#[local] Hint Resolve frame_ifstat_elseifs : frame.

Lemma frame_ifstat (a1 : nat) (a2 : Z) (a3 : option lu_hint) : stable (ifstat rs re a1 a2 a3).
Proof. unfold ifstat. frame. Qed.
#[local] Hint Resolve frame_ifstat : frame.

Lemma frame_localfunc (a1 : nat) : stable (localfunc rs a1).
Proof. unfold localfunc. frame. Qed.
#[local] Hint Resolve frame_localfunc : frame.

Lemma frame_getlocalattribute  : stable (getlocalattribute).
Proof. unfold getlocalattribute. frame. Qed.
#[local] Hint Resolve frame_getlocalattribute : frame.

Lemma frame_checktoclose (a1 : option nat) : stable (checktoclose a1).
Proof. unfold checktoclose. frame. Qed.
#[local] Hint Resolve frame_checktoclose : frame.

Lemma frame_localstat_names fuel : forall (a2 : nat) (a3 : option nat), stable (localstat_names fuel a2 a3).
Proof. induction fuel as [|fuel IH]; intros; cbn [localstat_names]; frame. Qed.
#[local] Hint Resolve frame_localstat_names : frame.

Lemma frame_localstat (a1 : nat) : stable (localstat re a1).
Proof. unfold localstat. frame. Qed.
#[local] Hint Resolve frame_localstat : frame.

Lemma frame_funcname_fields fuel : forall (a2 : expdesc), stable (funcname_fields fuel a2).
Proof. induction fuel as [|fuel IH]; intros; cbn [funcname_fields]; frame. Qed.
#[local] Hint Resolve frame_funcname_fields : frame.

Lemma frame_funcname (a1 : nat) : stable (funcname a1).
Proof. unfold funcname. frame. Qed.
#[local] Hint Resolve frame_funcname : frame.

Lemma frame_funcstat (a1 : nat) (a2 : Z) : stable (funcstat rs a1 a2).
Proof. unfold funcstat. frame. Qed.
#[local] Hint Resolve frame_funcstat : frame.

Lemma frame_exprstat (a1 : nat) : stable (exprstat rs re a1).
Proof. unfold exprstat. frame. Qed.
#[local] Hint Resolve frame_exprstat : frame.

Lemma frame_retstat (a1 : nat) (a2 : option lu_hint) : stable (retstat re a1 a2).
Proof. unfold retstat. frame. Qed.
#[local] Hint Resolve frame_retstat : frame.

Lemma frame_switch_case (a1 : nat) (a2 : Z) (a3 : expdesc) : stable (switch_case rs re a1 a2 a3).
Proof. unfold switch_case. frame. Qed.
#[local] Hint Resolve frame_switch_case : frame.

Lemma frame_switch_cases fuel : forall (a2 : Z) (a3 : expdesc), stable (switch_cases rs re fuel a2 a3).
Proof. induction fuel as [|fuel IH]; intros; cbn [switch_cases]; frame. Qed.
#[local] Hint Resolve frame_switch_cases : frame.

Lemma frame_switch_head  : stable (switch_head re).
Proof. unfold switch_head. frame. Qed.
#[local] Hint Resolve frame_switch_head : frame.

Lemma frame_switchstat (a1 : nat) (a2 : Z) : stable (switchstat rs re a1 a2).
Proof. unfold switchstat. frame. Qed.
#[local] Hint Resolve frame_switchstat : frame.

Lemma frame_statement (a1 : nat) (a2 : option lu_hint) : stable (statement rs re a1 a2).
Proof. unfold statement. frame. Qed.
#[local] Hint Resolve frame_statement : frame.

Lemma frame_expr (a1 : nat) (a2 : option lu_hint) : stable (expr rs re a1 a2).
Proof. unfold expr. frame. Qed.
#[local] Hint Resolve frame_expr : frame.

Lemma frame_mainfunc fuel fp : stable (mainfunc rs fuel fp).
Proof. unfold mainfunc. frame. Qed.

End Frame.

(** ** The recursion of the parser *)

Lemma parser_stable {cg : CodeGen} (n : nat) :
  (forall prop, stable (fst (parser n) prop))
  /\ (forall prop, stable (snd (parser n) prop)).
Proof.
  induction n as [|n [IHs IHe]]; cbn [parser fst snd].
  - split; intros; apply stable_fuel.
  - split; intros.
    + by apply frame_statement.
    + by apply frame_expr.
Qed.

(** X4: a statement or an expression that the parser accepts leaves the
    parser as deep in its recursion as it found it ([nCcalls]: every
    enterlevel has met its leavelevel) and with the same number of functions
    open (every open_func has met its close_func); it has only moved forward
    in the token stream, it has only added warnings, and the names of the
    environment and of the source are the same.  This holds for every code
    generator. *)
Theorem parser_balanced {cg : CodeGen} (n : nat) (prop : option lu_hint)
    (ls ls' : LexState) :
  (exists r, parse_statement n prop ls = Ok r ls')
  \/ (exists r, parse_expr n prop ls = Ok r ls') ->
  nCcalls ls' = nCcalls ls
  /\ length (ls_fs ls') = length (ls_fs ls)
  /\ (exists k, input ls' = drop k (input ls))
  /\ (exists ws, warnings ls' = warnings ls ++ ws)
  /\ envn ls' = envn ls
  /\ source ls' = source ls.
Proof.
  destruct (parser_stable (cg := cg) n) as [Hs He].
  intros [[r E]|[r E]].
  - exact (proj1 (stable_balanced _) (Hs prop) _ _ _ E).
  - exact (proj1 (stable_balanced _) (He prop) _ _ _ E).
Qed.

Lemma parser_balanced_witness :
  exists r ls',
    parse_statement (cg := Emitter.gen) 12 None (start local_function_stat) = Ok r ls'
    /\ nCcalls ls' = nCcalls (start local_function_stat)
    /\ length (ls_fs ls') = length (ls_fs (start local_function_stat)).
Proof.
  destruct (parse_statement (cg := Emitter.gen) 12 None (start local_function_stat))
    as [r ls'| |] eqn:E.
  - exists r, ls'. split; [reflexivity|].
    destruct (parser_balanced (cg := Emitter.gen) 12 None
                (start local_function_stat) ls') as (H1 & H2 & _).
    + left. by exists r.
    + by split.
  - exfalso. vm_compute in E. discriminate E.
  - exfalso. vm_compute in E. discriminate E.
Defined.

(** ** The end of a parse *)

Lemma kt_bind {A B} (m : P A) (g : A -> P B) :
  keeps_token m -> (forall a, keeps_token (g a)) -> keeps_token (bind m g).
Proof.
  intros Hm Hg ls b ls' E. apply bind_inv in E as (a & l1 & E1 & E2).
  rewrite (Hg _ _ _ _ E2). by apply (Hm _ _ _ E1).
Qed.

Lemma kt_ret {A} (a : A) : keeps_token (ret a).
Proof. by intros ls x ls' [= _ <-]. Qed.

Lemma kt_throw {A} e : keeps_token (throw (A := A) e).
Proof. intros ls x ls' E. discriminate E. Qed.

Lemma kt_fuel {A} : keeps_token (out_of_fuel (A := A)).
Proof. intros ls x ls' E. discriminate E. Qed.

Lemma kt_get : keeps_token get.
Proof. by intros ls x ls' [= _ <-]. Qed.

Lemma kt_gets {A} (g : LexState -> A) : keeps_token (gets g).
Proof. by intros ls x ls' [= _ <-]. Qed.

Lemma kt_callK {cg : CodeGen} {A} (g : Dyndata -> FuncState -> kres A) :
  keeps_token (callK g).
Proof. intros ls a ls'. apply callK_ls_t. Qed.

Lemma kt_onfs {A} (g : FuncState -> A * FuncState) : keeps_token (onfs g).
Proof.
  intros ls a ls'. unfold onfs. destruct (g (cur_fs ls)).
  intros [= _ <-]. apply ls_t_upd_fs.
Qed.

Lemma kt_modify g : (forall ls, ls_t (g ls) = ls_t ls) -> keeps_token (modify g).
Proof.
  intros H ls a ls' E.
  assert (ls' = g ls) as -> by (unfold modify in E; congruence). apply H.
Qed.

Lemma kt_onfs_ g : keeps_token (onfs_ g).
Proof. apply kt_modify. intros. apply ls_t_upd_fs. Qed.

Lemma ls_t_upd_dyd g ls : ls_t (upd_dyd g ls) = ls_t ls.
Proof. by destruct ls. Qed.

Lemma ls_t_set_dyd d ls : ls_t (set_dyd d ls) = ls_t ls.
Proof. by destruct ls. Qed.

Ltac quiet :=
  repeat first
    [ progress intros
    | match goal with
      | |- keeps_token (bind _ _) => apply kt_bind
      | |- keeps_token (if ?c then _ else _) => destruct c
      | |- keeps_token (match ?x with _ => _ end) => destruct x
      | |- ls_t (let (_, _) := ?x in _) = _ => destruct x
      end
    | apply kt_ret | apply kt_throw | apply kt_fuel | apply kt_get | apply kt_gets
    | apply kt_callK | apply kt_onfs | apply kt_onfs_
    | apply kt_modify; intros;
      rewrite ?ls_t_upd_fs, ?ls_t_upd_dyd, ?ls_t_set_dyd; reflexivity
    | apply kt_modify; intros;
      match goal with |- ls_t (let (_, _) := ?x in _) = _ => destruct x end;
      rewrite ?ls_t_upd_fs, ?ls_t_upd_dyd, ?ls_t_set_dyd; reflexivity
    | solve [auto 2]
    | progress cbv zeta ].

Lemma kt_solvegoto g lb : keeps_token (solvegoto g lb).
Proof. unfold solvegoto, jumpscopeerror. quiet. Qed.

Lemma kt_solvegotos_loop fuel : forall lb i c, keeps_token (solvegotos_loop fuel lb i c).
Proof.
  pose proof kt_solvegoto.
  induction fuel as [|fuel IH]; intros; cbn [solvegotos_loop]; quiet.
Qed.

Lemma kt_createlabel name line last : keeps_token (createlabel name line last).
Proof.
  pose proof kt_solvegotos_loop. unfold createlabel, solvegotos. quiet.
Qed.

Lemma kt_removevars tolevel : keeps_token (removevars tolevel).
Proof. unfold removevars. quiet. Qed.

Lemma kt_leaveblock : keeps_token leaveblock.
Proof.
  pose proof kt_createlabel. pose proof kt_removevars.
  unfold leaveblock, movegotosout, undefgoto. quiet.
Qed.

Lemma kt_close_func {cg : CodeGen} : keeps_token close_func.
Proof.
  pose proof kt_leaveblock. unfold close_func. quiet.
Qed.

Lemma error_expected_fails {A} tk ls (a : A) ls' : error_expected tk ls <> Ok a ls'.
Proof.
  assert (Hthrow : forall e l, throw (A := A) e l <> Ok a ls') by (intros; discriminate).
  assert (Herr : forall s1 s2 l, throwerr (A := A) s1 s2 l <> Ok a ls')
    by (intros; discriminate).
  unfold error_expected, bind.
  repeat match goal with
         | |- (match ?x with _ => _ end) _ <> _ => destruct x
         | |- (if ?x then _ else _) _ <> _ => destruct x
         | |- (match ?x with _ => _ end) <> _ => destruct x
         end; try (apply Hthrow || apply Herr || discriminate).
Qed.

Lemma check_token c ls a ls' :
  check c ls = Ok a ls' -> ls' = ls /\ token (ls_t ls) = c.
Proof.
  unfold check, bind, gett, gets.
  destruct (tok_eqb (token (ls_t ls)) c) eqn:E; cbn.
  - intros [= _ <-]. split; [reflexivity|]. by apply tok_eqb_eq.
  - intros H. by apply error_expected_fails in H.
Qed.

(** X5: when luaY_parser accepts a chunk, the parse has come to the end of
    the token stream (the current token is TK_EOS), no function is left
    open (the first assertion of luaY_parser, [!lexstate.fs]) and the
    recursion depth is back at zero.  This holds for every code generator. *)
Theorem luaY_parser_finishes {cg : CodeGen} (fuel : nat) (toks : list Token)
    (name : string) (fp : Proto) (ls' : LexState) :
  luaY_parser fuel toks name = Ok fp ls' ->
  token (ls_t ls') = TK_EOS /\ ls_fs ls' = [] /\ nCcalls ls' = 0%nat.
Proof.
  unfold luaY_parser. intros E.
  assert (Hst : stable (mainfunc (parse_statement fuel) fuel (set_p_source name Proto0))).
  { apply frame_mainfunc. apply parser_stable. }
  destruct (proj1 (stable_balanced _) Hst _ _ _ E) as (Hn & Hl & _).
  split; [|split].
  - unfold mainfunc in E.
    do 6 (apply bind_inv in E as (? & ? & _ & E)).
    apply bind_inv in E as (u & l & Ec & E).
    apply check_token in Ec as [-> Ht].
    apply kt_close_func in E. by rewrite E.
  - by destruct (ls_fs ls').
  - exact Hn.
Qed.

Lemma luaY_parser_finishes_witness :
  exists fp ls',
    luaY_parser (cg := Emitter.gen) 12 local_function_stat "x" = Ok fp ls'
    /\ token (ls_t ls') = TK_EOS /\ ls_fs ls' = [] /\ nCcalls ls' = 0%nat.
Proof.
  destruct (luaY_parser (cg := Emitter.gen) 12 local_function_stat "x")
    as [fp ls'| |] eqn:E.
  - exists fp, ls'. split; [reflexivity|].
    exact (luaY_parser_finishes (cg := Emitter.gen) 12 local_function_stat "x" fp ls' E).
  - exfalso. vm_compute in E. discriminate E.
  - exfalso. vm_compute in E. discriminate E.
Defined.

(** ** Progress in the token stream *)

#[export] Hint Resolve frame_error_expected frame_testnext frame_checklimit frame_check frame_checknext frame_testnext2 frame_check_condition frame_check_match frame_str_checkname frame_codename frame_gettypehint frame_process_assign frame_new_localvar_warn frame_new_localvar frame_check_readonly frame_adjustlocalvars frame_removevars frame_jumpscopeerror frame_solvegoto frame_findlabel frame_newgotoentry frame_solvegotos_loop frame_solvegotos frame_createlabel frame_movegotosout frame_enterblock frame_undefgoto frame_leaveblock frame_addprototype frame_block_follow frame_statlist_loop frame_statlist frame_caselist frame_explist_loop frame_explist frame_singlevaraux_P frame_singlevar frame_fieldsel frame_setvararg frame_parlist_loop frame_parlist frame_codeclosure frame_body frame_yindex frame_recfield frame_prenamedfield frame_closelistfield frame_lastlistfield frame_listfield frame_funcfield frame_field frame_constructor_fields frame_constructor frame_funcargs frame_safe_navigation frame_skip_lambda_tokens frame_primaryexp frame_suffixedexp_loop frame_suffixedexp frame_lambdabody frame_simpleexp frame_cond frame_ifexpr frame_inexpr frame_subexpr_loop frame_subexpr frame_block frame_check_conflict frame_getcompoundop frame_compoundassign frame_adjust_assign frame_restassign frame_gotostat frame_breakstat frame_continuestat frame_checkrepeated frame_labelstat_skip frame_labelstat frame_whilestat frame_repeatstat frame_exp1 frame_fixforjump frame_forbody frame_fornum frame_forlist_names frame_forlist frame_forstat frame_skip_semicolons frame_test_then_block frame_ifstat_elseifs frame_ifstat frame_localfunc frame_getlocalattribute frame_checktoclose frame_localstat_names frame_localstat frame_funcname_fields frame_funcname frame_funcstat frame_exprstat frame_retstat frame_switch_case frame_switch_cases frame_switch_head frame_switchstat frame_statement frame_expr frame_mainfunc  runs_open_func runs_close_func : frame.

#[export] Hint Extern 4 (stable (modify _)) => frame_modify : frame.

Lemma fwd_stable {A} (m : P A) : stable m -> forward m.
Proof.
  intros H ls a ls' E. by destruct (proj1 (stable_balanced _) H _ _ _ E) as (_ & _ & ? & _).
Qed.

Lemma fwd_runs {A} (m : P A) j q : runs 0 j 0 q m -> forward m.
Proof.
  intros H ls a ls' E. destruct (H _ _ _ E) as (_ & _ & ? & _); [lia..|done].
Qed.

Lemma fwd_bind {A B} (m : P A) (g : A -> P B) :
  forward m -> (forall a, forward (g a)) -> forward (bind m g).
Proof.
  intros Hm Hg ls b ls' E. apply bind_inv in E as (a & l1 & E1 & E2).
  destruct (Hm _ _ _ E1) as [k1 H1]. destruct (Hg _ _ _ _ E2) as [k2 H2].
  exists (k1 + k2)%nat. by rewrite H2, H1, drop_drop.
Qed.

Lemma fwd_enterlevel : forward enterlevel.
Proof.
  intros ls a ls' E. unfold enterlevel, bind, modify, gets in E.
  destruct (_ <=? _)%nat; [discriminate|]. injection E as _ <-.
  exists 0%nat. by destruct ls.
Qed.

Lemma fwd_leavelevel : forward leavelevel.
Proof.
  intros ls a ls' E. unfold leavelevel, modify in E. injection E as _ <-.
  exists 0%nat. by destruct ls.
Qed.

Lemma fwd_modify g : (forall ls, input (g ls) = input ls) -> forward (modify g).
Proof.
  intros H ls a ls' E.
  assert (ls' = g ls) as -> by (unfold modify in E; congruence).
  exists 0%nat. apply H.
Qed.

Lemma fwd_adv {A} (m : P A) : advances m -> forward m.
Proof. intros H ls a ls' E. destruct (H _ _ _ E) as [k Hk]. by exists (S k). Qed.

Lemma adv_bind_l {A B} (m : P A) (g : A -> P B) :
  advances m -> (forall a, forward (g a)) -> advances (bind m g).
Proof.
  intros Hm Hg ls b ls' E. apply bind_inv in E as (a & l1 & E1 & E2).
  destruct (Hm _ _ _ E1) as [k1 H1]. destruct (Hg _ _ _ _ E2) as [k2 H2].
  exists (k1 + k2)%nat. rewrite H2, H1, drop_drop. f_equal; lia.
Qed.

Lemma adv_bind_r {A B} (m : P A) (g : A -> P B) :
  forward m -> (forall a, advances (g a)) -> advances (bind m g).
Proof.
  intros Hm Hg ls b ls' E. apply bind_inv in E as (a & l1 & E1 & E2).
  destruct (Hm _ _ _ E1) as [k1 H1]. destruct (Hg _ _ _ _ E2) as [k2 H2].
  exists (k1 + k2)%nat. rewrite H2, H1, drop_drop. f_equal; lia.
Qed.

Lemma adv_throw {A} e : advances (throw (A := A) e).
Proof. intros ls a ls' E. discriminate E. Qed.

Lemma adv_fuel {A} : advances (out_of_fuel (A := A)).
Proof. intros ls a ls' E. discriminate E. Qed.

Lemma adv_luaX_next : advances luaX_next.
Proof.
  intros ls a ls' E. unfold luaX_next, modify in E. injection E as _ <-.
  exists 0%nat. destruct ls as [? inp ? ? ? ? ? ? ? ?]. by destruct inp.
Qed.

Create HintDb adv.

#[export] Hint Resolve adv_throw adv_fuel adv_luaX_next : adv.
#[export] Hint Extern 1 (advances (throwerr _ _)) => apply adv_throw : adv.
#[export] Hint Extern 1 (advances (errorlimit _ _)) => apply adv_throw : adv.

Ltac fwd :=
  repeat first
    [ progress intros
    | solve [apply fwd_stable; eauto 3 with frame]
    | apply fwd_enterlevel
    | apply fwd_leavelevel
    | solve [eapply fwd_runs; eauto 2 with frame]
    | solve [eauto 1 with frame]
    | match goal with
      | |- forward (bind _ _) => apply fwd_bind
      | |- forward (if ?c then _ else _) => destruct c
      | |- forward (match ?x with _ => _ end) => destruct x
      end
    | progress cbv beta zeta ].

Lemma fwd_close_func {cg : CodeGen} : forward close_func.
Proof.
  unfold close_func. fwd. apply fwd_modify. intros ls. by destruct ls.
Qed.

#[export] Hint Resolve fwd_close_func : frame.

Ltac adv :=
  intros; cbv beta zeta;
  first
    [ solve [eauto 2 with adv]
    | match goal with
      | |- advances (bind _ _) =>
          first [ apply adv_bind_l; [solve [adv] | solve [fwd]]
                | apply adv_bind_r; [solve [fwd] | adv] ]
      | |- advances (if ?c then _ else _) => destruct c; adv
      | |- advances (match ?x with _ => _ end) => destruct x; adv
      end ].

Section Progress.

Context {cg : CodeGen}.

Lemma adv_error_expected {A} tk : advances (error_expected (A := A) tk).
Proof. intros ls a ls' E. by apply error_expected_fails in E. Qed.
#[local] Hint Resolve adv_error_expected : adv.

Lemma adv_checknext c : advances (checknext c).
Proof. unfold checknext. adv. Qed.
#[local] Hint Resolve adv_checknext : adv.

Lemma adv_str_checkname strict : advances (str_checkname strict).
Proof. unfold str_checkname. adv. Qed.
#[local] Hint Resolve adv_str_checkname : adv.

Variable rs : option lu_hint -> P (option lu_hint).
Variable re : option lu_hint -> P (expdesc * option lu_hint).
Hypothesis Hrs : forall prop, stable (rs prop).
Hypothesis Hre : forall prop, stable (re prop).

Lemma adv_singlevar : advances singlevar.
Proof. unfold singlevar. adv. Qed.
#[local] Hint Resolve adv_singlevar : adv.

Lemma adv_primaryexp fuel : advances (primaryexp re fuel).
Proof. unfold primaryexp. adv. Qed.
#[local] Hint Resolve adv_primaryexp : adv.

Lemma adv_suffixedexp fuel prop : advances (suffixedexp rs re fuel prop).
Proof. unfold suffixedexp. adv. Qed.
#[local] Hint Resolve adv_suffixedexp : adv.

Lemma adv_constructor fuel : advances (constructor rs re fuel).
Proof. unfold constructor. adv. Qed.
#[local] Hint Resolve adv_constructor : adv.

Lemma adv_lambdabody fuel line : advances (lambdabody re fuel line).
Proof. unfold lambdabody. adv. Qed.
#[local] Hint Resolve adv_lambdabody : adv.

Lemma adv_simpleexp fuel c prop : advances (simpleexp rs re fuel c prop).
Proof. unfold simpleexp. adv. Qed.
#[local] Hint Resolve adv_simpleexp : adv.

Lemma adv_ifexpr : advances (ifexpr re).
Proof. unfold ifexpr. adv. Qed.
#[local] Hint Resolve adv_ifexpr : adv.

Lemma adv_subexpr fuel limit prop : advances (subexpr rs re fuel limit prop).
Proof.
  destruct fuel as [|fuel]; cbn [subexpr]; [apply adv_fuel|].
  assert (Hloop : forall lim f op v,
            stable (subexpr_loop (fun lim => subexpr rs re fuel lim None) lim f op v))
    by (intros; apply frame_subexpr_loop; intros; by apply frame_subexpr).
  adv.
Qed.
#[local] Hint Resolve adv_subexpr : adv.

Lemma adv_expr fuel prop : advances (expr rs re fuel prop).
Proof. unfold expr. adv. Qed.

Lemma adv_exprstat fuel : advances (exprstat rs re fuel).
Proof. unfold exprstat. adv. Qed.
#[local] Hint Resolve adv_exprstat : adv.

Lemma adv_test_then_block fuel e prop : advances (test_then_block rs re fuel e prop).
Proof. unfold test_then_block. adv. Qed.
#[local] Hint Resolve adv_test_then_block : adv.

Lemma adv_ifstat fuel line prop : advances (ifstat rs re fuel line prop).
Proof. unfold ifstat. adv. Qed.
#[local] Hint Resolve adv_ifstat : adv.

Lemma adv_whilestat fuel line : advances (whilestat rs re fuel line).
Proof. unfold whilestat. adv. Qed.
#[local] Hint Resolve adv_whilestat : adv.

Lemma adv_forstat fuel line : advances (forstat rs re fuel line).
Proof. unfold forstat. adv. Qed.
#[local] Hint Resolve adv_forstat : adv.

Lemma adv_repeatstat fuel : advances (repeatstat rs re fuel).
Proof. unfold repeatstat. adv. Qed.
#[local] Hint Resolve adv_repeatstat : adv.

Lemma adv_funcstat fuel line : advances (funcstat rs fuel line).
Proof. unfold funcstat. adv. Qed.
#[local] Hint Resolve adv_funcstat : adv.

Lemma adv_breakstat : advances breakstat.
Proof. unfold breakstat. adv. Qed.
#[local] Hint Resolve adv_breakstat : adv.

Lemma adv_continuestat : advances continuestat.
Proof. unfold continuestat. adv. Qed.
#[local] Hint Resolve adv_continuestat : adv.

Lemma adv_switch_head : advances (switch_head re).
Proof. unfold switch_head. adv. Qed.
#[local] Hint Resolve adv_switch_head : adv.

Lemma adv_switchstat fuel line : advances (switchstat rs re fuel line).
Proof. unfold switchstat. adv. Qed.
#[local] Hint Resolve adv_switchstat : adv.

Lemma adv_statement fuel prop : advances (statement rs re fuel prop).
Proof. unfold statement. adv. Qed.

End Progress.

(** X6: every statement and every expression that the parser accepts has
    read at least one token: the input left unread after it is the input
    left unread before it without at least its first token, so that it is
    shorter whenever there was input left.  (So the loops of statlist and of
    explist cannot go round without progress.)  This holds for every code
    generator. *)
Theorem parser_advances {cg : CodeGen} (n : nat) (prop : option lu_hint)
    (ls ls' : LexState) :
  (exists r, parse_statement n prop ls = Ok r ls')
  \/ (exists r, parse_expr n prop ls = Ok r ls') ->
  (exists k, input ls' = drop (S k) (input ls))
  /\ (input ls <> [] -> (length (input ls') < length (input ls))%nat).
Proof.
  intros H.
  assert (Hk : exists k, input ls' = drop (S k) (input ls)).
  { destruct n as [|n]; [by destruct H as [[r E]|[r E]]|].
    destruct (parser_stable (cg := cg) n) as [Hs He].
    destruct H as [[r E]|[r E]].
    - exact (adv_statement _ _ Hs He n prop _ _ _ E).
    - exact (adv_expr _ _ Hs He n prop _ _ _ E). }
  split; [exact Hk|]. intros Hne. destruct Hk as [k ->].
  rewrite length_drop. destruct (input ls); [done|]. cbn [length]. lia.
Qed.

Lemma parser_advances_witness :
  exists r ls',
    parse_statement (cg := Emitter.gen) 12 None (start local_function_stat) = Ok r ls'
    /\ (length (input ls') < length (input (start local_function_stat)))%nat.
Proof.
  destruct (parse_statement (cg := Emitter.gen) 12 None (start local_function_stat))
    as [r ls'| |] eqn:E.
  - exists r, ls'. split; [reflexivity|].
    apply (parser_advances (cg := Emitter.gen) 12 None (start local_function_stat) ls').
    + left. by exists r.
    + vm_compute. discriminate.
  - exfalso. vm_compute in E. discriminate E.
  - exfalso. vm_compute in E. discriminate E.
Defined.

(** ** The end of an expression *)

Lemma left_positive op : op <> OPR_NOBINOPR -> (1 <= left op)%nat.
Proof. destruct op; intros H; try (vm_compute; lia). by destruct H. Qed.

(** X7: an expression that the parser accepts is a whole one: the token it
    stops at is not a binary operator (expr climbs from limit 0 and every
    binary operator has a left priority of at least 1).  This holds for
    every code generator. *)
Theorem parse_expr_whole {cg : CodeGen} (n : nat) (prop : option lu_hint)
    (ls : LexState) (r : expdesc * option lu_hint) (ls' : LexState) :
  parse_expr n prop ls = Ok r ls' ->
  getbinopr (token (ls_t ls')) = OPR_NOBINOPR.
Proof.
  destruct n as [|n]; [discriminate|].
  unfold parse_expr. cbn [parser snd]. unfold expr. intros E.
  apply bind_inv in E as ([[op v] p] & l1 & E1 & E2).
  injection E2 as _ <-.
  apply subexpr_returns_next in E1 as [Hop Hlim]. rewrite <- Hop.
  destruct Hlim as [Hnone|Hlim]; [exact Hnone|].
  destruct (BinOpr_eqb op OPR_NOBINOPR) eqn:Eop.
  - by apply BinOpr_eqb_eq.
  - assert (Hne : op <> OPR_NOBINOPR).
    { intros ->. vm_compute in Eop. discriminate. }
    apply left_positive in Hne. lia.
Qed.

Lemma parse_expr_whole_witness :
  exists r ls',
    parse_expr (cg := Emitter.gen) 5 None
      (start [Ti 1; Tc "+"; Ti 2; Tc "*"; Ti 3; T TK_THEN]) = Ok r ls'
    /\ getbinopr (token (ls_t ls')) = OPR_NOBINOPR.
Proof.
  destruct (parse_expr (cg := Emitter.gen) 5 None
              (start [Ti 1; Tc "+"; Ti 2; Tc "*"; Ti 3; T TK_THEN]))
    as [r ls'| |] eqn:E.
  - exists r, ls'. split; [reflexivity|].
    exact (parse_expr_whole (cg := Emitter.gen) 5 None _ r ls' E).
  - exfalso. vm_compute in E. discriminate E.
  - exfalso. vm_compute in E. discriminate E.
Defined.

(** ** Variables by name *)

Lemma searchvar_from_kind (d : Dyndata) (s : FuncState) (n : TString) (m : nat)
    (e : expdesc) :
  searchvar_from d s n m = Some e -> k e = VLOCAL \/ k e = VCONST.
Proof.
  induction m as [|m IH]; cbn [searchvar_from]; [discriminate|].
  destruct (eqstr _ _); [|exact IH]. cbv zeta.
  destruct (varkind_eqb _ _); intros [= <-]; [by right|by left].
Qed.

(** X8: a name resolves to the innermost declaration.  searchvar finds the
    active local variable of the function with the greatest index among
    those of that name, so a later declaration shadows the earlier ones; it
    gives a constant (VCONST, with the index in the array of all active
    variables) when that variable is a compile-time constant and the local
    variable itself otherwise; it finds nothing exactly when no active
    variable of the function has the name. *)
Theorem searchvar_innermost (d : Dyndata) (s : FuncState) (n : TString) :
  match searchvar d s n with
  | Some e =>
      exists i, (i < nactvar s)%nat
        /\ vd_name (getlocalvardesc d s i) = n
        /\ (forall j, (i < j < nactvar s)%nat -> vd_name (getlocalvardesc d s j) <> n)
        /\ e = (if varkind_eqb (vd_kind (getlocalvardesc d s i)) RDKCTC
                then init_exp VCONST (Z.of_nat (firstlocal s + i))
                else init_var d s i)
  | None => forall j, (j < nactvar s)%nat -> vd_name (getlocalvardesc d s j) <> n
  end.
Proof.
  unfold searchvar. generalize (nactvar s) as m.
  induction m as [|m IH]; cbn [searchvar_from]; [intros; lia|].
  unfold eqstr. destruct (String.eqb_spec n (vd_name (getlocalvardesc d s m))) as [Heq|Hne].
  - assert (Hfound : forall e,
              e = (if varkind_eqb (vd_kind (getlocalvardesc d s m)) RDKCTC
                   then init_exp VCONST (Z.of_nat (firstlocal s + m))
                   else init_var d s m) ->
              exists i, (i < S m)%nat
                /\ vd_name (getlocalvardesc d s i) = n
                /\ (forall j, (i < j < S m)%nat -> vd_name (getlocalvardesc d s j) <> n)
                /\ e = (if varkind_eqb (vd_kind (getlocalvardesc d s i)) RDKCTC
                        then init_exp VCONST (Z.of_nat (firstlocal s + i))
                        else init_var d s i)).
    { intros e ->. exists m. split; [lia|]. split; [done|]. split; [intros; lia|done]. }
    cbv zeta. destruct (varkind_eqb _ _) eqn:Ek; apply Hfound; reflexivity.
  - destruct (searchvar_from d s n m) as [e|].
    + destruct IH as (i & Hi & Hn & Hj & He). exists i.
      split; [lia|]. split; [done|]. split; [|done].
      intros j Hij. destruct (decide (j = m)) as [->|]; [congruence|]. apply Hj. lia.
    + intros j Hj. destruct (decide (j = m)) as [->|]; [congruence|]. apply IH. lia.
Qed.

(** ** Declaring a local variable and finding it *)

Lemma store_actvar_lookup i v arr : default Vardesc0 (store_actvar i v arr !! i) = v.
Proof.
  unfold store_actvar. destruct (Nat.ltb_spec i (length arr)) as [Hlt|Hge].
  - by rewrite list_lookup_insert_eq.
  - rewrite lookup_app_r by lia. rewrite lookup_app_r by (rewrite length_replicate; lia).
    rewrite length_replicate. by replace (i - length arr - (i - length arr))%nat with 0%nat by lia.
Qed.

Lemma store_actvar_lookup_lt i j v arr :
  (j < i)%nat -> default Vardesc0 (store_actvar i v arr !! j) = default Vardesc0 (arr !! j).
Proof.
  intros Hj. unfold store_actvar. destruct (Nat.ltb_spec i (length arr)) as [Hlt|Hge].
  - by rewrite list_lookup_insert_ne by lia.
  - destruct (Nat.lt_ge_cases j (length arr)) as [Hjl|Hjl].
    + by rewrite lookup_app_l.
    + rewrite lookup_app_r by lia. rewrite lookup_app_l by (rewrite length_replicate; lia).
      rewrite lookup_replicate_2 by lia. by rewrite (lookup_ge_None_2 arr j).
Qed.

Lemma searchvar_from_ext d d' s s' n k :
  firstlocal s' = firstlocal s ->
  (forall j, (j < k)%nat -> getlocalvardesc d' s' j = getlocalvardesc d s j) ->
  searchvar_from d' s' n k = searchvar_from d s n k.
Proof.
  intros Hf. induction k as [|k IH]; intros H; [reflexivity|].
  cbn [searchvar_from]. unfold init_var. rewrite (H k) by lia. rewrite Hf.
  rewrite IH by (intros; apply H; lia). reflexivity.
Qed.

Lemma reglevel_ext3 d d' s s' k :
  (forall j, (j < k)%nat -> getlocalvardesc d' s' j = getlocalvardesc d s j) ->
  reglevel d' s' k = reglevel d s k.
Proof.
  induction k as [|k IH]; intros H; [reflexivity|].
  cbn [reglevel]. rewrite (H k) by lia.
  rewrite IH by (intros; apply H; lia). reflexivity.
Qed.

Lemma new_localvar_run name ls :
  (declared ls < 249)%Z ->
  exists ws,
    new_localvar name ls
    = Ok (actvar_n (dyd ls) - firstlocal (cur_fs ls))%nat
        (upd_dyd (fun d =>
           set_actvar_n (S (actvar_n d))
             (set_actvar_arr
                (store_actvar (actvar_n d)
                   (mkVardesc (vd_value (default Vardesc0 (actvar_arr d !! actvar_n d)))
                      VDKREG H_FF H_FF
                      (vd_ridx (default Vardesc0 (actvar_arr d !! actvar_n d)))
                      (vd_pidx (default Vardesc0 (actvar_arr d !! actvar_n d)))
                      name (linenumber ls))
                   (actvar_arr d)) d))
           (set_warnings (warnings ls ++ ws) ls)).
Proof.
  intros Hlt. unfold declared in Hlt. unfold new_localvar.
  rewrite (bind_ok get _ ls ls ls) by reflexivity.
  match goal with |- context [new_localvar_warn ?d ?s ?n ?i] =>
    destruct (new_localvar_warn_ok d s n i ls) as [ws Hws] end.
  exists ws. cbv zeta. rewrite (bind_ok _ _ _ _ _ Hws).
  unfold checklimit, errorlimit, MAXVARS.
  destruct (Z.gtb_spec (Z.of_nat (actvar_n (dyd ls)) + 1
                        - Z.of_nat (firstlocal (cur_fs ls))) (Z.of_nat 249))
    as [Hgt|Hle]; [lia|].
  unfold ret, bind, gets, modify. simpl. f_equal; lia.
Qed.

Lemma store_actvar_length i v arr : (i < length (store_actvar i v arr))%nat.
Proof.
  unfold store_actvar. destruct (Nat.ltb_spec i (length arr)) as [Hlt|Hge].
  - by rewrite length_insert.
  - rewrite !length_app, length_replicate. cbn. lia.
Qed.

Lemma adjustlocalvars_one r d1 s :
  exists d2 s2,
    adjustlocalvars_loop 1 r d1 s = (d2, s2)
    /\ firstlocal s2 = firstlocal s
    /\ nactvar s2 = S (nactvar s)
    /\ actvar_arr d2
       = <[(firstlocal s + nactvar s)%nat :=
             set_vd_reg r (length (p_locvars (fs_f s)))
               (default Vardesc0 (actvar_arr d1 !! (firstlocal s + nactvar s)%nat))]>
           (actvar_arr d1).
Proof.
  destruct s, d1. eexists _, _. cbn. split; [reflexivity|]. by repeat split.
Qed.

(** X9: a declared local variable is found by its name.  In a function with
    no declaration pending (every declared variable is active) and fewer
    than 249 active variables, new_localvar followed by adjustlocalvars 1
    (what 'local x' does) makes the variable active with the next compiler
    index and the first free register level; searchvar then resolves the
    name to this variable, whatever was declared under that name before,
    and resolves every other name as it did before the declaration. *)
Theorem declared_local_is_found (name : TString) (ls : LexState)
    (Hfn : in_function ls = true)
    (Hinv : actvar_n (dyd ls) = (firstlocal (cur_fs ls) + nactvar (cur_fs ls))%nat)
    (Hlim : (nactvar (cur_fs ls) < 249)%nat) :
  exists ls1 ls2,
    new_localvar name ls = Ok (nactvar (cur_fs ls)) ls1
    /\ adjustlocalvars 1 ls1 = Ok tt ls2
    /\ nactvar (cur_fs ls2) = S (nactvar (cur_fs ls))
    /\ searchvar (dyd ls2) (cur_fs ls2) name
       = Some (init_var (dyd ls2) (cur_fs ls2) (nactvar (cur_fs ls)))
    /\ u_var_ridx (init_var (dyd ls2) (cur_fs ls2) (nactvar (cur_fs ls)))
       = luaY_nvarstack (dyd ls) (cur_fs ls)
    /\ (forall m, m <> name ->
          searchvar (dyd ls2) (cur_fs ls2) m = searchvar (dyd ls) (cur_fs ls) m).
Proof.
  assert (Hd : (declared ls < 249)%Z) by (unfold declared; lia).
  destruct (new_localvar_run name ls Hd) as [ws Hnew].
  match type of Hnew with _ = Ok _ ?l => set (ls1 := l) in * end.
  assert (Hs1 : cur_fs ls1 = cur_fs ls) by (unfold ls1; by destruct ls).
  assert (Hfn1 : in_function ls1 = true) by (unfold ls1; by destruct ls).
  set (s := cur_fs ls) in *. set (d := dyd ls) in *.
  set (var := mkVardesc (vd_value (default Vardesc0 (actvar_arr d !! actvar_n d)))
                VDKREG H_FF H_FF
                (vd_ridx (default Vardesc0 (actvar_arr d !! actvar_n d)))
                (vd_pidx (default Vardesc0 (actvar_arr d !! actvar_n d)))
                name (linenumber ls)).
  assert (Harr1 : actvar_arr (dyd ls1) = store_actvar (actvar_n d) var (actvar_arr d))
    by (unfold ls1; by destruct ls).
  set (r := luaY_nvarstack (dyd ls1) s).
  destruct (adjustlocalvars_one r (dyd ls1) s) as (d2 & s2 & Hadj & Hf2 & Hn2 & Harr2).
  exists ls1, (upd_fs (fun _ => s2) (set_dyd d2 ls1)).
  assert (Hcur2 : cur_fs (upd_fs (fun _ => s2) (set_dyd d2 ls1)) = s2).
  { rewrite cur_fs_upd_fs; [done|]. by destruct ls1. }
  assert (Hdyd2 : dyd (upd_fs (fun _ => s2) (set_dyd d2 ls1)) = d2).
  { rewrite dyd_upd_fs. by destruct ls1. }
  rewrite Hcur2, Hdyd2.
  assert (Hold : forall j, (j < nactvar s)%nat ->
            getlocalvardesc (dyd ls1) s j = getlocalvardesc d s j).
  { intros j Hj. unfold getlocalvardesc. rewrite Harr1.
    apply store_actvar_lookup_lt. lia. }
  assert (Hold2 : forall j, (j < nactvar s)%nat ->
            getlocalvardesc d2 s2 j = getlocalvardesc d s j).
  { intros j Hj. rewrite <- Hold by done. unfold getlocalvardesc.
    rewrite Harr2, Hf2. by rewrite list_lookup_insert_ne by lia. }
  assert (Hr : r = luaY_nvarstack d s).
  { unfold r, luaY_nvarstack. by apply reglevel_ext3. }
  assert (Hnew2 : getlocalvardesc d2 s2 (nactvar s)
                  = set_vd_reg r (length (p_locvars (fs_f s))) var).
  { unfold getlocalvardesc. rewrite Harr2, Hf2, Harr1, <- Hinv.
    rewrite list_lookup_insert_eq by apply store_actvar_length.
    unfold default at 1; cbn [from_option id].
    by rewrite store_actvar_lookup. }
  split; [rewrite Hnew; f_equal; lia|].
  split.
  { unfold adjustlocalvars, modify. rewrite Hs1. fold r. by rewrite Hadj. }
  split; [done|].
  split.
  { unfold searchvar. rewrite Hn2. cbn [searchvar_from]. rewrite Hnew2.
    cbn. unfold eqstr. by rewrite String.eqb_refl. }
  split.
  { unfold init_var. cbn. by rewrite Hnew2. }
  intros m Hm. unfold searchvar. rewrite Hn2. cbn [searchvar_from]. rewrite Hnew2.
  cbn [vd_name set_vd_reg var]. unfold eqstr.
  destruct (String.eqb_spec m name) as [->|_]; [done|].
  by apply searchvar_from_ext.
Qed.

Lemma declared_local_is_found_witness :
  exists ls1 ls2,
    new_localvar "x" (start [Tn "x"]) = Ok 0%nat ls1
    /\ adjustlocalvars 1 ls1 = Ok tt ls2
    /\ searchvar (dyd ls2) (cur_fs ls2) "x"
       = Some (init_var (dyd ls2) (cur_fs ls2) 0).
Proof.
  destruct (declared_local_is_found "x" (start [Tn "x"]) eq_refl eq_refl
              ltac:(vm_compute; lia))
    as (ls1 & ls2 & H1 & H2 & _ & H4 & _).
  by exists ls1, ls2.
Defined.

(** ** Free variables *)

Lemma markupval_blocks_idem bls level :
  markupval_blocks (markupval_blocks bls level) level = markupval_blocks bls level.
Proof.
  induction bls as [|b previous IH]; [reflexivity|]. cbn [markupval_blocks].
  destruct (level <? bl_nactvar b)%nat eqn:E; cbn [markupval_blocks].
  - by rewrite E, IH.
  - replace (bl_nactvar (set_upval true b)) with (bl_nactvar b) by by destruct b.
    rewrite E. by destruct b.
Qed.

Lemma markupval_idem level s : markupval level (markupval level s) = markupval level s.
Proof.
  unfold markupval. destruct s. cbn. by rewrite markupval_blocks_idem.
Qed.

Lemma searchvar_ext d s s' n :
  firstlocal s' = firstlocal s -> nactvar s' = nactvar s ->
  searchvar d s' n = searchvar d s n.
Proof.
  intros Hf Hn. unfold searchvar. rewrite Hn. apply searchvar_from_ext; [done|].
  intros. unfold getlocalvardesc. by rewrite Hf.
Qed.

Lemma searchupvalue_go_app n ups up i :
  up_name up = n ->
  (fix go (i : nat) (ups : list Upvaldesc) : option nat :=
     match ups with
     | [] => None
     | up :: rest => if eqstr (up_name up) n then Some i else go (S i) rest
     end) i ups = None ->
  (fix go (i : nat) (ups : list Upvaldesc) : option nat :=
     match ups with
     | [] => None
     | up :: rest => if eqstr (up_name up) n then Some i else go (S i) rest
     end) i (ups ++ [up]) = Some (i + length ups)%nat.
Proof.
  intros Hup. revert i. induction ups as [|u rest IH]; intros i; cbn.
  - intros _. rewrite Hup. unfold eqstr. rewrite String.eqb_refl. f_equal. lia.
  - destruct (eqstr (up_name u) n); [discriminate|]. intros H.
    rewrite (IH _ H). f_equal. lia.
Qed.

Lemma newupvalue_found d prev s n v idx s' :
  newupvalue d prev s n v = inr (idx, s') ->
  searchupvalue s n = None ->
  searchupvalue s' n = Some idx
  /\ firstlocal s' = firstlocal s /\ nactvar s' = nactvar s.
Proof.
  unfold newupvalue. destruct (_ <? _)%nat; [discriminate|].
  intros [= <- <-] Hnone. split; [|by destruct s].
  unfold searchupvalue in *.
  replace (p_upvalues (fs_f (set_fs_f _ s)))
    with (p_upvalues (fs_f s) ++
          [if expkind_eqb (k v) VLOCAL
           then mkUpvaldesc n true (u_var_ridx v)
                  (vd_kind (getlocalvardesc d prev (u_var_vidx v)))
           else mkUpvaldesc n false (wrap8 (u_info v))
                  (up_kind (default Upvaldesc0
                              (p_upvalues (fs_f prev) !! Z.to_nat (u_info v))))])
    by (destruct s as [[] ? ? ? ? ? ? ?]; reflexivity).
  rewrite (searchupvalue_go_app n _ _ 0%nat); [done| |done].
  by destruct (expkind_eqb _ _).
Qed.

(** X10: a name is resolved once.  When singlevaraux has resolved a name in
    a chain of enclosing functions (marking the block of a local that is
    captured, and adding an upvalue to every function between the use and
    the declaration), resolving the same name again gives the same
    descriptor and changes nothing: no upvalue is created twice. *)
Theorem singlevaraux_resolves_once (d : Dyndata) (fss : list FuncState)
    (n : TString) (base : bool) (v : expdesc) (fss' : list FuncState) :
  singlevaraux d fss n base = inr (v, fss') ->
  singlevaraux d fss' n base = inr (v, fss').
Proof.
  revert base v fss'. induction fss as [|s prev IH]; intros base v fss'.
  - cbn. by intros [= <- <-].
  - cbn [singlevaraux].
    destruct (searchvar d s n) as [var|] eqn:Esv.
    { destruct (expkind_eqb (k var) VLOCAL && negb base) eqn:Eb; intros [= <- <-].
      - cbn [singlevaraux].
        rewrite (searchvar_ext d s) by by destruct s.
        by rewrite Esv, Eb, markupval_idem.
      - cbn [singlevaraux]. by rewrite Esv, Eb. }
    destruct (searchupvalue s n) as [idx|] eqn:Eup.
    { intros [= <- <-]. cbn [singlevaraux]. by rewrite Esv, Eup. }
    destruct (singlevaraux d prev n false) as [e|[var prev']] eqn:Erec; [discriminate|].
    specialize (IH _ _ _ Erec).
    destruct (expkind_eqb (k var) VLOCAL || expkind_eqb (k var) VUPVAL) eqn:Ek.
    + destruct (newupvalue _ _ _ _ _) as [e|[idx s']] eqn:Enew; [discriminate|].
      intros [= <- <-]. cbn [singlevaraux].
      destruct (newupvalue_found _ _ _ _ _ _ _ Enew Eup) as (Hfound & Hf & Hn).
      by rewrite (searchvar_ext d s s' n Hf Hn), Esv, Hfound.
    + intros [= <- <-]. cbn [singlevaraux]. by rewrite Esv, Eup, IH, Ek.
Qed.

Lemma singlevaraux_resolves_once_witness :
  exists v fss',
    singlevaraux (dyd inner_function_state) (ls_fs inner_function_state) "x" true
    = inr (v, fss')
    /\ k v = VUPVAL
    /\ singlevaraux (dyd inner_function_state) fss' "x" true = inr (v, fss').
Proof.
  destruct (singlevaraux (dyd inner_function_state) (ls_fs inner_function_state) "x" true)
    as [e|[v fss']] eqn:E.
  - exfalso. vm_compute in E. discriminate E.
  - exists v, fss'. split; [reflexivity|]. split.
    + vm_compute in E. injection E as <- _. reflexivity.
    + exact (singlevaraux_resolves_once _ _ _ _ _ _ E).
Defined.

Lemma searchupvalue_go_none n ups i :
  (fix go (i : nat) (ups : list Upvaldesc) : option nat :=
     match ups with
     | [] => None
     | up :: rest => if eqstr (up_name up) n then Some i else go (S i) rest
     end) i ups = None ->
  forall up, In up ups -> up_name up <> n.
Proof.
  revert i. induction ups as [|u rest IH]; intros i H up Hin; [destruct Hin|].
  cbn in H. unfold eqstr in H.
  destruct (String.eqb_spec (up_name u) n) as [Heq|Hne]; [discriminate|].
  destruct Hin as [<-|Hin]; [done|]. by eapply IH.
Qed.

(** X14: the environment is always found (the assertion of singlevar,
    [var->k != VVOID]).  When the outermost function of the chain has an
    upvalue of the name (as the main function has for the environment),
    singlevaraux resolves the name to a local variable, a constant or an
    upvalue in every function of the chain, never to a global name. *)
Theorem singlevaraux_finds_environment (d : Dyndata) (fss : list FuncState)
    (n : TString) (base : bool) (v : expdesc) (fss' : list FuncState)
    (Henv : exists s up, last fss = Some s /\ In up (p_upvalues (fs_f s))
                         /\ up_name up = n)
    (Hrun : singlevaraux d fss n base = inr (v, fss')) :
  k v = VLOCAL \/ k v = VCONST \/ k v = VUPVAL.
Proof.
  revert base v fss' Hrun. induction fss as [|s prev IH]; intros base v fss'.
  - destruct Henv as (s & up & Hlast & _). discriminate Hlast.
  - cbn [singlevaraux].
    destruct (searchvar d s n) as [var|] eqn:Esv.
    { assert (Hk : k var = VLOCAL \/ k var = VCONST \/ k var = VUPVAL).
      { destruct (searchvar_from_kind _ _ _ _ _ Esv) as [->| ->];
          [by left|right; by left]. }
      destruct (_ && _); by intros [= <- _]. }
    destruct (searchupvalue s n) as [idx|] eqn:Eup.
    { intros [= <- _]. right. by right. }
    destruct prev as [|s2 prev].
    { destruct Henv as (s0 & up & Hlast & Hin & Hname). injection Hlast as <-.
      exfalso. by apply (searchupvalue_go_none n _ 0%nat Eup up Hin). }
    destruct (singlevaraux d (s2 :: prev) n false) as [e|[var prev']] eqn:Erec;
      [discriminate|].
    assert (Hk : k var = VLOCAL \/ k var = VCONST \/ k var = VUPVAL).
    { exact (IH Henv false var prev' Erec). }
    destruct (expkind_eqb (k var) VLOCAL || expkind_eqb (k var) VUPVAL) eqn:Ek.
    + destruct (newupvalue _ _ _ _ _) as [e|[idx s']]; [discriminate|].
      intros [= <- _]. right. by right.
    + by intros [= <- _].
Qed.

Lemma singlevaraux_finds_environment_witness :
  exists v fss',
    singlevaraux (dyd inner_function_state) (ls_fs inner_function_state) "_ENV" true
    = inr (v, fss')
    /\ (k v = VLOCAL \/ k v = VCONST \/ k v = VUPVAL).
Proof.
  destruct (singlevaraux (dyd inner_function_state) (ls_fs inner_function_state)
              "_ENV" true) as [e|[v fss']] eqn:E.
  - exfalso. vm_compute in E. discriminate E.
  - exists v, fss'. split; [reflexivity|].
    assert (Henv : exists s up, last (ls_fs inner_function_state) = Some s
                     /\ In up (p_upvalues (fs_f s)) /\ up_name up = "_ENV").
    { vm_compute. eexists _, _. split; [reflexivity|].
      split; [left; reflexivity|reflexivity]. }
    exact (singlevaraux_finds_environment _ _ _ _ _ _ Henv E).
Defined.

(** ** Labels *)

Lemma pres_bind {X A B} (f : LexState -> X) (m : P A) (g : A -> P B) :
  preserves f m -> (forall a, preserves f (g a)) -> preserves f (bind m g).
Proof.
  intros Hm Hg ls b ls' E. apply bind_inv in E as (a & l1 & E1 & E2).
  rewrite (Hg _ _ _ _ E2). by apply (Hm _ _ _ E1).
Qed.

Lemma pres_ret {X A} (f : LexState -> X) (a : A) : preserves f (ret a).
Proof. by intros ls x ls' [= _ <-]. Qed.

Lemma pres_throw {X A} (f : LexState -> X) e : preserves f (throw (A := A) e).
Proof. intros ls x ls' E. discriminate E. Qed.

Lemma pres_fuel {X A} (f : LexState -> X) : preserves f (out_of_fuel (A := A)).
Proof. intros ls x ls' E. discriminate E. Qed.

Lemma pres_get {X} (f : LexState -> X) : preserves f get.
Proof. by intros ls x ls' [= _ <-]. Qed.

Lemma pres_gets {X A} (f : LexState -> X) (g : LexState -> A) : preserves f (gets g).
Proof. by intros ls x ls' [= _ <-]. Qed.

Lemma pres_modify {X} (f : LexState -> X) g :
  (forall ls, f (g ls) = f ls) -> preserves f (modify g).
Proof.
  intros H ls a ls' E.
  assert (ls' = g ls) as -> by (unfold modify in E; congruence). apply H.
Qed.

Lemma pres_onfs_ {X} (f : LexState -> X) g :
  (forall ls, f (upd_fs g ls) = f ls) -> preserves f (onfs_ g).
Proof. intros H. by apply pres_modify. Qed.

Lemma pres_onfs {X A} (f : LexState -> X) (g : FuncState -> A * FuncState) :
  (forall ls, f (upd_fs (fun _ => snd (g (cur_fs ls))) ls) = f ls) -> preserves f (onfs g).
Proof.
  intros H ls a ls'. unfold onfs. specialize (H ls).
  destruct (g (cur_fs ls)). by intros [= _ <-].
Qed.

Lemma labels_of_patchlist a b ls : labels_of (upd_fs (luaK_patchlist a b) ls) = labels_of ls.
Proof.
  unfold labels_of. rewrite dyd_upd_fs. f_equal.
  destruct ls as [? ? ? ? [|s prev] ? ? ? ? ?]; [done|].
  cbn. unfold luaK_patchlist. by destruct (_ =? _)%Z.
Qed.

Lemma labels_of_code i ls :
  labels_of (upd_fs (fun _ => snd (luaK_code i (cur_fs ls))) ls) = labels_of ls.
Proof.
  unfold labels_of. rewrite dyd_upd_fs. f_equal.
  by destruct ls as [? ? ? ? [|s prev] ? ? ? ? ?].
Qed.

Lemma labels_of_set_gt g ls : labels_of (upd_dyd (fun d => set_gt (g d) d) ls) = labels_of ls.
Proof. by destruct ls. Qed.

Lemma pres_solvegoto g lb : preserves labels_of (solvegoto g lb).
Proof.
  unfold solvegoto, jumpscopeerror.
  apply pres_bind; [apply pres_get|intros ls0; cbv zeta].
  apply pres_bind.
  { destruct (_ <? _)%nat; [|apply pres_ret].
    apply pres_bind; [apply pres_get|intros; apply pres_throw]. }
  intros _. apply pres_bind.
  - apply pres_onfs_. apply labels_of_patchlist.
  - intros _. apply pres_modify. apply labels_of_set_gt.
Qed.

Lemma pres_solvegotos_loop fuel : forall lb i c,
  preserves labels_of (solvegotos_loop fuel lb i c).
Proof.
  induction fuel as [|fuel IH]; intros; cbn [solvegotos_loop]; [apply pres_fuel|].
  apply pres_bind; [apply pres_gets|intros gl].
  destruct (_ <? _)%nat; [|apply pres_ret].
  destruct (eqstr _ _); [|apply IH].
  apply pres_bind; [apply pres_solvegoto|intros; apply IH].
Qed.

Lemma createlabel_labels name line last ls b ls' :
  createlabel name line last ls = Ok b ls' ->
  exists lb, lb_name lb = name /\ lb_line lb = line
    /\ label (dyd ls') = label (dyd ls) ++ [lb]
    /\ fs_firstlabel (cur_fs ls') = fs_firstlabel (cur_fs ls).
Proof.
  unfold createlabel. intros E.
  apply bind_inv in E as (l0 & l0' & [= <- <-] & E).
  unfold newlabelentry in E. cbv beta iota zeta in E.
  set (lb0 := mkLabeldesc name (luaK_getlabel (cur_fs ls)) line (nactvar (cur_fs ls)) false) in *.
  set (lb := if last then set_lb_nactvar (bl_nactvar (cur_bl (cur_fs ls))) lb0 else lb0).
  assert (Hll : (if last
                 then alter (set_lb_nactvar (bl_nactvar (cur_bl (cur_fs ls))))
                        (length (label (dyd ls))) (label (dyd ls) ++ [lb0])
                 else label (dyd ls) ++ [lb0])
                = label (dyd ls) ++ [lb]).
  { unfold lb. destruct last; [|reflexivity].
    replace (length (label (dyd ls))) with (length (label (dyd ls)) + 0)%nat at 1 by lia.
    by rewrite alter_app_r. }
  rewrite Hll in E. clear Hll.
  apply bind_inv in E as (u & l1 & E1 & E).
  assert (l1 = upd_dyd (set_label (label (dyd ls) ++ [lb])) ls) as ->
    by (unfold modify in E1; congruence).
  apply bind_inv in E as (nc & l2 & E2 & E).
  assert (H2 : labels_of l2 = labels_of (upd_dyd (set_label (label (dyd ls) ++ [lb])) ls)).
  { unfold solvegotos in E2. apply bind_inv in E2 as (l3 & l3' & [= <- <-] & E2).
    by apply pres_solvegotos_loop in E2. }
  assert (H3 : labels_of ls' = labels_of l2).
  { destruct nc.
    - apply bind_inv in E as (l4 & l4' & [= <- <-] & E).
      apply bind_inv in E as (x & l5 & E5 & E). injection E as _ <-.
      revert E5. apply pres_onfs. intros. apply labels_of_code.
    - by injection E as _ <-. }
  rewrite H2 in H3. unfold labels_of in H3.
  replace (dyd (upd_dyd (set_label (label (dyd ls) ++ [lb])) ls))
    with (set_label (label (dyd ls) ++ [lb]) (dyd ls)) in H3 by by destruct ls.
  rewrite cur_fs_upd_dyd in H3. injection H3 as Hl Hf.
  exists lb. split; [by unfold lb; destruct last|]. split; [by unfold lb; destruct last|].
  split; [|done]. rewrite Hl. by destruct (dyd ls).
Qed.

(** X11: a label is declared once.  After createlabel has made a label in a
    function, findlabel finds a label of that name in the function (so a
    later goto to it is a backward jump) and checkrepeated raises the error
    of a label that is already defined, with the line of the label found. *)
Theorem label_declared_once (name : TString) (line : Z) (last : bool)
    (ls : LexState) (b : bool) (ls' : LexState)
    (Hfirst : (fs_firstlabel (cur_fs ls) <= length (label (dyd ls)))%nat)
    (Hrun : createlabel name line last ls = Ok b ls') :
  exists lb,
    findlabel name ls' = Ok (Some lb) ls'
    /\ lb_name lb = name
    /\ checkrepeated name ls' = Throw (E_repeated name (lb_line lb)) ls'.
Proof.
  apply createlabel_labels in Hrun as (lb0 & Hname & _ & Hl & Hf).
  unfold checkrepeated, findlabel, bind, get, ret. rewrite Hl, Hf.
  rewrite drop_app_le by done.
  destruct (List.find (fun lb => eqstr (lb_name lb) name)
              (drop (fs_firstlabel (cur_fs ls)) (label (dyd ls)) ++ [lb0]))
    as [lb|] eqn:Efind.
  - exists lb. split; [done|]. split; [|done].
    apply find_some in Efind as [_ Heq]. by apply String.eqb_eq.
  - exfalso. eapply find_none in Efind; [|apply in_or_app; right; by left].
    cbn in Efind. unfold eqstr in Efind. rewrite Hname, String.eqb_refl in Efind.
    discriminate.
Qed.

Lemma label_declared_once_witness :
  exists b ls' lb,
    createlabel "top" 1 false (start [Tn "x"]) = Ok b ls'
    /\ checkrepeated "top" ls' = Throw (E_repeated "top" (lb_line lb)) ls'.
Proof.
  destruct (createlabel "top" 1 false (start [Tn "x"])) as [b ls'| |] eqn:E.
  - destruct (label_declared_once "top" 1 false (start [Tn "x"]) b ls'
                ltac:(vm_compute; lia) E) as (lb & _ & _ & H).
    by exists b, ls', lb.
  - exfalso. vm_compute in E. discriminate E.
  - exfalso. vm_compute in E. discriminate E.
Defined.

(** ** The scopes of a parse *)

Lemma foldr_min_mono (l : list nat) (a b : nat) :
  (a <= b)%nat -> (foldr Nat.min a l <= foldr Nat.min b l)%nat.
Proof. intros H. induction l as [|x l IH]; cbn; lia. Qed.

Lemma foldr_min_le (l : list nat) (a : nat) : (foldr Nat.min a l <= a)%nat.
Proof. induction l as [|x l IH]; cbn; lia. Qed.

Lemma foldr_min_min (l : list nat) (a b : nat) :
  foldr Nat.min (Nat.min a b) l = Nat.min b (foldr Nat.min a l).
Proof. induction l as [|x l IH]; cbn; [lia|]. rewrite IH. lia. Qed.

Lemma levels_of_keys (l l' : list BlockCnt) :
  map bkey l' = map bkey l -> map bl_nactvar l' = map bl_nactvar l.
Proof.
  intros H. apply (f_equal (map (fun key => snd (fst key)))) in H.
  rewrite !map_map in H. exact H.
Qed.

Lemma levels_keys (s s' : FuncState) :
  keys s' = keys s -> map bl_nactvar (bl s') = map bl_nactvar (bl s).
Proof. apply levels_of_keys. Qed.

Lemma floor_levels (i : nat) (s s' : FuncState) :
  map bl_nactvar (bl s') = map bl_nactvar (bl s) -> (nactvar s <= nactvar s')%nat ->
  (floor i s <= floor i s')%nat.
Proof. intros Hk Hn. unfold floor. rewrite Hk. by apply foldr_min_mono. Qed.

Lemma floor_same (i : nat) (s s' : FuncState) :
  keys s' = keys s -> (nactvar s <= nactvar s')%nat -> (floor i s <= floor i s')%nat.
Proof.
  intros Hk Hn. unfold floor. rewrite (levels_keys _ _ Hk). by apply foldr_min_mono.
Qed.

Lemma spost_pre i j p q ls ls' : spre i p ls -> spost i j p q ls ls' -> spre j q ls'.
Proof.
  intros (Hne & Hi & Hp) (H1 & H2 & H3 & H4 & H5 & H6 & H7 & H8 & H9).
  split; [|split; lia].
  intros Hnil. rewrite Hnil in H1. destruct (ls_fs ls); [done|discriminate].
Qed.

Lemma spost_trans i j k p q r l1 l2 l3 :
  spost i j p q l1 l2 -> spost j k q r l2 l3 -> spost i k p r l1 l3.
Proof.
  intros (H1 & H2 & H3 & H4 & H5 & H6 & H7 & H8 & H9)
         (G1 & G2 & G3 & G4 & G5 & G6 & G7 & G8 & G9).
  split; [congruence|]. split; [congruence|]. split; [congruence|].
  split; [congruence|]. split; [lia|]. split; [congruence|]. split; [lia|].
  split; [congruence|lia].
Qed.

Lemma spost_lift i p ls ls' : spost 0 0 0 0 ls ls' -> spost i i p p ls ls'.
Proof.
  intros (H1 & H2 & H3 & H4 & H5 & H6 & H7 & H8 & H9). rewrite !drop_0 in H6.
  split; [done|]. split; [done|]. split; [done|]. split; [done|].
  split; [lia|]. split; [by rewrite H6|]. split; [lia|]. split; [done|].
  by apply floor_same.
Qed.

Lemma spre_weaken i p ls : 0 <= p -> spre i p ls -> spre 0 0 ls.
Proof. intros H0 (Hne & Hi & Hp). split; [done|]. split; lia. Qed.

Lemma sruns_bind {A B} (m : P A) (g : A -> P B) i j k p q r :
  sruns i j p q m -> (forall a, sruns j k (q a) r (g a)) -> sruns i k p r (bind m g).
Proof.
  intros Hm Hg ls b ls' E Hpre.
  apply bind_inv in E as (a & l1 & E1 & E2).
  pose proof (Hm _ _ _ E1 Hpre) as H1.
  eapply spost_trans; [exact H1|].
  apply (Hg a _ _ _ E2). by eapply spost_pre.
Qed.

Lemma sruns_bind_fact {A B} (m : P A) (g : A -> P B) (R : A -> Prop) i j k p q r :
  sruns i j p q m ->
  (forall ls a ls', m ls = Ok a ls' -> R a) ->
  (forall a, R a -> sruns j k (q a) r (g a)) ->
  sruns i k p r (bind m g).
Proof.
  intros Hm HR Hg ls b ls' E Hpre.
  apply bind_inv in E as (a & l1 & E1 & E2).
  pose proof (Hm _ _ _ E1 Hpre) as H1.
  eapply spost_trans; [exact H1|].
  apply (Hg a (HR _ _ _ E1) _ _ _ E2). by eapply spost_pre.
Qed.

Lemma sruns_stable {A} (m : P A) i p :
  0 <= p -> sstable m -> sruns i i p (fun _ => p) m.
Proof.
  intros H0 H ls a ls' E Hpre. apply spost_lift. apply (H _ _ _ E).
  by eapply spre_weaken.
Qed.

Lemma cons_inv {A} (x y : A) (l l' : list A) : x :: l = y :: l' -> x = y /\ l = l'.
Proof. intros H. split; congruence. Qed.

Lemma last_map_scope (l l' : list FuncState) :
  map scope_of l' = map scope_of l ->
  p_upvalues (fs_f (default FuncState0 (last l')))
  = p_upvalues (fs_f (default FuncState0 (last l))).
Proof.
  revert l'. induction l as [|s l IH]; intros [|s' l'] H; try discriminate; [done|].
  cbn [map] in H. apply cons_inv in H as [Hs Hl].
  destruct l as [|s2 l], l' as [|s2' l']; try discriminate.
  - cbn. unfold scope_of in Hs. congruence.
  - apply (IH (s2' :: l')). exact Hl.
Qed.

Lemma same_scopes_sruns i p ls ls' : same_scopes ls ls' -> spost i i p p ls ls'.
Proof.
  intros [Hs Hn].
  assert (Hlen : length (ls_fs ls') = length (ls_fs ls)).
  { rewrite <- (length_map scope_of (ls_fs ls')), Hs. apply length_map. }
  assert (Hcur : scope_of (cur_fs ls') = scope_of (cur_fs ls)).
  { unfold cur_fs. destruct (ls_fs ls) as [|s l], (ls_fs ls') as [|s' l'];
      try discriminate; [done|]. cbn [map] in Hs. by apply cons_inv in Hs as [? _]. }
  assert (Htl : map fsig (tail (ls_fs ls')) = map fsig (tail (ls_fs ls))).
  { destruct (ls_fs ls) as [|s l], (ls_fs ls') as [|s' l']; try discriminate; [done|].
    cbn [map] in Hs. apply cons_inv in Hs as [_ Hl]. cbn [tail].
    assert (Hf : forall x, fsig x = fst (scope_of x)) by (by intros []).
    rewrite (map_ext _ _ Hf), (map_ext _ _ Hf) at 1.
    rewrite <- !(map_map scope_of fst). by rewrite Hl. }
  unfold scope_of in Hcur. injection Hcur as Hk Hna Hfl Hfb Hup.
  split; [done|]. split; [done|]. split; [done|]. split; [done|].
  split.
  { unfold keys in Hk. apply (f_equal length) in Hk. rewrite !length_map in Hk. lia. }
  split; [by rewrite Hk|]. split; [lia|].
  split; [unfold last_fs; by apply last_map_scope|].
  apply floor_same; [done|lia].
Qed.

Lemma sstable_same {A} (m : P A) :
  (forall ls a ls', m ls = Ok a ls' -> same_scopes ls ls') -> sstable m.
Proof.
  intros H ls a ls' E _. apply (same_scopes_sruns 0 0). by eapply H.
Qed.

Lemma same_scopes_refl ls : same_scopes ls ls.
Proof. by split. Qed.

Lemma same_scopes_trans l1 l2 l3 :
  same_scopes l1 l2 -> same_scopes l2 l3 -> same_scopes l1 l3.
Proof. intros [H1 H2] [G1 G2]. split; congruence. Qed.

Lemma same_scopes_upd_fs g ls :
  (forall s, scope_of (g s) = scope_of s) -> same_scopes ls (upd_fs g ls).
Proof.
  intros H. destruct ls as [? ? ? ? [|s prev] ? ? ? ? ?]; [by split|].
  split; [|done]. cbn. by rewrite H.
Qed.

Lemma same_scopes_upd_dyd g ls :
  actvar_n (g (dyd ls)) = actvar_n (dyd ls) -> same_scopes ls (upd_dyd g ls).
Proof. intros H. destruct ls. by split. Qed.

Lemma same_scopes_fields ls ls' :
  ls_fs ls' = ls_fs ls -> dyd ls' = dyd ls -> same_scopes ls ls'.
Proof. intros H1 H2. split; congruence. Qed.

Lemma sstable_ret {A} (a : A) : sstable (ret a).
Proof. apply sstable_same. intros ls x ls' [= _ <-]. apply same_scopes_refl. Qed.

Lemma sstable_throw {A} (e : error) : sstable (throw (A := A) e).
Proof. intros ls a ls' E. discriminate E. Qed.

Lemma sstable_fuel {A} : sstable (out_of_fuel (A := A)).
Proof. intros ls a ls' E. discriminate E. Qed.

Lemma sstable_get : sstable get.
Proof. apply sstable_same. intros ls x ls' [= _ <-]. apply same_scopes_refl. Qed.

Lemma sstable_gets {A} (g : LexState -> A) : sstable (gets g).
Proof. apply sstable_same. intros ls x ls' [= _ <-]. apply same_scopes_refl. Qed.

Lemma sstable_modify (g : LexState -> LexState) :
  (forall ls, same_scopes ls (g ls)) -> sstable (modify g).
Proof.
  intros H. apply sstable_same. intros ls x ls' E.
  assert (ls' = g ls) as -> by (unfold modify in E; congruence). apply H.
Qed.

Lemma sstable_onfs {A} (g : FuncState -> A * FuncState) :
  (forall s, scope_of (snd (g s)) = scope_of s) -> sstable (onfs g).
Proof.
  intros H. apply sstable_same. intros ls a ls'. unfold onfs.
  specialize (H (cur_fs ls)). destruct (g (cur_fs ls)) as [x s1].
  intros [= _ <-].
  destruct ls as [? ? ? ? [|s prev] ? ? ? ? ?]; [by split|].
  split; [|done]. cbn in *. by rewrite H.
Qed.

Lemma sstable_onfs_ (g : FuncState -> FuncState) :
  (forall s, scope_of (g s) = scope_of s) -> sstable (onfs_ g).
Proof.
  intros H. apply sstable_modify. intros ls. by apply same_scopes_upd_fs.
Qed.

Lemma sstable_callK {cg : CodeGen} {A} (g : Dyndata -> FuncState -> kres A) :
  neutral g -> sstable (callK g).
Proof.
  intros H. apply sstable_same. intros ls a ls' E.
  apply callK_inv in E as (s & E & ->).
  apply H in E. 
  destruct ls as [? ? ? ? [|s0 prev] ? ? ? ? ?]; [by split|].
  split; [|done]. cbn in *. by rewrite E.
Qed.

Lemma sstable_luaX_next : sstable luaX_next.
Proof.
  apply sstable_modify. intros ls. apply same_scopes_fields;
    destruct ls as [? inp ? ? ? ? ? ? ? ?]; by destruct inp.
Qed.

Lemma sstable_luaX_lookahead : sstable luaX_lookahead.
Proof. apply sstable_gets. Qed.

Lemma sstable_gett : sstable gett.
Proof. apply sstable_gets. Qed.

Lemma sstable_throw_warn err here arg : sstable (throw_warn err here arg).
Proof. apply sstable_modify. intros ls. apply same_scopes_fields; by destruct ls. Qed.

Lemma sstable_throw_warn_at err line : sstable (throw_warn_at err line).
Proof. apply sstable_modify. intros ls. apply same_scopes_fields; by destruct ls. Qed.

Lemma sruns_ret {A} (a : A) i k p (r : A -> Z) :
  i = k -> p = r a -> sruns i k p r (ret a).
Proof.
  intros -> -> ls x ls' E _. injection E as <- <-.
  apply (same_scopes_sruns k (r a)). apply same_scopes_refl.
Qed.

Lemma spost_intro i j p q ls ls' s s' prev :
  ls_fs ls = s :: prev -> ls_fs ls' = s' :: prev ->
  firstlocal s' = firstlocal s -> fs_firstlabel s' = fs_firstlabel s ->
  (length (bl s') + i = length (bl s) + j)%nat ->
  drop j (keys s') = drop i (keys s) ->
  Z.of_nat (actvar_n (dyd ls')) + Z.of_nat (nactvar s) + p
  = Z.of_nat (actvar_n (dyd ls)) + Z.of_nat (nactvar s') + q ->
  p_upvalues (fs_f s') = p_upvalues (fs_f s) ->
  (floor i s <= floor j s')%nat ->
  spost i j p q ls ls'.
Proof.
  intros Hl Hl' H3 H4 H5 H6 H7 H8 H9. unfold spost, last_fs, cur_fs.
  rewrite Hl, Hl'. cbn [head tail default from_option id length].
  split; [done|]. split; [done|]. split; [done|]. split; [done|].
  split; [done|]. split; [done|]. split; [done|]. split; [|done].
  destruct prev as [|s2 prev]; [done|]. done.
Qed.

Lemma sruns_declare g i p :
  (forall d, actvar_n (g d) = S (actvar_n d)) ->
  sruns i i p (fun _ => p + 1) (modify (upd_dyd g)).
Proof.
  intros H ls a ls' E (Hne & _).
  assert (ls' = upd_dyd g ls) as -> by (unfold modify in E; congruence).
  destruct ls as [? ? ? ? [|s prev] d ? ? ? ?]; [done|].
  eapply (spost_intro _ _ _ _ _ _ s s prev); try reflexivity; try lia.
  cbn. rewrite H. lia.
Qed.

Lemma adjustlocalvars_loop_scope n : forall r d s,
  actvar_n (fst (adjustlocalvars_loop n r d s)) = actvar_n d
  /\ bl (snd (adjustlocalvars_loop n r d s)) = bl s
  /\ nactvar (snd (adjustlocalvars_loop n r d s)) = (nactvar s + n)%nat
  /\ firstlocal (snd (adjustlocalvars_loop n r d s)) = firstlocal s
  /\ fs_firstlabel (snd (adjustlocalvars_loop n r d s)) = fs_firstlabel s
  /\ p_upvalues (fs_f (snd (adjustlocalvars_loop n r d s))) = p_upvalues (fs_f s).
Proof.
  induction n as [|n IH]; intros r d s; cbn [adjustlocalvars_loop].
  - cbn. repeat split; lia.
  - cbv zeta. unfold registerlocalvar.
    match goal with |- context [adjustlocalvars_loop n ?r1 ?d1 ?s1] =>
      destruct (IH r1 d1 s1) as (-> & -> & -> & -> & -> & ->) end.
    destruct s as [[] ? ? ? ? ? ? ?], d. cbn. repeat split; lia.
Qed.

Lemma sruns_adjustlocalvars n i p :
  sruns i i p (fun _ => p - Z.of_nat n) (adjustlocalvars n).
Proof.
  intros ls a ls' E (Hne & _ & Hp).
  unfold adjustlocalvars, modify in E. injection E as _ <-.
  destruct (adjustlocalvars_loop_scope n (luaY_nvarstack (dyd ls) (cur_fs ls))
              (dyd ls) (cur_fs ls)) as (H1 & H2 & H3 & H4 & H5 & H6).
  destruct (adjustlocalvars_loop _ _ _ _) as [d1 s1]. cbn [fst snd] in *.
  destruct ls as [? ? ? ? [|s prev] d ? ? ? ?]; [done|].
  unfold cur_fs in *; cbn in *.
  eapply (spost_intro _ _ _ _ _ _ s s1 prev); try reflexivity; try done;
    try (apply floor_levels; [by rewrite H2|lia]);
    unfold keys; cbn; rewrite ?H2; try lia; done.
Qed.

Lemma sruns_count i p :
  sruns i i p (fun _ => p - 1) (onfs_ (fun s => set_nactvar (S (nactvar s)) s)).
Proof.
  intros ls a ls' E (Hne & _ & Hp).
  unfold onfs_, modify in E. injection E as _ <-.
  destruct ls as [? ? ? ? [|s prev] d ? ? ? ?]; [done|].
  eapply (spost_intro _ _ _ _ _ _ s _ prev); try reflexivity;
    try (apply floor_levels; destruct s; cbn; [done|lia]);
    destruct s; cbn in *; unfold cur_fs in *; cbn in *; try lia; done.
Qed.

Lemma sruns_enterblock isloop_ i p : sruns i (S i) p (fun _ => p) (enterblock isloop_).
Proof.
  intros ls a ls' E (Hne & _).
  unfold enterblock, modify in E. injection E as _ <-.
  destruct ls as [? ? ? ? [|s prev] d ? ? ? ?]; [done|].
  eapply (spost_intro _ _ _ _ _ _ s _ prev); try reflexivity;
    destruct s as [fp bls pc0 fl flab n fr nc];
    cbn in *; unfold cur_fs in *; cbn in *; try lia; try done.
  unfold floor. cbn.
  pose proof (foldr_min_le (take i (map bl_nactvar bls)) n). lia.
Qed.

Lemma removevars_loop_scope d tolevel fuel : forall s,
  (nactvar s <= tolevel + fuel)%nat ->
  nactvar (removevars_loop fuel d tolevel s) = Nat.min (nactvar s) tolevel
  /\ bl (removevars_loop fuel d tolevel s) = bl s
  /\ firstlocal (removevars_loop fuel d tolevel s) = firstlocal s
  /\ fs_firstlabel (removevars_loop fuel d tolevel s) = fs_firstlabel s
  /\ p_upvalues (fs_f (removevars_loop fuel d tolevel s)) = p_upvalues (fs_f s).
Proof.
  induction fuel as [|fuel IH]; intros s Hfuel; cbn [removevars_loop].
  - repeat split; lia.
  - destruct (Nat.ltb_spec tolevel (nactvar s)) as [Hlt|Hge]; [|repeat split; lia].
    match goal with |- context [removevars_loop fuel d tolevel ?x] =>
      destruct (IH x) as (-> & -> & -> & -> & ->) end.
    + destruct (localdebuginfo _ _ _); destruct s; cbn in *; lia.
    + destruct (localdebuginfo _ _ _); destruct s as [[] ? ? ? ? ? ? ?]; cbn in *;
        repeat split; lia.
Qed.

Lemma sruns_conseq {A} (m : P A) i j j' p q q' :
  sruns i j p q m -> j = j' -> (forall a, q a = q' a) -> sruns i j' p q' m.
Proof.
  intros H <- Hq ls a ls' E Hpre. rewrite <- Hq. by apply H.
Qed.

Lemma sruns_fuel {A} i j p (q : A -> Z) : sruns i j p q out_of_fuel.
Proof. intros ls a ls' E. discriminate E. Qed.

Lemma sruns_throw {A} i j p (q : A -> Z) e : sruns i j p q (throw e).
Proof. intros ls a ls' E. discriminate E. Qed.

Lemma sstable_enterlevel : sstable enterlevel.
Proof.
  apply sstable_same. intros ls a ls' E. unfold enterlevel, bind, modify, gets in E.
  destruct (_ <=? _)%nat; [discriminate|]. injection E as _ <-.
  apply same_scopes_fields; by destruct ls.
Qed.

Lemma sstable_leavelevel : sstable leavelevel.
Proof.
  apply sstable_modify. intros ls. apply same_scopes_fields; by destruct ls.
Qed.

Lemma keys_alter (f : BlockCnt -> BlockCnt) i l :
  (forall b, bkey (f b) = bkey b) -> map bkey (alter f i l) = map bkey l.
Proof.
  intros H. revert i. induction l as [|b l IH]; intros [|i]; cbn; [done..| |].
  - by rewrite H.
  - by rewrite IH.
Qed.

Lemma keys_markupval bls level : map bkey (markupval_blocks bls level) = map bkey bls.
Proof.
  induction bls as [|b bls IH]; [done|]. cbn [markupval_blocks].
  destruct (_ <? _)%nat; cbn; [by rewrite IH|]. by destruct b.
Qed.

Lemma fsig_markupval level s : fsig (markupval level s) = fsig s.
Proof. unfold fsig, keys, markupval. destruct s; cbn. by rewrite keys_markupval. Qed.

Lemma upvalues_markupval level s :
  p_upvalues (fs_f (markupval level s)) = p_upvalues (fs_f s).
Proof. by destruct s. Qed.

Lemma singlevaraux_sig d fss n base v fss' :
  singlevaraux d fss n base = inr (v, fss') ->
  map fsig fss' = map fsig fss
  /\ p_upvalues (fs_f (default FuncState0 (last fss')))
     = p_upvalues (fs_f (default FuncState0 (last fss)))
  /\ (fss = [] -> k v = VVOID).
Proof.
  revert base v fss'. induction fss as [|s prev IH]; intros base v fss'; cbn [singlevaraux].
  - by intros [= <- <-].
  - destruct (searchvar d s n) as [var|].
    { destruct (_ && _); intros [= <- <-]; (split; [|split; [|done]]).
      - cbn. by rewrite fsig_markupval.
      - destruct prev; [apply upvalues_markupval|done].
      - done.
      - done. }
    destruct (searchupvalue s n) as [idx|]; [by intros [= <- <-]|].
    destruct (singlevaraux d prev n false) as [e|[var prev']] eqn:E; [discriminate|].
    destruct (IH _ _ _ E) as (Hsig & Hup & Hvoid).
    assert (Hlen : length prev' = length prev).
    { rewrite <- (length_map fsig prev'), Hsig. apply length_map. }
    destruct (expkind_eqb (k var) VLOCAL || expkind_eqb (k var) VUPVAL) eqn:Ek.
    + destruct (newupvalue _ _ _ _ _) as [e|[idx s']] eqn:Enew; [discriminate|].
      intros [= <- <-]. split; [|split; [|done]].
      * cbn. rewrite Hsig. f_equal. unfold newupvalue in Enew.
        destruct (_ <? _)%nat; [discriminate|]. injection Enew as _ <-.
        by destruct s.
      * destruct prev as [|s2 prev].
        { rewrite Hvoid in Ek by done. discriminate. }
        destruct prev' as [|s2' prev']; [discriminate|]. exact Hup.
    + intros [= <- <-]. split; [|split; [|done]].
      * cbn. by rewrite Hsig.
      * destruct prev as [|s2 prev], prev' as [|s2' prev']; try discriminate; [done|].
        exact Hup.
Qed.

Lemma sig_spost i p ls ls' :
  map fsig (ls_fs ls') = map fsig (ls_fs ls) ->
  actvar_n (dyd ls') = actvar_n (dyd ls) ->
  p_upvalues (fs_f (last_fs ls')) = p_upvalues (fs_f (last_fs ls)) ->
  spost i i p p ls ls'.
Proof.
  intros Hs Hn Hup.
  assert (Hlen : length (ls_fs ls') = length (ls_fs ls)).
  { rewrite <- (length_map fsig (ls_fs ls')), Hs. apply length_map. }
  assert (Hcur : fsig (cur_fs ls') = fsig (cur_fs ls)).
  { unfold cur_fs. destruct (ls_fs ls) as [|s l], (ls_fs ls') as [|s' l'];
      try discriminate; [done|]. cbn [map] in Hs. by apply cons_inv in Hs as [? _]. }
  assert (Htl : map fsig (tail (ls_fs ls')) = map fsig (tail (ls_fs ls))).
  { destruct (ls_fs ls) as [|s l], (ls_fs ls') as [|s' l']; try discriminate; [done|].
    cbn [map] in Hs. by apply cons_inv in Hs as [_ Hl]. }
  unfold fsig in Hcur. injection Hcur as Hk Hna Hfl Hfb.
  split; [done|]. split; [done|]. split; [done|]. split; [done|].
  split.
  { unfold keys in Hk. apply (f_equal length) in Hk. rewrite !length_map in Hk. lia. }
  split; [by rewrite Hk|]. split; [lia|]. split; [done|].
  apply floor_same; [done|lia].
Qed.

Lemma sstable_singlevaraux_P n base : sstable (singlevaraux_P n base).
Proof.
  intros ls a ls' E _. unfold singlevaraux_P in E.
  destruct (singlevaraux _ _ _ _) as [e|[var fss]] eqn:Es; [discriminate|].
  injection E as _ <-. apply singlevaraux_sig in Es as (Hsig & Hup & _).
  apply sig_spost; by destruct ls.
Qed.

Ltac scope_side :=
  intros;
  unfold scope_of, keys, luaK_patchtohere, luaK_jumpto, luaK_patchlist, luaK_jump,
    luaK_fixline, luaK_codeABC, luaK_codeABx, luaK_codeAsBx, luaK_concat, luaK_code,
    luaK_getlabel, add_fixup, add_code, marktobeclosed, upd_bl;
  cbn;
  repeat match goal with
         | |- context [if ?c then _ else _] => destruct c; cbn
         | |- context [match bl ?s with _ => _ end] => destruct (bl s) eqn:?; cbn
         end;
  repeat match goal with s : FuncState |- _ => destruct s as [[] ? ? ? ? ? ? ?] end;
  cbn in *; subst; cbn;
  rewrite ?keys_alter by (by intros []);
  try reflexivity; try (by repeat match goal with b : BlockCnt |- _ => destruct b end).

Ltac scope_modify :=
  let ls := fresh "ls" in
  intros ls;
  first
    [ solve [apply same_scopes_fields; destruct ls; reflexivity]
    | solve [apply same_scopes_upd_fs; scope_side]
    | solve [destruct ls as [? ? ? ? [|[] ?] [] ? ? ? ?]; split; reflexivity] ].

Create HintDb sframe.

#[export] Hint Resolve sstable_ret sstable_throw sstable_fuel sstable_get sstable_gets
  sstable_luaX_next sstable_luaX_lookahead sstable_gett sstable_throw_warn
  sstable_throw_warn_at sstable_enterlevel sstable_leavelevel
  sstable_singlevaraux_P : sframe.

#[export] Hint Resolve sruns_enterblock : sframe.

#[export] Hint Extern 1 (sstable (throwerr _ _)) => apply sstable_throw : sframe.
#[export] Hint Extern 1 (sstable (errorlimit _ _)) => apply sstable_throw : sframe.
#[export] Hint Extern 3 (sstable (modify _)) =>
  apply sstable_modify; scope_modify : sframe.
#[export] Hint Extern 3 (sstable (onfs _)) => apply sstable_onfs; scope_side : sframe.
#[export] Hint Extern 3 (sstable (onfs_ _)) => apply sstable_onfs_; scope_side : sframe.
#[export] Hint Resolve sruns_adjustlocalvars sruns_count : sframe.

Ltac sleaf :=
  first [ apply sruns_fuel
        | apply sruns_throw
        | solve [eauto 2 with sframe]
        | solve [apply sruns_stable; [lia|eauto 3 with sframe]] ].

Ltac sframe :=
  repeat first
    [ progress intros
    | match goal with
      | |- sruns _ _ _ _ (bind _ _) => eapply sruns_bind
      | |- sruns _ _ _ _ (if ?c then _ else _) => destruct c
      | |- sruns _ _ _ _ (match ?x with _ => _ end) => destruct x
      | |- sruns _ _ _ _ ((if ?c then _ else _) _) => destruct c
      | |- sruns _ _ _ _ ((match ?x with _ => _ end) _) => destruct x
      | |- sstable ?m => change (sruns 0 0 0 (fun _ => 0) m)
      end
    | sleaf
    | solve [eapply sruns_conseq; [sleaf | first [reflexivity | lia]
                                  | intros; cbv beta; first [reflexivity | cbn; lia]]]
    | solve [apply sruns_ret; [first [reflexivity | lia] | first [reflexivity | cbn; lia]]]
    | progress cbv beta zeta
    | progress cbn [fst snd] ].

Ltac neutral_solve :=
  match goal with
  | HN : ScopeNeutral _ |- _ =>
      first [ apply (sn_infix _ HN) | apply (sn_posfix _ HN) | apply (sn_prefix _ HN)
            | apply (sn_dischargevars _ HN) | apply (sn_exp2nextreg _ HN)
            | apply (sn_exp2anyreg _ HN) | apply (sn_exp2anyregup _ HN)
            | apply (sn_exp2reg _ HN) | apply (sn_exp2val _ HN)
            | apply (sn_storevar _ HN) | apply (sn_setoneret _ HN)
            | apply (sn_setreturns _ HN) | apply (sn_goiftrue _ HN)
            | apply (sn_goiffalse _ HN) | apply (sn_indexed _ HN)
            | apply (sn_self _ HN) | apply (sn_nil _ HN) | apply (sn_int _ HN)
            | apply (sn_ret _ HN) | apply (sn_reserveregs _ HN)
            | apply (sn_checkstack _ HN) | apply (sn_setlist _ HN)
            | apply (sn_settablesize _ HN) | apply (sn_finish _ HN) ]
  end.

#[export] Hint Extern 2 (sstable (callK _)) =>
  apply sstable_callK; neutral_solve : sframe.

(** A step of a run that leaves the scopes as they are: from [E], a run of a
    piece, and [Hpre], the state it starts in. *)
Ltac stable_step E Hpre H Hpre' :=
  match type of E with
  | ?m ?ls = Ok ?a ?ls' =>
      match type of Hpre with
      | spre ?i ?p ls =>
          assert (H : spost 0 0 0 0 ls ls')
            by (refine ((_ : sstable m) ls a ls' E
                          (spre_weaken i p ls ltac:(lia) Hpre)); sframe);
          pose proof (spost_pre _ _ _ _ _ _ Hpre (spost_lift i p _ _ H)) as Hpre'
      end
  end.

Lemma spost_refl ls : spost 0 0 0 0 ls ls.
Proof. apply (same_scopes_sruns 0 0), same_scopes_refl. Qed.

(** The steps of a run that leave the scopes as they are, up to the first
    step that does not. *)
Ltac stable_chain :=
  repeat match goal with
         | E : (let (_, _) := ?x in _) _ = Ok _ _ |- _ => destruct x
         | E : bind _ _ ?l = Ok _ _, Hp : spre 0 0 ?l, Hacc : spost 0 0 0 0 _ ?l |- _ =>
             let Es := fresh "Es" in
             let Hs := fresh "Hs" in
             let Hp' := fresh "Hp" in
             let Hacc' := fresh "Hacc" in
             apply bind_inv in E as (? & ? & Es & E);
             stable_step Es Hp Hs Hp';
             pose proof (spost_trans _ _ _ _ _ _ _ _ _ Hacc Hs) as Hacc';
             clear Hacc Hp Hs Es;
             cbv beta zeta in E
         end.

(** ** The count of active variables through leaveblock *)

Ltac pres_side :=
  let ls := fresh "ls" in
  intros ls;
  destruct ls as [? ? ? ? [|[] ?] [] ? ? ? ?];
  unfold luaK_patchtohere, luaK_jumpto, luaK_patchlist, luaK_jump,
    luaK_fixline, luaK_codeABC, luaK_codeABx, luaK_codeAsBx, luaK_concat, luaK_code,
    luaK_getlabel, add_fixup, add_code;
  cbn;
  repeat match goal with |- context [if ?c then _ else _] => destruct c; cbn end;
  reflexivity.

Ltac pres :=
  repeat first
    [ progress intros
    | match goal with
      | |- preserves _ (bind _ _) => apply pres_bind
      | |- preserves _ (if ?c then _ else _) => destruct c
      | |- preserves _ (match ?x with _ => _ end) => destruct x
      end
    | apply pres_ret | apply pres_throw | apply pres_fuel | apply pres_get
    | apply pres_gets
    | solve [apply pres_modify; pres_side]
    | solve [apply pres_onfs; pres_side]
    | solve [apply pres_onfs_; pres_side]
    | solve [auto 2]
    | progress cbv beta zeta ].

Lemma active_solvegoto g lb : preserves active_of (solvegoto g lb).
Proof. unfold solvegoto, jumpscopeerror. pres. Qed.

Lemma active_solvegotos_loop fuel : forall lb i c,
  preserves active_of (solvegotos_loop fuel lb i c).
Proof.
  pose proof active_solvegoto.
  induction fuel as [|fuel IH]; intros; cbn [solvegotos_loop]; pres.
Qed.

Lemma active_createlabel name line last :
  preserves active_of (createlabel name line last).
Proof.
  pose proof active_solvegotos_loop.
  unfold createlabel, solvegotos, newlabelentry. pres.
Qed.

Lemma active_movegotosout b : preserves active_of (movegotosout b).
Proof. unfold movegotosout. pres. Qed.

(** A step of a run that keeps the count of active variables. *)
Ltac active_step E H :=
  match type of E with
  | ?m ?ls = Ok ?a ?ls' =>
      assert (H : active_of ls' = active_of ls)
        by (refine ((_ : preserves active_of m) ls a ls' E);
            pose proof active_createlabel; pose proof active_movegotosout;
            unfold undefgoto; pres)
  end.

Lemma leaveblock_nactvar ls u ls' :
  leaveblock ls = Ok u ls' -> ls_fs ls <> [] ->
  nactvar (cur_fs ls')
  = Nat.min (nactvar (cur_fs ls)) (bl_nactvar (cur_bl (cur_fs ls))).
Proof.
  intros E Hne. unfold leaveblock in E.
  apply bind_inv in E as (l0 & l0' & [= <- <-] & E). cbv zeta in E.
  apply bind_inv in E as (hasclose & l1 & E1 & E). active_step E1 H1.
  apply bind_inv in E as (u2 & l2 & E2 & E). active_step E2 H2.
  apply bind_inv in E as (u3 & l3 & E3 & E). active_step E3 H3.
  apply bind_inv in E as (u4 & l4 & E4 & E).
  apply bind_inv in E as (u5 & l5 & E5 & E). active_step E5 H5.
  apply bind_inv in E as (u6 & l6 & E6 & E). active_step E6 H6.
  active_step E H7.
  assert (H03 : active_of l3 = active_of ls) by congruence.
  assert (H4 : nactvar (cur_fs l4)
               = Nat.min (nactvar (cur_fs l3)) (bl_nactvar (cur_bl (cur_fs ls)))).
  { unfold removevars, modify in E4. injection E4 as _ <-.
    unfold active_of in H03. injection H03 as Hn Hl.
    destruct l3 as [? ? ? ? [|s prev] d ? ? ? ?].
    - destruct (ls_fs ls); [done|discriminate].
    - unfold cur_fs at 1 2. cbn -[removevars_loop Nat.sub Nat.min].
      match goal with |- context [removevars_loop ?f ?d1 ?t ?s0] =>
        destruct (removevars_loop_scope d1 t f s0) as (Hr & _); [lia|] end.
      exact Hr. }
  unfold active_of in *.
  assert (nactvar (cur_fs ls') = nactvar (cur_fs l4)) as -> by congruence.
  rewrite H4. f_equal. congruence.
Qed.

Section Scopes.

Context {cg : CodeGen}.
Hypothesis HN : ScopeNeutral cg.

Lemma sstable_error_expected {A} tk : sstable (error_expected (A := A) tk).
Proof. intros ls a ls' E. by apply error_expected_fails in E. Qed.
#[local] Hint Resolve sstable_error_expected : sframe.

Lemma sstable_testnext c : sstable (testnext c).
Proof. unfold testnext. sframe. Qed.
#[local] Hint Resolve sstable_testnext : sframe.

Lemma sstable_new_localvar_warn d s name idxs : sstable (new_localvar_warn d s name idxs).
Proof. induction idxs as [|i rest IH]; cbn [new_localvar_warn]; sframe. Qed.
#[local] Hint Resolve sstable_new_localvar_warn : sframe.

Lemma sstable_checklimit v l what : sstable (checklimit v l what).
Proof. unfold checklimit. sframe. Qed.
#[local] Hint Resolve sstable_checklimit : sframe.

Lemma sruns_new_localvar name i p :
  0 <= p -> sruns i i p (fun _ => p + 1) (new_localvar name).
Proof.
  intros H0. unfold new_localvar.
  eapply sruns_bind; [sleaf|intros ls0; cbv beta zeta].
  eapply sruns_bind; [sleaf|intros ?; cbv beta].
  eapply sruns_bind; [sleaf|intros ?; cbv beta].
  eapply sruns_bind; [sleaf|intros ln; cbv beta].
  eapply sruns_bind; [apply sruns_declare; by intros []|intros ?; cbv beta].
  apply sruns_stable; [lia|apply sstable_ret].
Qed.
#[local] Hint Extern 3 (sruns _ _ _ _ (new_localvar _)) =>
  apply sruns_new_localvar; lia : sframe.

Lemma sstable_solvegoto g lb : sstable (solvegoto g lb).
Proof. unfold solvegoto, jumpscopeerror. sframe. Qed.
#[local] Hint Resolve sstable_solvegoto : sframe.

Lemma sstable_solvegotos_loop fuel : forall lb i c, sstable (solvegotos_loop fuel lb i c).
Proof. induction fuel as [|fuel IH]; intros; cbn [solvegotos_loop]; sframe. Qed.
#[local] Hint Resolve sstable_solvegotos_loop : sframe.

Lemma sstable_createlabel name line last : sstable (createlabel name line last).
Proof. unfold createlabel, solvegotos, newlabelentry. sframe. Qed.
#[local] Hint Resolve sstable_createlabel : sframe.

Lemma sstable_movegotosout b : sstable (movegotosout b).
Proof. unfold movegotosout. sframe. Qed.
#[local] Hint Resolve sstable_movegotosout : sframe.

Lemma sstable_undefgoto {A} g : sstable (undefgoto (A := A) g).
Proof. unfold undefgoto. sframe. Qed.
#[local] Hint Resolve sstable_undefgoto : sframe.

Lemma drop_tail {A} (l : list A) i : drop i (tail l) = drop (S i) l.
Proof. by destruct l; [destruct i|]. Qed.

Lemma sruns_pop_block previous tolevel i p ls u l1 u' ls' :
  onfs_ (set_bl previous) ls = Ok u l1 ->
  removevars tolevel l1 = Ok u' ls' ->
  spre (S i) p ls -> 0 <= p ->
  map bkey previous = tail (keys (cur_fs ls)) ->
  tolevel = bl_nactvar (cur_bl (cur_fs ls)) ->
  spost (S i) i p p ls ls'.
Proof.
  intros E E' (Hne & Hi & Hp) H0 Hk Ht.
  unfold onfs_, modify in E. injection E as _ <-.
  unfold removevars, modify in E'. injection E' as _ <-.
  destruct ls as [? ? ? ? [|s prev] d ? ? ? ?]; [done|].
  destruct s as [fp bls pc0 fl flab n fr nc].
  unfold cur_fs, keys in *. cbn -[removevars_loop Nat.sub] in *.
  assert (Hlen : length previous = (length bls - 1)%nat).
  { apply (f_equal length) in Hk.
    rewrite length_map in Hk. rewrite Hk. destruct bls; cbn; [done|].
    rewrite length_map. lia. }
  match goal with |- context [removevars_loop ?f ?d1 _ ?s1] =>
    destruct (removevars_loop_scope d1 tolevel f s1) as (H1 & H2 & H3 & H4 & H5);
      [cbn; lia|] end.
  cbn -[removevars_loop Nat.sub] in H1, H2, H3, H4, H5.
  eapply (spost_intro _ _ _ _ _ _ _ _ prev); try reflexivity.
  - by rewrite H3.
  - by rewrite H4.
  - rewrite H2. cbn. lia.
  - unfold keys. rewrite H2, Hk. apply drop_tail.
  - cbn -[removevars_loop Nat.sub]. rewrite H1. lia.
  - by rewrite H5.
  - unfold floor. rewrite H1, H2.
    assert (Hl : map bl_nactvar previous = map bl_nactvar (tail bls)).
    { apply levels_of_keys. rewrite Hk. by destruct bls. }
    rewrite Hl, Ht. unfold cur_bl. destruct bls as [|b rest]; [cbn in Hi; lia|].
    cbn [map tail take foldr head default from_option id nactvar bl].
    rewrite foldr_min_min. lia.
Qed.

Lemma sruns_leaveblock i p : 0 <= p -> sruns (S i) i p (fun _ => p) leaveblock.
Proof.
  intros H0 ls a ls' E Hpre. unfold leaveblock in E.
  apply bind_inv in E as (l0 & l0' & [= <- <-] & E). cbv zeta in E.
  apply bind_inv in E as (hasclose & l1 & E1 & E).
  stable_step E1 Hpre H1 Hpre1.
  apply bind_inv in E as (u2 & l2 & E2 & E).
  stable_step E2 Hpre1 H2 Hpre2.
  pose proof (spost_trans _ _ _ _ _ _ _ _ _ H1 H2) as H12.
  apply bind_inv in E as (u3 & l3 & E3 & E).
  apply bind_inv in E as (u4 & l4 & E4 & E).
  assert (H4 : spost (S i) i p p l2 l4).
  { destruct H12 as (_ & _ & _ & _ & _ & Hk & _). rewrite !drop_0 in Hk.
    eapply sruns_pop_block; [exact E3|exact E4|exact Hpre2|exact H0| |].
    - rewrite Hk. unfold keys. by destruct (bl (cur_fs ls)).
    - unfold cur_bl. unfold keys in Hk.
      destruct (bl (cur_fs ls)) as [|b rest], (bl (cur_fs l2)) as [|b2 rest2];
        try discriminate; [done|].
      cbn in Hk |- *. apply cons_inv in Hk as [Hk _]. unfold bkey in Hk. congruence. }
  pose proof (spost_pre _ _ _ _ _ _ Hpre2 H4) as Hpre4.
  apply bind_inv in E as (u5 & l5 & E5 & E).
  stable_step E5 Hpre4 H5 Hpre5.
  apply bind_inv in E as (u6 & l6 & E6 & E).
  stable_step E6 Hpre5 H6 Hpre6.
  stable_step E Hpre6 H7 Hpre7.
  apply (spost_trans _ _ _ _ _ _ _ _ _ (spost_lift (S i) p _ _ H12)).
  apply (spost_trans _ _ _ _ _ _ _ _ _ H4).
  apply (spost_trans _ _ _ _ _ _ _ _ _ (spost_lift i p _ _ H5)).
  apply (spost_trans _ _ _ _ _ _ _ _ _ (spost_lift i p _ _ H6)).
  exact (spost_lift i p _ _ H7).
Qed.
#[local] Hint Extern 3 (sruns _ _ _ _ leaveblock) =>
  apply sruns_leaveblock; lia : sframe.

Variable rs : option lu_hint -> P (option lu_hint).
Variable re : option lu_hint -> P (expdesc * option lu_hint).
Hypothesis Hrs : forall prop, sstable (rs prop).
Hypothesis Hre : forall prop, sstable (re prop).

Lemma sstable_check (a1 : Tok) : sstable (check a1).
Proof. unfold check. sframe. Qed.
#[local] Hint Resolve sstable_check : sframe.

Lemma sstable_checknext (a1 : Tok) : sstable (checknext a1).
Proof. unfold checknext. sframe. Qed.
#[local] Hint Resolve sstable_checknext : sframe.

Lemma sstable_testnext2 (a1 : Tok) (a2 : Tok) : sstable (testnext2 a1 a2).
Proof. unfold testnext2. sframe. Qed.
#[local] Hint Resolve sstable_testnext2 : sframe.

Lemma sstable_check_condition (a1 : bool) (a2 : string) : sstable (check_condition a1 a2).
Proof. unfold check_condition. sframe. Qed.
#[local] Hint Resolve sstable_check_condition : sframe.

Lemma sstable_check_match (a1 : Tok) (a2 : Tok) (a3 : Z) : sstable (check_match a1 a2 a3).
Proof. unfold check_match. sframe. Qed.
#[local] Hint Resolve sstable_check_match : sframe.

Lemma sstable_str_checkname (a1 : bool) : sstable (str_checkname a1).
Proof. unfold str_checkname. sframe. Qed.
#[local] Hint Resolve sstable_str_checkname : sframe.

Lemma sstable_codename  : sstable (codename).
Proof. unfold codename. sframe. Qed.
#[local] Hint Resolve sstable_codename : sframe.

Lemma sstable_gettypehint  : sstable (gettypehint).
Proof. unfold gettypehint. sframe. Qed.
#[local] Hint Resolve sstable_gettypehint : sframe.

Lemma sstable_process_assign (a1 : nat) (a2 : lu_hint) : sstable (process_assign a1 a2).
Proof. unfold process_assign. sframe. Qed.
#[local] Hint Resolve sstable_process_assign : sframe.

Lemma sstable_check_readonly (a1 : expdesc) : sstable (check_readonly a1).
Proof. unfold check_readonly. sframe. Qed.
#[local] Hint Resolve sstable_check_readonly : sframe.

Lemma sstable_findlabel (a1 : TString) : sstable (findlabel a1).
Proof. unfold findlabel. sframe. Qed.
#[local] Hint Resolve sstable_findlabel : sframe.

Lemma sstable_newgotoentry (a1 : TString) (a2 : Z) (a3 : Z) : sstable (newgotoentry a1 a2 a3).
Proof. unfold newgotoentry. sframe. Qed.
#[local] Hint Resolve sstable_newgotoentry : sframe.

Lemma sstable_addprototype  : sstable (addprototype).
Proof. unfold addprototype. sframe. Qed.
#[local] Hint Resolve sstable_addprototype : sframe.





Lemma sstable_block_follow (a1 : bool) : sstable (block_follow a1).
Proof. unfold block_follow. sframe. Qed.
#[local] Hint Resolve sstable_block_follow : sframe.

Lemma sstable_statlist_loop fuel : forall (a2 : option lu_hint) (a3 : bool), sstable (statlist_loop rs fuel a2 a3).
Proof. induction fuel as [|fuel IH]; intros; cbn [statlist_loop]; sframe. Qed.
#[local] Hint Resolve sstable_statlist_loop : sframe.

Lemma sstable_statlist (a1 : nat) (a2 : option lu_hint) : sstable (statlist rs a1 a2).
Proof. unfold statlist. sframe. Qed.
#[local] Hint Resolve sstable_statlist : sframe.

Lemma sstable_caselist fuel : forall (a2 : bool), sstable (caselist rs fuel a2).
Proof. induction fuel as [|fuel IH]; intros; cbn [caselist]; sframe. Qed.
#[local] Hint Resolve sstable_caselist : sframe.

Lemma sstable_explist_loop fuel : forall (a2 : expdesc) (a3 : nat), sstable (explist_loop re fuel a2 a3).
Proof. induction fuel as [|fuel IH]; intros; cbn [explist_loop]; sframe. Qed.
#[local] Hint Resolve sstable_explist_loop : sframe.

Lemma sstable_explist (a1 : nat) (a2 : option lu_hint) : sstable (explist re a1 a2).
Proof. unfold explist. sframe. Qed.
#[local] Hint Resolve sstable_explist : sframe.

Lemma sstable_singlevar  : sstable (singlevar).
Proof. unfold singlevar. sframe. Qed.
#[local] Hint Resolve sstable_singlevar : sframe.

Lemma sstable_fieldsel (a1 : expdesc) : sstable (fieldsel a1).
Proof. unfold fieldsel. sframe. Qed.
#[local] Hint Resolve sstable_fieldsel : sframe.

Lemma sstable_setvararg (a1 : nat) : sstable (setvararg a1).
Proof. unfold setvararg. sframe. Qed.
#[local] Hint Resolve sstable_setvararg : sframe.

Lemma sruns_parlist_loop fuel : forall nparams i p,
  0 <= p ->
  sruns i i p (fun r => p + Z.of_nat (fst r) - Z.of_nat nparams) (parlist_loop fuel nparams).
Proof.
  induction fuel as [|fuel IH]; intros nparams i p H0; cbn [parlist_loop];
    [apply sruns_fuel|].
  eapply sruns_bind; [sleaf|intros tk; cbv beta].
  apply (sruns_bind_fact _ _ (fun r => (nparams <= fst r)%nat)
           i i i p (fun r => p + Z.of_nat (fst r) - Z.of_nat nparams)).
  - destruct tk; sframe.
  - intros ls a ls' E. destruct tk; try discriminate E.
    + apply bind_inv in E as (? & ? & _ & E). injection E as <- _. cbn. lia.
    + apply bind_inv in E as (? & ? & _ & E).
      apply bind_inv in E as (? & ? & _ & E). injection E as <- _. cbn. lia.
  - intros [n b] Hn. cbn [fst] in *. destruct b; [sframe|].
    eapply sruns_bind; [sleaf|intros c; cbv beta]. destruct c; [|sframe].
    eapply sruns_conseq; [apply IH; lia|done|intros; cbv beta; lia].
Qed.
#[local] Hint Extern 3 (sruns _ _ _ _ (parlist_loop _ _)) =>
  apply sruns_parlist_loop; lia : sframe.

Lemma sstable_parlist (a1 : nat) : sstable (parlist a1).
Proof. unfold parlist. sframe. Qed.
#[local] Hint Resolve sstable_parlist : sframe.

Lemma sstable_codeclosure : sstable codeclosure.
Proof.
  intros ls a ls' E _. unfold codeclosure in E.
  destruct (luaK_codeABx _ _ _ _) as [at_pc s1] eqn:E1.
  destruct (luaK_exp2nextreg _ _ _) as [v s2|e] eqn:E2; [|discriminate].
  injection E as _ <-.
  apply (sn_exp2nextreg _ HN) in E2.
  assert (Hs1 : scope_of s1 = scope_of (prev_fs ls)).
  { unfold luaK_codeABx, luaK_code in E1. injection E1 as _ <-.
    by destruct (prev_fs ls) as [[] ? ? ? ? ? ? ?]. }
  rewrite Hs1 in E2. unfold prev_fs in E2.
  unfold upd_prev_fs.
  destruct ls as [? ? ? ? [|s [|p0 rest]] d ? ? ? ?]; cbn in *;
    try (apply (same_scopes_sruns 0 0), same_scopes_refl).
  apply (same_scopes_sruns 0 0). split; [|done]. cbn. by rewrite E2.
Qed.
#[local] Hint Resolve sstable_codeclosure : sframe.

Lemma open_func_state fp ls u ls1 :
  open_func fp ls = Ok u ls1 ->
  exists s1,
    ls_fs ls1 = s1 :: ls_fs ls /\ dyd ls1 = dyd ls
    /\ keys s1 = [(length (label (dyd ls)), length (gt (dyd ls)), 0%nat, false)]
    /\ nactvar s1 = 0%nat /\ firstlocal s1 = actvar_n (dyd ls)
    /\ fs_firstlabel s1 = length (label (dyd ls))
    /\ p_upvalues (fs_f s1) = p_upvalues fp.
Proof.
  unfold open_func, enterblock, bind, modify. intros [= _ <-].
  destruct ls as [? ? ? ? fss d ? ? ? ?]. eexists. cbn.
  split; [reflexivity|]. split; [reflexivity|]. by destruct fp.
Qed.

Lemma last_cons_ne {A} (x : A) (l : list A) : l <> [] -> last (x :: l) = last l.
Proof. by destruct l. Qed.

(** A function that is opened, compiled by a piece that leaves the scopes
    as they are, and closed: the scopes of the enclosing function are as
    they were. *)
Lemma scoped_function_sig fp ls0 u ls1 ls2 fp' ls3 :
  spre 0 0 ls0 ->
  open_func fp ls0 = Ok u ls1 ->
  spost 0 0 0 0 ls1 ls2 ->
  close_func ls2 = Ok fp' ls3 ->
  map fsig (ls_fs ls3) = map fsig (ls_fs ls0)
  /\ actvar_n (dyd ls3) = actvar_n (dyd ls0)
  /\ p_upvalues (fs_f (last_fs ls3)) = p_upvalues (fs_f (last_fs ls0)).
Proof.
  intros (Hne0 & _ & Hp0) Eopen Hin Eclose.
  apply open_func_state in Eopen as (s1 & Hfs1 & Hd1 & Hk1 & Hn1 & Hf1 & _ & _).
  assert (Hcur1 : cur_fs ls1 = s1) by (unfold cur_fs; by rewrite Hfs1).
  assert (Hbl1 : length (bl s1) = 1%nat).
  { apply (f_equal length) in Hk1. unfold keys in Hk1. by rewrite length_map in Hk1. }
  assert (Hpre1 : spre 0 0 ls1).
  { split; [by rewrite Hfs1|]. split; [lia|]. rewrite Hcur1, Hn1, Hf1, Hd1. lia. }
  pose proof (spost_pre _ _ _ _ _ _ Hpre1 Hin) as Hpre2.
  unfold close_func in Eclose.
  apply bind_inv in Eclose as (l2 & l2' & [= <- <-] & E).
  apply bind_inv in E as (u3 & l3 & E3 & E). stable_step E3 Hpre2 H3 Hpre3.
  pose proof (spost_trans _ _ _ _ _ _ _ _ _ Hin H3) as H13.
  apply bind_inv in E as (u4 & l4 & E4 & E).
  destruct H13 as (A1 & A2 & A3 & A4 & A5 & A6 & A7 & A8 & A9).
  rewrite !drop_0 in A6. rewrite Hcur1 in A3, A4, A5, A6, A7.
  rewrite Hn1, Hd1 in A7. rewrite Hf1 in A3. rewrite Hk1 in A6. rewrite Hbl1 in A5.
  unfold last_fs in A8. rewrite Hfs1 in A1, A2, A8. cbn in A1, A2.
  rewrite last_cons_ne in A8 by done.
  assert (Hpre3' : spre 1 0 l3).
  { destruct Hpre3 as (? & _ & ?). split; [done|]. split; [lia|done]. }
  pose proof (sruns_leaveblock 0 0 ltac:(lia) _ _ _ E4 Hpre3') as H4.
  pose proof (spost_pre _ _ _ _ _ _ Hpre3' H4) as Hpre4.
  pose proof (leaveblock_nactvar _ _ _ E4 ltac:(by destruct Hpre3)) as Hn4.
  assert (Hkey3 : bl_nactvar (cur_bl (cur_fs l3)) = 0%nat).
  { unfold keys, cur_bl in *. destruct (bl (cur_fs l3)) as [|b ?]; [done|]. cbn in A6.
    apply cons_inv in A6 as [Hb _]. unfold bkey in Hb. cbn. congruence. }
  rewrite Hkey3, Nat.min_0_r in Hn4.
  apply bind_inv in E as (u5 & l5 & E5 & E). stable_step E5 Hpre4 H5 Hpre5.
  assert (Hd5 : dyd l5 = dyd l4).
  { apply callK_inv in E5 as (s5 & _ & ->). apply dyd_upd_fs. }
  apply bind_inv in E as (l6 & l6' & [= <- <-] & E). cbv zeta in E.
  apply bind_inv in E as (u7 & l7 & E7 & E). injection E as _ <-.
  unfold modify in E7. injection E7 as _ <-.
  destruct H4 as (B1 & B2 & B3 & B4 & B5 & B6 & B7 & B8 & B9).
  destruct H5 as (C1 & C2 & C3 & C4 & C5 & C6 & C7 & C8 & C9).
  rewrite Hn4 in B7, C7.
  assert (Hlen5 : length (ls_fs l5) = S (length (ls_fs ls0))) by congruence.
  split; [|split].
  - cbn. congruence.
  - cbn. rewrite Hd5. lia.
  - unfold last_fs in *. cbn.
    destruct (ls_fs l5) as [|s5 [|s5b rest5]] eqn:E5s; [discriminate| |].
    + cbn in Hlen5. destruct (ls_fs ls0); [done|discriminate].
    + cbn [tail]. rewrite last_cons_ne in C8 by done. congruence.
Qed.

Lemma scoped_function fp ls0 u ls1 ls2 fp' ls3 :
  spre 0 0 ls0 ->
  open_func fp ls0 = Ok u ls1 ->
  spost 0 0 0 0 ls1 ls2 ->
  close_func ls2 = Ok fp' ls3 ->
  spost 0 0 0 0 ls0 ls3.
Proof.
  intros Hpre Eopen Hin Eclose.
  destruct (scoped_function_sig _ _ _ _ _ _ _ Hpre Eopen Hin Eclose) as (H1 & H2 & H3).
  by apply sig_spost.
Qed.

Lemma scoped_function_active fp ls0 u ls1 ls2 fp' ls3 :
  spre 0 0 ls0 ->
  open_func fp ls0 = Ok u ls1 ->
  spost 0 0 0 0 ls1 ls2 ->
  close_func ls2 = Ok fp' ls3 ->
  nactvar (cur_fs ls3) = nactvar (cur_fs ls0).
Proof.
  intros Hpre Eopen Hin Eclose.
  destruct (scoped_function_sig _ _ _ _ _ _ _ Hpre Eopen Hin Eclose) as (H1 & _ & _).
  unfold cur_fs. destruct (ls_fs ls0) as [|s0 r0], (ls_fs ls3) as [|s3 r3];
    try discriminate; [done|].
  cbn in H1. apply cons_inv in H1 as [H1 _]. unfold fsig in H1. cbn. congruence.
Qed.

Lemma sstable_body fuel ismethod line prop : sstable (body rs fuel ismethod line prop).
Proof.
  intros ls a ls' E Hpre. unfold body in E.
  pose proof (spost_refl ls) as Hacc.
  apply bind_inv in E as (fp0 & l0 & E0 & E).
  stable_step E0 Hpre H0 Hpre0. clear Hacc.
  apply bind_inv in E as (u1 & l1 & Eopen & E).
  pose proof (spost_refl l1) as Hacc.
  assert (Hpre1 : spre 0 0 l1).
  { pose proof Eopen as Eo.
    apply open_func_state in Eo as (s1 & Hfs1 & Hd1 & Hk1 & Hn1 & Hf1 & _ & _).
    split; [by rewrite Hfs1|]. split; [lia|].
    unfold cur_fs. rewrite Hfs1. cbn. rewrite Hn1, Hf1, Hd1. lia. }
  stable_chain.
  apply bind_inv in E as (fp1 & l3 & Eclose & E).
  pose proof (scoped_function _ _ _ _ _ _ _ Hpre0 Eopen Hacc0 Eclose) as Hf.
  pose proof (spost_trans _ _ _ _ _ _ _ _ _ H0 Hf) as Hacc.
  pose proof (spost_pre _ _ _ _ _ _ Hpre Hacc) as Hpre3.
  clear Hacc0.
  stable_chain.
  injection E as _ <-. assumption.
Qed.
#[local] Hint Resolve sstable_body : sframe.

Lemma sstable_yindex  : sstable (yindex re).
Proof. unfold yindex. sframe. Qed.
#[local] Hint Resolve sstable_yindex : sframe.

Lemma sstable_recfield (a1 : ConsControl) : sstable (recfield re a1).
Proof. unfold recfield. sframe. Qed.
#[local] Hint Resolve sstable_recfield : sframe.

Lemma sstable_prenamedfield (a1 : ConsControl) (a2 : string) : sstable (prenamedfield re a1 a2).
Proof. unfold prenamedfield. sframe. Qed.
#[local] Hint Resolve sstable_prenamedfield : sframe.

Lemma sstable_closelistfield (a1 : ConsControl) : sstable (closelistfield a1).
Proof. unfold closelistfield. sframe. Qed.
#[local] Hint Resolve sstable_closelistfield : sframe.

Lemma sstable_lastlistfield (a1 : ConsControl) : sstable (lastlistfield a1).
Proof. unfold lastlistfield. sframe. Qed.
#[local] Hint Resolve sstable_lastlistfield : sframe.

Lemma sstable_listfield (a1 : ConsControl) : sstable (listfield re a1).
Proof. unfold listfield. sframe. Qed.
#[local] Hint Resolve sstable_listfield : sframe.

Lemma sstable_funcfield (a1 : nat) (a2 : ConsControl) : sstable (funcfield rs a1 a2).
Proof. unfold funcfield. sframe. Qed.
#[local] Hint Resolve sstable_funcfield : sframe.

Lemma sstable_field (a1 : nat) (a2 : ConsControl) : sstable (field rs re a1 a2).
Proof. unfold field. sframe. Qed.
#[local] Hint Resolve sstable_field : sframe.

Lemma sstable_constructor_fields fuel : forall (a2 : ConsControl), sstable (constructor_fields rs re fuel a2).
Proof. induction fuel as [|fuel IH]; intros; cbn [constructor_fields]; sframe. Qed.
#[local] Hint Resolve sstable_constructor_fields : sframe.

Lemma sstable_constructor (a1 : nat) : sstable (constructor rs re a1).
Proof. unfold constructor. sframe. Qed.
#[local] Hint Resolve sstable_constructor : sframe.

Lemma sstable_funcargs (a1 : nat) (a2 : expdesc) (a3 : Z) : sstable (funcargs rs re a1 a2 a3).
Proof. unfold funcargs. sframe. Qed.
#[local] Hint Resolve sstable_funcargs : sframe.

Lemma sstable_safe_navigation (a1 : expdesc) : sstable (safe_navigation re a1).
Proof. unfold safe_navigation. sframe. Qed.
#[local] Hint Resolve sstable_safe_navigation : sframe.

Lemma sstable_skip_lambda_tokens fuel : sstable (skip_lambda_tokens fuel).
Proof. induction fuel as [|fuel IH]; intros; cbn [skip_lambda_tokens]; sframe. Qed.
#[local] Hint Resolve sstable_skip_lambda_tokens : sframe.

Lemma sstable_primaryexp (a1 : nat) : sstable (primaryexp re a1).
Proof. unfold primaryexp. sframe. Qed.
#[local] Hint Resolve sstable_primaryexp : sframe.

Lemma sstable_suffixedexp_loop fuel : forall (a2 : Z) (a3 : expdesc) (a4 : option lu_hint), sstable (suffixedexp_loop rs re fuel a2 a3 a4).
Proof. induction fuel as [|fuel IH]; intros; cbn [suffixedexp_loop]; sframe. Qed.
#[local] Hint Resolve sstable_suffixedexp_loop : sframe.

Lemma sstable_suffixedexp (a1 : nat) (a2 : option lu_hint) : sstable (suffixedexp rs re a1 a2).
Proof. unfold suffixedexp. sframe. Qed.
#[local] Hint Resolve sstable_suffixedexp : sframe.

Lemma sstable_lambdabody fuel line : sstable (lambdabody re fuel line).
Proof.
  intros ls a ls' E Hpre. unfold lambdabody in E.
  pose proof (spost_refl ls) as Hacc.
  apply bind_inv in E as (fp0 & l0 & E0 & E).
  stable_step E0 Hpre H0 Hpre0. clear Hacc.
  apply bind_inv in E as (u1 & l1 & Eopen & E).
  pose proof (spost_refl l1) as Hacc.
  assert (Hpre1 : spre 0 0 l1).
  { pose proof Eopen as Eo.
    apply open_func_state in Eo as (s1 & Hfs1 & Hd1 & Hk1 & Hn1 & Hf1 & _ & _).
    split; [by rewrite Hfs1|]. split; [lia|].
    unfold cur_fs. rewrite Hfs1. cbn. rewrite Hn1, Hf1, Hd1. lia. }
  stable_chain.
  apply bind_inv in E as (fp1 & l3 & Eclose & E).
  pose proof (scoped_function _ _ _ _ _ _ _ Hpre0 Eopen Hacc0 Eclose) as Hf.
  pose proof (spost_trans _ _ _ _ _ _ _ _ _ H0 Hf) as Hacc.
  pose proof (spost_pre _ _ _ _ _ _ Hpre Hacc) as Hpre3.
  clear Hacc0.
  stable_chain.
  injection E as _ <-. assumption.
Qed.
#[local] Hint Resolve sstable_lambdabody : sframe.

Lemma sstable_simpleexp (a1 : nat) (a2 : bool) (a3 : option lu_hint) : sstable (simpleexp rs re a1 a2 a3).
Proof. unfold simpleexp. sframe. Qed.
#[local] Hint Resolve sstable_simpleexp : sframe.

Lemma sstable_cond  : sstable (cond re).
Proof. unfold cond. sframe. Qed.
#[local] Hint Resolve sstable_cond : sframe.

Lemma sstable_ifexpr  : sstable (ifexpr re).
Proof. unfold ifexpr. sframe. Qed.
#[local] Hint Resolve sstable_ifexpr : sframe.

Lemma sstable_inexpr (a1 : expdesc) : sstable (inexpr re a1).
Proof. unfold inexpr. sframe. Qed.
#[local] Hint Resolve sstable_inexpr : sframe.

Lemma sstable_subexpr_loop sub limit fuel :
  (forall lim, sstable (sub lim)) ->
  forall op v, sstable (subexpr_loop sub limit fuel op v).
Proof.
  intros Hsub. induction fuel as [|fuel IH]; intros; cbn [subexpr_loop]; sframe.
Qed.

Lemma sstable_subexpr fuel : forall limit prop, sstable (subexpr rs re fuel limit prop).
Proof.
  induction fuel as [|fuel IH]; intros; cbn [subexpr]; [apply sstable_fuel|].
  assert (Hloop : forall lim f op v,
            sstable (subexpr_loop (fun lim => subexpr rs re fuel lim None) lim f op v))
    by (intros; apply sstable_subexpr_loop; intros; apply IH).
  sframe.
Qed.
#[local] Hint Resolve sstable_subexpr : sframe.

Lemma sstable_block (a1 : nat) : sstable (block rs a1).
Proof. unfold block. sframe. Qed.
#[local] Hint Resolve sstable_block : sframe.

Lemma sstable_check_conflict (a1 : list expdesc) (a2 : expdesc) : sstable (check_conflict a1 a2).
Proof. unfold check_conflict. sframe. Qed.
#[local] Hint Resolve sstable_check_conflict : sframe.

Lemma sstable_getcompoundop  : sstable (getcompoundop).
Proof. unfold getcompoundop. sframe. Qed.
#[local] Hint Resolve sstable_getcompoundop : sframe.

Lemma sstable_compoundassign (a1 : expdesc) (a2 : BinOpr) : sstable (compoundassign re a1 a2).
Proof. unfold compoundassign. sframe. Qed.
#[local] Hint Resolve sstable_compoundassign : sframe.

Lemma sstable_adjust_assign (a1 : nat) (a2 : nat) (a3 : expdesc) : sstable (adjust_assign a1 a2 a3).
Proof. unfold adjust_assign. sframe. Qed.
#[local] Hint Resolve sstable_adjust_assign : sframe.

Lemma sstable_restassign fuel : forall (a2 : expdesc) (a3 : list expdesc) (a4 : nat), sstable (restassign rs re fuel a2 a3 a4).
Proof. induction fuel as [|fuel IH]; intros; cbn [restassign]; sframe. Qed.
#[local] Hint Resolve sstable_restassign : sframe.

Lemma sstable_gotostat  : sstable (gotostat).
Proof. unfold gotostat. sframe. Qed.
#[local] Hint Resolve sstable_gotostat : sframe.

Lemma sstable_breakstat  : sstable (breakstat).
Proof. unfold breakstat. sframe. Qed.
#[local] Hint Resolve sstable_breakstat : sframe.

Lemma sstable_continuestat  : sstable (continuestat).
Proof. unfold continuestat. sframe. Qed.
#[local] Hint Resolve sstable_continuestat : sframe.

Lemma sstable_checkrepeated (a1 : TString) : sstable (checkrepeated a1).
Proof. unfold checkrepeated. sframe. Qed.
#[local] Hint Resolve sstable_checkrepeated : sframe.

Lemma sstable_labelstat_skip fuel : sstable (labelstat_skip rs fuel).
Proof. induction fuel as [|fuel IH]; intros; cbn [labelstat_skip]; sframe. Qed.
#[local] Hint Resolve sstable_labelstat_skip : sframe.

Lemma sstable_labelstat (a1 : nat) (a2 : TString) (a3 : Z) : sstable (labelstat rs a1 a2 a3).
Proof. unfold labelstat. sframe. Qed.
#[local] Hint Resolve sstable_labelstat : sframe.

Lemma sstable_whilestat (a1 : nat) (a2 : Z) : sstable (whilestat rs re a1 a2).
Proof. unfold whilestat. sframe. Qed.
#[local] Hint Resolve sstable_whilestat : sframe.

Lemma sstable_repeatstat (a1 : nat) : sstable (repeatstat rs re a1).
Proof. unfold repeatstat. sframe. Qed.
#[local] Hint Resolve sstable_repeatstat : sframe.

Lemma sstable_exp1  : sstable (exp1 re).
Proof. unfold exp1. sframe. Qed.
#[local] Hint Resolve sstable_exp1 : sframe.

Lemma sstable_fixforjump (a1 : Z) (a2 : Z) (a3 : bool) : sstable (fixforjump a1 a2 a3).
Proof. unfold fixforjump. sframe. Qed.
#[local] Hint Resolve sstable_fixforjump : sframe.

Lemma sruns_forbody fuel base line nvars isgen i p :
  Z.of_nat nvars <= p ->
  sruns i i p (fun _ => p - Z.of_nat nvars) (forbody rs fuel base line nvars isgen).
Proof. intros Hn. unfold forbody. sframe. Qed.
#[local] Hint Extern 3 (sruns _ _ _ _ (forbody _ _ _ _ _ _)) =>
  apply sruns_forbody; lia : sframe.

Lemma sstable_fornum (a1 : nat) (a2 : TString) (a3 : Z) : sstable (fornum rs re a1 a2 a3).
Proof. unfold fornum. sframe. Qed.
#[local] Hint Resolve sstable_fornum : sframe.

Lemma sruns_forlist_names fuel : forall nvars i p,
  0 <= p ->
  sruns i i p (fun r => p + Z.of_nat r - Z.of_nat nvars) (forlist_names fuel nvars).
Proof.
  induction fuel as [|fuel IH]; intros nvars i p H0; cbn [forlist_names];
    [apply sruns_fuel|].
  eapply sruns_bind; [sleaf|intros c; cbv beta]. destruct c; [|sframe].
  eapply sruns_bind; [sleaf|intros name; cbv beta].
  eapply sruns_bind; [sleaf|intros ?; cbv beta].
  eapply sruns_conseq; [apply IH; lia|done|intros; cbv beta; lia].
Qed.
#[local] Hint Extern 3 (sruns _ _ _ _ (forlist_names _ _)) =>
  apply sruns_forlist_names; lia : sframe.

Lemma forlist_names_count fuel : forall nvars ls r ls',
  forlist_names fuel nvars ls = Ok r ls' -> (nvars <= r)%nat.
Proof.
  induction fuel as [|fuel IH]; intros nvars ls r ls' E; [discriminate|].
  cbn [forlist_names] in E. apply bind_inv in E as (c & ? & _ & E). destruct c.
  - do 2 (apply bind_inv in E as (? & ? & _ & E)). apply IH in E. lia.
  - injection E as <- _. lia.
Qed.

Lemma sstable_forlist fuel indexname : sstable (forlist rs re fuel indexname).
Proof.
  unfold forlist, sstable.
  do 6 (eapply sruns_bind; [sleaf|intros ?; cbv beta]).
  eapply (sruns_bind_fact _ _ (fun r => (5 <= r)%nat)); [sleaf| |].
  - intros ls r ls' E. by apply forlist_names_count in E.
  - intros nvars Hn. sframe.
Qed.
#[local] Hint Resolve sstable_forlist : sframe.

Lemma sstable_forstat (a1 : nat) (a2 : Z) : sstable (forstat rs re a1 a2).
Proof. unfold forstat. sframe. Qed.
#[local] Hint Resolve sstable_forstat : sframe.

Lemma sstable_skip_semicolons fuel : sstable (skip_semicolons fuel).
Proof. induction fuel as [|fuel IH]; intros; cbn [skip_semicolons]; sframe. Qed.
#[local] Hint Resolve sstable_skip_semicolons : sframe.

Lemma sstable_test_then_block (a1 : nat) (a2 : Z) (a3 : option lu_hint) : sstable (test_then_block rs re a1 a2 a3).
Proof. unfold test_then_block. sframe. Qed.
#[local] Hint Resolve sstable_test_then_block : sframe.

Lemma sstable_ifstat_elseifs fuel : forall (a2 : Z) (a3 : option lu_hint), sstable (ifstat_elseifs rs re fuel a2 a3).
Proof. induction fuel as [|fuel IH]; intros; cbn [ifstat_elseifs]; sframe. Qed.
#[local] Hint Resolve sstable_ifstat_elseifs : sframe.

Lemma sstable_ifstat (a1 : nat) (a2 : Z) (a3 : option lu_hint) : sstable (ifstat rs re a1 a2 a3).
Proof. unfold ifstat. sframe. Qed.
#[local] Hint Resolve sstable_ifstat : sframe.

Lemma sstable_localfunc (a1 : nat) : sstable (localfunc rs a1).
Proof. unfold localfunc. sframe. Qed.
#[local] Hint Resolve sstable_localfunc : sframe.

Lemma sstable_getlocalattribute  : sstable (getlocalattribute).
Proof. unfold getlocalattribute. sframe. Qed.
#[local] Hint Resolve sstable_getlocalattribute : sframe.

Lemma sstable_checktoclose (a1 : option nat) : sstable (checktoclose a1).
Proof. unfold checktoclose. sframe. Qed.
#[local] Hint Resolve sstable_checktoclose : sframe.

Lemma sruns_localstat_names fuel : forall nvars toclose i p,
  0 <= p ->
  sruns i i p (fun r => p + Z.of_nat (snd (fst r)) - Z.of_nat nvars)
    (localstat_names fuel nvars toclose).
Proof.
  induction fuel as [|fuel IH]; intros nvars toclose i p H0; cbn [localstat_names];
    [apply sruns_fuel|].
  do 5 (eapply sruns_bind; [sleaf|intros ?; cbv beta]).
  eapply (sruns_bind _ _ i i i (p + 1) (fun _ => p + 1)); [sframe|intros tc; cbv beta zeta].
  eapply sruns_bind; [sleaf|intros c; cbv beta]. destruct c; [|sframe].
  eapply sruns_conseq; [apply IH; lia|done|intros; cbv beta; lia].
Qed.

Lemma localstat_names_count fuel : forall nvars toclose ls vidx n tc ls',
  localstat_names fuel nvars toclose ls = Ok (vidx, n, tc) ls' -> (nvars < n)%nat.
Proof.
  induction fuel as [|fuel IH]; intros nvars toclose ls vidx n tc ls' E; [discriminate|].
  cbn [localstat_names] in E.
  repeat (apply bind_inv in E as (? & ? & _ & E)). cbv zeta in E.
  match type of E with (if ?c then _ else _) _ = _ => destruct c end.
  - apply IH in E. lia.
  - injection E as _ <- _ _. lia.
Qed.

Lemma sstable_localstat fuel : sstable (localstat re fuel).
Proof.
  unfold localstat. intros ls a ls' E Hpre.
  apply bind_inv in E as ([[vidx nvars] toclose] & l1 & E1 & E).
  pose proof (localstat_names_count _ _ _ _ _ _ _ _ E1) as Hcount.
  pose proof (sruns_localstat_names fuel 0 None 0 0 ltac:(lia) _ _ _ E1 Hpre) as H1.
  cbn [fst snd] in H1.
  eapply spost_trans; [exact H1|].
  revert E. generalize (spost_pre _ _ _ _ _ _ Hpre H1). revert a ls'.
  generalize l1. clear -Hcount HN Hre.
  intros l1 a ls' Hpre1 E. revert l1 a ls' E Hpre1.
  match goal with |- forall l1 a ls', ?m l1 = Ok a ls' -> _ =>
    change (sruns 0 0 (0 + Z.of_nat nvars - Z.of_nat 0) (fun _ => 0) m) end.
  sframe.
Qed.
#[local] Hint Resolve sstable_localstat : sframe.

Lemma sstable_funcname_fields fuel : forall (a2 : expdesc), sstable (funcname_fields fuel a2).
Proof. induction fuel as [|fuel IH]; intros; cbn [funcname_fields]; sframe. Qed.
#[local] Hint Resolve sstable_funcname_fields : sframe.

Lemma sstable_funcname (a1 : nat) : sstable (funcname a1).
Proof. unfold funcname. sframe. Qed.
#[local] Hint Resolve sstable_funcname : sframe.

Lemma sstable_funcstat (a1 : nat) (a2 : Z) : sstable (funcstat rs a1 a2).
Proof. unfold funcstat. sframe. Qed.
#[local] Hint Resolve sstable_funcstat : sframe.

Lemma sstable_exprstat (a1 : nat) : sstable (exprstat rs re a1).
Proof. unfold exprstat. sframe. Qed.
#[local] Hint Resolve sstable_exprstat : sframe.

Lemma sstable_retstat (a1 : nat) (a2 : option lu_hint) : sstable (retstat re a1 a2).
Proof. unfold retstat. sframe. Qed.
#[local] Hint Resolve sstable_retstat : sframe.

Lemma sstable_switch_case (a1 : nat) (a2 : Z) (a3 : expdesc) : sstable (switch_case rs re a1 a2 a3).
Proof. unfold switch_case. sframe. Qed.
#[local] Hint Resolve sstable_switch_case : sframe.

Lemma sstable_switch_cases fuel : forall (a2 : Z) (a3 : expdesc), sstable (switch_cases rs re fuel a2 a3).
Proof. induction fuel as [|fuel IH]; intros; cbn [switch_cases]; sframe. Qed.
#[local] Hint Resolve sstable_switch_cases : sframe.

Lemma sruns_switch_head i p : 0 <= p -> sruns i (S i) p (fun _ => p) (switch_head re).
Proof. intros H0. unfold switch_head. sframe. Qed.
#[local] Hint Extern 3 (sruns _ _ _ _ (switch_head _)) =>
  apply sruns_switch_head; lia : sframe.

Lemma sstable_switchstat (a1 : nat) (a2 : Z) : sstable (switchstat rs re a1 a2).
Proof. unfold switchstat. sframe. Qed.
#[local] Hint Resolve sstable_switchstat : sframe.

Lemma sstable_statement (a1 : nat) (a2 : option lu_hint) : sstable (statement rs re a1 a2).
Proof. unfold statement. sframe. Qed.
#[local] Hint Resolve sstable_statement : sframe.

Lemma sstable_expr (a1 : nat) (a2 : option lu_hint) : sstable (expr rs re a1 a2).
Proof. unfold expr. sframe. Qed.
#[local] Hint Resolve sstable_expr : sframe.




End Scopes.

(** ** The scopes through the recursion of the parser *)

#[export] Hint Resolve sstable_error_expected sstable_testnext sstable_new_localvar_warn sstable_checklimit sstable_solvegoto sstable_solvegotos_loop sstable_createlabel sstable_movegotosout sstable_undefgoto sstable_check sstable_checknext sstable_testnext2 sstable_check_condition sstable_check_match sstable_str_checkname sstable_codename sstable_gettypehint sstable_process_assign sstable_check_readonly sstable_findlabel sstable_newgotoentry sstable_addprototype sstable_block_follow sstable_statlist_loop sstable_statlist sstable_caselist sstable_explist_loop sstable_explist sstable_singlevar sstable_fieldsel sstable_setvararg sstable_parlist sstable_codeclosure sstable_body sstable_yindex sstable_recfield sstable_prenamedfield sstable_closelistfield sstable_lastlistfield sstable_listfield sstable_funcfield sstable_field sstable_constructor_fields sstable_constructor sstable_funcargs sstable_safe_navigation sstable_skip_lambda_tokens sstable_primaryexp sstable_suffixedexp_loop sstable_suffixedexp sstable_lambdabody sstable_simpleexp sstable_cond sstable_ifexpr sstable_inexpr sstable_subexpr sstable_block sstable_check_conflict sstable_getcompoundop sstable_compoundassign sstable_adjust_assign sstable_restassign sstable_gotostat sstable_breakstat sstable_continuestat sstable_checkrepeated sstable_labelstat_skip sstable_labelstat sstable_whilestat sstable_repeatstat sstable_exp1 sstable_fixforjump sstable_fornum sstable_forlist sstable_forstat sstable_skip_semicolons sstable_test_then_block sstable_ifstat_elseifs sstable_ifstat sstable_localfunc sstable_getlocalattribute sstable_checktoclose sstable_localstat sstable_funcname_fields sstable_funcname sstable_funcstat sstable_exprstat sstable_retstat sstable_switch_case sstable_switch_cases sstable_switchstat sstable_statement sstable_expr : sframe.

Lemma parser_scoped {cg : CodeGen} (HN : ScopeNeutral cg) (n : nat) :
  (forall prop, sstable (fst (parser n) prop))
  /\ (forall prop, sstable (snd (parser n) prop)).
Proof.
  induction n as [|n [IHs IHe]]; cbn [parser fst snd].
  - split; intros; apply sstable_fuel.
  - split; intros.
    + by apply sstable_statement.
    + by apply sstable_expr.
Qed.

(** X12: a statement or an expression that the parser accepts leaves the
    scopes as it found them, when the code generator leaves the scopes to
    the parser.  In a function in which every active variable is in the
    array of the parse, after the statement or expression: the function has
    the chain of blocks it had (every block entered has been left), the same
    start of variables and of labels, and as many variables declared and not
    yet active as before (every variable declared has become active, or has
    been removed with its block: the count of the array minus the count of
    active variables is unchanged), and at least as many active variables
    as before (no variable of the enclosing scope is removed); every
    enclosing function has the blocks, the active variables and the starts
    it had; and the main function has the upvalues it had. *)
Theorem parser_keeps_scopes {cg : CodeGen} (HN : ScopeNeutral cg) (n : nat)
    (prop : option lu_hint) (ls ls' : LexState)
    (Hfn : ls_fs ls <> [])
    (Hact : (firstlocal (cur_fs ls) + nactvar (cur_fs ls) <= actvar_n (dyd ls))%nat)
    (Hrun : (exists r, parse_statement n prop ls = Ok r ls')
            \/ (exists r, parse_expr n prop ls = Ok r ls')) :
  keys (cur_fs ls') = keys (cur_fs ls)
  /\ firstlocal (cur_fs ls') = firstlocal (cur_fs ls)
  /\ fs_firstlabel (cur_fs ls') = fs_firstlabel (cur_fs ls)
  /\ Z.of_nat (actvar_n (dyd ls')) - Z.of_nat (nactvar (cur_fs ls'))
     = Z.of_nat (actvar_n (dyd ls)) - Z.of_nat (nactvar (cur_fs ls))
  /\ (nactvar (cur_fs ls) <= nactvar (cur_fs ls'))%nat
  /\ map fsig (tail (ls_fs ls')) = map fsig (tail (ls_fs ls))
  /\ p_upvalues (fs_f (last_fs ls')) = p_upvalues (fs_f (last_fs ls)).
Proof.
  destruct (parser_scoped HN n) as [Hs He].
  assert (Hpre : spre 0 0 ls) by (split; [done|]; split; lia).
  assert (H : spost 0 0 0 0 ls ls').
  { destruct Hrun as [[r E]|[r E]].
    - exact (Hs prop _ _ _ E Hpre).
    - exact (He prop _ _ _ E Hpre). }
  destruct H as (H1 & H2 & H3 & H4 & H5 & H6 & H7 & H8 & H9). rewrite !drop_0 in H6.
  split; [done|]. split; [done|]. split; [done|]. split; [lia|].
  split; [exact H9|]. by split.
Qed.

(** ** The variables of a block *)

Lemma enterblock_state (isloop_ : bool) (ls : LexState) (u : unit) (ls' : LexState) :
  enterblock isloop_ ls = Ok u ls' -> ls_fs ls <> [] ->
  nactvar (cur_fs ls') = nactvar (cur_fs ls)
  /\ bl_nactvar (cur_bl (cur_fs ls')) = nactvar (cur_fs ls).
Proof.
  intros E Hne. unfold enterblock, modify in E. injection E as _ <-.
  destruct ls as [? ? ? ? [|s prev] d ? ? ? ?]; [done|]. by destruct s.
Qed.

Lemma cur_bl_keys (s s' : FuncState) :
  keys s' = keys s -> bl_nactvar (cur_bl s') = bl_nactvar (cur_bl s).
Proof.
  unfold keys, cur_bl. destruct (bl s) as [|b r], (bl s') as [|b' r']; try discriminate;
    [done|].
  cbn. intros H. apply cons_inv in H as [H _]. unfold bkey in H. congruence.
Qed.

(** X15: the variables of a block end with it.  When the parser accepts a
    block (the statements between [do] and [end], or the body of a loop or
    of a branch) and the code generator leaves the scopes to the parser,
    the function has after the block exactly the active variables it had
    before it, and the array of the parse has the count it had: every local
    variable declared in the block has been removed (so the assertion of
    leaveblock, [bl->nactvar == fs->nactvar], holds at its end). *)
Theorem block_restores_variables {cg : CodeGen} (HN : ScopeNeutral cg)
    (n fuel : nat) (ls ls' : LexState)
    (Hfn : ls_fs ls <> [])
    (Hact : (firstlocal (cur_fs ls) + nactvar (cur_fs ls) <= actvar_n (dyd ls))%nat)
    (Hrun : block (parse_statement n) fuel ls = Ok tt ls') :
  nactvar (cur_fs ls') = nactvar (cur_fs ls)
  /\ actvar_n (dyd ls') = actvar_n (dyd ls)
  /\ keys (cur_fs ls') = keys (cur_fs ls).
Proof.
  destruct (parser_scoped HN n) as [Hs _].
  assert (Hpre : spre 0 0 ls) by (split; [done|]; split; lia).
  unfold block in Hrun.
  apply bind_inv in Hrun as (u1 & l1 & E1 & E).
  apply bind_inv in E as (u2 & l2 & E2 & E3).
  destruct (enterblock_state _ _ _ _ E1 Hfn) as [Hn1 Hb1].
  pose proof (sruns_enterblock false 0 0 _ _ _ E1 Hpre) as H1.
  pose proof (spost_pre _ _ _ _ _ _ Hpre H1) as Hpre1.
  assert (H2 : spost 0 0 0 0 l1 l2).
  { refine (sstable_statlist (parse_statement n) Hs fuel None l1 u2 l2 E2 _).
    by apply (spre_weaken 1 0). }
  pose proof (spost_pre _ _ _ _ _ _ Hpre1 (spost_lift 1 0 _ _ H2)) as Hpre2.
  pose proof (sruns_leaveblock 0 0 ltac:(lia) _ _ _ E3 Hpre2) as H3.
  pose proof (leaveblock_nactvar _ _ _ E3 ltac:(by destruct Hpre2)) as Hn3.
  pose proof (spost_trans _ _ _ _ _ _ _ _ _ H1
                (spost_trans _ _ _ _ _ _ _ _ _ (spost_lift 1 0 _ _ H2) H3)) as H.
  destruct H2 as (_ & _ & _ & _ & _ & K2 & _ & _ & F2). rewrite !drop_0 in K2.
  unfold floor in F2. rewrite !take_0 in F2. cbn [foldr] in F2.
  rewrite (cur_bl_keys _ _ K2), Hb1 in Hn3.
  destruct H as (_ & _ & _ & _ & _ & K & P & _). rewrite !drop_0 in K.
  split; [lia|]. split; [lia|done].
Qed.

(** ** The end of the parse *)

Lemma leaveblock_outer ls u ls' b :
  leaveblock ls = Ok u ls' -> ls_fs ls <> [] ->
  bl (cur_fs ls) = [b] -> isloop b = false ->
  label (dyd ls') = take (firstlabel b) (label (dyd ls))
  /\ (length (gt (dyd ls')) <= firstgoto b)%nat.
Proof.
  intros E Hne Hbl Hloop. unfold leaveblock in E.
  rewrite (bind_ok _ _ ls ls ls) in E by reflexivity. cbv zeta in E.
  unfold cur_bl in E. rewrite Hbl in E.
  cbn [head default from_option id tail length Nat.eqb negb] in E.
  rewrite Hloop in E. cbn [andb] in E.
  destruct ls as [? ? ? ? [|s prev] d ? ? ? ?]; [done|].
  unfold cur_fs in Hbl. cbn in Hbl.
  unfold bind, onfs, onfs_, modify, removevars, ret, get, gets, undefgoto in E. cbn in E.
  match type of E with (if ?c then _ else _) _ = _ => destruct c eqn:Hg end.
  - destruct (eqstr _ _); discriminate.
  - injection E as _ <-. cbn. split; [done|].
    destruct (length (gt d)); [lia|]. apply Nat.leb_gt in Hg. lia.
Qed.

Lemma keys_single s key :
  keys s = [key] -> exists b, bl s = [b] /\ bkey b = key.
Proof.
  unfold keys. destruct (bl s) as [|b [|b2 rest]]; try discriminate.
  cbn. intros H. apply cons_inv in H as [H _]. by exists b.
Qed.

Lemma single_last ls : length (ls_fs ls) = 1%nat -> last_fs ls = cur_fs ls.
Proof.
  unfold last_fs, cur_fs. by destruct (ls_fs ls) as [|s [|s2 rest]].
Qed.

(** X13: the assertions at the end of luaY_parser hold.  When luaY_parser
    accepts a chunk and the code generator leaves the scopes to the parser,
    all scopes are finished: no function is left open, the array of active
    variables is empty, no goto is pending and no label is left
    ([dyd->actvar.n == 0 && dyd->gt.n == 0 && dyd->label.n == 0]), and the
    main function has one upvalue ([nups == 1]). *)
Theorem luaY_parser_scopes_finished {cg : CodeGen} (HN : ScopeNeutral cg)
    (fuel : nat) (toks : list Token) (name : string) (fp : Proto) (ls' : LexState)
    (Hrun : luaY_parser fuel toks name = Ok fp ls') :
  ls_fs ls' = []
  /\ actvar_n (dyd ls') = 0%nat
  /\ gt (dyd ls') = []
  /\ label (dyd ls') = []
  /\ length (p_upvalues fp) = 1%nat.
Proof.
  destruct (parser_scoped HN fuel) as [Hrs _].
  unfold luaY_parser, mainfunc in Hrun.
  apply bind_inv in Hrun as (u1 & l1 & Eopen & E).
  apply open_func_state in Eopen as (s1 & Hfs1 & Hd1 & Hk1 & Hn1 & Hf1 & Hfl1 & Hup1).
  cbn in Hfs1, Hd1, Hk1, Hf1, Hfl1, Hup1.
  assert (Hcur1 : cur_fs l1 = s1) by (unfold cur_fs; by rewrite Hfs1).
  assert (Hpre1 : spre 0 0 l1).
  { split; [by rewrite Hfs1|]. split; [lia|]. rewrite Hcur1, Hn1, Hf1, Hd1. cbn. lia. }
  apply bind_inv in E as (u2 & l2 & E2 & E).
  stable_step E2 Hpre1 H2 Hpre2.
  apply bind_inv in E as (envname & l2' & [= <- <-] & E).
  apply bind_inv in E as (u3 & l3 & E3 & E).
  unfold onfs_, modify in E3. injection E3 as _ <-.
  destruct H2 as (A1 & _ & A3 & _ & _ & A6 & A7 & A8 & _). rewrite !drop_0 in A6.
  rewrite Hfs1 in A1. cbn in A1.
  rewrite (single_last l2 A1) in A8.
  rewrite (single_last l1) in A8 by (by rewrite Hfs1).
  rewrite Hcur1 in A3, A6, A7, A8. rewrite Hn1, Hd1 in A7. cbn in A7.
  rewrite Hk1 in A6. rewrite Hf1 in A3. rewrite Hup1 in A8. cbn in A8.
  set (l3 := upd_fs _ l2) in *.
  assert (Hlen3 : length (ls_fs l3) = 1%nat).
  { unfold l3. destruct l2 as [? ? ? ? [|s2 [|? ?]] ? ? ? ? ?]; by try discriminate. }
  assert (Hd3 : dyd l3 = dyd l2) by apply dyd_upd_fs.
  assert (Hs3 : keys (cur_fs l3) = keys (cur_fs l2)
                /\ nactvar (cur_fs l3) = nactvar (cur_fs l2)
                /\ firstlocal (cur_fs l3) = firstlocal (cur_fs l2)
                /\ length (p_upvalues (fs_f (cur_fs l3))) = 1%nat).
  { unfold l3. destruct l2 as [? ? ? ? [|[[] ? ? ? ? ? ? ?] [|? ?]] ? ? ? ? ?];
      try discriminate. cbn in *. rewrite A8. by repeat split. }
  destruct Hs3 as (Hk3 & Hn3 & Hf3 & Hup3).
  assert (Hpre3 : spre 0 0 l3).
  { split; [by destruct (ls_fs l3)|]. split; [lia|]. rewrite Hn3, Hf3, Hd3. lia. }
  assert (Ha3 : actvar_n (dyd l3) = nactvar (cur_fs l3)) by (rewrite Hd3, Hn3; lia).
  pose proof (spost_refl l3) as Hacc.
  clearbody l3.
  stable_chain.
  match goal with
  | Hp : spre 0 0 ?l, Hc : spost 0 0 0 0 _ ?l, Ec : close_func ?l = _ |- _ =>
      rename Hp into Hpre4; rename Hc into Hacc4; rename l into l4
  end.
  unfold close_func in E.
  apply bind_inv in E as (l4a & l4b & Eg & E).
  assert (l4a = l4 /\ l4b = l4) as [-> ->] by (unfold get in Eg; split; congruence).
  clear Eg.
  apply bind_inv in E as (u5 & l5 & E5 & E).
  stable_step E5 Hpre4 H5 Hpre5.
  assert (Hd5 : dyd l5 = dyd l4).
  { apply callK_inv in E5 as (s5 & _ & ->). apply dyd_upd_fs. }
  pose proof (spost_trans _ _ _ _ _ _ _ _ _ Hacc4 H5) as H35.
  destruct H35 as (B1 & _ & B3 & _ & _ & B6 & B7 & B8 & _). rewrite !drop_0 in B6.
  rewrite Hk3, A6 in B6. apply keys_single in B6 as (b & Hbl5 & Hb).
  unfold bkey in Hb. injection Hb as Hfl Hfg Hbn Hloop.
  apply bind_inv in E as (u6 & l6 & E6 & E).
  assert (Hne5 : ls_fs l5 <> []) by (by destruct Hpre5).
  destruct (leaveblock_outer _ _ _ _ E6 Hne5 Hbl5 Hloop) as (Hlab6 & Hgt6).
  pose proof (leaveblock_nactvar _ _ _ E6 Hne5) as Hn6.
  unfold cur_bl in Hn6. rewrite Hbl5 in Hn6. cbn in Hn6. rewrite Hbn, Nat.min_0_r in Hn6.
  assert (Hpre5' : spre 1 0 l5).
  { destruct Hpre5 as (? & _ & ?). split; [done|]. split; [|done]. rewrite Hbl5. cbn. lia. }
  pose proof (sruns_leaveblock 0 0 ltac:(lia) _ _ _ E6 Hpre5') as H6.
  destruct H6 as (C1 & _ & _ & _ & _ & _ & C7 & C8 & _).
  apply bind_inv in E as (u7 & l7 & E7 & E).
  assert (Hd7 : dyd l7 = dyd l6).
  { apply callK_inv in E7 as (s7 & _ & ->). apply dyd_upd_fs. }
  assert (H7 : same_scopes l6 l7).
  { apply callK_inv in E7 as (s7 & E7 & ->).
    apply (sn_finish _ HN) in E7.
    destruct l6 as [? ? ? ? [|s0 prev] ? ? ? ? ?]; [by split|].
    split; [|done]. cbn in *. by rewrite E7. }
  apply bind_inv in E as (l8 & l8' & [= <- <-] & E). cbv zeta in E.
  apply bind_inv in E as (u9 & l9 & E9 & E). injection E as <- <-.
  unfold modify in E9. injection E9 as _ <-.
  assert (Hlen7 : length (ls_fs l7) = 1%nat).
  { destruct H7 as [H7 _]. apply (f_equal length) in H7. rewrite !length_map in H7.
    congruence. }
  split.
  { cbn. by destruct (ls_fs l7) as [|? [|? ?]]. }
  cbn. rewrite Hd7. rewrite Hn6 in C7.
  split; [lia|].
  split; [by destruct (gt (dyd l6)); [|cbn in Hgt6; lia]|].
  split; [by rewrite Hlab6, Hfl|].
  pose proof (same_scopes_sruns 0 0 _ _ H7) as (_ & _ & _ & _ & _ & _ & _ & D8 & _).
  rewrite <- (single_last l7 Hlen7). rewrite D8, C8, B8.
  rewrite (single_last l3 Hlen3). exact Hup3.
Qed.

(** ** The code generator of the examples leaves the scopes to the parser *)

Lemma scope_emit what args s : scope_of (snd (Emitter.emit what args s)) = scope_of s.
Proof. by destruct s as [[] ? ? ? ? ? ? ?]. Qed.

Lemma scope_set_freereg r s : scope_of (set_freereg r s) = scope_of s.
Proof. by destruct s. Qed.

Lemma scope_freeexp e d s : scope_of (Emitter.freeexp e d s) = scope_of s.
Proof. unfold Emitter.freeexp. destruct (_ && _); [apply scope_set_freereg|done]. Qed.

Lemma neutral_reserveregs n : neutral (Emitter.reserveregs n).
Proof.
  intros d s a s'. unfold Emitter.reserveregs.
  destruct (_ >? _)%Z; [discriminate|]. intros [= _ <-].
  destruct (_ <? _)%Z; by destruct s as [[] ? ? ? ? ? ? ?].
Qed.

Lemma neutral_dischargevars e : neutral (Emitter.dischargevars e).
Proof.
  intros d s a s'. unfold Emitter.dischargevars.
  destruct (k e); unfold luaK_codeABC, Emitter.emit, luaK_code; intros [= _ <-];
    by destruct s as [[] ? ? ? ? ? ? ?].
Qed.

Lemma neutral_exp2reg e r : neutral (Emitter.exp2reg e r).
Proof.
  intros d s a s'. unfold Emitter.exp2reg.
  destruct (Emitter.dischargevars e d s) as [e1 s1|] eqn:E1; [|discriminate].
  apply neutral_dischargevars in E1. intros [= _ <-].
  destruct (_ && _); [done|]. etransitivity; [apply scope_emit|exact E1].
Qed.

Lemma neutral_exp2nextreg e : neutral (Emitter.exp2nextreg e).
Proof.
  intros d s a s'. unfold Emitter.exp2nextreg.
  destruct (Emitter.dischargevars e d s) as [e1 s1|] eqn:E1; [|discriminate].
  apply neutral_dischargevars in E1.
  destruct (Emitter.reserveregs 1 d _) as [u s3|] eqn:E3; [|discriminate].
  apply neutral_reserveregs in E3. rewrite scope_freeexp in E3.
  intros E4. apply neutral_exp2reg in E4. congruence.
Qed.

Lemma neutral_exp2anyreg e : neutral (Emitter.exp2anyreg e).
Proof.
  intros d s a s'. unfold Emitter.exp2anyreg.
  destruct (Emitter.dischargevars e d s) as [e1 s1|] eqn:E1; [|discriminate].
  apply neutral_dischargevars in E1.
  destruct (expkind_eqb _ _); [by intros [= _ <-]|].
  destruct (Emitter.exp2nextreg e1 d s1) as [e2 s2|] eqn:E2; [|discriminate].
  apply neutral_exp2nextreg in E2. intros [= _ <-]. congruence.
Qed.

Lemma neutral_exp2anyregup e : neutral (Emitter.exp2anyregup e).
Proof.
  intros d s a s'. unfold Emitter.exp2anyregup.
  destruct (expkind_eqb _ _); [by intros [= _ <-]|].
  destruct (Emitter.exp2anyreg e d s) as [[r e1] s1|] eqn:E1; [|discriminate].
  apply neutral_exp2anyreg in E1. by intros [= _ <-].
Qed.

Lemma neutral_goif what e : neutral (Emitter.goif what e).
Proof.
  intros d s a s'. unfold Emitter.goif.
  destruct (Emitter.dischargevars e d s) as [e1 s1|] eqn:E1; [|discriminate].
  apply neutral_dischargevars in E1.
  pose proof (scope_emit what [Emitter.operand e1] (Emitter.freeexp e1 d s1)) as H2.
  destruct (Emitter.emit _ _ _) as [x s3]. cbn in H2.
  unfold luaK_jump, luaK_code. intros [= _ <-].
  rewrite scope_freeexp in H2. rewrite <- E1, <- H2.
  by destruct s3 as [[] ? ? ? ? ? ? ?].
Qed.

Lemma neutral_unit_op what args : neutral (Emitter.unit_op what args).
Proof. intros d s a s'. unfold Emitter.unit_op. intros [= _ <-]. apply scope_emit. Qed.

Lemma neutral_self e key : neutral (Emitter.self e key).
Proof.
  intros d s a s'. unfold Emitter.self.
  destruct (Emitter.exp2anyreg e d s) as [[r e1] s1|] eqn:E1; [|discriminate].
  apply neutral_exp2anyreg in E1.
  destruct (Emitter.reserveregs 2 d _) as [u s3|] eqn:E3; [|discriminate].
  apply neutral_reserveregs in E3. rewrite scope_freeexp in E3.
  intros [= _ <-]. etransitivity; [apply scope_emit|]. congruence.
Qed.

Lemma emitter_scope_neutral : ScopeNeutral Emitter.gen.
Proof.
  constructor; cbn.
  - intros op e. destruct op; try apply neutral_goif;
      (intros d s a s'; destruct (expkind_eqb _ _); [by intros [= _ <-]|];
       apply neutral_exp2anyregup).
  - intros op e1 e2 line d s a s'. unfold Emitter.posfix.
    pose proof (scope_emit "binop"
                  [Z.of_nat (BinOpr_index op); Emitter.operand e1; Emitter.operand e2]
                  (Emitter.freeexp e1 d (Emitter.freeexp e2 d s))) as H.
    destruct (Emitter.emit _ _ _) as [p s2]. intros [= _ <-].
    cbn in H. rewrite H. etransitivity; apply scope_freeexp.
  - intros op e line d s a s'. unfold Emitter.prefix.
    pose proof (scope_emit "unop" [Emitter.operand e] (Emitter.freeexp e d s)) as H.
    destruct (Emitter.emit _ _ _) as [p s2]. intros [= _ <-].
    cbn in H. rewrite H. apply scope_freeexp.
  - apply neutral_dischargevars.
  - apply neutral_exp2nextreg.
  - apply neutral_exp2anyreg.
  - apply neutral_exp2anyregup.
  - apply neutral_exp2reg.
  - apply neutral_dischargevars.
  - intros v e d s a s'. unfold Emitter.storevar. intros [= _ <-].
    etransitivity; [apply scope_emit|apply scope_freeexp].
  - intros e d s a s'. by intros [= _ <-].
  - intros e n. apply neutral_unit_op.
  - apply neutral_goif.
  - apply neutral_goif.
  - intros t key d s a s'. unfold Emitter.indexed. by intros [= _ <-].
  - apply neutral_self.
  - intros from n. apply neutral_unit_op.
  - intros r i. apply neutral_unit_op.
  - intros first nret. apply neutral_unit_op.
  - apply neutral_reserveregs.
  - intros n d s a s'. by intros [= _ <-].
  - intros b n t. apply neutral_unit_op.
  - intros pc_ ra asize hsize d s a s'. intros [= _ <-].
    by destruct s as [[] ? ? ? ? ? ? ?].
  - intros d s a s'. by intros [= _ <-].
Qed.

Lemma parser_keeps_scopes_witness :
  exists r ls',
    parse_statement (cg := Emitter.gen) 12 None (start local_function_stat) = Ok r ls'
    /\ keys (cur_fs ls') = keys (cur_fs (start local_function_stat))
    /\ Z.of_nat (actvar_n (dyd ls')) - Z.of_nat (nactvar (cur_fs ls'))
       = Z.of_nat (actvar_n (dyd (start local_function_stat)))
         - Z.of_nat (nactvar (cur_fs (start local_function_stat))).
Proof.
  destruct (parse_statement (cg := Emitter.gen) 12 None (start local_function_stat))
    as [r ls'| |] eqn:E.
  - exists r, ls'. split; [reflexivity|].
    destruct (parser_keeps_scopes emitter_scope_neutral 12 None
                (start local_function_stat) ls')
      as (H1 & _ & _ & H4 & _).
    + vm_compute. discriminate.
    + vm_compute. lia.
    + left. by exists r.
    + by split.
  - exfalso. vm_compute in E. discriminate E.
  - exfalso. vm_compute in E. discriminate E.
Defined.

Lemma luaY_parser_scopes_finished_witness :
  exists fp ls',
    luaY_parser (cg := Emitter.gen) 12 local_function_stat "x" = Ok fp ls'
    /\ actvar_n (dyd ls') = 0%nat /\ gt (dyd ls') = [] /\ label (dyd ls') = [].
Proof.
  destruct (luaY_parser (cg := Emitter.gen) 12 local_function_stat "x")
    as [fp ls'| |] eqn:E.
  - exists fp, ls'. split; [reflexivity|].
    destruct (luaY_parser_scopes_finished emitter_scope_neutral 12
                local_function_stat "x" fp ls' E) as (_ & H2 & H3 & H4 & _).
    by repeat split.
  - exfalso. vm_compute in E. discriminate E.
  - exfalso. vm_compute in E. discriminate E.
Defined.

Lemma block_restores_variables_witness :
  exists ls',
    block (parse_statement (cg := Emitter.gen) 12) 12 (start local_block) = Ok tt ls'
    /\ nactvar (cur_fs ls') = nactvar (cur_fs (start local_block))
    /\ actvar_n (dyd ls') = actvar_n (dyd (start local_block)).
Proof.
  destruct (block (parse_statement (cg := Emitter.gen) 12) 12 (start local_block))
    as [[] ls'| |] eqn:E.
  - exists ls'. split; [reflexivity|].
    destruct (block_restores_variables emitter_scope_neutral 12 12
                (start local_block) ls') as (H1 & H2 & _).
    + vm_compute. discriminate.
    + vm_compute. lia.
    + exact E.
    + by split.
  - exfalso. vm_compute in E. discriminate E.
  - exfalso. vm_compute in E. discriminate E.
Defined.
(** ** The active variables through an expression *)

Lemma same_scopes_active ls ls' :
  same_scopes ls ls' -> nactvar (cur_fs ls') = nactvar (cur_fs ls).
Proof.
  intros [Hs _]. unfold cur_fs.
  destruct (ls_fs ls) as [|s l], (ls_fs ls') as [|s' l']; try discriminate; [done|].
  cbn in Hs. apply cons_inv in Hs as [Hs _]. unfold scope_of in Hs. cbn. congruence.
Qed.

Lemma keeps_bind {A B} (m : P A) (g : A -> P B) :
  sstable m -> keeps_active m -> (forall a, keeps_active (g a)) ->
  keeps_active (bind m g).
Proof.
  intros Hs Hm Hg ls b ls' E Hpre.
  apply bind_inv in E as (a & l1 & E1 & E2).
  pose proof (spost_pre _ _ _ _ _ _ Hpre (Hs _ _ _ E1 Hpre)) as Hpre1.
  rewrite (Hg a _ _ _ E2 Hpre1). by apply (Hm _ _ _ E1).
Qed.

Lemma keeps_same {A} (m : P A) :
  (forall ls a ls', m ls = Ok a ls' -> same_scopes ls ls') -> keeps_active m.
Proof. intros H ls a ls' E _. apply same_scopes_active. by eapply H. Qed.

Lemma keeps_ret {A} (a : A) : keeps_active (ret a).
Proof. by intros ls x ls' [= _ <-]. Qed.

Lemma keeps_throw {A} (e : error) : keeps_active (throw (A := A) e).
Proof. intros ls a ls' E. discriminate E. Qed.

Lemma keeps_fuel {A} : keeps_active (out_of_fuel (A := A)).
Proof. intros ls a ls' E. discriminate E. Qed.

Lemma keeps_get : keeps_active get.
Proof. by intros ls x ls' [= _ <-]. Qed.

Lemma keeps_gets {A} (g : LexState -> A) : keeps_active (gets g).
Proof. by intros ls x ls' [= _ <-]. Qed.

Lemma keeps_modify (g : LexState -> LexState) :
  (forall ls, same_scopes ls (g ls)) -> keeps_active (modify g).
Proof.
  intros H. apply keeps_same. intros ls x ls' E.
  assert (ls' = g ls) as -> by (unfold modify in E; congruence). apply H.
Qed.

Lemma keeps_onfs {A} (g : FuncState -> A * FuncState) :
  (forall s, scope_of (snd (g s)) = scope_of s) -> keeps_active (onfs g).
Proof.
  intros H. apply keeps_same. intros ls a ls'. unfold onfs.
  specialize (H (cur_fs ls)). destruct (g (cur_fs ls)) as [x s1].
  intros [= _ <-].
  destruct ls as [? ? ? ? [|s prev] ? ? ? ? ?]; [by split|].
  split; [|done]. cbn in *. by rewrite H.
Qed.

Lemma keeps_onfs_ (g : FuncState -> FuncState) :
  (forall s, scope_of (g s) = scope_of s) -> keeps_active (onfs_ g).
Proof.
  intros H. apply keeps_modify. intros ls. by apply same_scopes_upd_fs.
Qed.

Lemma keeps_callK {cg : CodeGen} {A} (g : Dyndata -> FuncState -> kres A) :
  neutral g -> keeps_active (callK g).
Proof.
  intros H. apply keeps_same. intros ls a ls' E.
  apply callK_inv in E as (s & E & ->).
  apply H in E.
  destruct ls as [? ? ? ? [|s0 prev] ? ? ? ? ?]; [by split|].
  split; [|done]. cbn in *. by rewrite E.
Qed.

Lemma keeps_luaX_next : keeps_active luaX_next.
Proof.
  apply keeps_modify. intros ls. apply same_scopes_fields;
    destruct ls as [? inp ? ? ? ? ? ? ? ?]; by destruct inp.
Qed.

Lemma keeps_luaX_lookahead : keeps_active luaX_lookahead.
Proof. apply keeps_gets. Qed.

Lemma keeps_gett : keeps_active gett.
Proof. apply keeps_gets. Qed.

Lemma keeps_throw_warn err here arg : keeps_active (throw_warn err here arg).
Proof. apply keeps_modify. intros ls. apply same_scopes_fields; by destruct ls. Qed.

Lemma keeps_throw_warn_at err line : keeps_active (throw_warn_at err line).
Proof. apply keeps_modify. intros ls. apply same_scopes_fields; by destruct ls. Qed.

Lemma keeps_enterlevel : keeps_active enterlevel.
Proof.
  apply keeps_same. intros ls a ls' E. unfold enterlevel, bind, modify, gets in E.
  destruct (_ <=? _)%nat; [discriminate|]. injection E as _ <-.
  apply same_scopes_fields; by destruct ls.
Qed.

Lemma keeps_leavelevel : keeps_active leavelevel.
Proof.
  apply keeps_modify. intros ls. apply same_scopes_fields; by destruct ls.
Qed.

Lemma keeps_singlevaraux_P n base : keeps_active (singlevaraux_P n base).
Proof.
  intros ls a ls' E _. unfold singlevaraux_P in E.
  destruct (singlevaraux _ _ _ _) as [e|[var fss]] eqn:Es; [discriminate|].
  injection E as _ <-. apply singlevaraux_sig in Es as (Hsig & _ & _).
  unfold cur_fs. destruct ls as [? ? ? ? fs0 ? ? ? ? ?]. cbn in *.
  destruct fs0 as [|s l], fss as [|s' l']; try discriminate; [done|].
  cbn in Hsig. apply cons_inv in Hsig as [Hs _]. unfold fsig in Hs. cbn. congruence.
Qed.

Lemma keeps_error_expected {A} tk : keeps_active (error_expected (A := A) tk).
Proof. intros ls a ls' E. by apply error_expected_fails in E. Qed.

#[export] Hint Extern 3 (sruns _ _ _ _ (new_localvar _)) =>
  apply sruns_new_localvar; lia : sframe.
#[export] Hint Extern 3 (sruns _ _ _ _ leaveblock) =>
  apply sruns_leaveblock; lia : sframe.

Create HintDb kframe.

#[export] Hint Resolve keeps_ret keeps_throw keeps_fuel keeps_get keeps_gets
  keeps_luaX_next keeps_luaX_lookahead keeps_gett keeps_throw_warn
  keeps_throw_warn_at keeps_enterlevel keeps_leavelevel keeps_singlevaraux_P
  keeps_error_expected : kframe.

#[export] Hint Extern 1 (keeps_active (throwerr _ _)) => apply keeps_throw : kframe.
#[export] Hint Extern 1 (keeps_active (errorlimit _ _)) => apply keeps_throw : kframe.
#[export] Hint Extern 3 (keeps_active (modify _)) =>
  apply keeps_modify; scope_modify : kframe.
#[export] Hint Extern 3 (keeps_active (onfs _)) => apply keeps_onfs; scope_side : kframe.
#[export] Hint Extern 3 (keeps_active (onfs_ _)) => apply keeps_onfs_; scope_side : kframe.
#[export] Hint Extern 2 (keeps_active (callK _)) =>
  apply keeps_callK; neutral_solve : kframe.

Ltac kframe :=
  repeat first
    [ progress intros
    | match goal with
      | |- keeps_active (bind _ _) => apply keeps_bind; [solve [sframe]| |]
      | |- keeps_active (if ?c then _ else _) => destruct c
      | |- keeps_active (match ?x with _ => _ end) => destruct x
      | |- keeps_active ((if ?c then _ else _) _) => destruct c
      | |- keeps_active ((match ?x with _ => _ end) _) => destruct x
      end
    | apply keeps_fuel
    | apply keeps_throw
    | solve [eauto 2 with kframe]
    | progress cbv beta zeta
    | progress cbn [fst snd] ].

Section Exact.

Context {cg : CodeGen}.
Hypothesis HN : ScopeNeutral cg.
Variable rs : option lu_hint -> P (option lu_hint).
Variable re : option lu_hint -> P (expdesc * option lu_hint).
Hypothesis Hrs : forall prop, sstable (rs prop).
Hypothesis Hre : forall prop, sstable (re prop).
Hypothesis Hke : forall prop, keeps_active (re prop).

Lemma keeps_testnext c : keeps_active (testnext c).
Proof. unfold testnext. kframe. Qed.
#[local] Hint Resolve keeps_testnext : kframe.

Lemma keeps_checklimit v l what : keeps_active (checklimit v l what).
Proof. unfold checklimit. kframe. Qed.
#[local] Hint Resolve keeps_checklimit : kframe.

Lemma keeps_check (a1 : Tok) : keeps_active (check a1).
Proof. unfold check. kframe. Qed.
#[local] Hint Resolve keeps_check : kframe.

Lemma keeps_checknext (a1 : Tok) : keeps_active (checknext a1).
Proof. unfold checknext. kframe. Qed.
#[local] Hint Resolve keeps_checknext : kframe.

Lemma keeps_testnext2 (a1 : Tok) (a2 : Tok) : keeps_active (testnext2 a1 a2).
Proof. unfold testnext2. kframe. Qed.
#[local] Hint Resolve keeps_testnext2 : kframe.

Lemma keeps_check_condition (a1 : bool) (a2 : string) : keeps_active (check_condition a1 a2).
Proof. unfold check_condition. kframe. Qed.
#[local] Hint Resolve keeps_check_condition : kframe.

Lemma keeps_check_match (a1 : Tok) (a2 : Tok) (a3 : Z) : keeps_active (check_match a1 a2 a3).
Proof. unfold check_match. kframe. Qed.
#[local] Hint Resolve keeps_check_match : kframe.

Lemma keeps_str_checkname (a1 : bool) : keeps_active (str_checkname a1).
Proof. unfold str_checkname. kframe. Qed.
#[local] Hint Resolve keeps_str_checkname : kframe.

Lemma keeps_codename  : keeps_active (codename).
Proof. unfold codename. kframe. Qed.
#[local] Hint Resolve keeps_codename : kframe.

Lemma keeps_gettypehint  : keeps_active (gettypehint).
Proof. unfold gettypehint. kframe. Qed.
#[local] Hint Resolve keeps_gettypehint : kframe.

Lemma keeps_addprototype  : keeps_active (addprototype).
Proof. unfold addprototype. kframe. Qed.
#[local] Hint Resolve keeps_addprototype : kframe.

Lemma keeps_explist_loop fuel : forall (a2 : expdesc) (a3 : nat), keeps_active (explist_loop re fuel a2 a3).
Proof. induction fuel as [|fuel IH]; intros; cbn [explist_loop]; kframe. Qed.
#[local] Hint Resolve keeps_explist_loop : kframe.

Lemma keeps_explist (a1 : nat) (a2 : option lu_hint) : keeps_active (explist re a1 a2).
Proof. unfold explist. kframe. Qed.
#[local] Hint Resolve keeps_explist : kframe.

Lemma keeps_singlevar  : keeps_active (singlevar).
Proof. unfold singlevar. kframe. Qed.
#[local] Hint Resolve keeps_singlevar : kframe.

Lemma keeps_fieldsel (a1 : expdesc) : keeps_active (fieldsel a1).
Proof. unfold fieldsel. kframe. Qed.
#[local] Hint Resolve keeps_fieldsel : kframe.

Lemma keeps_codeclosure : keeps_active codeclosure.
Proof.
  intros ls a ls' E _. unfold codeclosure in E.
  destruct (luaK_codeABx _ _ _ _) as [at_pc s1] eqn:E1.
  destruct (luaK_exp2nextreg _ _ _) as [v s2|e] eqn:E2; [|discriminate].
  injection E as _ <-. unfold upd_prev_fs, cur_fs.
  by destruct ls as [? ? ? ? [|s [|p0 rest]] d ? ? ? ?].
Qed.
#[local] Hint Resolve keeps_codeclosure : kframe.

Lemma keeps_body fuel ismethod line prop :
  keeps_active (body rs fuel ismethod line prop).
Proof.
  intros ls a ls' E Hpre. unfold body in E.
  apply bind_inv in E as (fp0 & l0 & E0 & E).
  stable_step E0 Hpre H0 Hpre0.
  assert (K0 : nactvar (cur_fs l0) = nactvar (cur_fs ls)).
  { refine ((_ : keeps_active addprototype) _ _ _ E0 Hpre). kframe. }
  apply bind_inv in E as (u1 & l1 & Eopen & E).
  pose proof (spost_refl l1) as Hacc.
  assert (Hpre1 : spre 0 0 l1).
  { pose proof Eopen as Eo.
    apply open_func_state in Eo as (s1 & Hfs1 & Hd1 & Hk1 & Hn1 & Hf1 & _ & _).
    split; [by rewrite Hfs1|]. split; [lia|].
    unfold cur_fs. rewrite Hfs1. cbn. rewrite Hn1, Hf1, Hd1. lia. }
  stable_chain.
  apply bind_inv in E as (fp1 & l3 & Eclose & E).
  pose proof (scoped_function_active HN _ _ _ _ _ _ _ Hpre0 Eopen Hacc0 Eclose) as Kf.
  apply bind_inv in E as (u4 & l4 & E4 & E). injection E as _ <-.
  unfold onfs_, modify in E4. injection E4 as _ <-.
  rewrite <- K0, <- Kf. unfold cur_fs.
  by destruct l3 as [? ? ? ? [|[] ?] ? ? ? ? ?].
Qed.
#[local] Hint Resolve keeps_body : kframe.

Lemma keeps_yindex  : keeps_active (yindex re).
Proof. unfold yindex. kframe. Qed.
#[local] Hint Resolve keeps_yindex : kframe.

Lemma keeps_recfield (a1 : ConsControl) : keeps_active (recfield re a1).
Proof. unfold recfield. kframe. Qed.
#[local] Hint Resolve keeps_recfield : kframe.

Lemma keeps_prenamedfield (a1 : ConsControl) (a2 : string) : keeps_active (prenamedfield re a1 a2).
Proof. unfold prenamedfield. kframe. Qed.
#[local] Hint Resolve keeps_prenamedfield : kframe.

Lemma keeps_closelistfield (a1 : ConsControl) : keeps_active (closelistfield a1).
Proof. unfold closelistfield. kframe. Qed.
#[local] Hint Resolve keeps_closelistfield : kframe.

Lemma keeps_lastlistfield (a1 : ConsControl) : keeps_active (lastlistfield a1).
Proof. unfold lastlistfield. kframe. Qed.
#[local] Hint Resolve keeps_lastlistfield : kframe.

Lemma keeps_listfield (a1 : ConsControl) : keeps_active (listfield re a1).
Proof. unfold listfield. kframe. Qed.
#[local] Hint Resolve keeps_listfield : kframe.

Lemma keeps_funcfield (a1 : nat) (a2 : ConsControl) : keeps_active (funcfield rs a1 a2).
Proof. unfold funcfield. kframe. Qed.
#[local] Hint Resolve keeps_funcfield : kframe.

Lemma keeps_field (a1 : nat) (a2 : ConsControl) : keeps_active (field rs re a1 a2).
Proof. unfold field. kframe. Qed.
#[local] Hint Resolve keeps_field : kframe.

Lemma keeps_constructor_fields fuel : forall (a2 : ConsControl), keeps_active (constructor_fields rs re fuel a2).
Proof. induction fuel as [|fuel IH]; intros; cbn [constructor_fields]; kframe. Qed.
#[local] Hint Resolve keeps_constructor_fields : kframe.

Lemma keeps_constructor (a1 : nat) : keeps_active (constructor rs re a1).
Proof. unfold constructor. kframe. Qed.
#[local] Hint Resolve keeps_constructor : kframe.

Lemma keeps_funcargs (a1 : nat) (a2 : expdesc) (a3 : Z) : keeps_active (funcargs rs re a1 a2 a3).
Proof. unfold funcargs. kframe. Qed.
#[local] Hint Resolve keeps_funcargs : kframe.

Lemma keeps_safe_navigation (a1 : expdesc) : keeps_active (safe_navigation re a1).
Proof. unfold safe_navigation. kframe. Qed.
#[local] Hint Resolve keeps_safe_navigation : kframe.

Lemma keeps_skip_lambda_tokens fuel : keeps_active (skip_lambda_tokens fuel).
Proof. induction fuel as [|fuel IH]; intros; cbn [skip_lambda_tokens]; kframe. Qed.
#[local] Hint Resolve keeps_skip_lambda_tokens : kframe.

Lemma keeps_primaryexp (a1 : nat) : keeps_active (primaryexp re a1).
Proof. unfold primaryexp. kframe. Qed.
#[local] Hint Resolve keeps_primaryexp : kframe.

Lemma keeps_suffixedexp_loop fuel : forall (a2 : Z) (a3 : expdesc) (a4 : option lu_hint), keeps_active (suffixedexp_loop rs re fuel a2 a3 a4).
Proof. induction fuel as [|fuel IH]; intros; cbn [suffixedexp_loop]; kframe. Qed.
#[local] Hint Resolve keeps_suffixedexp_loop : kframe.

Lemma keeps_suffixedexp (a1 : nat) (a2 : option lu_hint) : keeps_active (suffixedexp rs re a1 a2).
Proof. unfold suffixedexp. kframe. Qed.
#[local] Hint Resolve keeps_suffixedexp : kframe.

Lemma keeps_lambdabody fuel line : keeps_active (lambdabody re fuel line).
Proof.
  intros ls a ls' E Hpre. unfold lambdabody in E.
  apply bind_inv in E as (fp0 & l0 & E0 & E).
  stable_step E0 Hpre H0 Hpre0.
  assert (K0 : nactvar (cur_fs l0) = nactvar (cur_fs ls)).
  { refine ((_ : keeps_active addprototype) _ _ _ E0 Hpre). kframe. }
  apply bind_inv in E as (u1 & l1 & Eopen & E).
  pose proof (spost_refl l1) as Hacc.
  assert (Hpre1 : spre 0 0 l1).
  { pose proof Eopen as Eo.
    apply open_func_state in Eo as (s1 & Hfs1 & Hd1 & Hk1 & Hn1 & Hf1 & _ & _).
    split; [by rewrite Hfs1|]. split; [lia|].
    unfold cur_fs. rewrite Hfs1. cbn. rewrite Hn1, Hf1, Hd1. lia. }
  stable_chain.
  apply bind_inv in E as (fp1 & l3 & Eclose & E).
  pose proof (scoped_function_active HN _ _ _ _ _ _ _ Hpre0 Eopen Hacc0 Eclose) as Kf.
  apply bind_inv in E as (u4 & l4 & E4 & E). injection E as _ <-.
  unfold onfs_, modify in E4. injection E4 as _ <-.
  rewrite <- K0, <- Kf. unfold cur_fs.
  by destruct l3 as [? ? ? ? [|[] ?] ? ? ? ? ?].
Qed.
#[local] Hint Resolve keeps_lambdabody : kframe.

Lemma keeps_simpleexp (a1 : nat) (a2 : bool) (a3 : option lu_hint) : keeps_active (simpleexp rs re a1 a2 a3).
Proof. unfold simpleexp. kframe. Qed.
#[local] Hint Resolve keeps_simpleexp : kframe.

Lemma keeps_cond  : keeps_active (cond re).
Proof. unfold cond. kframe. Qed.
#[local] Hint Resolve keeps_cond : kframe.

Lemma keeps_ifexpr  : keeps_active (ifexpr re).
Proof. unfold ifexpr. kframe. Qed.
#[local] Hint Resolve keeps_ifexpr : kframe.

Lemma keeps_inexpr (a1 : expdesc) : keeps_active (inexpr re a1).
Proof. unfold inexpr. kframe. Qed.
#[local] Hint Resolve keeps_inexpr : kframe.

Lemma keeps_subexpr_loop sub limit fuel :
  (forall lim, sstable (sub lim)) -> (forall lim, keeps_active (sub lim)) ->
  forall op v, keeps_active (subexpr_loop sub limit fuel op v).
Proof.
  intros Hsub Hk. induction fuel as [|fuel IH]; intros; cbn [subexpr_loop]; kframe.
Qed.

Lemma keeps_subexpr fuel : forall limit prop, keeps_active (subexpr rs re fuel limit prop).
Proof.
  induction fuel as [|fuel IH]; intros; cbn [subexpr]; [apply keeps_fuel|].
  assert (Hloop : forall lim f op v,
            keeps_active (subexpr_loop (fun lim => subexpr rs re fuel lim None) lim f op v)).
  { intros. apply keeps_subexpr_loop; intros; cbv beta; [apply sstable_subexpr; assumption|apply IH]. }
  assert (Hloop' : forall lim f op v,
            sstable (subexpr_loop (fun lim => subexpr rs re fuel lim None) lim f op v)).
  { intros. apply sstable_subexpr_loop; try assumption; intros; cbv beta;
      apply sstable_subexpr; assumption. }
  kframe.
Qed.
#[local] Hint Resolve keeps_subexpr : kframe.

Lemma keeps_expr (a1 : nat) (a2 : option lu_hint) : keeps_active (expr rs re a1 a2).
Proof. unfold expr. kframe. Qed.
#[local] Hint Resolve keeps_expr : kframe.


End Exact.
(** ** What an expression and a switch leave of variables *)

#[export] Hint Resolve keeps_testnext keeps_checklimit keeps_check keeps_checknext keeps_testnext2 keeps_check_condition keeps_check_match keeps_str_checkname keeps_codename keeps_gettypehint keeps_addprototype keeps_explist_loop keeps_explist keeps_singlevar keeps_fieldsel keeps_codeclosure keeps_body keeps_yindex keeps_recfield keeps_prenamedfield keeps_closelistfield keeps_lastlistfield keeps_listfield keeps_funcfield keeps_field keeps_constructor_fields keeps_constructor keeps_funcargs keeps_safe_navigation keeps_skip_lambda_tokens keeps_primaryexp keeps_suffixedexp_loop keeps_suffixedexp keeps_lambdabody keeps_simpleexp keeps_cond keeps_ifexpr keeps_inexpr keeps_subexpr keeps_expr : kframe.

(** A step of a run that keeps the count of active variables: from [E], a
    run of a piece, and [Hpre], the state it starts in. *)
Ltac keeps_step E Hpre K :=
  match type of E with
  | ?m ?ls = Ok ?a ?ls' =>
      assert (K : nactvar (cur_fs ls') = nactvar (cur_fs ls))
        by (refine ((_ : keeps_active m) ls a ls' E Hpre); kframe)
  end.

Lemma keeps_new_localvar_warn d s name idxs :
  keeps_active (new_localvar_warn d s name idxs).
Proof. induction idxs as [|i rest IH]; cbn [new_localvar_warn]; kframe. Qed.

Lemma keeps_new_localvar name : keeps_active (new_localvar name).
Proof.
  pose proof keeps_new_localvar_warn.
  intros ls a ls' E Hpre. unfold new_localvar in E.
  apply bind_inv in E as (l0 & l0' & [= <- <-] & E). cbv zeta in E.
  apply bind_inv in E as (u1 & l1 & E1 & E).
  stable_step E1 Hpre S1 P1. keeps_step E1 Hpre K1.
  apply bind_inv in E as (u2 & l2 & E2 & E).
  stable_step E2 P1 S2 P2. keeps_step E2 P1 K2.
  apply bind_inv in E as (ln & l3 & [= <- <-] & E).
  apply bind_inv in E as (u4 & l4 & E4 & E). injection E as _ <-.
  unfold modify in E4. injection E4 as _ <-.
  rewrite <- K1, <- K2. by destruct l2.
Qed.

Lemma adjustlocalvars_active n ls u ls' :
  adjustlocalvars n ls = Ok u ls' -> ls_fs ls <> [] ->
  nactvar (cur_fs ls') = (nactvar (cur_fs ls) + n)%nat.
Proof.
  intros E Hne. unfold adjustlocalvars, modify in E. injection E as _ <-.
  destruct (adjustlocalvars_loop_scope n (luaY_nvarstack (dyd ls) (cur_fs ls))
              (dyd ls) (cur_fs ls)) as (_ & _ & H3 & _).
  destruct (adjustlocalvars_loop _ _ _ _) as [d1 s1]. cbn [fst snd] in *.
  destruct ls as [? ? ? ? [|s prev] d ? ? ? ?]; [done|]. exact H3.
Qed.

Lemma parser_exprs_keep {cg : CodeGen} (HN : ScopeNeutral cg) (n : nat) :
  forall prop, keeps_active (snd (parser n) prop).
Proof.
  induction n as [|n IH]; cbn [parser snd]; intros prop; [apply keeps_fuel|].
  destruct (parser_scoped HN n) as [Hs He].
  by apply keeps_expr.
Qed.

(** X16: an expression declares nothing in the function it is in.  When the
    parser accepts an expression and the code generator leaves the scopes to
    the parser, the function has after it exactly the active variables it
    had before, and the array of the parse has the count it had: the
    parameters and the local variables of the functions written inside the
    expression are gone when it ends. *)
Theorem parse_expr_declares_nothing {cg : CodeGen} (HN : ScopeNeutral cg) (n : nat)
    (prop : option lu_hint) (ls : LexState) (r : expdesc * option lu_hint)
    (ls' : LexState)
    (Hfn : ls_fs ls <> [])
    (Hact : (firstlocal (cur_fs ls) + nactvar (cur_fs ls) <= actvar_n (dyd ls))%nat)
    (Hrun : parse_expr n prop ls = Ok r ls') :
  nactvar (cur_fs ls') = nactvar (cur_fs ls)
  /\ actvar_n (dyd ls') = actvar_n (dyd ls).
Proof.
  assert (Hpre : spre 0 0 ls) by (split; [done|]; split; lia).
  destruct (parser_scoped HN n) as [_ He].
  pose proof (parser_exprs_keep HN n prop _ _ _ Hrun Hpre) as Hk.
  destruct (He prop _ _ _ Hrun Hpre) as (_ & _ & _ & _ & _ & _ & Hp & _).
  split; [exact Hk|lia].
Qed.

(** X17: a switch statement leaves its control variable behind.  When the
    parser accepts a switch statement and the code generator leaves the
    scopes to the parser, the function has after it one active variable
    more than before (the local variable '(switch)' that holds the control
    value, declared before the block of the switch is entered and so not
    removed with it), the array of the parse has one entry more, and the
    chain of blocks is the one before the statement. *)
Theorem switchstat_leaves_control_variable {cg : CodeGen} (HN : ScopeNeutral cg)
    (n fuel : nat) (line : Z) (ls ls' : LexState)
    (Hfn : ls_fs ls <> [])
    (Hact : (firstlocal (cur_fs ls) + nactvar (cur_fs ls) <= actvar_n (dyd ls))%nat)
    (Hrun : switchstat (parse_statement n) (parse_expr n) fuel line ls = Ok tt ls') :
  nactvar (cur_fs ls') = S (nactvar (cur_fs ls))
  /\ actvar_n (dyd ls') = S (actvar_n (dyd ls))
  /\ keys (cur_fs ls') = keys (cur_fs ls).
Proof.
  destruct (parser_scoped HN n) as [Hs He].
  pose proof (parser_exprs_keep HN n) as Hk.
  unfold parse_statement, parse_expr in Hrun.
  set (rs := fst (parser n)) in *. set (re := snd (parser n)) in *. clearbody rs re.
  assert (Hpre : spre 0 0 ls) by (split; [done|]; split; lia).
  unfold switchstat in Hrun.
  apply bind_inv in Hrun as (tk & l0 & E0 & E).
  assert (l0 = ls) as -> by (unfold gett, gets in E0; congruence). clear E0.
  apply bind_inv in E as (save & l1 & Ehead & E).
  pose proof (sruns_switch_head HN re He 0 0 ltac:(lia) _ _ _ Ehead Hpre) as Sh.
  cbv beta in Sh.
  assert (Hhead : nactvar (cur_fs l1) = S (nactvar (cur_fs ls))
                  /\ bl_nactvar (cur_bl (cur_fs l1)) = S (nactvar (cur_fs ls))).
  { pose proof keeps_new_localvar.
    unfold switch_head in Ehead.
    apply bind_inv in Ehead as (u1 & a1 & E1 & Ehead).
    stable_step E1 Hpre S1 P1. keeps_step E1 Hpre K1.
    apply bind_inv in Ehead as (u2 & a2 & E2 & Ehead).
    stable_step E2 P1 S2 P2. keeps_step E2 P1 K2.
    apply bind_inv in Ehead as ([crtl p3] & a3 & E3 & Ehead).
    stable_step E3 P2 S3 P3. keeps_step E3 P2 K3.
    apply bind_inv in Ehead as (u4 & a4 & E4 & Ehead).
    stable_step E4 P3 S4 P4. keeps_step E4 P3 K4.
    cbv zeta in Ehead.
    apply bind_inv in Ehead as (u5 & a5 & E5 & Ehead).
    stable_step E5 P4 S5 P5. keeps_step E5 P4 K5.
    apply bind_inv in Ehead as (u6 & a6 & E6 & Ehead).
    stable_step E6 P5 S6 P6. keeps_step E6 P5 K6.
    apply bind_inv in Ehead as (u7 & a7 & E7 & Ehead).
    keeps_step E7 P6 K7.
    pose proof (spost_pre _ _ _ _ _ _ P6
                  (sruns_new_localvar "(switch)" 0 0 ltac:(lia) _ _ _ E7 P6)) as P7.
    apply bind_inv in Ehead as (u8 & a8 & E8 & Ehead).
    pose proof (adjustlocalvars_active _ _ _ _ E8 ltac:(by destruct P7)) as K8.
    pose proof (spost_pre _ _ _ _ _ _ P7 (sruns_adjustlocalvars 1 0 _ _ _ _ E8 P7)) as P8.
    apply bind_inv in Ehead as (u9 & a9 & E9 & Ehead). injection Ehead as _ <-.
    destruct (enterblock_state _ _ _ _ E9 ltac:(by destruct P8)) as [K9 L9].
    split; lia. }
  destruct Hhead as [Kh Lh].
  assert (Hpre1 : spre 0 0 l1).
  { apply (spre_weaken 1 0); [lia|]. exact (spost_pre _ _ _ _ _ _ Hpre Sh). }
  pose proof (spost_refl l1) as Hacc.
  stable_chain.
  match goal with
  | Hp : spre 0 0 ?l, Hc : spost 0 0 0 0 l1 ?l, Ec : leaveblock ?l = _ |- _ =>
      rename Hp into Hpre2; rename Hc into Hacc2; rename l into l2
  end.
  pose proof (leaveblock_nactvar _ _ _ E ltac:(by destruct Hpre2)) as Kl.
  assert (Hpre2' : spre 1 0 l2).
  { exact (spost_pre _ _ _ _ _ _ (spost_pre _ _ _ _ _ _ Hpre Sh)
             (spost_lift 1 0 _ _ Hacc2)). }
  pose proof (sruns_leaveblock 0 0 ltac:(lia) _ _ _ E Hpre2') as Sl.
  pose proof (spost_trans _ _ _ _ _ _ _ _ _ Sh
                (spost_trans _ _ _ _ _ _ _ _ _ (spost_lift 1 0 _ _ Hacc2) Sl)) as Sall.
  destruct Hacc2 as (_ & _ & _ & _ & _ & K2 & _ & _ & F2). rewrite !drop_0 in K2.
  unfold floor in F2. rewrite !take_0 in F2. cbn [foldr] in F2.
  rewrite (cur_bl_keys _ _ K2), Lh in Kl.
  destruct Sall as (_ & _ & _ & _ & _ & K & Pn & _). rewrite !drop_0 in K.
  split; [lia|]. split; [lia|done].
Qed.

Lemma parse_expr_declares_nothing_witness :
  exists r ls',
    parse_expr (cg := Emitter.gen) 12 None (start lambda_expr) = Ok r ls'
    /\ nactvar (cur_fs ls') = nactvar (cur_fs (start lambda_expr))
    /\ actvar_n (dyd ls') = actvar_n (dyd (start lambda_expr)).
Proof.
  destruct (parse_expr (cg := Emitter.gen) 12 None (start lambda_expr))
    as [r ls'| |] eqn:E.
  - exists r, ls'. split; [reflexivity|].
    apply (parse_expr_declares_nothing emitter_scope_neutral 12 None
             (start lambda_expr) r ls').
    + vm_compute. discriminate.
    + vm_compute. lia.
    + exact E.
  - exfalso. vm_compute in E. discriminate E.
  - exfalso. vm_compute in E. discriminate E.
Defined.

Lemma switchstat_leaves_control_variable_witness :
  exists ls',
    switchstat (cg := Emitter.gen) (parse_statement (cg := Emitter.gen) 12)
      (parse_expr (cg := Emitter.gen) 12) 12 1
      (start switch_stat) = Ok tt ls'
    /\ nactvar (cur_fs ls') = S (nactvar (cur_fs (start switch_stat)))
    /\ actvar_n (dyd ls') = S (actvar_n (dyd (start switch_stat))).
Proof.
  destruct (switchstat (cg := Emitter.gen) (parse_statement (cg := Emitter.gen) 12)
      (parse_expr (cg := Emitter.gen) 12) 12 1
              (start switch_stat)) as [[] ls'| |] eqn:E.
  - exists ls'. split; [reflexivity|].
    destruct (switchstat_leaves_control_variable emitter_scope_neutral 12 12 1
                (start switch_stat) ls') as (H1 & H2 & _).
    + vm_compute. discriminate.
    + vm_compute. lia.
    + exact E.
    + by split.
  - exfalso. vm_compute in E. discriminate E.
  - exfalso. vm_compute in E. discriminate E.
Defined.
(** ** The active variables through a statement *)

Lemma top_levels (i : nat) (s : FuncState) :
  top (S i) s = default 0%nat (map bl_nactvar (bl s) !! i).
Proof.
  unfold top. rewrite list_lookup_fmap. by destruct (bl s !! i).
Qed.

Lemma top_keys (i : nat) (s s' : FuncState) :
  keys s' = keys s -> top (S i) s' = top (S i) s.
Proof. intros H. by rewrite !top_levels, (levels_keys _ _ H). Qed.

Lemma foldr_min_lookup (l : list nat) (a : nat) (i : nat) (x : nat) :
  l !! i = Some x -> (foldr Nat.min a (take (S i) l) <= x)%nat.
Proof.
  revert i. induction l as [|y l IH]; intros [|i] H; try discriminate.
  - injection H as ->. cbn. lia.
  - cbn in H. apply IH in H. cbn [take foldr] in *. lia.
Qed.

Lemma floor_le_top (i : nat) (s : FuncState) :
  (i < length (bl s))%nat -> (floor (S i) s <= top (S i) s)%nat.
Proof.
  intros Hi. rewrite top_levels. unfold floor.
  destruct (map bl_nactvar (bl s) !! i) as [x|] eqn:E.
  - by apply foldr_min_lookup.
  - apply lookup_ge_None in E. rewrite length_map in E. lia.
Qed.

Lemma kruns_bind {A B} (m : P A) (g : A -> P B) i j k :
  kruns i j m -> (forall a, kruns j k (g a)) -> kruns i k (bind m g).
Proof.
  intros Hm Hg ls b ls' E Hpre Hf.
  apply bind_inv in E as (a & l1 & E1 & E2).
  destruct (Hm _ _ _ E1 Hpre Hf) as (S1 & F1 & T1).
  destruct (Hg a _ _ _ E2 (spost_pre _ _ _ _ _ _ Hpre S1) F1) as (S2 & F2 & T2).
  split; [by eapply spost_trans|]. split; [done|congruence].
Qed.

Lemma kruns_fuel {A} i j : kruns i j (out_of_fuel (A := A)).
Proof. intros ls a ls' E. discriminate E. Qed.

Lemma kruns_throw {A} i j e : kruns i j (throw (A := A) e).
Proof. intros ls a ls' E. discriminate E. Qed.

Lemma kruns_ret {A} (a : A) i : kruns i i (ret a).
Proof.
  intros ls x ls' E _ Hf. injection E as _ <-.
  split; [apply (same_scopes_sruns i 0), same_scopes_refl|]. by split.
Qed.

(** A piece that leaves the scopes and the count of active variables as
    they are, run outside the blocks to close. *)
Lemma kruns_keeps {A} (m : P A) : sstable m -> keeps_active m -> kruns 0 0 m.
Proof.
  intros Hs Hk ls a ls' E Hpre _.
  split; [by apply (Hs _ _ _ E)|]. split; [done|]. cbn. by apply (Hk _ _ _ E).
Qed.

(** A piece that leaves the scopes as they are, run inside the blocks to
    close: the variables it declares go with the blocks. *)
Lemma kruns_inner {A} (m : P A) i : sstable m -> kruns (S i) (S i) m.
Proof.
  intros Hs ls a ls' E Hpre Hf.
  pose proof (Hs _ _ _ E (spre_weaken (S i) 0 ls ltac:(lia) Hpre)) as H.
  pose proof (spost_lift (S i) 0 _ _ H) as Hl.
  pose proof (spost_pre _ _ _ _ _ _ Hpre Hl) as (_ & Hlen & _).
  destruct H as (_ & _ & _ & _ & _ & K & _). rewrite !drop_0 in K.
  pose proof (top_keys i _ _ K) as Ht.
  split; [done|]. split; [|done].
  destruct Hl as (_ & _ & _ & _ & _ & _ & _ & _ & F).
  pose proof (floor_le_top i (cur_fs ls') ltac:(lia)). lia.
Qed.

Lemma kruns_enterblock isloop_ i : kruns i (S i) (enterblock isloop_).
Proof.
  intros ls a ls' E Hpre Hf.
  split; [exact (sruns_enterblock isloop_ i 0 _ _ _ E Hpre)|].
  destruct Hpre as (Hne & _).
  unfold enterblock, modify in E. injection E as _ <-.
  destruct ls as [? ? ? ? [|s prev] d ? ? ? ?]; [done|].
  destruct s as [fp bls pc0 fl flab n fr nc].
  unfold cur_fs in *. cbn [ls_fs head default from_option id upd_fs set_ls_fs] in *.
  assert (Ht : forall b, top (S i) (mkFuncState fp (b :: bls) pc0 fl flab n fr nc)
                         = match i with
                           | O => bl_nactvar b
                           | S k => top (S k) (mkFuncState fp bls pc0 fl flab n fr nc)
                           end)
    by (by destruct i).
  assert (Hfl : forall b, bl_nactvar b = n ->
                  floor (S i) (mkFuncState fp (b :: bls) pc0 fl flab n fr nc)
                  = floor i (mkFuncState fp bls pc0 fl flab n fr nc)).
  { intros b Hb. unfold floor. cbn [bl nactvar map take foldr]. rewrite Hb.
    pose proof (foldr_min_le (take i (map bl_nactvar bls)) n). lia. }
  cbn -[top floor]. unfold set_bl. cbn -[top floor].
  rewrite Ht, Hfl by reflexivity. rewrite Hf.
  destruct i; split; reflexivity.
Qed.

Lemma kruns_leaveblock i : kruns (S i) i leaveblock.
Proof.
  intros ls a ls' E Hpre Hf.
  pose proof (sruns_leaveblock i 0 ltac:(lia) _ _ _ E Hpre) as Hs.
  split; [exact Hs|].
  assert (Hpre1 : spre 1 0 ls).
  { destruct Hpre as (? & ? & ?). split; [done|]. split; [lia|done]. }
  destruct (sruns_leaveblock 0 0 ltac:(lia) _ _ _ E Hpre1)
    as (_ & _ & _ & _ & _ & K & _). rewrite drop_0 in K.
  pose proof (leaveblock_nactvar _ _ _ E ltac:(by destruct Hpre)) as Hn.
  destruct Hpre as (_ & Hlen & _).
  unfold cur_bl in Hn. unfold floor in *. unfold keys in K.
  destruct (bl (cur_fs ls)) as [|b rest] eqn:Eb; [cbn in Hlen; lia|].
  cbn [map drop] in K. rewrite drop_0 in K.
  pose proof (levels_of_keys rest (bl (cur_fs ls')) K) as Hl.
  cbn [map take foldr head default from_option id] in Hf, Hn.
  assert (Hfl : foldr Nat.min (nactvar (cur_fs ls')) (take i (map bl_nactvar (bl (cur_fs ls'))))
                = Nat.min (bl_nactvar b)
                    (foldr Nat.min (nactvar (cur_fs ls)) (take i (map bl_nactvar rest)))).
  { rewrite Hl, Hn. apply foldr_min_min. }
  assert (Ht : top i (cur_fs ls') = top (S i) (cur_fs ls)).
  { destruct i as [|i].
    - unfold top in Hf |- *. rewrite Eb in Hf |- *. rewrite take_0 in Hf.
      cbn in Hf |- *. lia.
    - rewrite !top_levels, Hl, Eb. reflexivity. }
  split; [|exact Ht]. rewrite Hfl, Ht. exact Hf.
Qed.

Lemma kruns_active {A} (m : P A) : kruns 0 0 m -> keeps_active m.
Proof.
  intros H ls a ls' E Hpre. by destruct (H _ _ _ E Hpre eq_refl) as (_ & _ & Ht).
Qed.

(** The pieces of a statement, with the blocks they enter and leave. *)
Ltac kblocks :=
  repeat first
    [ progress intros
    | match goal with
      | |- kruns _ _ (bind _ _) => eapply kruns_bind
      | |- kruns _ _ (if ?c then _ else _) => destruct c
      | |- kruns _ _ (match ?x with _ => _ end) => destruct x
      | |- kruns _ _ ((if ?c then _ else _) _) => destruct c
      | |- kruns _ _ ((match ?x with _ => _ end) _) => destruct x
      end
    | apply kruns_fuel
    | apply kruns_throw
    | apply kruns_enterblock
    | apply kruns_leaveblock
    | apply kruns_ret
    | solve [apply kruns_inner; sframe]
    | solve [apply kruns_keeps; [sframe|kframe]]
    | progress cbv beta zeta
    | progress cbn [fst snd] ].

Section Quiet.

Context {cg : CodeGen}.
Hypothesis HN : ScopeNeutral cg.
Variable rs : option lu_hint -> P (option lu_hint).
Variable re : option lu_hint -> P (expdesc * option lu_hint).
Hypothesis Hrs : forall prop, sstable (rs prop).
Hypothesis Hre : forall prop, sstable (re prop).
Hypothesis Hke : forall prop, keeps_active (re prop).
Hypothesis Hqs : forall prop, keeps_unless_declaring (rs prop).

Lemma keeps_solvegoto g lb : keeps_active (solvegoto g lb).
Proof. unfold solvegoto, jumpscopeerror. kframe. Qed.
#[local] Hint Resolve keeps_solvegoto : kframe.

Lemma keeps_solvegotos_loop fuel : forall lb i c, keeps_active (solvegotos_loop fuel lb i c).
Proof. induction fuel as [|fuel IH]; intros; cbn [solvegotos_loop]; kframe. Qed.
#[local] Hint Resolve keeps_solvegotos_loop : kframe.

Lemma keeps_createlabel name line last : keeps_active (createlabel name line last).
Proof. unfold createlabel, solvegotos, newlabelentry. kframe. Qed.
#[local] Hint Resolve keeps_createlabel : kframe.

Lemma keeps_labelstat_skip fuel : keeps_active (labelstat_skip rs fuel).
Proof.
  induction fuel as [|fuel IH]; cbn [labelstat_skip]; [apply keeps_fuel|].
  intros ls a ls' E Hpre.
  apply bind_inv in E as (tk & l0 & E0 & E).
  assert (l0 = ls /\ tk = token (ls_t ls)) as [-> ->]
    by (unfold gett, gets in E0; split; congruence).
  destruct (tok_eqb _ (Tchar ";") || tok_eqb _ TK_DBCOLON) eqn:Ec.
  - apply bind_inv in E as (p1 & l1 & E1 & E).
    assert (Hq : declaring (token (ls_t ls)) = false).
    { apply orb_true_iff in Ec as [Ec|Ec]; apply tok_eqb_eq in Ec; by rewrite Ec. }
    rewrite (IH _ _ _ E (spost_pre _ _ _ _ _ _ Hpre (Hrs None _ _ _ E1 Hpre))).
    exact (Hqs None _ _ _ E1 Hpre Hq).
  - by injection E as _ <-.
Qed.
#[local] Hint Resolve keeps_labelstat_skip : kframe.

Lemma keeps_process_assign (a1 : nat) (a2 : lu_hint) : keeps_active (process_assign a1 a2).
Proof. unfold process_assign. kframe. Qed.
#[local] Hint Resolve keeps_process_assign : kframe.

Lemma keeps_check_readonly (a1 : expdesc) : keeps_active (check_readonly a1).
Proof. unfold check_readonly. kframe. Qed.
#[local] Hint Resolve keeps_check_readonly : kframe.

Lemma keeps_findlabel (a1 : TString) : keeps_active (findlabel a1).
Proof. unfold findlabel. kframe. Qed.
#[local] Hint Resolve keeps_findlabel : kframe.

Lemma keeps_newgotoentry (a1 : TString) (a2 : Z) (a3 : Z) : keeps_active (newgotoentry a1 a2 a3).
Proof. unfold newgotoentry. kframe. Qed.
#[local] Hint Resolve keeps_newgotoentry : kframe.

Lemma keeps_block_follow (a1 : bool) : keeps_active (block_follow a1).
Proof. unfold block_follow. kframe. Qed.
#[local] Hint Resolve keeps_block_follow : kframe.

Lemma keeps_block (a1 : nat) : keeps_active (block rs a1).
Proof. apply kruns_active. unfold block. kblocks. Qed.
#[local] Hint Resolve keeps_block : kframe.

Lemma keeps_check_conflict (a1 : list expdesc) (a2 : expdesc) : keeps_active (check_conflict a1 a2).
Proof. unfold check_conflict. kframe. Qed.
#[local] Hint Resolve keeps_check_conflict : kframe.

Lemma keeps_getcompoundop  : keeps_active (getcompoundop).
Proof. unfold getcompoundop. kframe. Qed.
#[local] Hint Resolve keeps_getcompoundop : kframe.

Lemma keeps_compoundassign (a1 : expdesc) (a2 : BinOpr) : keeps_active (compoundassign re a1 a2).
Proof. unfold compoundassign. kframe. Qed.
#[local] Hint Resolve keeps_compoundassign : kframe.

Lemma keeps_adjust_assign (a1 : nat) (a2 : nat) (a3 : expdesc) : keeps_active (adjust_assign a1 a2 a3).
Proof. unfold adjust_assign. kframe. Qed.
#[local] Hint Resolve keeps_adjust_assign : kframe.

Lemma keeps_restassign fuel : forall (a2 : expdesc) (a3 : list expdesc) (a4 : nat), keeps_active (restassign rs re fuel a2 a3 a4).
Proof. induction fuel as [|fuel IH]; intros; cbn [restassign]; kframe. Qed.
#[local] Hint Resolve keeps_restassign : kframe.

Lemma keeps_gotostat  : keeps_active (gotostat).
Proof. unfold gotostat. kframe. Qed.
#[local] Hint Resolve keeps_gotostat : kframe.

Lemma keeps_breakstat  : keeps_active (breakstat).
Proof. unfold breakstat. kframe. Qed.
#[local] Hint Resolve keeps_breakstat : kframe.

Lemma keeps_continuestat  : keeps_active (continuestat).
Proof. unfold continuestat. kframe. Qed.
#[local] Hint Resolve keeps_continuestat : kframe.

Lemma keeps_checkrepeated (a1 : TString) : keeps_active (checkrepeated a1).
Proof. unfold checkrepeated. kframe. Qed.
#[local] Hint Resolve keeps_checkrepeated : kframe.

Lemma keeps_labelstat (a1 : nat) (a2 : TString) (a3 : Z) : keeps_active (labelstat rs a1 a2 a3).
Proof. unfold labelstat. kframe. Qed.
#[local] Hint Resolve keeps_labelstat : kframe.

Lemma keeps_whilestat (a1 : nat) (a2 : Z) : keeps_active (whilestat rs re a1 a2).
Proof. apply kruns_active. unfold whilestat. kblocks. Qed.
#[local] Hint Resolve keeps_whilestat : kframe.

Lemma keeps_repeatstat (a1 : nat) : keeps_active (repeatstat rs re a1).
Proof. apply kruns_active. unfold repeatstat. kblocks. Qed.
#[local] Hint Resolve keeps_repeatstat : kframe.

Lemma keeps_forstat (a1 : nat) (a2 : Z) : keeps_active (forstat rs re a1 a2).
Proof. apply kruns_active. unfold forstat. kblocks. Qed.
#[local] Hint Resolve keeps_forstat : kframe.

Lemma keeps_skip_semicolons fuel : keeps_active (skip_semicolons fuel).
Proof. induction fuel as [|fuel IH]; intros; cbn [skip_semicolons]; kframe. Qed.
#[local] Hint Resolve keeps_skip_semicolons : kframe.

Lemma keeps_test_then_block (a1 : nat) (a2 : Z) (a3 : option lu_hint) : keeps_active (test_then_block rs re a1 a2 a3).
Proof. apply kruns_active. unfold test_then_block. kblocks. Qed.
#[local] Hint Resolve keeps_test_then_block : kframe.

Lemma keeps_ifstat_elseifs fuel : forall (a2 : Z) (a3 : option lu_hint), keeps_active (ifstat_elseifs rs re fuel a2 a3).
Proof. induction fuel as [|fuel IH]; intros; cbn [ifstat_elseifs]; kframe. Qed.
#[local] Hint Resolve keeps_ifstat_elseifs : kframe.

Lemma keeps_ifstat (a1 : nat) (a2 : Z) (a3 : option lu_hint) : keeps_active (ifstat rs re a1 a2 a3).
Proof. unfold ifstat. kframe. Qed.
#[local] Hint Resolve keeps_ifstat : kframe.

Lemma keeps_funcname_fields fuel : forall (a2 : expdesc), keeps_active (funcname_fields fuel a2).
Proof. induction fuel as [|fuel IH]; intros; cbn [funcname_fields]; kframe. Qed.
#[local] Hint Resolve keeps_funcname_fields : kframe.

Lemma keeps_funcname (a1 : nat) : keeps_active (funcname a1).
Proof. unfold funcname. kframe. Qed.
#[local] Hint Resolve keeps_funcname : kframe.

Lemma keeps_funcstat (a1 : nat) (a2 : Z) : keeps_active (funcstat rs a1 a2).
Proof. unfold funcstat. kframe. Qed.
#[local] Hint Resolve keeps_funcstat : kframe.

Lemma keeps_exprstat (a1 : nat) : keeps_active (exprstat rs re a1).
Proof. unfold exprstat. kframe. Qed.
#[local] Hint Resolve keeps_exprstat : kframe.

Lemma keeps_retstat (a1 : nat) (a2 : option lu_hint) : keeps_active (retstat re a1 a2).
Proof. unfold retstat. kframe. Qed.
#[local] Hint Resolve keeps_retstat : kframe.


Lemma keeps_statement fuel prop :
  keeps_unless_declaring (statement rs re fuel prop).
Proof.
  intros ls a ls' E Hpre Hq. unfold statement in E.
  apply bind_inv in E as (line & l0 & [= <- <-] & E).
  apply bind_inv in E as (u1 & l1 & E1 & E).
  stable_step E1 Hpre S1 P1. keeps_step E1 Hpre K1.
  assert (Ht1 : ls_t l1 = ls_t ls).
  { unfold enterlevel, bind, modify, gets in E1.
    destruct (_ <=? _)%nat; [discriminate|]. injection E1 as _ <-. by destruct ls. }
  apply bind_inv in E as (tk & l2 & E2 & E).
  assert (l2 = l1 /\ tk = token (ls_t l1)) as [-> ->]
    by (unfold gett, gets in E2; split; congruence).
  rewrite Ht1 in E. rewrite <- K1.
  set (tk := token (ls_t ls)) in *. clearbody tk.
  match type of E with
  | ?m l1 = _ => assert (Hm : keeps_active m); [|exact (Hm _ _ _ E P1)]
  end.
  destruct tk; try discriminate Hq; kframe.
Qed.

End Quiet.

Lemma parser_statements_keep {cg : CodeGen} (HN : ScopeNeutral cg) (n : nat) :
  forall prop, keeps_unless_declaring (fst (parser n) prop).
Proof.
  induction n as [|n IH]; cbn [parser fst]; intros prop.
  - intros ls a ls' E. discriminate E.
  - destruct (parser_scoped HN n) as [Hs He].
    apply keeps_statement; try assumption. apply (parser_exprs_keep HN).
Qed.

(** X18: only a local declaration and a switch change the variables of the
    scope they are in.  When the parser accepts a statement that does not
    start with [local] or [switch] (a block, a loop, a conditional, a
    function definition, a label, a jump, a return, an assignment or a
    call) and the code generator leaves the scopes to the parser, the
    function has after the statement exactly the active variables it had
    before, and the array of the parse has the count it had: the variables
    of the loops, of the blocks and of the functions inside the statement
    end with them. *)
Theorem statement_declares_nothing {cg : CodeGen} (HN : ScopeNeutral cg) (n : nat)
    (prop : option lu_hint) (ls : LexState) (r : option lu_hint) (ls' : LexState)
    (Hfn : ls_fs ls <> [])
    (Hact : (firstlocal (cur_fs ls) + nactvar (cur_fs ls) <= actvar_n (dyd ls))%nat)
    (Htok : declaring (token (ls_t ls)) = false)
    (Hrun : parse_statement n prop ls = Ok r ls') :
  nactvar (cur_fs ls') = nactvar (cur_fs ls)
  /\ actvar_n (dyd ls') = actvar_n (dyd ls).
Proof.
  assert (Hpre : spre 0 0 ls) by (split; [done|]; split; lia).
  destruct (parser_scoped HN n) as [Hs _].
  pose proof (parser_statements_keep HN n prop _ _ _ Hrun Hpre Htok) as Hk.
  destruct (Hs prop _ _ _ Hrun Hpre) as (_ & _ & _ & _ & _ & _ & Hp & _).
  split; [exact Hk|lia].
Qed.

Lemma statement_declares_nothing_witness :
  exists r ls',
    parse_statement (cg := Emitter.gen) 12 None (start for_stat) = Ok r ls'
    /\ nactvar (cur_fs ls') = nactvar (cur_fs (start for_stat))
    /\ actvar_n (dyd ls') = actvar_n (dyd (start for_stat)).
Proof.
  destruct (parse_statement (cg := Emitter.gen) 12 None (start for_stat))
    as [r ls'| |] eqn:E.
  - exists r, ls'. split; [reflexivity|].
    apply (statement_declares_nothing emitter_scope_neutral 12 None
             (start for_stat) r ls').
    + vm_compute. discriminate.
    + vm_compute. lia.
    + reflexivity.
    + exact E.
  - exfalso. vm_compute in E. discriminate E.
  - exfalso. vm_compute in E. discriminate E.
Defined.

(** ** The pending gotos through a parse *)

Lemma take_take_le {A} (a b : nat) (x y : list A) :
  take a x = take a y -> (b <= a)%nat -> take b x = take b y.
Proof.
  intros H Hb. rewrite <- (Nat.min_l b a Hb), <- !take_take. by rewrite H.
Qed.

Lemma take_delete_le {A} (n i : nat) (l : list A) :
  (n <= i)%nat -> take n (delete i l) = take n l.
Proof.
  revert n i. induction l as [|x l IH]; intros [|n] [|i] H; cbn; try reflexivity; try lia.
  f_equal. apply IH. lia.
Qed.

Lemma fgs_of_keys (l l' : list BlockCnt) :
  map bkey l' = map bkey l -> map firstgoto l' = map firstgoto l.
Proof.
  intros H. apply (f_equal (map (fun key => snd (fst (fst key))))) in H.
  rewrite !map_map in H. exact H.
Qed.

Lemma foldr_min_glb (l : list nat) (a b c : nat) :
  (c <= a)%nat -> (c <= foldr Nat.min b l)%nat -> (c <= foldr Nat.min a l)%nat.
Proof. induction l as [|x l IH]; cbn; [lia|]. intros Ha Hb. specialize (IH Ha). lia. Qed.

Lemma foldr_min_take_mono (l : list nat) (a : nat) (i j : nat) :
  (i <= j)%nat -> (foldr Nat.min a (take j l) <= foldr Nat.min a (take i l))%nat.
Proof.
  revert i j. induction l as [|x l IH]; intros [|i] [|j] H; cbn; try lia.
  - pose proof (foldr_min_le (take j l) a). lia.
  - specialize (IH i j ltac:(lia)). lia.
Qed.

Lemma gfloor_le_len i ls : (gfloor i ls <= length (gt (dyd ls)))%nat.
Proof. apply foldr_min_le. Qed.

Lemma gfloor_le_top i ls b rest :
  bl (cur_fs ls) = b :: rest -> (gfloor i ls <= firstgoto b)%nat.
Proof. intros H. unfold gfloor. rewrite H. cbn [map take foldr]. lia. Qed.

Lemma gfloor_mono i j ls : (i <= j)%nat -> (gfloor j ls <= gfloor i ls)%nat.
Proof. intros H. apply foldr_min_take_mono. lia. Qed.

Lemma gpost_pre i j ls ls' : gpre i ls -> gpost i j ls ls' -> gpre j ls'.
Proof. intros (Hne & Hi) (H1 & H2 & H3 & _). split; [done|lia]. Qed.

Lemma gpost_trans i j k l1 l2 l3 :
  gpost i j l1 l2 -> gpost j k l2 l3 -> gpost i k l1 l3.
Proof.
  intros (H1 & H2 & H3 & H4 & H5 & H6) (G1 & G2 & G3 & G4 & G5 & G6).
  split; [done|]. split; [congruence|]. split; [lia|]. split; [congruence|].
  split; [|lia]. rewrite <- H5. by apply (take_take_le _ _ _ _ G5).
Qed.

Lemma gruns_bind {A B} (m : P A) (g : A -> P B) i j k :
  gruns i j m -> (forall a, gruns j k (g a)) -> gruns i k (bind m g).
Proof.
  intros Hm Hg ls b ls' E Hpre.
  apply bind_inv in E as (a & l1 & E1 & E2).
  pose proof (Hm _ _ _ E1 Hpre) as H1.
  eapply gpost_trans; [exact H1|].
  apply (Hg a _ _ _ E2). by eapply gpost_pre.
Qed.

Lemma gruns_fuel {A} i j : gruns i j (out_of_fuel (A := A)).
Proof. intros ls a ls' E. discriminate E. Qed.

Lemma gruns_throw {A} i j e : gruns i j (throw (A := A) e).
Proof. intros ls a ls' E. discriminate E. Qed.

Lemma cur_keys_of_ksig ls ls' :
  ls_fs ls <> [] -> ksig ls' = ksig ls ->
  ls_fs ls' <> []
  /\ map keys (tail (ls_fs ls')) = map keys (tail (ls_fs ls))
  /\ keys (cur_fs ls') = keys (cur_fs ls).
Proof.
  unfold ksig, cur_fs. intros Hne H.
  destruct (ls_fs ls) as [|s l], (ls_fs ls') as [|s' l']; try done.
  cbn [map] in H. apply cons_inv in H as [Hs Hl]. by split.
Qed.

(** The state after a piece that leaves the blocks as they are and the
    gotos below the windows pending. *)
Lemma gpost_same i ls ls' :
  gpre i ls -> ksig ls' = ksig ls ->
  take (gfloor i ls) (gt (dyd ls')) = take (gfloor i ls) (gt (dyd ls)) ->
  (gfloor i ls <= length (gt (dyd ls')))%nat ->
  gpost i i ls ls'.
Proof.
  intros (Hne & Hi) Hk Ht Hl.
  destruct (cur_keys_of_ksig _ _ Hne Hk) as (Hne' & Htl & Hcur).
  split; [done|]. split; [done|].
  assert (Hfg : map firstgoto (bl (cur_fs ls')) = map firstgoto (bl (cur_fs ls)))
    by (by apply fgs_of_keys).
  split.
  { apply (f_equal length) in Hfg. rewrite !length_map in Hfg. lia. }
  split; [by rewrite Hcur|]. split; [done|].
  unfold gfloor at 2. rewrite Hfg. by apply (foldr_min_glb _ _ (length (gt (dyd ls)))).
Qed.

Lemma gruns_quiet {A} (m : P A) i : preserves gsig m -> gruns i i m.
Proof.
  intros H ls a ls' E Hpre. apply H in E. unfold gsig in E. injection E as Hg Hk.
  apply gpost_same; [done|done|by rewrite Hg|].
  rewrite Hg. apply gfloor_le_len.
Qed.

Lemma gruns_ret {A} (a : A) i : gruns i i (ret a).
Proof. apply gruns_quiet. intros ls x ls' [= _ <-]. reflexivity. Qed.

(** A piece that runs in the innermost block, seen from the blocks around
    it. *)
Lemma gruns_inner {A} (m : P A) i : gruns 0 0 m -> gruns i i m.
Proof.
  intros H ls a ls' E Hpre.
  assert (Hpre0 : gpre 0 ls) by (destruct Hpre; split; [done|lia]).
  destruct (H _ _ _ E Hpre0) as (H1 & H2 & H3 & H4 & H5 & H6).
  rewrite !drop_0 in H4.
  assert (Hfg : map firstgoto (bl (cur_fs ls')) = map firstgoto (bl (cur_fs ls)))
    by (by apply fgs_of_keys).
  pose proof (gfloor_mono 0 i ls ltac:(lia)) as Hm.
  split; [done|]. split; [done|]. split; [lia|]. split; [by rewrite H4|].
  split; [by apply (take_take_le _ _ _ _ H5)|].
  unfold gfloor at 2. rewrite Hfg.
  apply (foldr_min_glb _ _ (length (gt (dyd ls)))); [|done].
  pose proof (gfloor_le_len 0 ls'). lia.
Qed.

Lemma gruns_enterblock isloop_ i : gruns i (S i) (enterblock isloop_).
Proof.
  intros ls a ls' E (Hne & Hi).
  unfold enterblock, modify in E. injection E as _ <-.
  destruct ls as [? ? ? ? [|s prev] d ? ? ? ?]; [done|].
  unfold gpost, gfloor, cur_fs, keys.
  cbn [ls_fs dyd head default from_option id upd_fs set_ls_fs tail].
  destruct s as [fp bls pc0 fl flab n fr nc].
  unfold set_bl. cbn [bl map firstgoto length drop take foldr].
  split; [done|]. split; [done|]. split; [lia|]. split; [done|]. split; [done|].
  pose proof (foldr_min_le (take (S i) (map firstgoto bls)) (length (gt d))).
  cbn [take foldr] in *. lia.
Qed.

(** *** What keeps the pending gotos and the blocks *)

Lemma gsig_upd_fs g ls :
  (forall s, keys (g s) = keys s) -> gsig (upd_fs g ls) = gsig ls.
Proof.
  intros H. destruct ls as [? ? ? ? [|s prev] ? ? ? ? ?]; [done|].
  unfold gsig. cbn. by rewrite H.
Qed.

Lemma pres_gsig_callK {cg : CodeGen} {A} (g : Dyndata -> FuncState -> kres A) :
  neutral g -> preserves gsig (callK g).
Proof.
  intros H ls a ls' E. apply callK_inv in E as (s & E & ->). apply H in E.
  destruct ls as [? ? ? ? [|s0 prev] ? ? ? ? ?]; [done|].
  unfold gsig. cbn in *. unfold scope_of in E. f_equal. f_equal. congruence.
Qed.

Lemma keys_of_fsig (l l' : list FuncState) :
  map fsig l' = map fsig l -> map keys l' = map keys l.
Proof.
  intros H. apply (f_equal (map (fun x => fst (fst (fst x))))) in H.
  rewrite !map_map in H. exact H.
Qed.

Lemma pres_gsig_singlevaraux_P n base : preserves gsig (singlevaraux_P n base).
Proof.
  intros ls a ls' E. unfold singlevaraux_P in E.
  destruct (singlevaraux _ _ _ _) as [e|[var fss]] eqn:Es; [discriminate|].
  injection E as _ <-. apply singlevaraux_sig in Es as (Hsig & _).
  apply keys_of_fsig in Hsig. destruct ls. unfold gsig. cbn in *. by rewrite Hsig.
Qed.

Lemma pres_gsig_removevars tolevel : preserves gsig (removevars tolevel).
Proof.
  intros ls a ls' E. unfold removevars, modify in E. injection E as _ <-.
  destruct ls as [? ? ? ? [|s prev] d ? ? ? ?]; [done|].
  unfold gsig, cur_fs. cbn -[removevars_loop Nat.sub].
  match goal with |- context [removevars_loop ?f ?d1 ?t ?s1] =>
    destruct (removevars_loop_frame f d1 t s1) as (Hb & _) end.
  unfold keys at 1. rewrite Hb. reflexivity.
Qed.

Ltac gq_side :=
  let ls := fresh "ls" in
  intros ls;
  destruct ls as [? ? ? ? [|[] ?] [] ? ? ? ?];
  unfold gsig, ksig, keys, luaK_patchtohere, luaK_jumpto, luaK_patchlist, luaK_jump,
    luaK_fixline, luaK_codeABC, luaK_codeABx, luaK_codeAsBx, luaK_concat, luaK_code,
    luaK_getlabel, add_fixup, add_code, marktobeclosed, upd_bl;
  cbn;
  repeat match goal with
         | |- context [if ?c then _ else _] => destruct c; cbn
         | |- context [match ?l with [] => _ | _ :: _ => _ end] => destruct l; cbn
         end;
  rewrite ?keys_alter by (by intros []);
  try reflexivity;
  try (by repeat match goal with b : BlockCnt |- _ => destruct b end).

Create HintDb gq.

Ltac neutral_gq :=
  match goal with
  | HN : ScopeNeutral _ |- _ =>
      first [ apply (sn_infix _ HN) | apply (sn_posfix _ HN) | apply (sn_prefix _ HN)
            | apply (sn_dischargevars _ HN) | apply (sn_exp2nextreg _ HN)
            | apply (sn_exp2anyreg _ HN) | apply (sn_exp2anyregup _ HN)
            | apply (sn_exp2reg _ HN) | apply (sn_exp2val _ HN)
            | apply (sn_storevar _ HN) | apply (sn_setoneret _ HN)
            | apply (sn_setreturns _ HN) | apply (sn_goiftrue _ HN)
            | apply (sn_goiffalse _ HN) | apply (sn_indexed _ HN)
            | apply (sn_self _ HN) | apply (sn_nil _ HN) | apply (sn_int _ HN)
            | apply (sn_ret _ HN) | apply (sn_reserveregs _ HN)
            | apply (sn_checkstack _ HN) | apply (sn_setlist _ HN)
            | apply (sn_settablesize _ HN) | apply (sn_finish _ HN) ]
  end.

#[export] Hint Resolve pres_gsig_singlevaraux_P pres_gsig_removevars : gq.

(** The pieces that leave the pending gotos and the blocks as they are. *)
Ltac gq :=
  repeat first
    [ progress intros
    | match goal with
      | |- preserves _ (bind _ _) => apply pres_bind
      | |- preserves _ (if ?c then _ else _) => destruct c
      | |- preserves _ (match ?x with _ => _ end) => destruct x
      | |- preserves _ ((if ?c then _ else _) _) => destruct c
      | |- preserves _ ((match ?x with _ => _ end) _) => destruct x
      end
    | apply pres_ret | apply pres_throw | apply pres_fuel | apply pres_get
    | apply pres_gets
    | solve [apply pres_modify; gq_side]
    | solve [apply pres_onfs; gq_side]
    | solve [apply pres_onfs_; gq_side]
    | solve [apply pres_gsig_callK; neutral_gq]
    | solve [eauto 2 with gq]
    | progress cbv beta zeta
    | progress cbn [fst snd] ].

Lemma pres_gsig_throwerr {A} err here : preserves gsig (throwerr (A := A) err here).
Proof. apply pres_throw. Qed.

Lemma pres_gsig_errorlimit {A} limit what : preserves gsig (errorlimit (A := A) limit what).
Proof. apply pres_throw. Qed.

Lemma pres_gsig_error_expected {A} tk : preserves gsig (error_expected (A := A) tk).
Proof. intros ls a ls' E. by apply error_expected_fails in E. Qed.

Lemma pres_gsig_jumpscopeerror {A} g : preserves gsig (jumpscopeerror (A := A) g).
Proof. unfold jumpscopeerror. gq. Qed.

Lemma pres_gsig_undefgoto {A} g : preserves gsig (undefgoto (A := A) g).
Proof. unfold undefgoto. gq. Qed.

Lemma pres_gsig_luaX_next : preserves gsig luaX_next.
Proof.
  apply pres_modify. intros ls. destruct ls as [? inp ? ? ? ? ? ? ? ?].
  by destruct inp.
Qed.

Lemma pres_gsig_luaX_lookahead : preserves gsig luaX_lookahead.
Proof. apply pres_gets. Qed.

Lemma pres_gsig_gett : preserves gsig gett.
Proof. apply pres_gets. Qed.

Lemma pres_gsig_enterlevel : preserves gsig enterlevel.
Proof. unfold enterlevel. gq. Qed.

Lemma pres_gsig_leavelevel : preserves gsig leavelevel.
Proof. unfold leavelevel. gq. Qed.

Lemma pres_gsig_throw_warn err here arg : preserves gsig (throw_warn err here arg).
Proof. unfold throw_warn. gq. Qed.

Lemma pres_gsig_throw_warn_at err line : preserves gsig (throw_warn_at err line).
Proof. unfold throw_warn_at. gq. Qed.

#[export] Hint Resolve pres_gsig_throwerr pres_gsig_errorlimit pres_gsig_error_expected
  pres_gsig_jumpscopeerror pres_gsig_undefgoto pres_gsig_luaX_next
  pres_gsig_luaX_lookahead pres_gsig_gett pres_gsig_enterlevel pres_gsig_leavelevel
  pres_gsig_throw_warn pres_gsig_throw_warn_at : gq.

(** A step of a run that leaves the pending gotos and the blocks as they
    are. *)
Ltac gq_step E H :=
  match type of E with
  | ?m ?ls = Ok ?a ?ls' =>
      assert (H : gsig ls' = gsig ls)
        by (refine ((_ : preserves gsig m) ls a ls' E); gq)
  end.

(** *** Labels and the pending gotos *)

Lemma ksig_of_gsig ls ls' : gsig ls' = gsig ls -> ksig ls' = ksig ls.
Proof. unfold gsig, ksig. congruence. Qed.

Lemma gt_of_gsig ls ls' : gsig ls' = gsig ls -> gt (dyd ls') = gt (dyd ls).
Proof. unfold gsig. congruence. Qed.

(** Solving the pending gotos from [idx] on leaves those before it. *)
Lemma solvegotos_loop_window fuel : forall lb idx c ls a ls',
  solvegotos_loop fuel lb idx c ls = Ok a ls' ->
  ksig ls' = ksig ls
  /\ forall n, (n <= idx)%nat ->
       take n (gt (dyd ls')) = take n (gt (dyd ls))
       /\ ((n <= length (gt (dyd ls)))%nat -> (n <= length (gt (dyd ls')))%nat).
Proof.
  induction fuel as [|fuel IH]; intros lb idx c ls a ls' E; [discriminate|].
  cbn [solvegotos_loop] in E.
  apply bind_inv in E as (gl & l0 & [= <- <-] & E).
  destruct (idx <? length (gt (dyd ls)))%nat eqn:Hlt.
  2:{ injection E as _ <-. split; [done|]. by intros. }
  apply Nat.ltb_lt in Hlt.
  destruct (eqstr _ _).
  - apply bind_inv in E as (u & l1 & E1 & E).
    assert (H1 : ksig l1 = ksig ls
                 /\ gt (dyd l1) = delete idx (gt (dyd ls))).
    { unfold solvegoto in E1.
      apply bind_inv in E1 as (l0 & l0' & [= <- <-] & E1). cbv zeta in E1.
      apply bind_inv in E1 as (u1 & la & Ea & E1). gq_step Ea Ha.
      apply bind_inv in E1 as (u2 & lb0 & Eb & E1). gq_step Eb Hb.
      unfold modify in E1. injection E1 as _ <-.
      split.
      - apply ksig_of_gsig in Ha, Hb. destruct lb0. unfold ksig in *. cbn in *. congruence.
      - apply gt_of_gsig in Ha, Hb. destruct lb0. cbn in *.
        unfold remove_goto. rewrite Hb, Ha.
        apply Nat.ltb_lt in Hlt. by rewrite Hlt. }
    destruct H1 as (Hk1 & Hg1).
    destruct (IH _ _ _ _ _ _ E) as (Hk & Hw).
    split; [congruence|]. intros n Hn. destruct (Hw n Hn) as (Ht & Hl).
    rewrite Hg1 in Ht, Hl. rewrite take_delete_le in Ht by done.
    split; [done|]. intros Hlen. apply Hl.
    rewrite length_delete by (apply lookup_lt_is_Some; lia). lia.
  - destruct (IH _ _ _ _ _ _ E) as (Hk & Hw).
    split; [done|]. intros n Hn. apply Hw. lia.
Qed.

Lemma createlabel_window name line last ls c ls' :
  createlabel name line last ls = Ok c ls' ->
  ksig ls' = ksig ls
  /\ forall n, (n <= firstgoto (cur_bl (cur_fs ls)))%nat ->
       take n (gt (dyd ls')) = take n (gt (dyd ls))
       /\ ((n <= length (gt (dyd ls)))%nat -> (n <= length (gt (dyd ls')))%nat).
Proof.
  intros E. unfold createlabel in E.
  apply bind_inv in E as (l0 & l0' & [= <- <-] & E). cbv zeta in E.
  unfold newlabelentry in E.
  apply bind_inv in E as (u1 & l1 & E1 & E). gq_step E1 H1.
  apply bind_inv in E as (nc & l2 & E2 & E).
  unfold solvegotos in E2.
  apply bind_inv in E2 as (l1' & l1'' & [= <- <-] & E2).
  destruct (solvegotos_loop_window _ _ _ _ _ _ _ E2) as (Hk2 & Hw2).
  assert (Hbl : cur_bl (cur_fs l1) = cur_bl (cur_fs ls)).
  { unfold modify in E1. injection E1 as _ <-. by destruct ls. }
  rewrite Hbl in Hw2.
  assert (H3 : gsig ls' = gsig l2).
  { destruct nc.
    - apply bind_inv in E as (l2' & l2'' & [= <- <-] & E).
      apply bind_inv in E as (u3 & l3 & E3 & E). gq_step E3 H3.
      by injection E as _ <-.
    - by injection E as _ <-. }
  split.
  - apply ksig_of_gsig in H1, H3. congruence.
  - intros n Hn. destruct (Hw2 n Hn) as (Ht & Hl).
    apply gt_of_gsig in H1, H3. rewrite H3, Ht, H1. split; [done|].
    intros Hlen. apply Hl. by rewrite H1.
Qed.

Lemma gruns_createlabel name line last i : gruns i i (createlabel name line last).
Proof.
  intros ls c ls' E Hpre.
  destruct (createlabel_window _ _ _ _ _ _ E) as (Hk & Hw).
  assert (Hf : (gfloor i ls <= firstgoto (cur_bl (cur_fs ls)))%nat).
  { destruct Hpre as (_ & Hi). unfold cur_bl.
    destruct (bl (cur_fs ls)) as [|b rest] eqn:Eb; [cbn in Hi; lia|].
    by apply (gfloor_le_top i ls b rest). }
  destruct (Hw _ Hf) as (Ht & Hl).
  apply gpost_same; [done|done|done|]. apply Hl, gfloor_le_len.
Qed.

Lemma gruns_newgotoentry name line pc_ i : gruns i i (newgotoentry name line pc_).
Proof.
  intros ls c ls' E Hpre. unfold newgotoentry, newlabelentry in E.
  apply bind_inv in E as (l0 & l0' & [= <- <-] & E). cbv zeta in E.
  apply bind_inv in E as (u1 & l1 & E1 & E). injection E as _ <-.
  unfold modify in E1. injection E1 as _ <-.
  pose proof (gfloor_le_len i ls) as Hle.
  apply gpost_same; [done|by destruct ls| |].
  - destruct ls as [? ? ? ? ? d ? ? ? ?]. cbn in *. destruct d. cbn in *.
    by rewrite take_app_le.
  - destruct ls as [? ? ? ? ? d ? ? ? ?]. cbn in *. destruct d. cbn in *.
    rewrite length_app. lia.
Qed.

(** Leaving a block that is not the outermost of its function. *)
Lemma gruns_leaveblock i : gruns (S i) i leaveblock.
Proof.
  intros ls a ls' E (Hne & Hi).
  destruct (bl (cur_fs ls)) as [|b [|b' rest]] eqn:Ebl; [cbn in Hi; lia..|].
  assert (Hfb : (gfloor (S i) ls <= firstgoto b)%nat) by (by eapply gfloor_le_top).
  pose proof (gfloor_le_len (S i) ls) as Hfl.
  unfold leaveblock in E.
  apply bind_inv in E as (l0 & l0' & [= <- <-] & E). cbv zeta in E.
  unfold cur_bl in E. rewrite Ebl in E.
  cbn [head default from_option id tail length Nat.eqb negb] in E.
  apply bind_inv in E as (hasclose & l1 & E1 & E).
  assert (H1 : ksig l1 = ksig ls
               /\ take (gfloor (S i) ls) (gt (dyd l1)) = take (gfloor (S i) ls) (gt (dyd ls))
               /\ (gfloor (S i) ls <= length (gt (dyd l1)))%nat).
  { destruct (isloop b).
    - destruct (createlabel_window _ _ _ _ _ _ E1) as (Hk & Hw).
      unfold cur_bl in Hw. rewrite Ebl in Hw. cbn in Hw.
      destruct (Hw _ Hfb) as (Ht & Hl). split; [done|]. split; [done|]. by apply Hl.
    - injection E1 as _ <-. by split. }
  destruct H1 as (Hk1 & Ht1 & Hl1).
  apply bind_inv in E as (u2 & l2 & E2 & E). gq_step E2 H2.
  apply bind_inv in E as (u3 & l3 & E3 & E).
  apply bind_inv in E as (u4 & l4 & E4 & E). gq_step E4 H4.
  apply bind_inv in E as (u5 & l5 & E5 & E). gq_step E5 H5.
  apply bind_inv in E as (u6 & l6 & E6 & E). gq_step E6 H6.
  assert (Hk2 : ksig l2 = ksig ls) by (apply ksig_of_gsig in H2; congruence).
  assert (Hg2 : gt (dyd l2) = gt (dyd l1)) by (by apply gt_of_gsig).
  assert (H3 : gt (dyd l3) = gt (dyd l2)
               /\ ls_fs l3 <> []
               /\ map keys (tail (ls_fs l3)) = map keys (tail (ls_fs ls))
               /\ bl (cur_fs l3) = b' :: rest).
  { unfold onfs_, modify in E3. injection E3 as _ <-.
    unfold ksig in Hk2.
    destruct l2 as [? ? ? ? [|s2 prev2] ? ? ? ? ?], ls as [? ? ? ? [|s0 prev0] ? ? ? ? ?];
      try done.
    cbn in *. apply cons_inv in Hk2 as [_ Hk2]. split; [done|]. split; [done|].
    split; [done|]. unfold cur_fs. cbn. by destruct s2. }
  destruct H3 as (Hg3 & Hne3 & Htl3 & Hbl3).
  assert (Hk6 : ksig l6 = ksig l3).
  { apply ksig_of_gsig in H4, H5, H6. congruence. }
  assert (Hg6 : gt (dyd l6) = gt (dyd l1)).
  { apply gt_of_gsig in H4, H5, H6. congruence. }
  destruct (cur_keys_of_ksig _ _ Hne3 Hk6) as (Hne6 & Htl6 & Hcur6).
  assert (Hfin : ksig ls' = ksig l6
                 /\ take (firstgoto b) (gt (dyd ls'))
                    = take (firstgoto b) (gt (dyd l6))
                 /\ length (gt (dyd ls')) = length (gt (dyd l6))).
  { unfold movegotosout, modify in E. injection E as _ <-.
    destruct l6 as [? ? ? ? ? d6 ? ? ? ?]. destruct d6. cbn.
    split; [done|]. split; [apply take_take_app_drop|].
    rewrite length_app, length_map, length_take, length_drop. lia. }
  destruct Hfin as (Hkf & Hgf & Hlf).
  destruct (cur_keys_of_ksig _ _ Hne6 Hkf) as (Hne' & Htl' & Hcur').
  assert (Hkeys : keys (cur_fs ls') = map bkey (b' :: rest)).
  { rewrite Hcur', Hcur6. unfold keys. by rewrite Hbl3. }
  assert (Hfg : map firstgoto (bl (cur_fs ls')) = map firstgoto (b' :: rest))
    by (by apply fgs_of_keys).
  split; [done|]. split; [congruence|].
  split.
  { apply (f_equal length) in Hfg. rewrite !length_map in Hfg.
    rewrite Hfg, Ebl. cbn [length]. lia. }
  split.
  { rewrite Hkeys. unfold keys. rewrite Ebl. reflexivity. }
  split.
  - rewrite (take_take_le _ _ _ _ Hgf Hfb), Hg6. exact Ht1.
  - unfold gfloor at 2. rewrite Hfg, Hlf, Hg6.
    apply (foldr_min_glb _ _ (length (gt (dyd ls)))); [done|].
    unfold gfloor. rewrite Ebl. cbn [map take foldr]. lia.
Qed.

(** ** The pending gotos through the statements *)

Lemma adjustlocalvars_loop_gt n : forall r d s,
  gt (fst (adjustlocalvars_loop n r d s)) = gt d.
Proof.
  induction n as [|n IH]; intros r d s; cbn [adjustlocalvars_loop]; [done|].
  cbv zeta. unfold registerlocalvar.
  match goal with |- context [adjustlocalvars_loop n ?r1 ?d1 ?s1] =>
    rewrite (IH r1 d1 s1) end.
  by destruct d.
Qed.

Lemma gpost_refl ls : ls_fs ls <> [] -> gpost 0 0 ls ls.
Proof. intros H. split; [done|]. by repeat split. Qed.

Lemma open_func_ne fp ls u ls1 : open_func fp ls = Ok u ls1 -> ls_fs ls1 <> [].
Proof. intros E. apply open_func_state in E as (s1 & -> & _). done. Qed.

Lemma open_func_gpre fp ls u ls1 : open_func fp ls = Ok u ls1 -> gpre 0 ls1.
Proof.
  intros E. apply open_func_state in E as (s1 & Hfs & _ & Hk & _).
  split; [by rewrite Hfs|]. unfold cur_fs. rewrite Hfs. cbn.
  apply (f_equal length) in Hk. unfold keys in Hk. rewrite length_map in Hk.
  rewrite Hk. cbn. lia.
Qed.

(** Leaving the outermost block of a function: no goto is pending in it. *)
Lemma leaveblock_outermost ls u ls' b :
  leaveblock ls = Ok u ls' -> ls_fs ls <> [] ->
  bl (cur_fs ls) = [b] -> isloop b = false ->
  gt (dyd ls') = gt (dyd ls)
  /\ (length (gt (dyd ls)) <= firstgoto b)%nat
  /\ ls_fs ls' <> []
  /\ map keys (tail (ls_fs ls')) = map keys (tail (ls_fs ls)).
Proof.
  intros E Hne Hbl Hloop. unfold leaveblock in E.
  apply bind_inv in E as (l0 & l0' & [= <- <-] & E). cbv zeta in E.
  unfold cur_bl in E. rewrite Hbl in E.
  cbn [head default from_option id tail length Nat.eqb negb] in E.
  rewrite Hloop in E.
  apply bind_inv in E as (hasclose & l1 & [= <- <-] & E).
  rewrite andb_false_r in E. cbn [andb] in E.
  apply bind_inv in E as (u2 & l2 & [= <- <-] & E).
  apply bind_inv in E as (u3 & l3 & E3 & E).
  apply bind_inv in E as (u4 & l4 & E4 & E). gq_step E4 H4.
  apply bind_inv in E as (u5 & l5 & E5 & E). gq_step E5 H5.
  apply bind_inv in E as (u6 & l6 & E6 & E). gq_step E6 H6.
  apply bind_inv in E as (gl & l7 & [= <- <-] & E).
  assert (H3 : gt (dyd l3) = gt (dyd ls) /\ ls_fs l3 <> []
               /\ map keys (tail (ls_fs l3)) = map keys (tail (ls_fs ls))).
  { unfold onfs_, modify in E3. injection E3 as _ <-.
    by destruct ls as [? ? ? ? [|s0 prev0] ? ? ? ? ?]. }
  destruct H3 as (Hg3 & Hne3 & Htl3).
  assert (Hk6 : ksig l6 = ksig l3) by (apply ksig_of_gsig in H4, H5, H6; congruence).
  assert (Hg6 : gt (dyd l6) = gt (dyd ls)) by (apply gt_of_gsig in H4, H5, H6; congruence).
  destruct (cur_keys_of_ksig _ _ Hne3 Hk6) as (Hne6 & Htl6 & _).
  destruct (Nat.ltb_spec (firstgoto b) (length (gt (dyd l6)))) as [Hlt|Hge].
  - unfold undefgoto in E. by destruct (eqstr _ _).
  - injection E as _ <-. rewrite Hg6 in Hge.
    split; [done|]. split; [done|]. split; [done|congruence].
Qed.

(** A function that is opened, compiled by pieces that leave the pending
    gotos below its block as they are, and closed: the pending gotos and
    the blocks of the enclosing functions are as they were. *)
Lemma scoped_function_gotos {cg : CodeGen} (HN : ScopeNeutral cg)
    fp ls0 u ls1 ls2 fp' ls3 :
  open_func fp ls0 = Ok u ls1 ->
  gpost 0 0 ls1 ls2 ->
  close_func ls2 = Ok fp' ls3 ->
  gsig ls3 = gsig ls0.
Proof.
  intros Eopen Hin Eclose.
  apply open_func_state in Eopen as (s1 & Hfs1 & Hd1 & Hk1 & _).
  assert (Hcur1 : cur_fs ls1 = s1) by (unfold cur_fs; by rewrite Hfs1).
  destruct Hin as (Hne2 & Htl2 & _ & Hk2 & Ht2 & Hf2).
  rewrite !drop_0, Hcur1, Hk1 in Hk2.
  assert (Hfl1 : gfloor 0 ls1 = length (gt (dyd ls0))).
  { unfold gfloor. rewrite Hcur1, Hd1.
    assert (Hfg : map firstgoto (bl s1) = [length (gt (dyd ls0))]).
    { unfold keys in Hk1. apply (f_equal (map (fun key => snd (fst (fst key))))) in Hk1.
      by rewrite map_map in Hk1. }
    rewrite Hfg. cbn. lia. }
  rewrite Hfl1, Hd1 in Ht2. rewrite Hfl1 in Hf2.
  rewrite (take_ge (gt (dyd ls0))) in Ht2 by lia.
  unfold close_func in Eclose.
  apply bind_inv in Eclose as (l2 & l2' & [= <- <-] & E).
  apply bind_inv in E as (u3 & l3 & E3 & E). gq_step E3 H3.
  apply bind_inv in E as (u4 & l4 & E4 & E).
  destruct (cur_keys_of_ksig _ _ Hne2 (ksig_of_gsig _ _ H3)) as (Hne3 & Htl3 & Hcur3).
  rewrite Hk2 in Hcur3.
  destruct (bl (cur_fs l3)) as [|b [|b' rest]] eqn:Ebl;
    unfold keys in Hcur3; rewrite Ebl in Hcur3; try discriminate.
  cbn in Hcur3. injection Hcur3 as _ Hfg _ Hloop.
  destruct (leaveblock_outermost _ _ _ _ E4 Hne3 Ebl Hloop) as (Hg4 & Hlen & Hne4 & Htl4).
  apply bind_inv in E as (u5 & l5 & E5 & E). gq_step E5 H5.
  apply bind_inv in E as (l5' & l5'' & [= <- <-] & E).
  apply bind_inv in E as (u6 & l6 & E6 & E). injection E as _ <-.
  unfold modify in E6. injection E6 as _ <-.
  destruct (cur_keys_of_ksig _ _ Hne4 (ksig_of_gsig _ _ H5)) as (Hne5 & Htl5 & _).
  apply gt_of_gsig in H3, H5.
  assert (Hg2 : gt (dyd ls2) = gt (dyd ls0)).
  { rewrite <- Ht2. symmetry. apply take_ge.
    pose proof (gfloor_le_len 0 ls2). rewrite <- H3. lia. }
  unfold gsig. destruct l5 as [? ? ? ? fss5 d5 ? ? ? ?]. cbn in *.
  f_equal; [congruence|].
  rewrite Htl5, Htl4, Htl3, Htl2, Hfs1. reflexivity.
Qed.

(** The pieces of a statement, with the blocks they enter and leave. *)
Create HintDb gb.

Ltac gblocks :=
  repeat first
    [ progress intros
    | match goal with
      | |- gruns _ _ (bind _ _) => eapply gruns_bind
      | |- gruns _ _ (if ?c then _ else _) => destruct c
      | |- gruns _ _ (match ?x with _ => _ end) => destruct x
      | |- gruns _ _ ((if ?c then _ else _) _) => destruct c
      | |- gruns _ _ ((match ?x with _ => _ end) _) => destruct x
      end
    | apply gruns_fuel
    | apply gruns_throw
    | apply gruns_enterblock
    | apply gruns_leaveblock
    | apply gruns_ret
    | apply gruns_createlabel
    | apply gruns_newgotoentry
    | solve [eauto 2 with gb]
    | solve [apply gruns_inner; eauto 2 with gb]
    | solve [apply gruns_quiet; gq]
    | progress cbv beta zeta
    | progress cbn [fst snd] ].

(** The steps of a run in the block of a function, up to the first step
    that leaves it. *)
Ltac gb_chain :=
  repeat match goal with
         | E : (let (_, _) := ?x in _) _ = Ok _ _ |- _ => destruct x
         | E : bind ?m _ ?l = Ok _ _, Hp : gpre 0 ?l, Hacc : gpost 0 0 _ ?l |- _ =>
             let Es := fresh "Es" in
             let Hs := fresh "Hs" in
             let Hp' := fresh "Hp" in
             let Hacc' := fresh "Hacc" in
             apply bind_inv in E as (? & ? & Es & E);
             assert (Hs : gruns 0 0 m) by (solve [gblocks]);
             apply (fun H => Hs _ _ _ H Hp) in Es;
             pose proof (gpost_pre _ _ _ _ Hp Es) as Hp';
             pose proof (gpost_trans _ _ _ _ _ _ Hacc Es) as Hacc';
             clear Hacc Hp Hs Es;
             rename Hacc' into Hacc;
             cbv beta zeta in E
         end.

Section Gotos.

Context {cg : CodeGen}.
Hypothesis HN : ScopeNeutral cg.
Variable rs : option lu_hint -> P (option lu_hint).
Variable re : option lu_hint -> P (expdesc * option lu_hint).
Hypothesis Hrs : forall prop, gruns 0 0 (rs prop).
Hypothesis Hre : forall prop, preserves gsig (re prop).

#[local] Hint Resolve Hre : gq.
#[local] Hint Resolve Hrs : gb.

Lemma gq_checklimit (a1 : Z) (a2 : Z) (a3 : string) : preserves gsig (checklimit a1 a2 a3).
Proof. unfold checklimit. solve [gq]. Qed.
#[local] Hint Resolve gq_checklimit : gq.

Lemma gq_testnext (a1 : Tok) : preserves gsig (testnext a1).
Proof. unfold testnext. solve [gq]. Qed.
#[local] Hint Resolve gq_testnext : gq.

Lemma gq_check (a1 : Tok) : preserves gsig (check a1).
Proof. unfold check. solve [gq]. Qed.
#[local] Hint Resolve gq_check : gq.

Lemma gq_checknext (a1 : Tok) : preserves gsig (checknext a1).
Proof. unfold checknext. solve [gq]. Qed.
#[local] Hint Resolve gq_checknext : gq.

Lemma gq_testnext2 (a1 : Tok) (a2 : Tok) : preserves gsig (testnext2 a1 a2).
Proof. unfold testnext2. solve [gq]. Qed.
#[local] Hint Resolve gq_testnext2 : gq.

Lemma gq_check_condition (a1 : bool) (a2 : string) : preserves gsig (check_condition a1 a2).
Proof. unfold check_condition. solve [gq]. Qed.
#[local] Hint Resolve gq_check_condition : gq.

Lemma gq_check_match (a1 : Tok) (a2 : Tok) (a3 : Z) : preserves gsig (check_match a1 a2 a3).
Proof. unfold check_match. solve [gq]. Qed.
#[local] Hint Resolve gq_check_match : gq.

Lemma gq_str_checkname (a1 : bool) : preserves gsig (str_checkname a1).
Proof. unfold str_checkname. solve [gq]. Qed.
#[local] Hint Resolve gq_str_checkname : gq.

Lemma gq_codename  : preserves gsig (codename).
Proof. unfold codename. solve [gq]. Qed.
#[local] Hint Resolve gq_codename : gq.

Lemma gq_gettypehint  : preserves gsig (gettypehint).
Proof. unfold gettypehint. solve [gq]. Qed.
#[local] Hint Resolve gq_gettypehint : gq.

Lemma gq_process_assign (a1 : nat) (a2 : lu_hint) : preserves gsig (process_assign a1 a2).
Proof. unfold process_assign. solve [gq]. Qed.
#[local] Hint Resolve gq_process_assign : gq.

Lemma gq_new_localvar_warn d s name idxs : preserves gsig (new_localvar_warn d s name idxs).
Proof. induction idxs as [|i rest IH]; cbn [new_localvar_warn]; gq. Qed.
#[local] Hint Resolve gq_new_localvar_warn : gq.

Lemma gq_new_localvar (a1 : TString) : preserves gsig (new_localvar a1).
Proof. unfold new_localvar. solve [gq]. Qed.
#[local] Hint Resolve gq_new_localvar : gq.

Lemma gq_check_readonly (a1 : expdesc) : preserves gsig (check_readonly a1).
Proof. unfold check_readonly. solve [gq]. Qed.
#[local] Hint Resolve gq_check_readonly : gq.

Lemma gq_adjustlocalvars n : preserves gsig (adjustlocalvars n).
Proof.
  intros ls a ls' E. unfold adjustlocalvars, modify in E. injection E as _ <-.
  destruct (adjustlocalvars_loop_scope n (luaY_nvarstack (dyd ls) (cur_fs ls))
              (dyd ls) (cur_fs ls)) as (_ & H2 & _).
  pose proof (adjustlocalvars_loop_gt n (luaY_nvarstack (dyd ls) (cur_fs ls))
                (dyd ls) (cur_fs ls)) as H1.
  destruct (adjustlocalvars_loop _ _ _ _) as [d1 s1]. cbn [fst snd] in *.
  destruct ls as [? ? ? ? [|s prev] d ? ? ? ?]; unfold gsig; cbn in *; [by rewrite H1|].
  unfold keys at 1. unfold cur_fs in H2. cbn in H2. by rewrite H1, H2.
Qed.
#[local] Hint Resolve gq_adjustlocalvars : gq.

Lemma gq_findlabel (a1 : TString) : preserves gsig (findlabel a1).
Proof. unfold findlabel. solve [gq]. Qed.
#[local] Hint Resolve gq_findlabel : gq.

Lemma gq_addprototype  : preserves gsig (addprototype).
Proof. unfold addprototype. solve [gq]. Qed.
#[local] Hint Resolve gq_addprototype : gq.

Lemma gq_block_follow (a1 : bool) : preserves gsig (block_follow a1).
Proof. unfold block_follow. solve [gq]. Qed.
#[local] Hint Resolve gq_block_follow : gq.

Lemma gb_statlist_loop fuel : forall (a2 : option lu_hint) (a3 : bool), gruns 0 0 (statlist_loop rs fuel a2 a3).
Proof. induction fuel as [|fuel IH]; intros; cbn [statlist_loop]; solve [gblocks]. Qed.
#[local] Hint Resolve gb_statlist_loop : gb.

Lemma gb_statlist (a1 : nat) (a2 : option lu_hint) : gruns 0 0 (statlist rs a1 a2).
Proof. unfold statlist. solve [gblocks]. Qed.
#[local] Hint Resolve gb_statlist : gb.

Lemma gb_caselist fuel : forall (a2 : bool), gruns 0 0 (caselist rs fuel a2).
Proof. induction fuel as [|fuel IH]; intros; cbn [caselist]; solve [gblocks]. Qed.
#[local] Hint Resolve gb_caselist : gb.

Lemma gq_explist_loop fuel : forall (a2 : expdesc) (a3 : nat), preserves gsig (explist_loop re fuel a2 a3).
Proof. induction fuel as [|fuel IH]; intros; cbn [explist_loop]; solve [gq]. Qed.
#[local] Hint Resolve gq_explist_loop : gq.

Lemma gq_explist (a1 : nat) (a2 : option lu_hint) : preserves gsig (explist re a1 a2).
Proof. unfold explist. solve [gq]. Qed.
#[local] Hint Resolve gq_explist : gq.

Lemma gq_singlevar  : preserves gsig (singlevar).
Proof. unfold singlevar. solve [gq]. Qed.
#[local] Hint Resolve gq_singlevar : gq.

Lemma gq_fieldsel (a1 : expdesc) : preserves gsig (fieldsel a1).
Proof. unfold fieldsel. solve [gq]. Qed.
#[local] Hint Resolve gq_fieldsel : gq.

Lemma gq_setvararg (a1 : nat) : preserves gsig (setvararg a1).
Proof. unfold setvararg. solve [gq]. Qed.
#[local] Hint Resolve gq_setvararg : gq.

Lemma gq_parlist_loop fuel : forall (a2 : nat), preserves gsig (parlist_loop fuel a2).
Proof. induction fuel as [|fuel IH]; intros; cbn [parlist_loop]; solve [gq]. Qed.
#[local] Hint Resolve gq_parlist_loop : gq.

Lemma gq_parlist (a1 : nat) : preserves gsig (parlist a1).
Proof. unfold parlist. solve [gq]. Qed.
#[local] Hint Resolve gq_parlist : gq.

Lemma gq_codeclosure : preserves gsig codeclosure.
Proof.
  intros ls a ls' E. unfold codeclosure in E.
  destruct (luaK_codeABx _ _ _ _) as [at_pc s1] eqn:E1.
  destruct (luaK_exp2nextreg _ _ _) as [v s2|e] eqn:E2; [|discriminate].
  injection E as _ <-. apply (sn_exp2nextreg _ HN) in E2.
  assert (Hk : keys s2 = keys (prev_fs ls)).
  { unfold scope_of in E2. injection E2 as -> _ _ _ _.
    unfold luaK_codeABx, luaK_code in E1. injection E1 as _ <-.
    by destruct (prev_fs ls). }
  unfold upd_prev_fs, prev_fs, gsig in *.
  destruct ls as [? ? ? ? [|s [|p0 rest]] d ? ? ? ?]; cbn in *; try done.
  by rewrite Hk.
Qed.
#[local] Hint Resolve gq_codeclosure : gq.

Lemma gq_body fuel ismethod line prop :
  preserves gsig (body rs fuel ismethod line prop).
Proof.
  intros ls a ls' E. unfold body in E.
  apply bind_inv in E as (fp0 & l0 & E0 & E). gq_step E0 H0.
  apply bind_inv in E as (u1 & l1 & Eopen & E).
  pose proof (gpost_refl l1 (open_func_ne _ _ _ _ Eopen)) as Hacc.
  pose proof (open_func_gpre _ _ _ _ Eopen) as Hpre1.
  gb_chain.
  apply bind_inv in E as (fp1 & l3 & Eclose & E).
  pose proof (scoped_function_gotos HN _ _ _ _ _ _ _ Eopen Hacc Eclose) as Kf.
  apply bind_inv in E as (u4 & l4 & E4 & E). injection E as _ <-.
  gq_step E4 H4. congruence.
Qed.
#[local] Hint Resolve gq_body : gq.

Lemma gq_yindex  : preserves gsig (yindex re).
Proof. unfold yindex. solve [gq]. Qed.
#[local] Hint Resolve gq_yindex : gq.

Lemma gq_recfield (a1 : ConsControl) : preserves gsig (recfield re a1).
Proof. unfold recfield. solve [gq]. Qed.
#[local] Hint Resolve gq_recfield : gq.

Lemma gq_prenamedfield (a1 : ConsControl) (a2 : string) : preserves gsig (prenamedfield re a1 a2).
Proof. unfold prenamedfield. solve [gq]. Qed.
#[local] Hint Resolve gq_prenamedfield : gq.

Lemma gq_closelistfield (a1 : ConsControl) : preserves gsig (closelistfield a1).
Proof. unfold closelistfield. solve [gq]. Qed.
#[local] Hint Resolve gq_closelistfield : gq.

Lemma gq_lastlistfield (a1 : ConsControl) : preserves gsig (lastlistfield a1).
Proof. unfold lastlistfield. solve [gq]. Qed.
#[local] Hint Resolve gq_lastlistfield : gq.

Lemma gq_listfield (a1 : ConsControl) : preserves gsig (listfield re a1).
Proof. unfold listfield. solve [gq]. Qed.
#[local] Hint Resolve gq_listfield : gq.

Lemma gq_funcfield (a1 : nat) (a2 : ConsControl) : preserves gsig (funcfield rs a1 a2).
Proof. unfold funcfield. solve [gq]. Qed.
#[local] Hint Resolve gq_funcfield : gq.

Lemma gq_field (a1 : nat) (a2 : ConsControl) : preserves gsig (field rs re a1 a2).
Proof. unfold field. solve [gq]. Qed.
#[local] Hint Resolve gq_field : gq.

Lemma gq_constructor_fields fuel : forall (a2 : ConsControl), preserves gsig (constructor_fields rs re fuel a2).
Proof. induction fuel as [|fuel IH]; intros; cbn [constructor_fields]; solve [gq]. Qed.
#[local] Hint Resolve gq_constructor_fields : gq.

Lemma gq_constructor (a1 : nat) : preserves gsig (constructor rs re a1).
Proof. unfold constructor. solve [gq]. Qed.
#[local] Hint Resolve gq_constructor : gq.

Lemma gq_funcargs (a1 : nat) (a2 : expdesc) (a3 : Z) : preserves gsig (funcargs rs re a1 a2 a3).
Proof. unfold funcargs. solve [gq]. Qed.
#[local] Hint Resolve gq_funcargs : gq.

Lemma gq_safe_navigation (a1 : expdesc) : preserves gsig (safe_navigation re a1).
Proof. unfold safe_navigation. solve [gq]. Qed.
#[local] Hint Resolve gq_safe_navigation : gq.

Lemma gq_skip_lambda_tokens fuel : preserves gsig (skip_lambda_tokens fuel).
Proof. induction fuel as [|fuel IH]; intros; cbn [skip_lambda_tokens]; solve [gq]. Qed.
#[local] Hint Resolve gq_skip_lambda_tokens : gq.

Lemma gq_primaryexp (a1 : nat) : preserves gsig (primaryexp re a1).
Proof. unfold primaryexp. solve [gq]. Qed.
#[local] Hint Resolve gq_primaryexp : gq.

Lemma gq_suffixedexp_loop fuel : forall (a2 : Z) (a3 : expdesc) (a4 : option lu_hint), preserves gsig (suffixedexp_loop rs re fuel a2 a3 a4).
Proof. induction fuel as [|fuel IH]; intros; cbn [suffixedexp_loop]; solve [gq]. Qed.
#[local] Hint Resolve gq_suffixedexp_loop : gq.

Lemma gq_suffixedexp (a1 : nat) (a2 : option lu_hint) : preserves gsig (suffixedexp rs re a1 a2).
Proof. unfold suffixedexp. solve [gq]. Qed.
#[local] Hint Resolve gq_suffixedexp : gq.

Lemma gq_lambdabody fuel line : preserves gsig (lambdabody re fuel line).
Proof.
  intros ls a ls' E. unfold lambdabody in E.
  apply bind_inv in E as (fp0 & l0 & E0 & E). gq_step E0 H0.
  apply bind_inv in E as (u1 & l1 & Eopen & E).
  pose proof (gpost_refl l1 (open_func_ne _ _ _ _ Eopen)) as Hacc.
  pose proof (open_func_gpre _ _ _ _ Eopen) as Hpre1.
  gb_chain.
  apply bind_inv in E as (fp1 & l3 & Eclose & E).
  pose proof (scoped_function_gotos HN _ _ _ _ _ _ _ Eopen Hacc Eclose) as Kf.
  apply bind_inv in E as (u4 & l4 & E4 & E). injection E as _ <-.
  gq_step E4 H4. congruence.
Qed.
#[local] Hint Resolve gq_lambdabody : gq.

Lemma gq_simpleexp (a1 : nat) (a2 : bool) (a3 : option lu_hint) : preserves gsig (simpleexp rs re a1 a2 a3).
Proof. unfold simpleexp. solve [gq]. Qed.
#[local] Hint Resolve gq_simpleexp : gq.

Lemma gq_cond  : preserves gsig (cond re).
Proof. unfold cond. solve [gq]. Qed.
#[local] Hint Resolve gq_cond : gq.

Lemma gq_ifexpr  : preserves gsig (ifexpr re).
Proof. unfold ifexpr. solve [gq]. Qed.
#[local] Hint Resolve gq_ifexpr : gq.

Lemma gq_inexpr (a1 : expdesc) : preserves gsig (inexpr re a1).
Proof. unfold inexpr. solve [gq]. Qed.
#[local] Hint Resolve gq_inexpr : gq.

Lemma gq_subexpr_loop sub limit fuel :
  (forall lim, preserves gsig (sub lim)) ->
  forall op v, preserves gsig (subexpr_loop sub limit fuel op v).
Proof.
  intros Hsub. induction fuel as [|fuel IH]; intros; cbn [subexpr_loop]; gq.
Qed.

Lemma gq_subexpr fuel : forall limit prop, preserves gsig (subexpr rs re fuel limit prop).
Proof.
  induction fuel as [|fuel IH]; intros; cbn [subexpr]; [apply pres_fuel|].
  assert (Hloop : forall lim f op v,
            preserves gsig (subexpr_loop (fun lim => subexpr rs re fuel lim None) lim f op v)).
  { intros. apply gq_subexpr_loop; intros; cbv beta; apply IH. }
  gq.
Qed.
#[local] Hint Resolve gq_subexpr : gq.

Lemma gb_block (a1 : nat) : gruns 0 0 (block rs a1).
Proof. unfold block. solve [gblocks]. Qed.
#[local] Hint Resolve gb_block : gb.

Lemma gq_check_conflict (a1 : list expdesc) (a2 : expdesc) : preserves gsig (check_conflict a1 a2).
Proof. unfold check_conflict. solve [gq]. Qed.
#[local] Hint Resolve gq_check_conflict : gq.

Lemma gq_getcompoundop  : preserves gsig (getcompoundop).
Proof. unfold getcompoundop. solve [gq]. Qed.
#[local] Hint Resolve gq_getcompoundop : gq.

Lemma gq_compoundassign (a1 : expdesc) (a2 : BinOpr) : preserves gsig (compoundassign re a1 a2).
Proof. unfold compoundassign. solve [gq]. Qed.
#[local] Hint Resolve gq_compoundassign : gq.

Lemma gq_adjust_assign (a1 : nat) (a2 : nat) (a3 : expdesc) : preserves gsig (adjust_assign a1 a2 a3).
Proof. unfold adjust_assign. solve [gq]. Qed.
#[local] Hint Resolve gq_adjust_assign : gq.

Lemma gq_restassign fuel : forall (a2 : expdesc) (a3 : list expdesc) (a4 : nat), preserves gsig (restassign rs re fuel a2 a3 a4).
Proof. induction fuel as [|fuel IH]; intros; cbn [restassign]; solve [gq]. Qed.
#[local] Hint Resolve gq_restassign : gq.

Lemma gb_gotostat  : gruns 0 0 (gotostat).
Proof. unfold gotostat. solve [gblocks]. Qed.
#[local] Hint Resolve gb_gotostat : gb.

Lemma gb_breakstat  : gruns 0 0 (breakstat).
Proof. unfold breakstat. solve [gblocks]. Qed.
#[local] Hint Resolve gb_breakstat : gb.

Lemma gq_continuestat  : preserves gsig (continuestat).
Proof. unfold continuestat. solve [gq]. Qed.
#[local] Hint Resolve gq_continuestat : gq.

Lemma gq_checkrepeated (a1 : TString) : preserves gsig (checkrepeated a1).
Proof. unfold checkrepeated. solve [gq]. Qed.
#[local] Hint Resolve gq_checkrepeated : gq.

Lemma gb_labelstat_skip fuel : gruns 0 0 (labelstat_skip rs fuel).
Proof. induction fuel as [|fuel IH]; intros; cbn [labelstat_skip]; solve [gblocks]. Qed.
#[local] Hint Resolve gb_labelstat_skip : gb.

Lemma gb_labelstat (a1 : nat) (a2 : TString) (a3 : Z) : gruns 0 0 (labelstat rs a1 a2 a3).
Proof. unfold labelstat. solve [gblocks]. Qed.
#[local] Hint Resolve gb_labelstat : gb.

Lemma gb_whilestat (a1 : nat) (a2 : Z) : gruns 0 0 (whilestat rs re a1 a2).
Proof. unfold whilestat. solve [gblocks]. Qed.
#[local] Hint Resolve gb_whilestat : gb.

Lemma gb_repeatstat (a1 : nat) : gruns 0 0 (repeatstat rs re a1).
Proof. unfold repeatstat. solve [gblocks]. Qed.
#[local] Hint Resolve gb_repeatstat : gb.

Lemma gq_exp1  : preserves gsig (exp1 re).
Proof. unfold exp1. solve [gq]. Qed.
#[local] Hint Resolve gq_exp1 : gq.

Lemma gq_fixforjump (a1 : Z) (a2 : Z) (a3 : bool) : preserves gsig (fixforjump a1 a2 a3).
Proof. unfold fixforjump. solve [gq]. Qed.
#[local] Hint Resolve gq_fixforjump : gq.

Lemma gb_forbody (a1 : nat) (a2 : Z) (a3 : Z) (a4 : nat) (a5 : bool) : gruns 0 0 (forbody rs a1 a2 a3 a4 a5).
Proof. unfold forbody. solve [gblocks]. Qed.
#[local] Hint Resolve gb_forbody : gb.

Lemma gb_fornum (a1 : nat) (a2 : TString) (a3 : Z) : gruns 0 0 (fornum rs re a1 a2 a3).
Proof. unfold fornum. solve [gblocks]. Qed.
#[local] Hint Resolve gb_fornum : gb.

Lemma gq_forlist_names fuel : forall (a2 : nat), preserves gsig (forlist_names fuel a2).
Proof. induction fuel as [|fuel IH]; intros; cbn [forlist_names]; solve [gq]. Qed.
#[local] Hint Resolve gq_forlist_names : gq.

Lemma gb_forlist (a1 : nat) (a2 : TString) : gruns 0 0 (forlist rs re a1 a2).
Proof. unfold forlist. solve [gblocks]. Qed.
#[local] Hint Resolve gb_forlist : gb.

Lemma gb_forstat (a1 : nat) (a2 : Z) : gruns 0 0 (forstat rs re a1 a2).
Proof. unfold forstat. solve [gblocks]. Qed.
#[local] Hint Resolve gb_forstat : gb.

Lemma gq_skip_semicolons fuel : preserves gsig (skip_semicolons fuel).
Proof. induction fuel as [|fuel IH]; intros; cbn [skip_semicolons]; solve [gq]. Qed.
#[local] Hint Resolve gq_skip_semicolons : gq.

Lemma gb_test_then_block (a1 : nat) (a2 : Z) (a3 : option lu_hint) : gruns 0 0 (test_then_block rs re a1 a2 a3).
Proof. unfold test_then_block. solve [gblocks]. Qed.
#[local] Hint Resolve gb_test_then_block : gb.

Lemma gb_ifstat_elseifs fuel : forall (a2 : Z) (a3 : option lu_hint), gruns 0 0 (ifstat_elseifs rs re fuel a2 a3).
Proof. induction fuel as [|fuel IH]; intros; cbn [ifstat_elseifs]; solve [gblocks]. Qed.
#[local] Hint Resolve gb_ifstat_elseifs : gb.

Lemma gb_ifstat (a1 : nat) (a2 : Z) (a3 : option lu_hint) : gruns 0 0 (ifstat rs re a1 a2 a3).
Proof. unfold ifstat. solve [gblocks]. Qed.
#[local] Hint Resolve gb_ifstat : gb.

Lemma gq_localfunc (a1 : nat) : preserves gsig (localfunc rs a1).
Proof. unfold localfunc. solve [gq]. Qed.
#[local] Hint Resolve gq_localfunc : gq.

Lemma gq_getlocalattribute  : preserves gsig (getlocalattribute).
Proof. unfold getlocalattribute. solve [gq]. Qed.
#[local] Hint Resolve gq_getlocalattribute : gq.

Lemma gq_checktoclose (a1 : option nat) : preserves gsig (checktoclose a1).
Proof. unfold checktoclose. solve [gq]. Qed.
#[local] Hint Resolve gq_checktoclose : gq.

Lemma gq_localstat_names fuel : forall (a2 : nat) (a3 : option nat), preserves gsig (localstat_names fuel a2 a3).
Proof. induction fuel as [|fuel IH]; intros; cbn [localstat_names]; solve [gq]. Qed.
#[local] Hint Resolve gq_localstat_names : gq.

Lemma gq_localstat (a1 : nat) : preserves gsig (localstat re a1).
Proof. unfold localstat. solve [gq]. Qed.
#[local] Hint Resolve gq_localstat : gq.

Lemma gq_funcname_fields fuel : forall (a2 : expdesc), preserves gsig (funcname_fields fuel a2).
Proof. induction fuel as [|fuel IH]; intros; cbn [funcname_fields]; solve [gq]. Qed.
#[local] Hint Resolve gq_funcname_fields : gq.

Lemma gq_funcname (a1 : nat) : preserves gsig (funcname a1).
Proof. unfold funcname. solve [gq]. Qed.
#[local] Hint Resolve gq_funcname : gq.

Lemma gq_funcstat (a1 : nat) (a2 : Z) : preserves gsig (funcstat rs a1 a2).
Proof. unfold funcstat. solve [gq]. Qed.
#[local] Hint Resolve gq_funcstat : gq.

Lemma gq_exprstat (a1 : nat) : preserves gsig (exprstat rs re a1).
Proof. unfold exprstat. solve [gq]. Qed.
#[local] Hint Resolve gq_exprstat : gq.

Lemma gq_retstat (a1 : nat) (a2 : option lu_hint) : preserves gsig (retstat re a1 a2).
Proof. unfold retstat. solve [gq]. Qed.
#[local] Hint Resolve gq_retstat : gq.

Lemma gb_switch_case (a1 : nat) (a2 : Z) (a3 : expdesc) : gruns 0 0 (switch_case rs re a1 a2 a3).
Proof. unfold switch_case. solve [gblocks]. Qed.
#[local] Hint Resolve gb_switch_case : gb.

Lemma gb_switch_cases fuel : forall (a2 : Z) (a3 : expdesc), gruns 0 0 (switch_cases rs re fuel a2 a3).
Proof. induction fuel as [|fuel IH]; intros; cbn [switch_cases]; solve [gblocks]. Qed.
#[local] Hint Resolve gb_switch_cases : gb.

Lemma gb_switch_head i : gruns i (S i) (switch_head re).
Proof. unfold switch_head. gblocks. Qed.
#[local] Hint Resolve gb_switch_head : gb.

Lemma gb_switchstat (a1 : nat) (a2 : Z) : gruns 0 0 (switchstat rs re a1 a2).
Proof. unfold switchstat. solve [gblocks]. Qed.
#[local] Hint Resolve gb_switchstat : gb.

Lemma gb_statement (a1 : nat) (a2 : option lu_hint) : gruns 0 0 (statement rs re a1 a2).
Proof. unfold statement. solve [gblocks]. Qed.
#[local] Hint Resolve gb_statement : gb.

Lemma gq_expr (a1 : nat) (a2 : option lu_hint) : preserves gsig (expr rs re a1 a2).
Proof. unfold expr. solve [gq]. Qed.
#[local] Hint Resolve gq_expr : gq.

Lemma gb_switch_body (fuel : nat) (line : Z) (tk : Tok) (save : expdesc) :
  gruns 0 0 (switch_body rs re fuel line tk save).
Proof. unfold switch_body. solve [gblocks]. Qed.

(** switch_head leaves the pending gotos as they are. *)
Lemma switch_head_gt ls save l1 :
  switch_head re ls = Ok save l1 -> gt (dyd l1) = gt (dyd ls).
Proof.
  intros E. unfold switch_head in E.
  apply bind_inv in E as (u1 & la & Ea & E). gq_step Ea Ha.
  apply bind_inv in E as (u2 & lb & Eb & E). gq_step Eb Hb.
  apply bind_inv in E as ([crtl p] & lc & Ec & E). gq_step Ec Hc.
  apply bind_inv in E as (crtl' & ld & Ed & E). gq_step Ed Hd.
  apply bind_inv in E as (u5 & le & Ee & E). gq_step Ee He.
  apply bind_inv in E as (u6 & lf & Ef & E). gq_step Ef Hf.
  apply bind_inv in E as (u7 & lg & Eg & E). gq_step Eg Hg.
  apply bind_inv in E as (u8 & lh & Eh & E). gq_step Eh Hh.
  apply bind_inv in E as (u9 & li & Ei & E). injection E as _ <-.
  unfold enterblock, modify in Ei. injection Ei as _ <-.
  rewrite dyd_upd_fs.
  apply gt_of_gsig in Ha, Hb, Hc, Hd, He, Hf, Hg, Hh. congruence.
Qed.

End Gotos.

Lemma parser_gotos {cg : CodeGen} (HN : ScopeNeutral cg) (n : nat) :
  (forall prop, gruns 0 0 (fst (parser n) prop))
  /\ (forall prop, preserves gsig (snd (parser n) prop)).
Proof.
  induction n as [|n [IHs IHe]]; cbn [parser fst snd].
  - split; intros; [apply gruns_fuel|apply pres_fuel].
  - split; intros.
    + by apply gb_statement.
    + by apply gq_expr.
Qed.

(** ** The 'break' of a switch *)

Lemma in_function_ne ls : ls_fs ls <> [] -> in_function ls = true.
Proof. unfold in_function. by destruct (ls_fs ls). Qed.

Lemma breakstat_pending ls u ls' :
  breakstat ls = Ok u ls' -> in_function ls = true ->
  gt (dyd ls')
  = gt (dyd ls)
    ++ [mkLabeldesc "break" (pc (cur_fs ls)) (linenumber ls)
          (nactvar (cur_fs ls)) false]
  /\ p_code (fs_f (cur_fs ls')) = p_code (fs_f (cur_fs ls)) ++ [isJ OP_JMP NO_JUMP].
Proof.
  unfold breakstat, bind, gets, luaX_next, modify, onfs, luaK_jump, luaK_code,
    newgotoentry, newlabelentry, get, ret, in_function.
  destruct ls as [? inp ? ? [|s prev] d ? ? ? ?]; [discriminate|].
  intros E _. destruct inp; cbn in E; injection E as _ <-; destruct s, d; by cbn.
Qed.



(** The run of the witness: the 'break' of the first case, the jump at
    position 8, is patched to position 12, the end of the switch, and the
    'break' of the loop around it is the one goto still pending. *)
Example switch_in_loop_run :
  option_map (fun ls' => (gt (dyd ls'), p_fixups (fs_f (cur_fs ls'))))
    (state_of (switchstat (cg := Emitter.gen) (parse_statement (cg := Emitter.gen) 10)
                 (parse_expr (cg := Emitter.gen) 10) 10 1 switch_in_loop_state))
  = Some ([mkLabeldesc "break" 4 1 0 false],
          [FixPatchList 7 10; FixPatchList 10 12; FixPatchList 8 12]).
Proof. vm_compute. reflexivity. Qed.

